(** * Weighted round-robin load balancing policy

    A shallow embedding of
    [src/core/load_balancing/weighted_round_robin/weighted_round_robin.cc]:
    the per-endpoint weight record, the picker, the endpoint list with its
    connectivity aggregation, and the policy's [UpdateLocked].

    Conventions.  Every method becomes a function that takes the object it
    mutates and returns the mutated object; objects that are shared through
    reference-counted pointers live in a store indexed by object identity.
    Reads of the clock ([Timestamp::Now()]) and of the random generator are
    explicit arguments.  Trace logging is left out. *)

From stdpp Require Import gmap strings list.
From Stdlib Require Import ZArith Lia Bool SpecFloat Sorted.

Open Scope Z_scope.

(* ===================================================================== *)
(** ** Machine integers *)
(* ===================================================================== *)

Definition int64_max : Z := 9223372036854775807.
Definition int64_min : Z := -9223372036854775808.

(** [++*p] on a [uint64_t]. *)
Definition uint64_incr (n : Z) : Z := (n + 1) mod 2 ^ 64.

(** [std::atomic<size_t>::fetch_add(1)]: the value read and the value left
    behind. *)
Definition size_t_fetch_add_1 (v : Z) : Z * Z := (v, (v + 1) mod 2 ^ 64).

(** [std::atomic<uint32_t>::fetch_add(1)]. *)
Definition uint32_fetch_add_1 (v : Z) : Z * Z := (v, (v + 1) mod 2 ^ 32).

(* ===================================================================== *)
(** ** Time *)
(* ===================================================================== *)

(** Modelled from the spec: [Timestamp] and [Duration] of
    [src/core/util/time.h], which is not among the sources at hand.  Both
    are counts of milliseconds in a signed 64-bit range whose largest and
    smallest values stand for +infinity and -infinity; a difference of two
    timestamps saturates at the infinities. *)
Record Timestamp := FromMillisecondsAfterProcessEpoch
  { milliseconds_after_process_epoch : Z }.

Record Duration := Milliseconds { millis : Z }.

Definition InfFuture : Timestamp := FromMillisecondsAfterProcessEpoch int64_max.
Definition InfPast : Timestamp := FromMillisecondsAfterProcessEpoch int64_min.

Definition Duration_Zero : Duration := Milliseconds 0.
Definition Duration_Infinity : Duration := Milliseconds int64_max.
Definition Duration_NegativeInfinity : Duration := Milliseconds int64_min.

Definition Timestamp_eqb (a b : Timestamp) : bool :=
  milliseconds_after_process_epoch a =? milliseconds_after_process_epoch b.

Definition Timestamp_leb (a b : Timestamp) : bool :=
  milliseconds_after_process_epoch a <=? milliseconds_after_process_epoch b.

Definition Duration_ltb (a b : Duration) : bool := millis a <? millis b.
Definition Duration_geb (a b : Duration) : bool := millis a >=? millis b.
Definition Duration_gtb (a b : Duration) : bool := millis a >? millis b.

Definition SaturatingAdd (a b : Z) : Z :=
  Z.max int64_min (Z.min int64_max (a + b)).

Definition MillisAdd (a b : Z) : Z :=
  if (a =? int64_max) || (b =? int64_max) then int64_max
  else if (a =? int64_min) || (b =? int64_min) then int64_min
  else SaturatingAdd a b.

(** Modelled from the spec: [lhs - rhs] on timestamps, of the same
    header.  An infinite right operand decides the result; a finite
    difference saturates. *)
Definition Timestamp_sub (lhs rhs : Timestamp) : Duration :=
  if Timestamp_eqb rhs InfPast && negb (Timestamp_eqb lhs InfPast)
  then Duration_Infinity
  else if Timestamp_eqb rhs InfFuture && negb (Timestamp_eqb lhs InfFuture)
  then Duration_NegativeInfinity
  else Milliseconds
         (MillisAdd (milliseconds_after_process_epoch lhs)
                    (- milliseconds_after_process_epoch rhs)).

(* ===================================================================== *)
(** ** Floating point *)
(* ===================================================================== *)

(** [double] is IEEE binary64 and [float] is IEEE binary32; both are
    carried by [spec_float], and each operation rounds to its format. *)
Module F64.
Definition prec : Z := 53.
Definition emax : Z := 1024.
Definition add := SFadd prec emax.
Definition mul := SFmul prec emax.
Definition div := SFdiv prec emax.
End F64.

Module F32.
Definition prec : Z := 24.
Definition emax : Z := 128.
End F32.

Definition double := spec_float.
Definition float := spec_float.

(** The literal [0] converted to a floating-point type. *)
Definition fzero : spec_float := S754_zero false.

(** Implicit conversion [float -> double] (exact). *)
Definition double_of_float (x : float) : double :=
  match x with
  | S754_finite s m e => binary_round F64.prec F64.emax s m e
  | _ => x
  end.

(** Implicit conversion [double -> float] (round to nearest even). *)
Definition float_of_double (x : double) : float :=
  match x with
  | S754_finite s m e => binary_round F32.prec F32.emax s m e
  | _ => x
  end.

(** Conversion of an integer to [double] and to [float]. *)
Definition double_of_Z (z : Z) : double :=
  binary_normalize F64.prec F64.emax z 0 false.
Definition float_of_Z (z : Z) : float :=
  binary_normalize F32.prec F32.emax z 0 false.

(** [a > b], [a == b], [a >= b], [a < b], [a <= b] on floating-point
    values. *)
Definition fgt (a b : spec_float) : bool := SFltb b a.
Definition feq (a b : spec_float) : bool := SFeqb a b.
Definition fge (a b : spec_float) : bool := SFleb b a.
Definition flt (a b : spec_float) : bool := SFltb a b.
Definition fle (a b : spec_float) : bool := SFleb a b.

(* ===================================================================== *)
(** ** WeightedRoundRobin::EndpointWeight *)
(* ===================================================================== *)

Record EndpointWeight := mkEndpointWeight
  { weight_ : float;
    non_empty_since_ : Timestamp;
    last_update_time_ : Timestamp }.

(** The member initialisers of the class. *)
Definition EndpointWeight_init : EndpointWeight :=
  {| weight_ := fzero;
     non_empty_since_ := InfFuture;
     last_update_time_ := InfFuture |}.

(** The local [weight] computed at the top of [MaybeUpdateWeight]. *)
Definition compute_weight (qps eps utilization : double)
    (error_utilization_penalty : float) : float :=
  if fgt qps fzero && fgt utilization fzero then
    let penalty :=
      if fgt eps fzero && fgt error_utilization_penalty fzero
      then F64.mul (F64.div eps qps) (double_of_float error_utilization_penalty)
      else fzero in
    float_of_double (F64.div qps (F64.add utilization penalty))
  else fzero.

(** [MaybeUpdateWeight]; [now] is the value of [Timestamp::Now()] read after
    the early return. *)
Definition MaybeUpdateWeight (now : Timestamp) (qps eps utilization : double)
    (error_utilization_penalty : float) (self : EndpointWeight)
  : EndpointWeight :=
  let weight := compute_weight qps eps utilization error_utilization_penalty in
  if feq weight fzero then self
  else
    {| weight_ := weight;
       non_empty_since_ :=
         if Timestamp_eqb (non_empty_since_ self) InfFuture then now
         else non_empty_since_ self;
       last_update_time_ := now |}.

(** What a call of [GetWeight] leaves behind: the returned value, the
    object, and the two counters passed by pointer. *)
Record GetWeightResult := mkGetWeightResult
  { gw_return : float;
    gw_self : EndpointWeight;
    gw_num_not_yet_usable : Z;
    gw_num_stale : Z }.

Definition GetWeight (now : Timestamp)
    (weight_expiration_period blackout_period : Duration)
    (num_not_yet_usable num_stale : Z) (self : EndpointWeight)
  : GetWeightResult :=
  if Duration_geb (Timestamp_sub now (last_update_time_ self))
                  weight_expiration_period
  then
    {| gw_return := fzero;
       gw_self :=
         {| weight_ := weight_ self;
            non_empty_since_ := InfFuture;
            last_update_time_ := last_update_time_ self |};
       gw_num_not_yet_usable := num_not_yet_usable;
       gw_num_stale := uint64_incr num_stale |}
  else if Duration_gtb blackout_period Duration_Zero
          && Duration_ltb (Timestamp_sub now (non_empty_since_ self))
                          blackout_period
  then
    {| gw_return := fzero;
       gw_self := self;
       gw_num_not_yet_usable := uint64_incr num_not_yet_usable;
       gw_num_stale := num_stale |}
  else
    {| gw_return := weight_ self;
       gw_self := self;
       gw_num_not_yet_usable := num_not_yet_usable;
       gw_num_stale := num_stale |}.

Definition ResetNonEmptySince (self : EndpointWeight) : EndpointWeight :=
  {| weight_ := weight_ self;
     non_empty_since_ := InfFuture;
     last_update_time_ := last_update_time_ self |}.

(** The two conditions [GetWeight] tests, as order relations on the
    millisecond counts. *)
Definition expired (now : Timestamp) (weight_expiration_period : Duration)
    (self : EndpointWeight) : Prop :=
  millis weight_expiration_period
  <= millis (Timestamp_sub now (last_update_time_ self)).

Definition in_blackout (now : Timestamp) (blackout_period : Duration)
    (self : EndpointWeight) : Prop :=
  0 < millis blackout_period
  /\ millis (Timestamp_sub now (non_empty_since_ self))
     < millis blackout_period.

(** The weight formula without the guard on [eps] and on the penalty
    factor: [qps / (utilization + (eps/qps)*penalty)] when [qps > 0] and
    [utilization > 0], and [0] otherwise. *)
Definition unguarded_weight (qps eps utilization : double)
    (error_utilization_penalty : float) : float :=
  if fgt qps fzero && fgt utilization fzero then
    float_of_double
      (F64.div qps
         (F64.add utilization
            (F64.mul (F64.div eps qps)
               (double_of_float error_utilization_penalty))))
  else fzero.

(** Calls on one [EndpointWeight], with the clock reading of each
    [MaybeUpdateWeight]. *)
Inductive WeightCall :=
| CallMaybeUpdateWeight (now : Timestamp) (qps eps utilization : double)
    (error_utilization_penalty : float)
| CallGetWeight (now : Timestamp)
    (weight_expiration_period blackout_period : Duration)
    (num_not_yet_usable num_stale : Z)
| CallResetNonEmptySince.

Definition run_call (self : EndpointWeight) (c : WeightCall)
  : EndpointWeight :=
  match c with
  | CallMaybeUpdateWeight now q e u p => MaybeUpdateWeight now q e u p self
  | CallGetWeight now x b n1 n2 => gw_self (GetWeight now x b n1 n2 self)
  | CallResetNonEmptySince => ResetNonEmptySince self
  end.

Definition run_calls (cs : list WeightCall) (self : EndpointWeight)
  : EndpointWeight :=
  fold_left run_call cs self.

(** The clock readings of the [MaybeUpdateWeight] calls of a trace never
    go back, starting from [clock]. *)
Fixpoint clock_nondecreasing (clock : Timestamp) (cs : list WeightCall)
  : bool :=
  match cs with
  | [] => true
  | CallMaybeUpdateWeight now _ _ _ _ :: rest =>
      Timestamp_leb clock now && clock_nondecreasing now rest
  | _ :: rest => clock_nondecreasing clock rest
  end.

(** An [EndpointWeight] that got its first report at 1s and its latest
    at 5s. *)
Definition sample_weight : EndpointWeight :=
  {| weight_ := float_of_Z 3;
     non_empty_since_ := FromMillisecondsAfterProcessEpoch 1000;
     last_update_time_ := FromMillisecondsAfterProcessEpoch 5000 |}.

(** The invariant of the data model, word for word: [weight >= 0], and
    [non_empty_since <= last_update_time] whenever [weight > 0]. *)
Definition weight_invariant_as_stated (self : EndpointWeight) : Prop :=
  fge (weight_ self) fzero = true
  /\ (fgt (weight_ self) fzero = true ->
      Timestamp_leb (non_empty_since_ self) (last_update_time_ self) = true).

(* ===================================================================== *)
(** ** Aborts *)
(* ===================================================================== *)

(** A call either completes or brings the process down. *)
Inductive Failure :=
| CheckFailed        (* a CHECK(...) did not hold *)
| NullDereference    (* a null pointer was dereferenced *)
| DivisionByZero     (* [%] by zero *)
| OutOfFuel.         (* the retry loop of the scheduler was cut off *)

Inductive outcome (A : Type) :=
| Done (a : A)
| Abort (why : Failure).

Arguments Done {A} a.
Arguments Abort {A} why.

#[export] Instance outcome_ret : MRet outcome := @Done.

#[export] Instance outcome_bind : MBind outcome :=
  fun A B (k : A -> outcome B) (m : outcome A) =>
    match m with
    | Done a => k a
    | Abort why => Abort why
    end.

Definition CHECK (b : bool) : outcome unit :=
  if b then Done tt else Abort CheckFailed.

(** Dereference of a possibly null pointer. *)
Definition deref {A : Type} (p : option A) : outcome A :=
  match p with
  | Some a => Done a
  | None => Abort NullDereference
  end.

(* ===================================================================== *)
(** ** absl::Status *)
(* ===================================================================== *)

Inductive StatusCode :=
| kOk | kCancelled | kUnknown | kInvalidArgument | kDeadlineExceeded
| kNotFound | kAlreadyExists | kPermissionDenied | kResourceExhausted
| kFailedPrecondition | kAborted | kOutOfRange | kUnimplemented
| kInternal | kUnavailable | kDataLoss | kUnauthenticated.

Record Status := mkStatus { code : StatusCode; message : string }.

Definition Status_ok (s : Status) : bool :=
  match code s with kOk => true | _ => false end.

Definition OkStatus : Status := mkStatus kOk "".
Definition UnavailableError (msg : string) : Status :=
  mkStatus kUnavailable msg.

Inductive StatusOr (A : Type) :=
| StatusOr_value (a : A)
| StatusOr_error (s : Status).

Arguments StatusOr_value {A} a.
Arguments StatusOr_error {A} s.

(** [absl::StrJoin(parts, sep)]. *)
Fixpoint StrJoin (parts : list string) (sep : string) : string :=
  match parts with
  | [] => ""
  | [p] => p
  | p :: rest => p ++ sep ++ StrJoin rest sep
  end.

(* ===================================================================== *)
(** ** Connectivity states, configuration, external objects *)
(* ===================================================================== *)

Inductive grpc_connectivity_state :=
| GRPC_CHANNEL_IDLE
| GRPC_CHANNEL_CONNECTING
| GRPC_CHANNEL_READY
| GRPC_CHANNEL_TRANSIENT_FAILURE
| GRPC_CHANNEL_SHUTDOWN.

Definition state_eqb (a b : grpc_connectivity_state) : bool :=
  match a, b with
  | GRPC_CHANNEL_IDLE, GRPC_CHANNEL_IDLE
  | GRPC_CHANNEL_CONNECTING, GRPC_CHANNEL_CONNECTING
  | GRPC_CHANNEL_READY, GRPC_CHANNEL_READY
  | GRPC_CHANNEL_TRANSIENT_FAILURE, GRPC_CHANNEL_TRANSIENT_FAILURE
  | GRPC_CHANNEL_SHUTDOWN, GRPC_CHANNEL_SHUTDOWN => true
  | _, _ => false
  end.

Record WeightedRoundRobinConfig := mkConfig
  { enable_oob_load_report : bool;
    oob_reporting_period : Duration;
    blackout_period : Duration;
    weight_update_period : Duration;
    weight_expiration_period : Duration;
    error_utilization_penalty : float }.

(** Objects owned by the collaborators are known by their identity only. *)
Definition SubchannelPicker := nat.
Definition Subchannel := nat.
Definition ChildCallTracker := nat.
Definition PickArgs := nat.
Definition ChannelArgs := nat.
Definition grpc_resolved_address := string.

Record EndpointAddresses := mkEndpointAddresses
  { addresses : list grpc_resolved_address;
    endpoint_args : ChannelArgs }.

(** Identity of an [EndpointWeight] / of a [WrrEndpointList] in the store. *)
Definition WeightRef := nat.
Definition ListRef := nat.

(** The call tracker handed back with a complete pick: the child's own, or
    the picker's [SubchannelCallTracker] wrapped around it. *)
#[warnings="-register-all"]
Inductive CallTracker :=
| ChildTracker (t : ChildCallTracker)
| SubchannelCallTracker (weight : WeightRef)
    (error_utilization_penalty : float) (child_tracker : option CallTracker).

Inductive PickResult :=
| Complete (subchannel : Subchannel)
    (subchannel_call_tracker : option CallTracker)
| Queue
| Fail (status : Status)
| Drop (status : Status).

(** What the policy consumes from code that is not part of this file. *)
Class Collaborators := mkCollaborators
  { (** [absl::Status::ToString()] *)
    Status_ToString : Status -> string;
    (** [EndpointAddresses::ToString()] *)
    EndpointAddresses_ToString : EndpointAddresses -> string;
    (** [EndpointAddressSet(a) < EndpointAddressSet(b)] *)
    EndpointAddressSet_lt :
      list grpc_resolved_address -> list grpc_resolved_address -> bool;
    (** the status returned by the base class's [Endpoint::Init] *)
    Endpoint_Init : EndpointAddresses -> ChannelArgs -> Status;
    (** [SubchannelPicker::Pick] of a child picker *)
    SubchannelPicker_Pick : SubchannelPicker -> PickArgs -> PickResult;
    (** the fixed-point credit of one weight of a weight vector *)
    stride_credit : list float -> float -> Z;
    (** the threshold a credit has to exceed at a sequence number *)
    stride_threshold : nat -> Z -> Z }.

(* ===================================================================== *)
(** ** StaticStrideScheduler *)
(* ===================================================================== *)

(** Modelled from the spec: the scheduler of
    [static_stride_scheduler.{h,cc}], which is not among the sources at
    hand.  It is a frozen vector of fixed-point credits, one per weight.
    Construction declines when fewer than two weights are positive.  A pick
    advances the caller's 32-bit sequence counter, takes the candidate
    [seq mod n], and accepts it iff its credit exceeds the threshold for
    that sequence number; on rejection it advances and retries. *)
Record StaticStrideScheduler := mkScheduler { weights_ : list Z }.

Section Scheduler.
Context {C : Collaborators}.

(** Modelled from the spec: [StaticStrideScheduler::Make], which declines
    when fewer than two weights are positive and otherwise freezes one
    credit per weight. *)
Definition StaticStrideScheduler_Make (float_weights : list float)
  : option StaticStrideScheduler :=
  if (length (List.filter (fun w => fgt w fzero) float_weights) <? 2)%nat
  then None
  else Some (mkScheduler (map (stride_credit float_weights) float_weights)).

(** Modelled from the spec: [StaticStrideScheduler::Pick].  [fuel] bounds
    the number of candidates tried; [sequence_state] is the counter behind
    the generator. *)
Fixpoint StaticStrideScheduler_Pick (fuel : nat) (s : StaticStrideScheduler)
    (sequence_state : Z) : outcome (Z * Z) :=
  match fuel with
  | O => Abort OutOfFuel
  | S fuel' =>
      let '(sequence, state') := uint32_fetch_add_1 sequence_state in
      let n := length (weights_ s) in
      if (n =? 0)%nat then Abort DivisionByZero
      else
        let index := sequence mod Z.of_nat n in
        credit ← deref (weights_ s !! Z.to_nat index);
        if credit >? stride_threshold n sequence
        then Done (index, state')
        else StaticStrideScheduler_Pick fuel' s state'
  end.
End Scheduler.

(* ===================================================================== *)
(** ** Endpoint lists, the picker, the policy: data *)
(* ===================================================================== *)

(** Modelled from the spec: the fields [connectivity_state_] and
    [picker_], kept by the base class [EndpointList::Endpoint], which is
    not among the sources at hand.  An endpoint holds its current
    connectivity state (absent until the initial state notification) and
    its child picker; [WrrEndpoint] adds the reference to its weight. *)
Record WrrEndpoint := mkWrrEndpoint
  { WrrEndpoint_weight_ : WeightRef;
    connectivity_state_ : option grpc_connectivity_state;
    picker_ : option SubchannelPicker }.

Record WrrEndpointList := mkWrrEndpointList
  { endpoints : list WrrEndpoint;
    resolution_note_ : string;
    num_ready_ : Z;
    num_connecting_ : Z;
    num_transient_failure_ : Z;
    last_failure_ : Status }.

(** [EndpointList::size()]. *)
Definition EndpointList_size (l : WrrEndpointList) : Z :=
  Z.of_nat (length (endpoints l)).

(** Modelled from the spec: [EndpointList::AllEndpointsSeenInitialState()],
    true when every endpoint of the list has delivered its initial state
    notification. *)
Definition AllEndpointsSeenInitialState (l : WrrEndpointList) : bool :=
  forallb (fun e => match connectivity_state_ e with
                    | Some _ => true
                    | None => false
                    end) (endpoints l).

Record EndpointInfo := mkEndpointInfo
  { info_picker : option SubchannelPicker;
    info_weight : WeightRef }.

Record Picker := mkPicker
  { Picker_config_ : option WeightedRoundRobinConfig;
    endpoints_ : list EndpointInfo;
    scheduler_ : option StaticStrideScheduler;
    (** whether the optional holds a handle *)
    timer_handle_ : bool;
    last_picked_index_ : Z;
    (** whether the picker still holds its reference to the policy *)
    Picker_wrr_ : bool }.

Inductive Metric :=
| kMetricRrFallback
| kMetricEndpointWeightNotYetUsable
| kMetricEndpointWeightStale.

Inductive PublishedPicker :=
| WrrPicker (p : Picker)
| QueuePicker.

(** Calls that leave the policy, in the order they are made. *)
Inductive Effect :=
| UpdateState (state : grpc_connectivity_state) (status : Status)
    (picker : PublishedPicker)
| ReportTransientFailure (list : ListRef) (status : Status)
| ExitIdleLocked (list : ListRef) (index : nat)
| RecordHistogram (value : float)
| AddCounter (metric : Metric) (value : Z)
| RunAfter (delay : Duration)
| Cancel
| IncrementWrrUpdates
| IncrementWrrSubchannelListSize (n : Z)
| IncrementWrrSubchannelReadySize (n : Z).

Record WeightedRoundRobin := mkWeightedRoundRobin
  { config_ : option WeightedRoundRobinConfig;
    endpoint_list_ : option ListRef;
    latest_pending_endpoint_list_ : option ListRef;
    (** ordered by the address-set key *)
    endpoint_weight_map_ : list (list grpc_resolved_address * WeightRef);
    shutdown_ : bool;
    scheduler_state_ : Z }.

(** The policy together with the objects it shares with its pickers.
    [weight_keys] holds the constant [key_] of every [EndpointWeight], and
    [weight_unreferenced] those whose strong count has dropped to zero.
    The strong references to an [EndpointWeight] are the [weight_] of
    the endpoints of the lists in the store, and those held by objects
    outside the lists: a picker, the tracker of a call in flight, the
    watcher of a subchannel.  [weight_held_outside] holds the weights
    that some object outside the lists refers to; the channel decides
    how long such an object lives.  [weights] keeps the fields of every
    weight ever made.  [weight_calls] is a record of every method call
    made on an [EndpointWeight], oldest first; nothing reads it. *)
Record World := mkWorld
  { wrr : WeightedRoundRobin;
    lists : gmap ListRef WrrEndpointList;
    weights : gmap WeightRef EndpointWeight;
    weight_keys : gmap WeightRef (list grpc_resolved_address);
    weight_unreferenced : gset WeightRef;
    weight_held_outside : gset WeightRef;
    weight_calls : list (WeightRef * WeightCall);
    effects : list Effect }.

Definition set_wrr (f : WeightedRoundRobin -> WeightedRoundRobin) (w : World)
  : World :=
  mkWorld (f (wrr w)) (lists w) (weights w) (weight_keys w)
          (weight_unreferenced w) (weight_held_outside w)
          (weight_calls w) (effects w).

Definition set_lists
    (f : gmap ListRef WrrEndpointList -> gmap ListRef WrrEndpointList)
    (w : World) : World :=
  mkWorld (wrr w) (f (lists w)) (weights w) (weight_keys w)
          (weight_unreferenced w) (weight_held_outside w)
          (weight_calls w) (effects w).

Definition set_weights
    (f : gmap WeightRef EndpointWeight -> gmap WeightRef EndpointWeight)
    (w : World) : World :=
  mkWorld (wrr w) (lists w) (f (weights w)) (weight_keys w)
          (weight_unreferenced w) (weight_held_outside w)
          (weight_calls w) (effects w).

Definition emit (e : Effect) (w : World) : World :=
  mkWorld (wrr w) (lists w) (weights w) (weight_keys w)
          (weight_unreferenced w) (weight_held_outside w)
          (weight_calls w) (effects w ++ [e]).

Definition set_config_ (c : option WeightedRoundRobinConfig)
    (p : WeightedRoundRobin) : WeightedRoundRobin :=
  mkWeightedRoundRobin c (endpoint_list_ p) (latest_pending_endpoint_list_ p)
    (endpoint_weight_map_ p) (shutdown_ p) (scheduler_state_ p).

Definition set_endpoint_list_ (l : option ListRef) (p : WeightedRoundRobin)
  : WeightedRoundRobin :=
  mkWeightedRoundRobin (config_ p) l (latest_pending_endpoint_list_ p)
    (endpoint_weight_map_ p) (shutdown_ p) (scheduler_state_ p).

Definition set_latest_pending_endpoint_list_ (l : option ListRef)
    (p : WeightedRoundRobin) : WeightedRoundRobin :=
  mkWeightedRoundRobin (config_ p) (endpoint_list_ p) l
    (endpoint_weight_map_ p) (shutdown_ p) (scheduler_state_ p).

Definition set_endpoint_weight_map_
    (m : list (list grpc_resolved_address * WeightRef))
    (p : WeightedRoundRobin) : WeightedRoundRobin :=
  mkWeightedRoundRobin (config_ p) (endpoint_list_ p)
    (latest_pending_endpoint_list_ p) m (shutdown_ p) (scheduler_state_ p).

Definition set_shutdown_ (b : bool) (p : WeightedRoundRobin)
  : WeightedRoundRobin :=
  mkWeightedRoundRobin (config_ p) (endpoint_list_ p)
    (latest_pending_endpoint_list_ p) (endpoint_weight_map_ p) b
    (scheduler_state_ p).

Definition set_scheduler_state_ (z : Z) (p : WeightedRoundRobin)
  : WeightedRoundRobin :=
  mkWeightedRoundRobin (config_ p) (endpoint_list_ p)
    (latest_pending_endpoint_list_ p) (endpoint_weight_map_ p) (shutdown_ p) z.

(** Comparison of two (possibly null) list pointers. *)
Definition ptr_eqb (a b : option ListRef) : bool :=
  match a, b with
  | Some x, Some y => (x =? y)%nat
  | None, None => true
  | _, _ => false
  end.

Definition set_weight_unreferenced (f : gset WeightRef -> gset WeightRef)
    (w : World) : World :=
  mkWorld (wrr w) (lists w) (weights w) (weight_keys w)
          (f (weight_unreferenced w)) (weight_held_outside w)
          (weight_calls w) (effects w).

Definition set_weight_held_outside (f : gset WeightRef -> gset WeightRef)
    (w : World) : World :=
  mkWorld (wrr w) (lists w) (weights w) (weight_keys w)
          (weight_unreferenced w) (f (weight_held_outside w))
          (weight_calls w) (effects w).

Definition set_weight_keys
    (f : gmap WeightRef (list grpc_resolved_address)
         -> gmap WeightRef (list grpc_resolved_address))
    (w : World) : World :=
  mkWorld (wrr w) (lists w) (weights w) (f (weight_keys w))
          (weight_unreferenced w) (weight_held_outside w)
          (weight_calls w) (effects w).

Definition set_last_failure_ (s : Status) (l : WrrEndpointList)
  : WrrEndpointList :=
  mkWrrEndpointList (endpoints l) (resolution_note_ l) (num_ready_ l)
    (num_connecting_ l) (num_transient_failure_ l) s.

Definition set_endpoints (es : list WrrEndpoint) (l : WrrEndpointList)
  : WrrEndpointList :=
  mkWrrEndpointList es (resolution_note_ l) (num_ready_ l)
    (num_connecting_ l) (num_transient_failure_ l) (last_failure_ l).

Definition set_counters (r c t : Z) (l : WrrEndpointList) : WrrEndpointList :=
  mkWrrEndpointList (endpoints l) (resolution_note_ l) r c t (last_failure_ l).

Definition put_list (r : ListRef) (l : WrrEndpointList) (w : World) : World :=
  set_lists (insert r l) w.

Definition put_weight (r : WeightRef) (ew : EndpointWeight) (w : World)
  : World :=
  set_weights (insert r ew) w.

Definition record_call (r : WeightRef) (c : WeightCall) (w : World) : World :=
  mkWorld (wrr w) (lists w) (weights w) (weight_keys w)
          (weight_unreferenced w) (weight_held_outside w)
          (weight_calls w ++ [(r, c)]) (effects w).

(** Make a call on the [EndpointWeight] behind a reference. *)
Definition call_weight (r : WeightRef) (c : WeightCall) (w : World)
  : outcome World :=
  ew ← deref (weights w !! r);
  Done (record_call r c (put_weight r (run_call ew c) w)).

(* ===================================================================== *)
(** ** Backend metric reports *)
(* ===================================================================== *)

Record BackendMetricData := mkBackendMetricData
  { qps : double;
    eps : double;
    application_utilization : double;
    cpu_utilization : double }.

(** [Picker::SubchannelCallTracker::Finish], after the child tracker has
    been told; [backend_metric_data] is what the accessor returns. *)
Definition SubchannelCallTracker_Finish (now : Timestamp) (weight : WeightRef)
    (penalty : float) (backend_metric_data : option BackendMetricData)
    (w : World) : outcome World :=
  let '(q, e, u) :=
    match backend_metric_data with
    | Some d =>
        (qps d, eps d,
         if fle (application_utilization d) fzero
         then cpu_utilization d else application_utilization d)
    | None => (fzero, fzero, fzero)
    end in
  call_weight weight (CallMaybeUpdateWeight now q e u penalty) w.

(** [OobWatcher::OnBackendMetricReport]. *)
Definition OobWatcher_OnBackendMetricReport (now : Timestamp)
    (weight : WeightRef) (penalty : float) (d : BackendMetricData)
    (w : World) : outcome World :=
  let utilization :=
    if fle (application_utilization d) fzero
    then cpu_utilization d else application_utilization d in
  call_weight weight
    (CallMaybeUpdateWeight now (qps d) (eps d) utilization penalty) w.

(* ===================================================================== *)
(** ** WeightedRoundRobin::Picker *)
(* ===================================================================== *)

Definition set_last_picked_index_ (z : Z) (p : Picker) : Picker :=
  mkPicker (Picker_config_ p) (endpoints_ p) (scheduler_ p) (timer_handle_ p)
    z (Picker_wrr_ p).

Section PickerOps.
Context {C : Collaborators}.

(** The loop of [BuildSchedulerAndStartTimerLocked] over [endpoints_]. *)
Fixpoint collect_weights (now : Timestamp)
    (cfg : option WeightedRoundRobinConfig) (es : list EndpointInfo)
    (num_not_yet_usable num_stale : Z) (w : World)
  : outcome (list float * Z * Z * World) :=
  match es with
  | [] => Done ([], num_not_yet_usable, num_stale, w)
  | endpoint :: rest =>
      ew ← deref (weights w !! info_weight endpoint);
      c ← deref cfg;
      let r := GetWeight now (weight_expiration_period c) (blackout_period c)
                 num_not_yet_usable num_stale ew in
      let w1 :=
        record_call (info_weight endpoint)
          (CallGetWeight now (weight_expiration_period c) (blackout_period c)
             num_not_yet_usable num_stale)
          (put_weight (info_weight endpoint) (gw_self r) w) in
      let w2 := emit (RecordHistogram (gw_return r)) w1 in
      '(ws, n1, n2, w3) ←
        collect_weights now cfg rest (gw_num_not_yet_usable r)
          (gw_num_stale r) w2;
      Done (gw_return r :: ws, n1, n2, w3)
  end.

Definition BuildSchedulerAndStartTimerLocked (now : Timestamp) (p : Picker)
    (w : World) : outcome (Picker * World) :=
  _ ← (if Picker_wrr_ p then Done tt else Abort NullDereference);
  '(float_weights, num_not_yet_usable, num_stale, w1) ←
    collect_weights now (Picker_config_ p) (endpoints_ p) 0 0 w;
  let w2 :=
    emit (AddCounter kMetricEndpointWeightNotYetUsable num_not_yet_usable)
      w1 in
  let w3 := emit (AddCounter kMetricEndpointWeightStale num_stale) w2 in
  let scheduler_or := StaticStrideScheduler_Make float_weights in
  let w4 :=
    match scheduler_or with
    | Some _ => w3
    | None => emit (AddCounter kMetricRrFallback 1) w3
    end in
  c ← deref (Picker_config_ p);
  Done (mkPicker (Picker_config_ p) (endpoints_ p) scheduler_or true
          (last_picked_index_ p) (Picker_wrr_ p),
        emit (RunAfter (weight_update_period c)) w4).

(** The constructor; [random] is the value drawn for
    [last_picked_index_]. *)
Definition Picker_new (random : Z) (now : Timestamp)
    (endpoint_list : ListRef) (w : World) : outcome (Picker * World) :=
  l ← deref (lists w !! endpoint_list);
  let snapshot :=
    map (fun ep => mkEndpointInfo (picker_ ep) (WrrEndpoint_weight_ ep))
      (List.filter
         (fun ep => match connectivity_state_ ep with
                    | Some GRPC_CHANNEL_READY => true
                    | _ => false
                    end)
         (endpoints l)) in
  let p := mkPicker (config_ (wrr w)) snapshot None false random true in
  (* every entry of the snapshot holds a reference to its weight *)
  let w0 :=
    set_weight_held_outside
      (fun s => list_to_set (map info_weight snapshot) ∪ s) w in
  let w1 := emit (IncrementWrrSubchannelListSize (EndpointList_size l)) w0 in
  let w2 :=
    emit (IncrementWrrSubchannelReadySize (Z.of_nat (length snapshot)))
      w1 in
  BuildSchedulerAndStartTimerLocked now p w2.



Definition PickIndex (fuel : nat) (p : Picker) (w : World)
  : outcome (Z * Picker * World) :=
  match scheduler_ p with
  | Some scheduler =>
      _ ← (if Picker_wrr_ p then Done tt else Abort NullDereference);
      '(index, state') ←
        StaticStrideScheduler_Pick fuel scheduler (scheduler_state_ (wrr w));
      Done (index, p, set_wrr (set_scheduler_state_ state') w)
  | None =>
      let n := Z.of_nat (length (endpoints_ p)) in
      if n =? 0 then Abort DivisionByZero
      else
        let '(old, new) := size_t_fetch_add_1 (last_picked_index_ p) in
        Done (old mod n, set_last_picked_index_ new p, w)
  end.

(** [Pick] proper, from the index on.  The tracker copies a reference
    of the snapshot, so the weight is held outside the lists before the
    pick and after it. *)
Definition Pick_at (index : Z) (args : PickArgs) (p : Picker)
  : outcome PickResult :=
  _ ← CHECK (index <? Z.of_nat (length (endpoints_ p)));
  endpoint_info ← deref (endpoints_ p !! Z.to_nat index);
  child ← deref (info_picker endpoint_info);
  let result := SubchannelPicker_Pick child args in
  c ← deref (Picker_config_ p);
  if negb (enable_oob_load_report c) then
    match result with
    | Complete subchannel tracker =>
        Done (Complete subchannel
                (Some (SubchannelCallTracker (info_weight endpoint_info)
                         (error_utilization_penalty c) tracker)))
    | _ => Done result
    end
  else Done result.

Definition Pick (fuel : nat) (args : PickArgs) (p : Picker) (w : World)
  : outcome (PickResult * Picker * World) :=
  '(index, p1, w1) ← PickIndex fuel p w;
  result ← Pick_at index args p1;
  Done (result, p1, w1).
End PickerOps.

(** A picker whose scheduler, if any, was built over one weight per
    snapshot endpoint, as [BuildSchedulerAndStartTimerLocked] does. *)
Definition Picker_wf (p : Picker) : Prop :=
  match scheduler_ p with
  | Some s => length (weights_ s) = length (endpoints_ p)
  | None => True
  end.

(** The sequence number drawn by the [k]-th attempt of a scheduler pick
    that starts with the counter at [state]. *)
Fixpoint nth_sequence (k : nat) (state : Z) : Z :=
  match k with
  | O => state
  | S k' => nth_sequence k' (snd (uint32_fetch_add_1 state))
  end.

Section SchedulerSpec.
Context {C : Collaborators}.

(** The scheduler accepts the candidate of this sequence number. *)
Definition stride_accepts (s : StaticStrideScheduler) (sequence : Z)
  : bool :=
  let n := length (weights_ s) in
  match weights_ s !! Z.to_nat (sequence mod Z.of_nat n) with
  | Some credit => credit >? stride_threshold n sequence
  | None => false
  end.
End SchedulerSpec.

(* ===================================================================== *)
(** ** WeightedRoundRobin::WrrEndpointList *)
(* ===================================================================== *)

Definition is_connecting_or_idle (s : grpc_connectivity_state) : bool :=
  state_eqb s GRPC_CHANNEL_CONNECTING || state_eqb s GRPC_CHANNEL_IDLE.

(** [++n] on a [size_t]. *)
Definition size_t_incr (n : Z) : Z := (n + 1) mod 2 ^ 64.

Definition UpdateStateCountersLocked
    (old_state : option grpc_connectivity_state)
    (new_state : grpc_connectivity_state) (self : WrrEndpointList)
  : outcome WrrEndpointList :=
  self1 ←
    match old_state with
    | Some old =>
        _ ← CHECK (negb (state_eqb old GRPC_CHANNEL_SHUTDOWN));
        if state_eqb old GRPC_CHANNEL_READY then
          _ ← CHECK (num_ready_ self >? 0);
          Done (set_counters (num_ready_ self - 1) (num_connecting_ self)
                  (num_transient_failure_ self) self)
        else if is_connecting_or_idle old then
          _ ← CHECK (num_connecting_ self >? 0);
          Done (set_counters (num_ready_ self) (num_connecting_ self - 1)
                  (num_transient_failure_ self) self)
        else if state_eqb old GRPC_CHANNEL_TRANSIENT_FAILURE then
          _ ← CHECK (num_transient_failure_ self >? 0);
          Done (set_counters (num_ready_ self) (num_connecting_ self)
                  (num_transient_failure_ self - 1) self)
        else Done self
    | None => Done self
    end;
  _ ← CHECK (negb (state_eqb new_state GRPC_CHANNEL_SHUTDOWN));
  if state_eqb new_state GRPC_CHANNEL_READY then
    Done (set_counters (size_t_incr (num_ready_ self1))
            (num_connecting_ self1) (num_transient_failure_ self1) self1)
  else if is_connecting_or_idle new_state then
    Done (set_counters (num_ready_ self1)
            (size_t_incr (num_connecting_ self1))
            (num_transient_failure_ self1) self1)
  else if state_eqb new_state GRPC_CHANNEL_TRANSIENT_FAILURE then
    Done (set_counters (num_ready_ self1) (num_connecting_ self1)
            (size_t_incr (num_transient_failure_ self1)) self1)
  else Done self1.

(* ===================================================================== *)
(** ** The weight map and the lifetime of a weight *)
(* ===================================================================== *)

Section WeightLifetime.
Context {C : Collaborators}.

(** [std::map::find] on [endpoint_weight_map_]. *)
Fixpoint map_find (key : list grpc_resolved_address)
    (m : list (list grpc_resolved_address * WeightRef)) : option WeightRef :=
  match m with
  | [] => None
  | (k, v) :: rest =>
      if EndpointAddressSet_lt key k then None
      else if EndpointAddressSet_lt k key then map_find key rest
      else Some v
  end.

(** [std::map::emplace]: nothing is inserted over an equivalent key. *)
Fixpoint map_emplace (key : list grpc_resolved_address) (v : WeightRef)
    (m : list (list grpc_resolved_address * WeightRef))
  : list (list grpc_resolved_address * WeightRef) :=
  match m with
  | [] => [(key, v)]
  | (k, x) :: rest =>
      if EndpointAddressSet_lt key k then (key, v) :: m
      else if EndpointAddressSet_lt k key
      then (k, x) :: map_emplace key v rest
      else m
  end.

(** [std::map::erase] of the entry found for [key]. *)
Fixpoint map_erase (key : list grpc_resolved_address)
    (m : list (list grpc_resolved_address * WeightRef))
  : list (list grpc_resolved_address * WeightRef) :=
  match m with
  | [] => []
  | (k, x) :: rest =>
      if EndpointAddressSet_lt key k then m
      else if EndpointAddressSet_lt k key then (k, x) :: map_erase key rest
      else rest
  end.

(** The last strong reference to an [EndpointWeight] is dropped. *)
Definition EndpointWeight_Unref_last (r : WeightRef) (w : World) : World :=
  set_weight_unreferenced (fun s => {[r]} ∪ s) w.

(** [~EndpointWeight]. *)
Definition EndpointWeight_destroy (r : WeightRef) (w : World)
  : outcome World :=
  key ← deref (weight_keys w !! r);
  match map_find key (endpoint_weight_map_ (wrr w)) with
  | Some r' =>
      if (r' =? r)%nat
      then Done (set_wrr
                   (fun p => set_endpoint_weight_map_
                               (map_erase key (endpoint_weight_map_ p)) p) w)
      else Done w
  | None => Done w
  end.

(** One of the endpoints holds a reference to the weight. *)
Definition endpoints_hold (r : WeightRef) (es : list WrrEndpoint) : bool :=
  existsb (fun e => (WrrEndpoint_weight_ e =? r)%nat) es.

(** The strong count of the weight is not zero: an endpoint of a list in
    the store, or an object outside the lists, holds a reference to it. *)
Definition EndpointWeight_referenced (r : WeightRef) (w : World) : bool :=
  bool_decide (r ∈ weight_held_outside w)
  || existsb (fun rl => endpoints_hold r (endpoints rl.2))
       (map_to_list (lists w)).

(** An endpoint that is destroyed releases its [weight_]; [others] are
    the endpoints of its list that are destroyed after it.  When the
    reference was the last one, the destructor of the weight runs at
    once.  A reference without a recorded key stands for no object. *)
Definition EndpointWeight_Unref (r : WeightRef) (others : list WrrEndpoint)
    (w : World) : World :=
  if endpoints_hold r others || EndpointWeight_referenced r w then w
  else
    let w1 := EndpointWeight_Unref_last r w in
    match EndpointWeight_destroy r w1 with
    | Done w2 => w2
    | Abort _ => w1
    end.

(** The endpoints of a list are destroyed, first to last. *)
Fixpoint release_endpoints (es : list WrrEndpoint) (w : World) : World :=
  match es with
  | [] => w
  | e :: rest =>
      release_endpoints rest
        (EndpointWeight_Unref (WrrEndpoint_weight_ e) rest w)
  end.

(** An owning pointer is overwritten: the list it held is destroyed, and
    its endpoints with it. *)
Definition destroy_list (l : option ListRef) (w : World) : World :=
  match l with
  | Some r =>
      release_endpoints
        (match lists w !! r with
         | Some self => endpoints self
         | None => []
         end)
        (set_lists (delete r) w)
  | None => w
  end.

(** An object outside the lists copies a reference that it can reach:
    the watcher that [CreateSubchannel] makes holds the [weight_] of its
    endpoint. *)
Definition EndpointWeight_Ref_outside (r : WeightRef) (w : World) : World :=
  set_weight_held_outside (fun s => {[r]} ∪ s) w.

(** The objects outside the lists let go of their last reference to the
    weight.  If no endpoint holds it either, its strong count is zero
    from then on, and its destructor runs later, on the thread that
    dropped the reference. *)
Definition EndpointWeight_Unref_outside (r : WeightRef) (w : World)
  : World :=
  let w1 := set_weight_held_outside (fun s => s ∖ {[r]}) w in
  if EndpointWeight_referenced r w1 then w1
  else EndpointWeight_Unref_last r w1.
End WeightLifetime.

Section PolicyOps.
Context {C : Collaborators}.

(** The condition under which a list that is the latest pending one is
    swapped into [endpoint_list_]. *)
Definition swap_condition (active self : WrrEndpointList) : bool :=
  (num_ready_ active =? 0)
  || ((num_ready_ self >? 0) && AllEndpointsSeenInitialState self)
  || (num_transient_failure_ self =? EndpointList_size self).

(** [endpoint_list_ = std::move(latest_pending_endpoint_list_)]. *)
Definition promote_pending (w : World) : World :=
  let pending := latest_pending_endpoint_list_ (wrr w) in
  let w1 := destroy_list (endpoint_list_ (wrr w)) w in
  set_wrr (fun p => set_latest_pending_endpoint_list_ None
                      (set_endpoint_list_ pending p)) w1.

(** First half of [MaybeUpdateAggregatedConnectivityStateLocked]: if
    this list is [latest_pending_endpoint_list_], swap it into
    [endpoint_list_] when the condition holds. *)
Definition swap_if_latest_pending (this : ListRef) (w : World)
  : outcome World :=
  self ← deref (lists w !! this);
  if ptr_eqb (latest_pending_endpoint_list_ (wrr w)) (Some this) then
    active_ref ← deref (endpoint_list_ (wrr w));
    active ← deref (lists w !! active_ref);
    Done (if swap_condition active self then promote_pending w else w)
  else Done w.

(** The status handed to [ReportTransientFailure] and kept in
    [last_failure_]. *)
Definition failure_to_report (status_for_tf : Status)
    (self : WrrEndpointList) : Status :=
  if negb (Status_ok status_for_tf) then
    UnavailableError
      ("connections to all backends failing; last error: "
       ++ Status_ToString status_for_tf)
  else last_failure_ self.

(** Second half: only set the connectivity state if this is the current
    endpoint list; the first matching rule wins. *)
Definition set_state_if_current (random : Z) (now : Timestamp)
    (this : ListRef) (status_for_tf : Status) (w : World)
  : outcome World :=
  self ← deref (lists w !! this);
  if negb (ptr_eqb (endpoint_list_ (wrr w)) (Some this)) then Done w
  else if num_ready_ self >? 0 then
    '(picker, w1) ← Picker_new random now this w;
    Done (emit (UpdateState GRPC_CHANNEL_READY OkStatus (WrrPicker picker))
            w1)
  else if num_connecting_ self >? 0 then
    Done (emit (UpdateState GRPC_CHANNEL_CONNECTING OkStatus QueuePicker) w)
  else if num_transient_failure_ self =? EndpointList_size self then
    let failure := failure_to_report status_for_tf self in
    let w1 := put_list this (set_last_failure_ failure self) w in
    Done (emit (ReportTransientFailure this failure) w1)
  else Done w.

Definition MaybeUpdateAggregatedConnectivityStateLocked
    (random : Z) (now : Timestamp) (this : ListRef)
    (status_for_tf : Status) (w : World) : outcome World :=
  w1 ← swap_if_latest_pending this w;
  set_state_if_current random now this status_for_tf w1.

(** [WrrEndpoint::OnStateUpdate] of the endpoint at [index] of the list
    [this_list]. *)
Definition OnStateUpdate (random : Z) (now : Timestamp)
    (this_list : ListRef) (index : nat)
    (old_state : option grpc_connectivity_state)
    (new_state : grpc_connectivity_state) (status : Status) (w : World)
  : outcome World :=
  wrr_endpoint_list ← deref (lists w !! this_list);
  self ← deref (endpoints wrr_endpoint_list !! index);
  w1 ←
    (if state_eqb new_state GRPC_CHANNEL_IDLE then
       Done (emit (ExitIdleLocked this_list index) w)
     else if state_eqb new_state GRPC_CHANNEL_READY then
       match old_state with
       | Some old =>
           if negb (state_eqb old GRPC_CHANNEL_READY)
           then call_weight (WrrEndpoint_weight_ self)
                  CallResetNonEmptySince w
           else Done w
       | None => Done w
       end
     else Done w);
  w2 ←
    (if match old_state with
        | Some old => negb (state_eqb old new_state)
        | None => true
        end
     then
       l ← UpdateStateCountersLocked old_state new_state wrr_endpoint_list;
       Done (put_list this_list l w1)
     else Done w1);
  MaybeUpdateAggregatedConnectivityStateLocked random now this_list status
    w2.

(** Modelled from the spec: the notification entry of the base class
    [EndpointList::Endpoint], which is not among the sources at hand.  It
    records the new connectivity state and child picker of the endpoint
    and hands the previous state, the new state and the status to
    [OnStateUpdate]. *)
Definition Endpoint_UpdateState (random : Z) (now : Timestamp)
    (this_list : ListRef) (index : nat) (state : grpc_connectivity_state)
    (status : Status) (picker : SubchannelPicker) (w : World)
  : outcome World :=
  l ← deref (lists w !! this_list);
  ep ← deref (endpoints l !! index);
  let old_state := connectivity_state_ ep in
  let ep' := mkWrrEndpoint (WrrEndpoint_weight_ ep) (Some state)
               (Some picker) in
  let w1 :=
    put_list this_list (set_endpoints (<[index := ep']> (endpoints l)) l)
      w in
  OnStateUpdate random now this_list index old_state state status w1.
End PolicyOps.

(** *** What the counters stand for *)

(** The endpoint has delivered a state, and the state satisfies [P]. *)
Definition endpoint_in (P : grpc_connectivity_state -> bool)
    (e : WrrEndpoint) : bool :=
  match connectivity_state_ e with
  | Some s => P s
  | None => false
  end.

Definition is_ready (s : grpc_connectivity_state) : bool :=
  state_eqb s GRPC_CHANNEL_READY.

Definition is_transient_failure (s : grpc_connectivity_state) : bool :=
  state_eqb s GRPC_CHANNEL_TRANSIENT_FAILURE.

(** Number of endpoints of the list whose state satisfies [P]. *)
Definition count_in (P : grpc_connectivity_state -> bool)
    (l : WrrEndpointList) : Z :=
  Z.of_nat (length (List.filter (endpoint_in P) (endpoints l))).

(** The three counters count the endpoints in READY, in CONNECTING or
    IDLE, and in TRANSIENT_FAILURE; the size of the list fits a
    [size_t]. *)
Record counters_consistent (l : WrrEndpointList) : Prop :=
  { ready_counted : num_ready_ l = count_in is_ready l;
    connecting_counted : num_connecting_ l = count_in is_connecting_or_idle l;
    failure_counted :
      num_transient_failure_ l = count_in is_transient_failure l;
    size_fits : EndpointList_size l < 2 ^ 64 }.

Definition World_consistent (w : World) : Prop :=
  forall r l, lists w !! r = Some l -> counters_consistent l.

(** Promotion conditions (a), (b), (c) on the endpoints themselves. *)
Definition no_endpoint_ready (l : WrrEndpointList) : Prop :=
  Forall (fun e => connectivity_state_ e <> Some GRPC_CHANNEL_READY)
    (endpoints l).

Definition some_endpoint_ready (l : WrrEndpointList) : Prop :=
  Exists (fun e => connectivity_state_ e = Some GRPC_CHANNEL_READY)
    (endpoints l).

Definition all_endpoints_seen_initial_state (l : WrrEndpointList) : Prop :=
  Forall (fun e => connectivity_state_ e <> None) (endpoints l).

Definition all_endpoints_in_transient_failure (l : WrrEndpointList) : Prop :=
  Forall (fun e => connectivity_state_ e
                   = Some GRPC_CHANNEL_TRANSIENT_FAILURE) (endpoints l).

Definition promotion_rule (active pending : WrrEndpointList) : Prop :=
  no_endpoint_ready active
  \/ (some_endpoint_ready pending /\ all_endpoints_seen_initial_state pending)
  \/ all_endpoints_in_transient_failure pending.

(* ===================================================================== *)
(** ** WeightedRoundRobin *)
(* ===================================================================== *)

Record UpdateArgs := mkUpdateArgs
  { UpdateArgs_addresses : StatusOr (list EndpointAddresses);
    UpdateArgs_config : option WeightedRoundRobinConfig;
    UpdateArgs_resolution_note : string;
    UpdateArgs_args : ChannelArgs }.

Definition WeightedRoundRobin_init (scheduler_state : Z) : WeightedRoundRobin :=
  mkWeightedRoundRobin None None None [] false scheduler_state.

Definition World_init (scheduler_state : Z) : World :=
  mkWorld (WeightedRoundRobin_init scheduler_state) ∅ ∅ ∅ ∅ ∅ [] [].

Section Policy.
Context {C : Collaborators}.

(** [std::set<EndpointAddresses, EndpointAddressesLessThan>::insert]. *)
Fixpoint ordered_insert (endpoint : EndpointAddresses)
    (s : list EndpointAddresses) : list EndpointAddresses :=
  match s with
  | [] => [endpoint]
  | e :: rest =>
      if EndpointAddressSet_lt (addresses endpoint) (addresses e)
      then endpoint :: s
      else if EndpointAddressSet_lt (addresses e) (addresses endpoint)
      then e :: ordered_insert endpoint rest
      else s
  end.

Definition ordered_addresses (l : list EndpointAddresses)
  : list EndpointAddresses :=
  fold_left (fun s endpoint => ordered_insert endpoint s) l [].

(** [RefIfNonZero] succeeds on objects whose strong count is not zero. *)
Definition GetOrCreateWeight (key : list grpc_resolved_address) (w : World)
  : WeightRef * World :=
  let create :=
    let r := fresh (dom (weights w)) in
    (r,
     set_wrr (fun p => set_endpoint_weight_map_
                         (map_emplace key r (endpoint_weight_map_ p)) p)
       (set_weight_keys (insert r key)
          (put_weight r EndpointWeight_init w))) in
  match map_find key (endpoint_weight_map_ (wrr w)) with
  | Some r =>
      if decide (r ∈ weight_unreferenced w) then create else (r, w)
  | None => create
  end.

(** The constructor of [WrrEndpoint], run for every address by
    [EndpointList::Init]; [errors] collects the failures of [Init]. *)
Fixpoint create_endpoints (endpoint_addresses : list EndpointAddresses)
    (args : ChannelArgs) (errors : list string) (w : World)
  : list WrrEndpoint * list string * World :=
  match endpoint_addresses with
  | [] => ([], errors, w)
  | a :: rest =>
      let '(weight, w1) := GetOrCreateWeight (addresses a) w in
      let status := Endpoint_Init a args in
      let errors1 :=
        if negb (Status_ok status)
        then errors ++ [("endpoint " ++ EndpointAddresses_ToString a ++ ": "
                         ++ Status_ToString status)%string]
        else errors in
      let '(es, errors2, w2) := create_endpoints rest args errors1 w1 in
      (mkWrrEndpoint weight None None :: es, errors2, w2)
  end.

Definition UpdateLocked (args : UpdateArgs) (w : World) : Status * World :=
  let w0 := emit IncrementWrrUpdates w in
  let w1 := set_wrr (set_config_ (UpdateArgs_config args)) w0 in
  (* everything after the [if (args.addresses.ok())] statement;
      [addresses] is null when the resolver reported an error *)
  let continue (addresses : option (list EndpointAddresses)) :=
    let '(es, errors, w2) :=
      create_endpoints (default [] addresses) (UpdateArgs_args args) [] w1 in
    let new_list :=
      mkWrrEndpointList es (UpdateArgs_resolution_note args) 0 0 0
        OkStatus in
    let new_ref := fresh (dom (lists w2)) in
    (* the new list is built before the assignment destroys the
       pending list it replaces *)
    let w3 :=
      set_wrr (set_latest_pending_endpoint_list_ (Some new_ref))
        (destroy_list (latest_pending_endpoint_list_ (wrr w2))
           (put_list new_ref new_list w2)) in
    if EndpointList_size new_list =? 0 then
      let w4 := promote_pending w3 in
      let status :=
        match UpdateArgs_addresses args with
        | StatusOr_value _ => UnavailableError "empty address list"
        | StatusOr_error s => s
        end in
      (status, emit (ReportTransientFailure new_ref status) w4)
    else
      let w4 :=
        match endpoint_list_ (wrr w3) with
        | None => promote_pending w3
        | Some _ => w3
        end in
      if negb (length errors =? 0)%nat then
        (UnavailableError
           ("errors from children: [" ++ StrJoin errors "; " ++ "]"), w4)
      else (OkStatus, w4) in
  match UpdateArgs_addresses args with
  | StatusOr_value l => continue (Some (ordered_addresses l))
  | StatusOr_error s =>
      match endpoint_list_ (wrr w1) with
      | Some _ => (s, w1)
      | None => continue None
      end
  end.

Definition ShutdownLocked (w : World) : World :=
  let w1 := set_wrr (set_shutdown_ true) w in
  let w2 :=
    set_wrr (set_endpoint_list_ None)
      (destroy_list (endpoint_list_ (wrr w1)) w1) in
  set_wrr (set_latest_pending_endpoint_list_ None)
    (destroy_list (latest_pending_endpoint_list_ (wrr w2)) w2).
End Policy.

(** *** Ownership of the two lists *)

(** The two owning pointers of the policy hold live lists; a pending list
    exists only beside a current one, and is a different object. *)
Record World_wf (w : World) : Prop :=
  { current_live :
      forall r, endpoint_list_ (wrr w) = Some r -> is_Some (lists w !! r);
    pending_live :
      forall r, latest_pending_endpoint_list_ (wrr w) = Some r ->
                is_Some (lists w !! r);
    pending_beside_current :
      forall r, latest_pending_endpoint_list_ (wrr w) = Some r ->
                exists act, endpoint_list_ (wrr w) = Some act /\ act <> r }.

(** The status with which an empty list is reported. *)
Definition empty_list_status (args : UpdateArgs) : Status :=
  match UpdateArgs_addresses args with
  | StatusOr_value _ => UnavailableError "empty address list"
  | StatusOr_error s => s
  end.

(** The update makes the policy build an endpoint list, and that list is
    empty: the resolver delivered an empty address list, or it delivered
    an error while the policy had no endpoint list at all. *)
Definition builds_empty_list (args : UpdateArgs) (w : World) : Prop :=
  match UpdateArgs_addresses args with
  | StatusOr_value l => l = []
  | StatusOr_error _ => endpoint_list_ (wrr w) = None
  end.

(** *** The blackout after a reconnection *)

(** A reading of the clock: not an infinity, and far enough from them that
    its negation is not one either. *)
Definition Timestamp_finite (t : Timestamp) : Prop :=
  int64_min + 1 < milliseconds_after_process_epoch t < int64_max.

(** The notification makes [OnStateUpdate] call [ResetNonEmptySince]: the
    new state is READY and there is a previous state other than READY. *)
Definition restarts_blackout (old_state : option grpc_connectivity_state)
    (new_state : grpc_connectivity_state) : bool :=
  state_eqb new_state GRPC_CHANNEL_READY
  && match old_state with
     | Some old => negb (state_eqb old GRPC_CHANNEL_READY)
     | None => false
     end.

Definition is_GetWeight_call (rc : WeightRef * WeightCall) : Prop :=
  match snd rc with
  | CallGetWeight _ _ _ _ _ => True
  | _ => False
  end.

(** Every report of the trace is read off the clock at or after [t0]. *)
Definition reports_not_before (t0 : Timestamp) (cs : list WeightCall) : Prop :=
  Forall (fun c => match c with
                   | CallMaybeUpdateWeight now _ _ _ _ =>
                       Timestamp_finite now /\ Timestamp_leb t0 now = true
                   | _ => True
                   end) cs.

(** Each weight of [w] is still there in [w'], changed at most by
    [GetWeight]. *)
Definition weights_aged (w w' : World) : Prop :=
  forall r ew,
    weights w !! r = Some ew ->
    exists ew',
      weights w' !! r = Some ew'
      /\ weight_ ew' = weight_ ew
      /\ last_update_time_ ew' = last_update_time_ ew
      /\ (non_empty_since_ ew' = non_empty_since_ ew
          \/ non_empty_since_ ew' = InfFuture).

(** The same for [GetWeight] calls made at [now] with the expiration
    period [x]: [non_empty_since_] keeps its value unless the weight is
    expired at [now], and then it is +infinity. *)
Definition weights_aged_at (now : Timestamp) (x : Duration) (w w' : World)
  : Prop :=
  forall r ew,
    weights w !! r = Some ew ->
    exists ew',
      weights w' !! r = Some ew'
      /\ weight_ ew' = weight_ ew
      /\ last_update_time_ ew' = last_update_time_ ew
      /\ (non_empty_since_ ew' = non_empty_since_ ew
          \/ (non_empty_since_ ew' = InfFuture /\ expired now x ew)).

(* ===================================================================== *)
(** ** Sample collaborators and objects *)
(* ===================================================================== *)

(** Address sets compared by their first address. *)
Definition sample_lt (a b : list grpc_resolved_address) : bool :=
  match a, b with
  | x :: _, y :: _ => String.ltb x y
  | [], _ :: _ => true
  | _, _ => false
  end.

(** Collaborators for the examples: every child initialises and completes
    its picks with the subchannel named after the picker; the scheduler
    gives full credit to every weight and rejects odd sequence numbers. *)
Definition sample_collaborators : Collaborators :=
  {| Status_ToString := fun s => message s;
     EndpointAddresses_ToString := fun e => StrJoin (addresses e) ",";
     EndpointAddressSet_lt := sample_lt;
     Endpoint_Init := fun _ _ => OkStatus;
     SubchannelPicker_Pick := fun p _ => Complete p None;
     stride_credit := fun _ _ => 65535;
     stride_threshold :=
       fun _ sequence => if Z.odd sequence then 65535 else 0 |}.

Definition sample_config : WeightedRoundRobinConfig :=
  {| enable_oob_load_report := false;
     oob_reporting_period := Milliseconds 10000;
     blackout_period := Milliseconds 10000;
     weight_update_period := Milliseconds 1000;
     weight_expiration_period := Milliseconds 180000;
     error_utilization_penalty := float_of_Z 1 |}.

(** A picker over two endpoints that fell back to round robin. *)
Definition sample_picker : Picker :=
  {| Picker_config_ := Some sample_config;
     endpoints_ := [mkEndpointInfo (Some 11%nat) 0%nat;
                    mkEndpointInfo (Some 12%nat) 1%nat];
     scheduler_ := None;
     timer_handle_ := true;
     last_picked_index_ := 5;
     Picker_wrr_ := true |}.

(** *** Sample runs *)

Definition run_or (default : World) (o : outcome World) : World :=
  match o with
  | Done w => w
  | Abort _ => default
  end.

Definition the_list (r : ListRef) (w : World) : WrrEndpointList :=
  default (mkWrrEndpointList [] "" 0 0 0 OkStatus) (lists w !! r).

(** The resolver delivers the endpoints b, a and b again. *)
Definition sample_update_args : UpdateArgs :=
  {| UpdateArgs_addresses :=
       StatusOr_value [mkEndpointAddresses ["b"] 0%nat;
                       mkEndpointAddresses ["a"] 0%nat;
                       mkEndpointAddresses ["b"] 1%nat];
     UpdateArgs_config := Some sample_config;
     UpdateArgs_resolution_note := "";
     UpdateArgs_args := 0%nat |}.

(** After the first update: list 0, over a and b, is current. *)
Definition sample_world_started : World :=
  snd (@UpdateLocked sample_collaborators sample_update_args (World_init 7)).

(** Both endpoints of list 0 have failed to connect. *)
Definition sample_world_failed : World :=
  run_or sample_world_started
    (w ← @Endpoint_UpdateState sample_collaborators 3
           (FromMillisecondsAfterProcessEpoch 100) 0%nat 0%nat
           GRPC_CHANNEL_TRANSIENT_FAILURE (UnavailableError "refused") 21%nat
           sample_world_started;
     @Endpoint_UpdateState sample_collaborators 3
       (FromMillisecondsAfterProcessEpoch 101) 0%nat 1%nat
       GRPC_CHANNEL_TRANSIENT_FAILURE (UnavailableError "timeout") 22%nat w).

(** Both endpoints of list 0 are READY, and a has sent a report at 150ms. *)
Definition sample_world_ready : World :=
  run_or sample_world_started
    (w1 ← @Endpoint_UpdateState sample_collaborators 3
            (FromMillisecondsAfterProcessEpoch 100) 0%nat 0%nat
            GRPC_CHANNEL_READY OkStatus 11%nat sample_world_started;
     w2 ← @Endpoint_UpdateState sample_collaborators 4
            (FromMillisecondsAfterProcessEpoch 101) 0%nat 1%nat
            GRPC_CHANNEL_READY OkStatus 12%nat w1;
     OobWatcher_OnBackendMetricReport
       (FromMillisecondsAfterProcessEpoch 150) 0%nat (float_of_Z 1)
       (mkBackendMetricData (double_of_Z 3) (double_of_Z 1) (double_of_Z 2)
          (double_of_Z 0)) w2).

(** A second update, to the endpoints a and c, leaves list 1 pending; its
    endpoint a has reported READY, its endpoint c nothing yet. *)
Definition sample_world_pending : World :=
  run_or sample_world_ready
    (@Endpoint_UpdateState sample_collaborators 5
       (FromMillisecondsAfterProcessEpoch 200) 1%nat 0%nat
       GRPC_CHANNEL_READY OkStatus 13%nat
       (snd (@UpdateLocked sample_collaborators
               {| UpdateArgs_addresses :=
                    StatusOr_value [mkEndpointAddresses ["a"] 0%nat;
                                    mkEndpointAddresses ["c"] 0%nat];
                  UpdateArgs_config := Some sample_config;
                  UpdateArgs_resolution_note := "";
                  UpdateArgs_args := 0%nat |}
               sample_world_ready))).

(** The same with endpoint c recorded as READY as well and counted, as
    the world stands when the aggregation runs for that notification. *)
Definition sample_world_pending_all_ready : World :=
  put_list 1%nat
    (set_counters 2 0 0
       (set_endpoints
          (<[1%nat := mkWrrEndpoint 2%nat (Some GRPC_CHANNEL_READY)
                        (Some 14%nat)]>
             (endpoints (the_list 1%nat sample_world_pending)))
          (the_list 1%nat sample_world_pending)))
    sample_world_pending.

(** Endpoint a of list 0 has gone from READY to CONNECTING, and the base
    class has just recorded its return to READY. *)
Definition sample_world_ready_again : World :=
  let w :=
    run_or sample_world_ready
      (@Endpoint_UpdateState sample_collaborators 6
         (FromMillisecondsAfterProcessEpoch 300) 0%nat 0%nat
         GRPC_CHANNEL_CONNECTING OkStatus 11%nat sample_world_ready) in
  put_list 0%nat
    (set_endpoints
       (<[0%nat := mkWrrEndpoint 0%nat (Some GRPC_CHANNEL_READY)
                     (Some 15%nat)]>
          (endpoints (the_list 0%nat w)))
       (the_list 0%nat w))
    w.

(** The resolver reports an error. *)
Definition sample_error_args : UpdateArgs :=
  {| UpdateArgs_addresses :=
       StatusOr_error (mkStatus kUnavailable "resolver down");
     UpdateArgs_config := Some sample_config;
     UpdateArgs_resolution_note := "";
     UpdateArgs_args := 0%nat |}.

(** The resolver delivers an empty address list. *)
Definition sample_empty_args : UpdateArgs :=
  {| UpdateArgs_addresses := StatusOr_value [];
     UpdateArgs_config := Some sample_config;
     UpdateArgs_resolution_note := "";
     UpdateArgs_args := 0%nat |}.

(* ===================================================================== *)
(** ** Vocabulary of the properties *)
(* ===================================================================== *)

(** The value is a NaN or carries a clear sign bit. *)
Definition nan_or_unsigned (x : spec_float) : Prop :=
  match x with
  | S754_nan => True
  | S754_zero s | S754_infinity s | S754_finite s _ _ => s = false
  end.

(** What every call preserves, relative to the latest clock reading. *)
Definition weight_inv (clock : Timestamp) (self : EndpointWeight) : Prop :=
  nan_or_unsigned (weight_ self)
  /\ (non_empty_since_ self = InfFuture
      \/ (Timestamp_leb (non_empty_since_ self) (last_update_time_ self) = true
          /\ Timestamp_leb (last_update_time_ self) clock = true)).

(** From [w] to [w'] nothing happens but that weights lose their last
    reference and their destructors run: lists, fields of weights, keys,
    outside holders, call record and effects stay, the policy keeps
    everything but entries of its map, and no weight comes back to
    life. *)
Definition weights_released (w w' : World) : Prop :=
  lists w' = lists w
  /\ weights w' = weights w
  /\ weight_keys w' = weight_keys w
  /\ weight_held_outside w' = weight_held_outside w
  /\ weight_calls w' = weight_calls w
  /\ effects w' = effects w
  /\ config_ (wrr w') = config_ (wrr w)
  /\ endpoint_list_ (wrr w') = endpoint_list_ (wrr w)
  /\ latest_pending_endpoint_list_ (wrr w')
     = latest_pending_endpoint_list_ (wrr w)
  /\ shutdown_ (wrr w') = shutdown_ (wrr w)
  /\ scheduler_state_ (wrr w') = scheduler_state_ (wrr w)
  /\ weight_unreferenced w ⊆ weight_unreferenced w'
  /\ forall P : list grpc_resolved_address * WeightRef -> Prop,
       Forall P (endpoint_weight_map_ (wrr w)) ->
       Forall P (endpoint_weight_map_ (wrr w')).

(** Two lists with the same endpoints and counters. *)
Definition same_counts (l l' : WrrEndpointList) : Prop :=
  endpoints l' = endpoints l
  /\ num_ready_ l' = num_ready_ l
  /\ num_connecting_ l' = num_connecting_ l
  /\ num_transient_failure_ l' = num_transient_failure_ l.

(** Every list of [w'] is a list of [w] with the same endpoints and
    counters. *)
Definition lists_kept (w w' : World) : Prop :=
  forall r l', lists w' !! r = Some l' ->
               exists l, lists w !! r = Some l /\ same_counts l l'.

(** The snapshot taken by the constructor of [Picker]: the child picker
    and the weight of every endpoint that is READY. *)
Definition ready_snapshot (l : WrrEndpointList) : list EndpointInfo :=
  map (fun ep => mkEndpointInfo (picker_ ep) (WrrEndpoint_weight_ ep))
    (List.filter (endpoint_in is_ready) (endpoints l)).

(** [UpdateLocked] up to the point where the addresses are looked at. *)
Definition after_config (args : UpdateArgs) (w : World) : World :=
  set_wrr (set_config_ (UpdateArgs_config args)) (emit IncrementWrrUpdates w).

Definition empty_list (args : UpdateArgs) : WrrEndpointList :=
  mkWrrEndpointList [] (UpdateArgs_resolution_note args) 0 0 0 OkStatus.

(** After a reset at [t0], [non_empty_since_] is +infinity or a clock
    reading not before [t0]. *)
Definition since_not_before (t0 : Timestamp) (self : EndpointWeight) : Prop :=
  non_empty_since_ self = InfFuture
  \/ (Timestamp_finite (non_empty_since_ self)
      /\ Timestamp_leb t0 (non_empty_since_ self) = true).

(** Between [w] and [w'] the only calls made on weights are [GetWeight]
    calls. *)
Definition only_GetWeight_calls (w w' : World) : Prop :=
  (exists calls,
      weight_calls w' = weight_calls w ++ calls
      /\ Forall is_GetWeight_call calls)
  /\ weights_aged w w'.

(** The previous state of a notification is one that
    [UpdateStateCountersLocked] finds counted: it is not SHUTDOWN, and the
    counter it is taken from is positive. *)
Definition counted (old_state : option grpc_connectivity_state)
    (l : WrrEndpointList) : Prop :=
  match old_state with
  | Some GRPC_CHANNEL_READY => 0 < num_ready_ l
  | Some GRPC_CHANNEL_CONNECTING | Some GRPC_CHANNEL_IDLE =>
      0 < num_connecting_ l
  | Some GRPC_CHANNEL_TRANSIENT_FAILURE => 0 < num_transient_failure_ l
  | Some GRPC_CHANNEL_SHUTDOWN => False
  | None => True
  end.

(** The weights of the endpoints of the list are in the store. *)
Definition weights_live (l : WrrEndpointList) (w : World) : Prop :=
  Forall (fun ep => is_Some (weights w !! WrrEndpoint_weight_ ep))
    (endpoints l).

(** No endpoint of the list is in SHUTDOWN. *)
Definition none_in_shutdown (l : WrrEndpointList) : Prop :=
  Forall (fun ep => connectivity_state_ ep <> Some GRPC_CHANNEL_SHUTDOWN)
    (endpoints l).

(** The policy can serve its lists: it has a configuration as soon as it
    has a list, the weights that its lists and its map refer to are in
    the store, and no endpoint is in SHUTDOWN. *)
Record World_live (w : World) : Prop :=
  { configured :
      forall r l, lists w !! r = Some l -> config_ (wrr w) <> None;
    lists_live : forall r l, lists w !! r = Some l -> weights_live l w;
    lists_not_shutdown :
      forall r l, lists w !! r = Some l -> none_in_shutdown l;
    map_live :
      Forall (fun kv => is_Some (weights w !! kv.2))
        (endpoint_weight_map_ (wrr w)) }.

(** The number of addresses an update carries. *)
Definition address_count (args : UpdateArgs) : Z :=
  match UpdateArgs_addresses args with
  | StatusOr_value l => Z.of_nat (length l)
  | StatusOr_error _ => 0
  end.

Section Reachable.
Context {C : Collaborators}.

(** Worlds reached from the initial one by updates from the resolver
    (which carry a configuration), state notifications from the
    endpoints, backend metric reports, and by what happens to the
    objects outside the lists: one of them copies a reference to a
    weight that is referenced, the last of them lets go of a weight, and
    the destructor of a weight without references runs. *)
Inductive reachable : World -> Prop :=
| reachable_init scheduler_state :
    reachable (World_init scheduler_state)
| reachable_update args w :
    reachable w -> address_count args < 2 ^ 64 ->
    UpdateArgs_config args <> None ->
    reachable (snd (UpdateLocked args w))
| reachable_notification random now this index state status picker w w' :
    reachable w ->
    Endpoint_UpdateState random now this index state status picker w
    = Done w' ->
    reachable w'
| reachable_report now weight penalty d w w' :
    reachable w ->
    OobWatcher_OnBackendMetricReport now weight penalty d w = Done w' ->
    reachable w'
| reachable_finish now weight penalty d w w' :
    reachable w ->
    SubchannelCallTracker_Finish now weight penalty d w = Done w' ->
    reachable w'
| reachable_outside_hold r w :
    reachable w ->
    EndpointWeight_referenced r w = true ->
    reachable (EndpointWeight_Ref_outside r w)
| reachable_outside_release r w :
    reachable w ->
    reachable (EndpointWeight_Unref_outside r w)
| reachable_weight_destroyed r w w' :
    reachable w ->
    r ∈ weight_unreferenced w ->
    EndpointWeight_destroy r w = Done w' ->
    reachable w'.
End Reachable.

(* ===================================================================== *)
(** ** Further operations of the policy *)
(* ===================================================================== *)

(** The member initialisers of [WeightedRoundRobinConfig]. *)
Definition WeightedRoundRobinConfig_default : WeightedRoundRobinConfig :=
  {| enable_oob_load_report := false;
     oob_reporting_period := Milliseconds 10000;
     blackout_period := Milliseconds 10000;
     weight_update_period := Milliseconds 1000;
     weight_expiration_period := Milliseconds 180000;
     error_utilization_penalty := float_of_Z 1 |}.

(** [std::max] on durations. *)
Definition Duration_max (a b : Duration) : Duration :=
  if Duration_ltb a b then b else a.

(** The errors collected while a configuration is validated: the field
    and the message of each. *)
Definition ValidationErrors := list (string * string).

(** [WeightedRoundRobinConfig::JsonPostLoad]. *)
Definition JsonPostLoad (self : WeightedRoundRobinConfig)
    (errors : ValidationErrors)
  : WeightedRoundRobinConfig * ValidationErrors :=
  let self' :=
    {| enable_oob_load_report := enable_oob_load_report self;
       oob_reporting_period := oob_reporting_period self;
       blackout_period := blackout_period self;
       weight_update_period :=
         Duration_max (weight_update_period self) (Milliseconds 100);
       weight_expiration_period := weight_expiration_period self;
       error_utilization_penalty := error_utilization_penalty self |} in
  (self',
   if flt (error_utilization_penalty self) fzero
   then errors ++ [(".errorUtilizationPenalty", "must be non-negative")]
   else errors).

(** [~WeightedRoundRobin]. *)
Definition WeightedRoundRobin_destroy (w : World) : outcome unit :=
  _ ← CHECK (ptr_eqb (endpoint_list_ (wrr w)) None);
  CHECK (ptr_eqb (latest_pending_endpoint_list_ (wrr w)) None).

Section RepeatedPicks.
Context {C : Collaborators}.

(** [k] calls of [PickIndex] in a row, with the indices they return. *)
Fixpoint PickIndex_times (fuel k : nat) (p : Picker) (w : World)
  : outcome (list Z * Picker * World) :=
  match k with
  | O => Done ([], p, w)
  | S k' =>
      '(index, p1, w1) ← PickIndex fuel p w;
      '(indices, p2, w2) ← PickIndex_times fuel k' p1 w1;
      Done (index :: indices, p2, w2)
  end.
End RepeatedPicks.

(** The index of the [i]-th pick of the round-robin fallback that starts
    with the counter at [v], over [n] endpoints. *)
Definition round_robin_index (v : Z) (n : nat) (i : nat) : Z :=
  ((v + Z.of_nat i) mod 2 ^ 64) mod Z.of_nat n.

(** The endpoint has delivered a state. *)
Definition has_state (s : grpc_connectivity_state) : bool := true.

(** The number of entries of a weight vector that compare equal to 0. *)
Definition count_zero (ws : list float) : Z :=
  Z.of_nat (length (List.filter (fun x => feq x fzero) ws)).

(** The utilization a report is read with: [application_utilization]
    unless it is [<= 0], and [cpu_utilization] then. *)
Definition utilization_of (d : BackendMetricData) : double :=
  if fle (application_utilization d) fzero
  then cpu_utilization d else application_utilization d.

(** The world after the first notification of the sample run. *)
Definition sample_world_one_ready : World :=
  run_or sample_world_started
    (@Endpoint_UpdateState sample_collaborators 3
       (FromMillisecondsAfterProcessEpoch 100) 0%nat 0%nat
       GRPC_CHANNEL_READY OkStatus 11%nat sample_world_started).

Section OrderVocabulary.
Context {C : Collaborators}.

(** What [std::set] and [std::map] ask of the comparison of address
    sets. *)
Definition lt_irreflexive : Prop :=
  forall a, EndpointAddressSet_lt a a = false.

Definition lt_transitive : Prop :=
  forall a b c,
    EndpointAddressSet_lt a b = true -> EndpointAddressSet_lt b c = true ->
    EndpointAddressSet_lt a c = true.

(** Neither address set is below the other. *)
Definition equivalent (a b : list grpc_resolved_address) : Prop :=
  EndpointAddressSet_lt a b = false /\ EndpointAddressSet_lt b a = false.

(** One of the two address sets is below the other. *)
Definition distinct (a b : list grpc_resolved_address) : Prop :=
  EndpointAddressSet_lt a b = true \/ EndpointAddressSet_lt b a = true.

Definition endpoint_lt (a b : EndpointAddresses) : Prop :=
  EndpointAddressSet_lt (addresses a) (addresses b) = true.

(** The endpoints of a list have pairwise distinct address sets. *)
Definition pairwise_distinct (l : list EndpointAddresses) : Prop :=
  forall i j a b,
    i <> j -> l !! i = Some a -> l !! j = Some b ->
    distinct (addresses a) (addresses b).

(** The error strings that the constructors of the endpoints collect. *)
Definition child_errors (endpoint_addresses : list EndpointAddresses)
    (args : ChannelArgs) : list string :=
  flat_map
    (fun a =>
       if Status_ok (Endpoint_Init a args) then []
       else [("endpoint " ++ EndpointAddresses_ToString a ++ ": "
              ++ Status_ToString (Endpoint_Init a args))%string])
    endpoint_addresses.
End OrderVocabulary.

(** Collaborators for the examples on ordering: address sets are compared
    by their number of addresses, and the child of an endpoint with more
    than one address fails to initialise. *)
Definition counting_collaborators : Collaborators :=
  {| Status_ToString := fun s => message s;
     EndpointAddresses_ToString := fun e => StrJoin (addresses e) ",";
     EndpointAddressSet_lt := fun a b => (length a <? length b)%nat;
     Endpoint_Init :=
       fun e _ => if (length (addresses e) <=? 1)%nat then OkStatus
                  else UnavailableError "no route";
     SubchannelPicker_Pick := fun p _ => Complete p None;
     stride_credit := fun _ _ => 65535;
     stride_threshold := fun _ _ => 0 |}.

Section MapVocabulary.
Context {C : Collaborators}.

(** Equivalent address sets compare alike with a third one. *)
Definition lt_compatible : Prop :=
  forall a b c,
    equivalent a b -> EndpointAddressSet_lt a c = true ->
    EndpointAddressSet_lt b c = true.

(** The keys of the weight map are strictly increasing. *)
Definition map_sorted (m : list (list grpc_resolved_address * WeightRef))
  : Prop :=
  StronglySorted (fun x y => EndpointAddressSet_lt x.1 y.1 = true) m.

(** No weight is entered in the map twice, and every entry is the one
    that the destructor of its weight finds under the key of the
    weight. *)
Definition map_owned (w : World) : Prop :=
  NoDup (map snd (endpoint_weight_map_ (wrr w)))
  /\ Forall (fun kv =>
               exists key,
                 weight_keys w !! kv.2 = Some key
                 /\ map_find key (endpoint_weight_map_ (wrr w))
                    = Some kv.2)
       (endpoint_weight_map_ (wrr w)).

(** The map is kept as a [std::map] of owned entries: its keys are
    strictly increasing and every weight owns its entry. *)
Definition map_well_kept (w : World) : Prop :=
  map_sorted (endpoint_weight_map_ (wrr w)) /\ map_owned w.

(** The weights that the endpoints of the list behind a pointer hold. *)
Definition weights_held_by (p : option ListRef) (w : World)
  : list WrrEndpoint :=
  match p with
  | Some r =>
      match lists w !! r with
      | Some l => endpoints l
      | None => []
      end
  | None => []
  end.
End MapVocabulary.

(** The update of the examples on ordering: an endpoint with two
    addresses, and one with one. *)
Definition counting_update_args : UpdateArgs :=
  {| UpdateArgs_addresses :=
       StatusOr_value [mkEndpointAddresses ["a"; "b"] 0%nat;
                       mkEndpointAddresses ["c"] 0%nat];
     UpdateArgs_config := Some sample_config;
     UpdateArgs_resolution_note := "";
     UpdateArgs_args := 0%nat |}.

Definition counting_world_started : World :=
  snd (@UpdateLocked counting_collaborators counting_update_args
         (World_init 7)).

(** A later update that keeps the endpoint with one address. *)
Definition counting_second_args : UpdateArgs :=
  {| UpdateArgs_addresses :=
       StatusOr_value [mkEndpointAddresses ["d"; "e"; "f"] 0%nat;
                       mkEndpointAddresses ["c"] 0%nat];
     UpdateArgs_config := Some sample_config;
     UpdateArgs_resolution_note := "";
     UpdateArgs_args := 0%nat |}.

Section AggregationVocabulary.
Context {C : Collaborators}.

(** The list is the active one when its aggregation runs.  [w0] is the
    world in which the rules are applied: [w] itself if the list is the
    current one, and [w] after the swap if the list is the latest
    pending one and the condition of the swap holds. *)
Definition aggregates_as_active (this : ListRef) (w w0 : World) : Prop :=
  (endpoint_list_ (wrr w) = Some this
   /\ latest_pending_endpoint_list_ (wrr w) <> Some this
   /\ w0 = w)
  \/ (latest_pending_endpoint_list_ (wrr w) = Some this
      /\ exists act active self,
           endpoint_list_ (wrr w) = Some act
           /\ lists w !! act = Some active
           /\ lists w !! this = Some self
           /\ swap_condition active self = true
           /\ w0 = promote_pending w).
End AggregationVocabulary.

(** Some endpoint of the list is in CONNECTING or in IDLE. *)
Definition some_endpoint_connecting (l : WrrEndpointList) : Prop :=
  Exists (fun e => connectivity_state_ e = Some GRPC_CHANNEL_CONNECTING
                   \/ connectivity_state_ e = Some GRPC_CHANNEL_IDLE)
    (endpoints l).

(** Closed order facts on millisecond counts. *)
Ltac order_by_computation := vm_compute; intuition (congruence || discriminate).

(* ===================================================================== *)
(** * Properties *)
(* ===================================================================== *)

(** ** Timestamps and durations *)

Lemma Timestamp_eqb_eq (a b : Timestamp) : Timestamp_eqb a b = true <-> a = b.
Proof.
  destruct a as [x], b as [y]; unfold Timestamp_eqb; simpl.
  rewrite Z.eqb_eq.
  split; [intros ->; reflexivity | intros [= ->]; reflexivity].
Qed.

Lemma Timestamp_eqb_neq (a b : Timestamp) :
  Timestamp_eqb a b = false <-> a <> b.
Proof.
  rewrite <- Timestamp_eqb_eq. destruct (Timestamp_eqb a b); split; congruence.
Qed.

(** ** Floating point: signs *)

Lemma binary_round_aux_sign prec emax sx mx ex lx :
  match binary_round_aux prec emax sx mx ex lx with
  | S754_nan => True
  | S754_zero s | S754_infinity s | S754_finite s _ _ => s = sx
  end.
Proof.
  unfold binary_round_aux.
  destruct (shr_fexp prec emax mx ex lx) as [mrs' e'].
  destruct (shr_fexp prec emax _ e' loc_Exact) as [mrs'' e''].
  destruct (shr_m mrs''); [reflexivity | | exact I].
  destruct (e'' <=? emax - prec)%Z; reflexivity.
Qed.

Lemma binary_round_sign prec emax sx mx ex :
  match binary_round prec emax sx mx ex with
  | S754_nan => True
  | S754_zero s | S754_infinity s | S754_finite s _ _ => s = sx
  end.
Proof.
  unfold binary_round.
  destruct (shl_align mx ex _) as [mz ez].
  apply binary_round_aux_sign.
Qed.

Lemma fgt_zero_positive (x : spec_float) :
  fgt x fzero = true ->
  match x with
  | S754_infinity false | S754_finite false _ _ => True
  | _ => False
  end.
Proof.
  unfold fgt, SFltb, fzero. destruct x as [s | [|] | | [|] m e]; simpl;
    try discriminate; trivial.
Qed.

Lemma double_of_float_unsigned x :
  nan_or_unsigned x -> nan_or_unsigned (double_of_float x).
Proof.
  destruct x as [s | s | | s m e]; simpl; trivial.
  intros ->. apply (binary_round_sign F64.prec F64.emax false m e).
Qed.

Lemma float_of_double_unsigned x :
  nan_or_unsigned x -> nan_or_unsigned (float_of_double x).
Proof.
  destruct x as [s | s | | s m e]; simpl; trivial.
  intros ->. apply (binary_round_sign F32.prec F32.emax false m e).
Qed.

Lemma F64_div_unsigned x y :
  nan_or_unsigned x -> nan_or_unsigned y -> nan_or_unsigned (F64.div x y).
Proof.
  unfold F64.div.
  destruct x as [sx | sx | | sx mx ex], y as [sy | sy | | sy my ey];
    simpl; trivial; intros -> ->; try reflexivity.
  destruct (SFdiv_core_binary F64.prec F64.emax (Z.pos mx) ex (Z.pos my) ey)
    as [[mz ez] lz].
  apply (binary_round_aux_sign F64.prec F64.emax false mz ez lz).
Qed.

Lemma F64_mul_unsigned x y :
  nan_or_unsigned x -> nan_or_unsigned y -> nan_or_unsigned (F64.mul x y).
Proof.
  unfold F64.mul.
  destruct x as [sx | sx | | sx mx ex], y as [sy | sy | | sy my ey];
    simpl; trivial; intros -> ->; try reflexivity.
  apply (binary_round_aux_sign F64.prec F64.emax false).
Qed.

Lemma F64_add_unsigned x y :
  nan_or_unsigned x -> nan_or_unsigned y -> nan_or_unsigned (F64.add x y).
Proof.
  unfold F64.add.
  destruct x as [sx | sx | | sx mx ex], y as [sy | sy | | sy my ey];
    simpl; trivial; intros -> ->; try reflexivity.
  apply (binary_round_sign F64.prec F64.emax false).
Qed.

Lemma positive_unsigned x : fgt x fzero = true -> nan_or_unsigned x.
Proof.
  intros H. apply fgt_zero_positive in H.
  destruct x as [s | [|] | | [|] m e]; simpl; try contradiction; reflexivity.
Qed.

Lemma compute_weight_unsigned qps eps utilization penalty :
  nan_or_unsigned (compute_weight qps eps utilization penalty).
Proof.
  unfold compute_weight.
  destruct (fgt qps fzero) eqn:Hq; simpl; [| reflexivity].
  destruct (fgt utilization fzero) eqn:Hu; simpl; [| reflexivity].
  apply float_of_double_unsigned, F64_div_unsigned;
    [now apply positive_unsigned |].
  apply F64_add_unsigned; [now apply positive_unsigned |].
  destruct (fgt eps fzero) eqn:He; simpl; [| reflexivity].
  destruct (fgt penalty fzero) eqn:Hp; simpl; [| reflexivity].
  apply F64_mul_unsigned.
  - apply F64_div_unsigned; now apply positive_unsigned.
  - now apply double_of_float_unsigned, positive_unsigned.
Qed.

Lemma nan_or_unsigned_ge_zero x :
  nan_or_unsigned x -> x = S754_nan \/ fge x fzero = true.
Proof.
  destruct x as [s | s | | s m e]; simpl; intros H; subst;
    (now left) || (now right).
Qed.

(** ** EndpointWeight *)

Lemma Duration_geb_spec (a b : Duration) :
  Duration_geb a b = true <-> millis b <= millis a.
Proof. unfold Duration_geb. rewrite Z.geb_le. reflexivity. Qed.

Lemma expired_iff now x self :
  Duration_geb (Timestamp_sub now (last_update_time_ self)) x = true
  <-> expired now x self.
Proof. apply Duration_geb_spec. Qed.

Lemma in_blackout_iff now b self :
  Duration_gtb b Duration_Zero
  && Duration_ltb (Timestamp_sub now (non_empty_since_ self)) b = true
  <-> in_blackout now b self.
Proof.
  unfold in_blackout, Duration_gtb, Duration_ltb, Duration_Zero; simpl.
  rewrite andb_true_iff, Z.gtb_lt, Z.ltb_lt. reflexivity.
Qed.

(** C1.  [GetWeight] has three outcomes.  When the last update is at least
    the expiration period old, the stale counter is incremented,
    [non_empty_since_] becomes +infinity and 0 is returned.  Otherwise,
    when the blackout period is positive and has not yet passed since
    [non_empty_since_], the not-yet-usable counter is incremented, 0 is
    returned and [non_empty_since_] is kept.  Otherwise the stored weight
    is returned.  A counter that is not named stays as it was. *)
Theorem GetWeight_three_outcomes now x b n_usable n_stale self :
  let r := GetWeight now x b n_usable n_stale self in
  (expired now x self ->
     gw_num_stale r = uint64_incr n_stale
     /\ non_empty_since_ (gw_self r) = InfFuture
     /\ gw_return r = fzero
     /\ gw_num_not_yet_usable r = n_usable)
  /\ (~ expired now x self -> in_blackout now b self ->
        gw_num_not_yet_usable r = uint64_incr n_usable
        /\ gw_return r = fzero
        /\ non_empty_since_ (gw_self r) = non_empty_since_ self
        /\ gw_num_stale r = n_stale)
  /\ (~ expired now x self -> ~ in_blackout now b self ->
        gw_return r = weight_ self
        /\ gw_num_not_yet_usable r = n_usable
        /\ gw_num_stale r = n_stale).
Proof.
  intros r. subst r. unfold GetWeight.
  pose proof (expired_iff now x self) as He.
  pose proof (in_blackout_iff now b self) as Hb.
  destruct (Duration_geb _ x).
  - split; [intros _; repeat split |].
    split; intros Hn; exfalso; apply Hn, He; reflexivity.
  - assert (Hn : ~ expired now x self)
      by (intros H; apply He in H; discriminate).
    split; [intros H; contradiction |].
    destruct (Duration_gtb b Duration_Zero && Duration_ltb _ b).
    + split; [intros _ _; repeat split |].
      intros _ Hnb. exfalso. apply Hnb, Hb. reflexivity.
    + assert (Hnb : ~ in_blackout now b self)
        by (intros H; apply Hb in H; discriminate).
      split; [intros _ H; contradiction | intros _ _; repeat split].
Qed.

Lemma GetWeight_keeps_weight now x b n_usable n_stale self :
  weight_ (gw_self (GetWeight now x b n_usable n_stale self)) = weight_ self.
Proof.
  unfold GetWeight.
  destruct (Duration_geb _ x); [reflexivity |].
  destruct (Duration_gtb b Duration_Zero && Duration_ltb _ b); reflexivity.
Qed.

Lemma GetWeight_keeps_last_update_time now x b n_usable n_stale self :
  last_update_time_ (gw_self (GetWeight now x b n_usable n_stale self))
  = last_update_time_ self.
Proof.
  unfold GetWeight.
  destruct (Duration_geb _ x); [reflexivity |].
  destruct (Duration_gtb b Duration_Zero && Duration_ltb _ b); reflexivity.
Qed.

(** C10.  [GetWeight] leaves [weight_] and [last_update_time_] as they
    were; it writes [non_empty_since_] in the expired case only, and then
    to +infinity. *)
Theorem GetWeight_frame now x b n_usable n_stale self :
  let r := GetWeight now x b n_usable n_stale self in
  weight_ (gw_self r) = weight_ self
  /\ last_update_time_ (gw_self r) = last_update_time_ self
  /\ (expired now x self -> non_empty_since_ (gw_self r) = InfFuture)
  /\ (~ expired now x self ->
      non_empty_since_ (gw_self r) = non_empty_since_ self).
Proof.
  intros r. subst r. unfold GetWeight.
  pose proof (expired_iff now x self) as He.
  destruct (Duration_geb _ x).
  - repeat split. intros Hn. exfalso. apply Hn, He. reflexivity.
  - assert (Hn : ~ expired now x self)
      by (intros H; apply He in H; discriminate).
    destruct (Duration_gtb b Duration_Zero && Duration_ltb _ b);
      (split; [reflexivity |]); (split; [reflexivity |]);
      (split; [intros H; contradiction | intros _; reflexivity]).
Qed.

Lemma GetWeight_three_outcomes_witness :
  gw_return (GetWeight (FromMillisecondsAfterProcessEpoch 200000)
               (Milliseconds 180000) (Milliseconds 10000) 0 0 sample_weight)
  = fzero
  /\ gw_num_not_yet_usable
       (GetWeight (FromMillisecondsAfterProcessEpoch 6000)
          (Milliseconds 180000) (Milliseconds 10000) 0 0 sample_weight)
     = 1
  /\ gw_return (GetWeight (FromMillisecondsAfterProcessEpoch 20000)
                  (Milliseconds 180000) (Milliseconds 10000) 0 0 sample_weight)
     = float_of_Z 3.
Proof.
  split; [| split].
  - destruct (GetWeight_three_outcomes
                (FromMillisecondsAfterProcessEpoch 200000)
                (Milliseconds 180000) (Milliseconds 10000) 0 0 sample_weight)
      as [H _].
    destruct H as (_ & _ & H & _); [order_by_computation | exact H].
  - destruct (GetWeight_three_outcomes
                (FromMillisecondsAfterProcessEpoch 6000)
                (Milliseconds 180000) (Milliseconds 10000) 0 0 sample_weight)
      as (_ & H & _).
    destruct H as (H & _); [order_by_computation | order_by_computation |].
    exact H.
  - destruct (GetWeight_three_outcomes
                (FromMillisecondsAfterProcessEpoch 20000)
                (Milliseconds 180000) (Milliseconds 10000) 0 0 sample_weight)
      as (_ & _ & H).
    destruct H as (H & _); [order_by_computation | order_by_computation |].
    exact H.
Defined.

Lemma GetWeight_frame_witness :
  non_empty_since_
    (gw_self (GetWeight (FromMillisecondsAfterProcessEpoch 200000)
                (Milliseconds 180000) (Milliseconds 10000) 0 0 sample_weight))
  = InfFuture
  /\ non_empty_since_
       (gw_self (GetWeight (FromMillisecondsAfterProcessEpoch 6000)
                   (Milliseconds 180000) (Milliseconds 10000) 0 0
                   sample_weight))
     = FromMillisecondsAfterProcessEpoch 1000.
Proof.
  split.
  - destruct (GetWeight_frame (FromMillisecondsAfterProcessEpoch 200000)
                (Milliseconds 180000) (Milliseconds 10000) 0 0 sample_weight)
      as (_ & _ & H & _).
    apply H. order_by_computation.
  - destruct (GetWeight_frame (FromMillisecondsAfterProcessEpoch 6000)
                (Milliseconds 180000) (Milliseconds 10000) 0 0 sample_weight)
      as (_ & _ & _ & H).
    apply H. order_by_computation.
Defined.

(** Calls other than [MaybeUpdateWeight] never change the stored weight:
    an expired endpoint keeps its old value until the next report. *)
Lemma weight_kept_without_update cs self :
  Forall (fun c => match c with
                   | CallMaybeUpdateWeight _ _ _ _ _ => False
                   | _ => True
                   end) cs ->
  weight_ (run_calls cs self) = weight_ self.
Proof.
  unfold run_calls. revert self.
  induction cs as [| c cs IH]; intros self Hcs; [reflexivity |].
  inversion Hcs as [| ? ? Hc Hrest]; subst. simpl.
  rewrite IH by assumption.
  destruct c as [? ? ? ? ? | now x b n1 n2 |];
    [contradiction | | reflexivity].
  apply GetWeight_keeps_weight.
Qed.

(** C2, as the code has it.  The weight computed by [MaybeUpdateWeight] is
    [qps / (utilization + p)] when [qps > 0] and [utilization > 0], and [0]
    otherwise, where [p] is [(eps/qps)*penalty] when [eps > 0] and
    [penalty > 0], and [0] otherwise; so it is the unguarded formula
    whenever [eps > 0] and [penalty > 0].  When the computed weight is 0
    the object is left as it was.  Otherwise [weight_] becomes the computed
    weight, [last_update_time_] becomes now, and [non_empty_since_] becomes
    now if it was +infinity and is kept otherwise. *)
Theorem MaybeUpdateWeight_guarded_penalty now qps eps utilization penalty self :
  let w := compute_weight qps eps utilization penalty in
  let self' := MaybeUpdateWeight now qps eps utilization penalty self in
  (fgt eps fzero && fgt penalty fzero = true ->
     w = unguarded_weight qps eps utilization penalty)
  /\ (fgt eps fzero && fgt penalty fzero = false ->
        w = if fgt qps fzero && fgt utilization fzero
            then float_of_double (F64.div qps (F64.add utilization fzero))
            else fzero)
  /\ (feq w fzero = true -> self' = self)
  /\ (feq w fzero = false ->
        weight_ self' = w
        /\ last_update_time_ self' = now
        /\ (non_empty_since_ self = InfFuture -> non_empty_since_ self' = now)
        /\ (non_empty_since_ self <> InfFuture ->
            non_empty_since_ self' = non_empty_since_ self)).
Proof.
  intros w self'. subst w self'.
  unfold MaybeUpdateWeight, compute_weight, unguarded_weight.
  split; [intros ->; reflexivity |].
  split; [intros ->; reflexivity |].
  split; [intros ->; reflexivity |].
  intros ->. simpl. split; [reflexivity |]. split; [reflexivity |].
  split.
  - intros ->. reflexivity.
  - intros Hne. apply Timestamp_eqb_neq in Hne. rewrite Hne. reflexivity.
Qed.

Lemma MaybeUpdateWeight_guarded_penalty_witness :
  weight_ (MaybeUpdateWeight (FromMillisecondsAfterProcessEpoch 7000)
             (double_of_Z 3) (double_of_Z 1) (double_of_Z 2) (float_of_Z 1)
             sample_weight)
  = unguarded_weight (double_of_Z 3) (double_of_Z 1) (double_of_Z 2)
      (float_of_Z 1)
  /\ non_empty_since_
       (MaybeUpdateWeight (FromMillisecondsAfterProcessEpoch 7000)
          (double_of_Z 3) (double_of_Z 1) (double_of_Z 2) (float_of_Z 1)
          sample_weight)
     = FromMillisecondsAfterProcessEpoch 1000
  /\ MaybeUpdateWeight (FromMillisecondsAfterProcessEpoch 7000)
       (double_of_Z 0) (double_of_Z 1) (double_of_Z 2) (float_of_Z 1)
       sample_weight
     = sample_weight.
Proof.
  destruct (MaybeUpdateWeight_guarded_penalty
              (FromMillisecondsAfterProcessEpoch 7000)
              (double_of_Z 3) (double_of_Z 1) (double_of_Z 2) (float_of_Z 1)
              sample_weight) as (Hw & _ & _ & Hs).
  destruct (MaybeUpdateWeight_guarded_penalty
              (FromMillisecondsAfterProcessEpoch 7000)
              (double_of_Z 0) (double_of_Z 1) (double_of_Z 2) (float_of_Z 1)
              sample_weight) as (_ & _ & Hz & _).
  destruct Hs as (H1 & _ & _ & H2); [vm_compute; reflexivity |].
  split; [| split].
  - rewrite H1. apply Hw. vm_compute; reflexivity.
  - apply H2. vm_compute. discriminate.
  - apply Hz. vm_compute; reflexivity.
Defined.

(** C2 as stated fails on a report with a negative [eps]: the code leaves
    the penalty term out (weight 1/2), the stated formula does not
    (weight 1). *)
Lemma MaybeUpdateWeight_negative_eps :
  weight_ (MaybeUpdateWeight (FromMillisecondsAfterProcessEpoch 5)
             (double_of_Z 1) (double_of_Z (-1)) (double_of_Z 2) (float_of_Z 1)
             EndpointWeight_init)
  = float_of_double (F64.div (double_of_Z 1) (double_of_Z 2))
  /\ unguarded_weight (double_of_Z 1) (double_of_Z (-1)) (double_of_Z 2)
       (float_of_Z 1)
     = float_of_Z 1
  /\ weight_ (MaybeUpdateWeight (FromMillisecondsAfterProcessEpoch 5)
                (double_of_Z 1) (double_of_Z (-1)) (double_of_Z 2)
                (float_of_Z 1) EndpointWeight_init)
     <> unguarded_weight (double_of_Z 1) (double_of_Z (-1)) (double_of_Z 2)
          (float_of_Z 1).
Proof. split; [| split]; vm_compute; (reflexivity || discriminate). Qed.

(** *** Reachable states of an EndpointWeight *)

Lemma Timestamp_leb_refl t : Timestamp_leb t t = true.
Proof. unfold Timestamp_leb. apply Z.leb_refl. Qed.

Lemma Timestamp_leb_trans a b c :
  Timestamp_leb a b = true -> Timestamp_leb b c = true ->
  Timestamp_leb a c = true.
Proof. unfold Timestamp_leb. rewrite !Z.leb_le. lia. Qed.

Lemma weight_inv_init clock : weight_inv clock EndpointWeight_init.
Proof. split; [reflexivity | left; reflexivity]. Qed.

Lemma weight_inv_MaybeUpdateWeight clock now q e u p self :
  weight_inv clock self -> Timestamp_leb clock now = true ->
  weight_inv now (MaybeUpdateWeight now q e u p self).
Proof.
  intros [Hw Ht] Hclock. unfold MaybeUpdateWeight.
  destruct (feq (compute_weight q e u p) fzero).
  - split; [exact Hw |].
    destruct Ht as [Ht | [H1 H2]]; [now left | right].
    split; [exact H1 | now apply Timestamp_leb_trans with clock].
  - split; [apply compute_weight_unsigned |]. simpl. right.
    destruct (Timestamp_eqb (non_empty_since_ self) InfFuture) eqn:E.
    + split; apply Timestamp_leb_refl.
    + split; [| apply Timestamp_leb_refl].
      apply Timestamp_eqb_neq in E.
      destruct Ht as [Ht | [H1 H2]]; [contradiction |].
      apply Timestamp_leb_trans with (last_update_time_ self); [exact H1 |].
      now apply Timestamp_leb_trans with clock.
Qed.

Lemma weight_inv_GetWeight clock now x b n1 n2 self :
  weight_inv clock self ->
  weight_inv clock (gw_self (GetWeight now x b n1 n2 self)).
Proof.
  intros [Hw Ht]. unfold GetWeight.
  destruct (Duration_geb _ x); [split; [exact Hw | now left] |].
  destruct (Duration_gtb b Duration_Zero && Duration_ltb _ b);
    split; assumption.
Qed.

Lemma weight_inv_ResetNonEmptySince clock self :
  weight_inv clock self -> weight_inv clock (ResetNonEmptySince self).
Proof. intros [Hw _]. split; [exact Hw | now left]. Qed.

Lemma weight_inv_run_calls cs :
  forall clock self,
    weight_inv clock self -> clock_nondecreasing clock cs = true ->
    exists clock', weight_inv clock' (run_calls cs self).
Proof.
  unfold run_calls.
  induction cs as [| c cs IH]; intros clock self Hinv Hclock; simpl.
  - now exists clock.
  - destruct c as [now q e u p | now x b n1 n2 |]; simpl in Hclock.
    + apply andb_true_iff in Hclock as [H1 H2].
      apply (IH now); [| exact H2].
      now apply weight_inv_MaybeUpdateWeight with clock.
    + apply (IH clock); [| exact Hclock]. now apply weight_inv_GetWeight.
    + apply (IH clock); [| exact Hclock].
      now apply weight_inv_ResetNonEmptySince.
Qed.

(** C3, as the code has it.  In every state reached from the initial one
    by [MaybeUpdateWeight], [GetWeight] and [ResetNonEmptySince] calls whose
    clock readings do not go back, the weight is a NaN or is [>= 0], and
    whenever the weight is [> 0], [non_empty_since_] is +infinity or is
    [<= last_update_time_]. *)
Theorem EndpointWeight_reachable_invariant clock cs :
  clock_nondecreasing clock cs = true ->
  let self := run_calls cs EndpointWeight_init in
  (weight_ self = S754_nan \/ fge (weight_ self) fzero = true)
  /\ (fgt (weight_ self) fzero = true ->
      non_empty_since_ self = InfFuture
      \/ Timestamp_leb (non_empty_since_ self) (last_update_time_ self) = true).
Proof.
  intros Hclock self.
  destruct (weight_inv_run_calls cs clock EndpointWeight_init
              (weight_inv_init clock) Hclock) as [clock' [Hw Ht]].
  fold self in Hw, Ht. split.
  - now apply nan_or_unsigned_ge_zero.
  - intros _. destruct Ht as [Ht | [Ht _]]; [now left | now right].
Qed.

Lemma EndpointWeight_reachable_invariant_witness :
  let self :=
    run_calls
      [CallMaybeUpdateWeight (FromMillisecondsAfterProcessEpoch 5)
         (double_of_Z 3) (double_of_Z 1) (double_of_Z 2) (float_of_Z 1);
       CallGetWeight (FromMillisecondsAfterProcessEpoch 6) (Milliseconds 10)
         (Milliseconds 10) 0 0;
       CallMaybeUpdateWeight (FromMillisecondsAfterProcessEpoch 9)
         (double_of_Z 1) (double_of_Z 0) (double_of_Z 1) (float_of_Z 1)]
      EndpointWeight_init in
  fge (weight_ self) fzero = true
  /\ Timestamp_leb (non_empty_since_ self) (last_update_time_ self) = true.
Proof.
  intros self.
  destruct (EndpointWeight_reachable_invariant InfPast
              [CallMaybeUpdateWeight (FromMillisecondsAfterProcessEpoch 5)
                 (double_of_Z 3) (double_of_Z 1) (double_of_Z 2)
                 (float_of_Z 1);
               CallGetWeight (FromMillisecondsAfterProcessEpoch 6)
                 (Milliseconds 10) (Milliseconds 10) 0 0;
               CallMaybeUpdateWeight (FromMillisecondsAfterProcessEpoch 9)
                 (double_of_Z 1) (double_of_Z 0) (double_of_Z 1)
                 (float_of_Z 1)])
    as [Hw Ht]; [vm_compute; reflexivity |].
  fold self in Hw, Ht. split.
  - destruct Hw as [Hw | Hw]; [vm_compute in Hw; discriminate | exact Hw].
  - destruct Ht as [Ht | Ht];
      [vm_compute; reflexivity | vm_compute in Ht; discriminate | exact Ht].
Defined.

(** C3 as stated fails twice.  After a report at 5ms and a call of
    [ResetNonEmptySince] the weight is 1 while [non_empty_since_] is
    +infinity, above [last_update_time_].  And a report with infinite [qps]
    and [utilization] stores a NaN, which is not [>= 0]. *)
Lemma weight_invariant_as_stated_fails :
  ~ weight_invariant_as_stated
      (run_calls
         [CallMaybeUpdateWeight (FromMillisecondsAfterProcessEpoch 5)
            (double_of_Z 1) (double_of_Z 0) (double_of_Z 1) (float_of_Z 0);
          CallResetNonEmptySince]
         EndpointWeight_init)
  /\ ~ weight_invariant_as_stated
         (run_calls
            [CallMaybeUpdateWeight (FromMillisecondsAfterProcessEpoch 5)
               (S754_infinity false) (double_of_Z 0) (S754_infinity false)
               (float_of_Z 0)]
            EndpointWeight_init).
Proof.
  split.
  - intros [_ H]. vm_compute in H. discriminate (H eq_refl).
  - intros [H _]. vm_compute in H. discriminate H.
Qed.

(** The clock readings matter.  [MaybeUpdateWeight] reads the clock
    before it takes the lock, so of two reports the one with the later
    reading can be applied first; [non_empty_since_] is then the later
    reading and [last_update_time_] the earlier one. *)
Lemma weight_invariant_needs_clock :
  fgt (weight_ (run_calls
                  [CallMaybeUpdateWeight
                     (FromMillisecondsAfterProcessEpoch 10) (double_of_Z 1)
                     (double_of_Z 0) (double_of_Z 1) (float_of_Z 0);
                   CallMaybeUpdateWeight
                     (FromMillisecondsAfterProcessEpoch 5) (double_of_Z 1)
                     (double_of_Z 0) (double_of_Z 1) (float_of_Z 0)]
                  EndpointWeight_init)) fzero
  = true
  /\ ~ weight_invariant_as_stated
        (run_calls
           [CallMaybeUpdateWeight
              (FromMillisecondsAfterProcessEpoch 10) (double_of_Z 1)
              (double_of_Z 0) (double_of_Z 1) (float_of_Z 0);
            CallMaybeUpdateWeight
              (FromMillisecondsAfterProcessEpoch 5) (double_of_Z 1)
              (double_of_Z 0) (double_of_Z 1) (float_of_Z 0)]
           EndpointWeight_init).
Proof.
  split; [vm_compute; reflexivity |].
  intros [_ H]. vm_compute in H. discriminate (H eq_refl).
Qed.

(** ** Picker *)

Section PickerProperties.
Context {C : Collaborators}.

Lemma candidate_in_range (n : nat) (sequence : Z) :
  n <> O -> 0 <= sequence mod Z.of_nat n < Z.of_nat n.
Proof. intros Hn. apply Z.mod_pos_bound. lia. Qed.

Lemma candidate_has_credit (s : StaticStrideScheduler) (sequence : Z) :
  length (weights_ s) <> O ->
  exists credit,
    weights_ s !! Z.to_nat (sequence mod Z.of_nat (length (weights_ s)))
    = Some credit.
Proof.
  intros Hn. apply lookup_lt_is_Some_2.
  pose proof (candidate_in_range _ sequence Hn). lia.
Qed.

Lemma StaticStrideScheduler_Pick_range fuel s :
  forall state index state',
    StaticStrideScheduler_Pick fuel s state = Done (index, state') ->
    0 <= index < Z.of_nat (length (weights_ s)).
Proof.
  induction fuel as [| fuel IH]; intros state index state' H; simpl in H;
    [discriminate |].
  destruct (length (weights_ s) =? 0)%nat eqn:Hn; [discriminate |].
  apply Nat.eqb_neq in Hn.
  destruct (candidate_has_credit s state Hn) as [credit Hc].
  rewrite Hc in H. simpl in H.
  destruct (credit >? _).
  - injection H as <- _. now apply candidate_in_range.
  - now apply IH in H.
Qed.

Lemma StaticStrideScheduler_Pick_never_check fuel s :
  forall state, StaticStrideScheduler_Pick fuel s state <> Abort CheckFailed.
Proof.
  induction fuel as [| fuel IH]; intros state; simpl; [discriminate |].
  destruct (length (weights_ s) =? 0)%nat eqn:Hn; [discriminate |].
  apply Nat.eqb_neq in Hn.
  destruct (candidate_has_credit s state Hn) as [credit Hc].
  rewrite Hc. simpl. destruct (credit >? _); [discriminate | apply IH].
Qed.

(** The retry loop returns as soon as one of the candidates within the
    fuel is accepted. *)
Lemma StaticStrideScheduler_Pick_returns fuel s :
  length (weights_ s) <> O ->
  forall state k,
    (k < fuel)%nat -> stride_accepts s (nth_sequence k state) = true ->
    exists index state',
      StaticStrideScheduler_Pick fuel s state = Done (index, state').
Proof.
  intros Hn. induction fuel as [| fuel IH]; intros state k Hk Hacc; [lia |].
  simpl. destruct (length (weights_ s) =? 0)%nat eqn:Hz;
    [apply Nat.eqb_eq in Hz; contradiction |].
  destruct (candidate_has_credit s state Hn) as [credit Hc].
  rewrite Hc. simpl.
  destruct (credit >? _) eqn:Hcr; [eauto |].
  destruct k as [| k].
  - simpl in Hacc. unfold stride_accepts in Hacc. rewrite Hc in Hacc.
    congruence.
  - apply (IH _ k); [lia | exact Hacc].
Qed.

Lemma collect_weights_length now cfg es :
  forall n1 n2 w ws n1' n2' w',
    collect_weights now cfg es n1 n2 w = Done (ws, n1', n2', w') ->
    length ws = length es.
Proof.
  induction es as [| e es IH]; intros n1 n2 w ws n1' n2' w' H; simpl in H.
  - now injection H as <- _ _ _.
  - destruct (weights w !! info_weight e) as [ew |]; [| discriminate].
    destruct cfg as [c |]; [| discriminate]. simpl in H.
    destruct (collect_weights now (Some c) es _ _ _)
      as [[[[ws0 a] b] w0] |] eqn:E; [| discriminate].
    simpl in H. injection H as <- _ _ _. simpl. f_equal.
    now apply IH in E.
Qed.

Lemma StaticStrideScheduler_Make_length ws s :
  StaticStrideScheduler_Make ws = Some s -> length (weights_ s) = length ws.
Proof.
  unfold StaticStrideScheduler_Make.
  destruct (_ <? 2)%nat; [discriminate |].
  intros [= <-]. simpl. apply length_map.
Qed.

(** Every picker that leaves [BuildSchedulerAndStartTimerLocked] has a
    scheduler over exactly its snapshot. *)
Lemma BuildSchedulerAndStartTimerLocked_wf now p w p' w' :
  BuildSchedulerAndStartTimerLocked now p w = Done (p', w') ->
  Picker_wf p' /\ endpoints_ p' = endpoints_ p.
Proof.
  unfold BuildSchedulerAndStartTimerLocked.
  destruct (Picker_wrr_ p); [| discriminate]. simpl.
  destruct (collect_weights now _ _ 0 0 w) as [[[[ws a] b] w0] |] eqn:E;
    [| discriminate].
  simpl. destruct (Picker_config_ p) as [c |]; [| discriminate]. simpl.
  intros [= <- _]. unfold Picker_wf. simpl. split; [| reflexivity].
  destruct (StaticStrideScheduler_Make ws) as [s |] eqn:Hs; [| exact I].
  apply StaticStrideScheduler_Make_length in Hs.
  apply collect_weights_length in E. congruence.
Qed.

Lemma Picker_new_wf random now l w p w' :
  Picker_new random now l w = Done (p, w') -> Picker_wf p.
Proof.
  unfold Picker_new. destruct (lists w !! l) as [el |]; [| discriminate].
  simpl. intros H. now apply BuildSchedulerAndStartTimerLocked_wf in H.
Qed.
End PickerProperties.

Section PickerConstruction.
Context {C : Collaborators}.

Lemma collect_weights_returns now c es :
  forall n1 n2 w,
    Forall (fun e => is_Some (weights w !! info_weight e)) es ->
    exists r, collect_weights now (Some c) es n1 n2 w = Done r.
Proof.
  induction es as [| e es IH]; intros n1 n2 w Hes; simpl; [eauto |].
  inversion Hes as [| ? ? [ew He] Hrest]; subst. rewrite He. simpl.
  match goal with
  | |- context [collect_weights now (Some c) es ?a ?b ?w2] =>
      destruct (IH a b w2) as [[[[ws x] y] w3] ->]
  end; [| simpl; eauto].
  eapply Forall_impl; [exact Hrest |].
  intros e' [ew' He']. simpl. rewrite lookup_insert.
  destruct (decide (info_weight e = info_weight e')); eauto.
Qed.

(** The constructor completes when the policy has a configuration and
    the weights of the list's endpoints are in the store. *)
Lemma Picker_new_returns random now this self w :
  lists w !! this = Some self ->
  config_ (wrr w) <> None ->
  Forall (fun ep => is_Some (weights w !! WrrEndpoint_weight_ ep))
    (endpoints self) ->
  exists picker w1, Picker_new random now this w = Done (picker, w1).
Proof.
  intros Hl Hcfg Hws. unfold Picker_new. rewrite Hl. simpl.
  unfold BuildSchedulerAndStartTimerLocked. simpl.
  destruct (config_ (wrr w)) as [c |]; [| contradiction].
  match goal with
  | |- context [collect_weights now (Some c) ?es 0 0 ?w2] =>
      destruct (collect_weights_returns now c es 0 0 w2)
        as [[[[ws x] y] w3] ->]
  end; [| simpl; eauto].
  apply Forall_forall. intros info Hin.
  apply list_elem_of_In, in_map_iff in Hin as (ep & <- & Hep).
  apply filter_In in Hep as [Hep _].
  rewrite Forall_forall in Hws. apply Hws, list_elem_of_In. exact Hep.
Qed.
End PickerConstruction.

Section PickProperties.
Context {C : Collaborators}.

Lemma PickIndex_keeps_endpoints fuel p w index p' w' :
  PickIndex fuel p w = Done (index, p', w') -> endpoints_ p' = endpoints_ p.
Proof.
  unfold PickIndex. destruct (scheduler_ p) as [s |].
  - destruct (Picker_wrr_ p); [| discriminate]. simpl.
    destruct (StaticStrideScheduler_Pick fuel s _) as [[i st] |];
      [| discriminate].
    simpl. now intros [= _ <- _].
  - destruct (_ =? 0); [discriminate |]. simpl. now intros [= _ <- _].
Qed.

Lemma PickIndex_range fuel p w index p' w' :
  Picker_wf p -> endpoints_ p <> [] ->
  PickIndex fuel p w = Done (index, p', w') ->
  0 <= index < Z.of_nat (length (endpoints_ p)).
Proof.
  unfold Picker_wf, PickIndex. intros Hwf Hne.
  assert (Hlen : length (endpoints_ p) <> O)
    by (destruct (endpoints_ p); [contradiction | discriminate]).
  destruct (scheduler_ p) as [s |].
  - destruct (Picker_wrr_ p); [| discriminate]. simpl.
    destruct (StaticStrideScheduler_Pick fuel s _) as [[i st] |] eqn:E;
      [| discriminate].
    simpl. intros [= <- _ _].
    apply StaticStrideScheduler_Pick_range in E. lia.
  - destruct (_ =? 0) eqn:Hz; [discriminate |]. simpl. intros [= <- _ _].
    now apply candidate_in_range.
Qed.

Lemma PickIndex_never_check fuel p w :
  PickIndex fuel p w <> Abort CheckFailed.
Proof.
  unfold PickIndex. destruct (scheduler_ p) as [s |].
  - destruct (Picker_wrr_ p); [| discriminate]. simpl.
    pose proof (StaticStrideScheduler_Pick_never_check fuel s
                  (scheduler_state_ (wrr w))) as H.
    destruct (StaticStrideScheduler_Pick fuel s _) as [[i st] | why];
      [discriminate |].
    simpl. congruence.
  - destruct (_ =? 0); discriminate.
Qed.

(** C8.  On a picker with a non-empty snapshot, every index that
    [PickIndex] returns lies in [0, snapshot size); without a scheduler
    [PickIndex] returns [last_picked_index_ mod n], which is below the
    snapshot size, and leaves the counter advanced by one; with a
    scheduler it returns as soon as one of the candidates tried is
    accepted; and the bounds check of [Pick] never fails. *)
Theorem Pick_index_in_range fuel args p w :
  Picker_wf p -> endpoints_ p <> [] ->
  let n := Z.of_nat (length (endpoints_ p)) in
  (forall index p' w',
      PickIndex fuel p w = Done (index, p', w') -> 0 <= index < n)
  /\ (scheduler_ p = None ->
      0 <= last_picked_index_ p mod n < n
      /\ PickIndex fuel p w
         = Done (last_picked_index_ p mod n,
                 set_last_picked_index_
                   ((last_picked_index_ p + 1) mod 2 ^ 64) p,
                 w))
  /\ (forall s k,
        scheduler_ p = Some s -> Picker_wrr_ p = true -> (k < fuel)%nat ->
        stride_accepts s (nth_sequence k (scheduler_state_ (wrr w))) = true ->
        exists r, PickIndex fuel p w = Done r)
  /\ Pick fuel args p w <> Abort CheckFailed.
Proof.
  intros Hwf Hne n.
  assert (Hlen : length (endpoints_ p) <> O)
    by (destruct (endpoints_ p); [contradiction | discriminate]).
  split;
    [intros index p' w' H;
     now apply (PickIndex_range fuel p w index p' w') |].
  split; [| split].
  - intros Hs. split; [now apply candidate_in_range |].
    unfold PickIndex. rewrite Hs.
    destruct (Z.of_nat (length (endpoints_ p)) =? 0) eqn:Hz;
      [apply Z.eqb_eq in Hz; lia | reflexivity].
  - intros s k Hs Hw Hk Hacc. unfold PickIndex. rewrite Hs, Hw. simpl.
    assert (Hs' : length (weights_ s) <> O)
      by (unfold Picker_wf in Hwf; rewrite Hs in Hwf; congruence).
    destruct (StaticStrideScheduler_Pick_returns fuel s Hs' _ k Hk Hacc)
      as (index & state' & ->).
    simpl. eauto.
  - unfold Pick.
    destruct (PickIndex fuel p w) as [[[index p1] w1] | why] eqn:E.
    + pose proof (PickIndex_range _ _ _ _ _ _ Hwf Hne E) as Hr.
      apply PickIndex_keeps_endpoints in E. simpl.
      unfold Pick_at. rewrite E.
      destruct (index <? Z.of_nat (length (endpoints_ p))) eqn:Hlt;
        [| apply Z.ltb_ge in Hlt; lia].
      simpl.
      destruct (endpoints_ p !! Z.to_nat index) as [info |];
        [| discriminate].
      simpl. destruct (info_picker info); [| discriminate]. simpl.
      destruct (Picker_config_ p1); [| discriminate]. simpl.
      destruct (negb _); [| discriminate].
      destruct (SubchannelPicker_Pick _ _); discriminate.
    + pose proof (PickIndex_never_check fuel p w) as H. rewrite E in H.
      simpl. congruence.
Qed.
End PickProperties.

Lemma Pick_index_in_range_witness :
  @PickIndex sample_collaborators 1 sample_picker (World_init 0)
  = Done (1, set_last_picked_index_ 6 sample_picker, World_init 0)
  /\ @Pick sample_collaborators 1 0%nat sample_picker (World_init 0)
     <> Abort CheckFailed.
Proof.
  destruct (@Pick_index_in_range sample_collaborators 1 0%nat sample_picker
              (World_init 0)) as (_ & H & _ & Hc);
    [exact I | discriminate |].
  split; [| exact Hc].
  destruct H as [_ H]; [reflexivity | exact H].
Defined.

(** ** Counters of an endpoint list *)

Lemma filter_length_le {A} (f : A -> bool) (l : list A) :
  (length (List.filter f l) <= length l)%nat.
Proof.
  induction l as [| a l IH]; simpl; [lia |]. destruct (f a); simpl; lia.
Qed.

Lemma filter_length_zero_iff {A} (f : A -> bool) (l : list A) :
  length (List.filter f l) = O <-> Forall (fun a => f a = false) l.
Proof.
  induction l as [| a l IH]; simpl.
  - split; [constructor | reflexivity].
  - destruct (f a) eqn:E; simpl.
    + split; [discriminate |]. intros H. inversion H; subst. congruence.
    + rewrite IH. split; [now constructor |]. intros H. now inversion H.
Qed.

Lemma filter_length_full_iff {A} (f : A -> bool) (l : list A) :
  length (List.filter f l) = length l <-> Forall (fun a => f a = true) l.
Proof.
  induction l as [| a l IH]; simpl.
  - split; [constructor | reflexivity].
  - pose proof (filter_length_le f l) as Hle.
    destruct (f a) eqn:E; simpl.
    + split.
      * intros [= H]. constructor; [exact E | now apply IH].
      * intros H. inversion H; subst. f_equal. now apply IH.
    + split; [lia |]. intros H. inversion H; subst. congruence.
Qed.

Lemma filter_length_pos_iff {A} (f : A -> bool) (l : list A) :
  (0 < length (List.filter f l))%nat <-> Exists (fun a => f a = true) l.
Proof.
  induction l as [| a l IH]; simpl.
  - split; [lia |]. intros H. inversion H.
  - destruct (f a) eqn:E; simpl.
    + split; [now left | lia].
    + rewrite IH. split; [now right |].
      intros H. inversion H; subst; [congruence | assumption].
Qed.

Lemma filter_length_insert {A} (f : A -> bool) (l : list A) :
  forall i x y,
    l !! i = Some x ->
    Z.of_nat (length (List.filter f (<[i:=y]> l)))
    = Z.of_nat (length (List.filter f l))
      - (if f x then 1 else 0) + (if f y then 1 else 0).
Proof.
  induction l as [| a l IH]; intros i x y Hi; [discriminate |].
  destruct i as [| i]; simpl in *.
  - injection Hi as ->. destruct (f x), (f y); simpl; lia.
  - pose proof (IH i x y Hi) as H.
    destruct (f a); simpl length; rewrite ?Nat2Z.inj_succ; lia.
Qed.

Lemma endpoint_in_ready e :
  endpoint_in is_ready e = true
  <-> connectivity_state_ e = Some GRPC_CHANNEL_READY.
Proof.
  unfold endpoint_in, is_ready.
  destruct (connectivity_state_ e) as [[] |]; simpl; split;
    congruence || discriminate.
Qed.

Lemma endpoint_in_transient_failure e :
  endpoint_in is_transient_failure e = true
  <-> connectivity_state_ e = Some GRPC_CHANNEL_TRANSIENT_FAILURE.
Proof.
  unfold endpoint_in, is_transient_failure.
  destruct (connectivity_state_ e) as [[] |]; simpl; split;
    congruence || discriminate.
Qed.

Lemma no_ready_iff l :
  counters_consistent l -> (num_ready_ l = 0 <-> no_endpoint_ready l).
Proof.
  intros Hc. rewrite (ready_counted l Hc). unfold count_in, no_endpoint_ready.
  rewrite <- Nat2Z.inj_0, Nat2Z.inj_iff, filter_length_zero_iff.
  apply Forall_iff. intros e. rewrite <- endpoint_in_ready.
  destruct (endpoint_in is_ready e); split; congruence.
Qed.

Lemma some_ready_iff l :
  counters_consistent l -> (0 < num_ready_ l <-> some_endpoint_ready l).
Proof.
  intros Hc. rewrite (ready_counted l Hc). unfold count_in, some_endpoint_ready.
  rewrite <- Nat2Z.inj_0, <- Nat2Z.inj_lt, filter_length_pos_iff.
  split; intros H; (eapply Exists_impl; [exact H |]); intros e;
    apply endpoint_in_ready.
Qed.

Lemma all_transient_failure_iff l :
  counters_consistent l ->
  (num_transient_failure_ l = EndpointList_size l
   <-> all_endpoints_in_transient_failure l).
Proof.
  intros Hc. rewrite (failure_counted l Hc).
  unfold count_in, EndpointList_size, all_endpoints_in_transient_failure.
  rewrite Nat2Z.inj_iff, filter_length_full_iff.
  apply Forall_iff. intros e. apply endpoint_in_transient_failure.
Qed.

Lemma AllEndpointsSeenInitialState_iff l :
  AllEndpointsSeenInitialState l = true <-> all_endpoints_seen_initial_state l.
Proof.
  unfold AllEndpointsSeenInitialState, all_endpoints_seen_initial_state.
  rewrite forallb_forall, Forall_forall.
  split; intros H e He; specialize (H e); rewrite <- list_elem_of_In in *;
    specialize (H He); destruct (connectivity_state_ e); congruence.
Qed.

Lemma swap_condition_iff active self :
  counters_consistent active -> counters_consistent self ->
  (swap_condition active self = true <-> promotion_rule active self).
Proof.
  intros Ha Hs. unfold swap_condition, promotion_rule.
  rewrite !orb_true_iff, andb_true_iff, !Z.eqb_eq.
  rewrite <- Zgt_is_gt_bool, Z.gt_lt_iff.
  rewrite (no_ready_iff active Ha), (some_ready_iff self Hs),
    (all_transient_failure_iff self Hs), AllEndpointsSeenInitialState_iff.
  tauto.
Qed.

(** ** The lifetime of a weight *)

Lemma weights_released_refl w : weights_released w w.
Proof. unfold weights_released. repeat split; auto. Qed.

Lemma weights_released_trans w1 w2 w3 :
  weights_released w1 w2 -> weights_released w2 w3 ->
  weights_released w1 w3.
Proof.
  unfold weights_released.
  intros (A1 & A2 & A3 & A4 & A5 & A6 & A7 & A8 & A9 & A10 & A11 & A12
          & A13)
         (B1 & B2 & B3 & B4 & B5 & B6 & B7 & B8 & B9 & B10 & B11 & B12
          & B13).
  repeat split; try congruence.
  - transitivity (weight_unreferenced w2); assumption.
  - intros P H. apply B13, A13, H.
Qed.

Section WeightLifetimeFacts.
Context {C : Collaborators}.

Lemma Forall_map_erase (P : list grpc_resolved_address * WeightRef -> Prop)
    key m :
  Forall P m -> Forall P (map_erase key m).
Proof.
  induction 1 as [| [k x] rest Hx Hrest IH]; simpl; [constructor |].
  destruct (EndpointAddressSet_lt key k); [now constructor |].
  destruct (EndpointAddressSet_lt k key); [now constructor | exact Hrest].
Qed.

Lemma EndpointWeight_destroy_released r w w' :
  EndpointWeight_destroy r w = Done w' -> weights_released w w'.
Proof.
  unfold EndpointWeight_destroy.
  destruct (weight_keys w !! r) as [key |]; [| discriminate]. simpl.
  destruct (map_find key (endpoint_weight_map_ (wrr w))) as [r' |];
    [destruct (r' =? r)%nat |]; intros [= <-];
    try apply weights_released_refl.
  unfold weights_released. simpl. repeat split; auto.
  intros P. apply Forall_map_erase.
Qed.

Lemma EndpointWeight_Unref_last_released r w :
  weights_released w (EndpointWeight_Unref_last r w).
Proof.
  unfold weights_released, EndpointWeight_Unref_last. simpl.
  repeat split; auto. set_solver.
Qed.

Lemma EndpointWeight_Unref_released r others w :
  weights_released w (EndpointWeight_Unref r others w).
Proof.
  unfold EndpointWeight_Unref.
  destruct (_ || _); [apply weights_released_refl |].
  destruct (EndpointWeight_destroy r (EndpointWeight_Unref_last r w))
    as [w2 |] eqn:E.
  - eapply weights_released_trans;
      [apply EndpointWeight_Unref_last_released
      | eapply EndpointWeight_destroy_released, E].
  - apply EndpointWeight_Unref_last_released.
Qed.

Lemma release_endpoints_released es w :
  weights_released w (release_endpoints es w).
Proof.
  revert w. induction es as [| e rest IH]; intros w; simpl.
  - apply weights_released_refl.
  - eapply weights_released_trans;
      [apply EndpointWeight_Unref_released | apply IH].
Qed.

(** Destroying a list takes it out of the store and releases weights;
    nothing else changes. *)
Lemma destroy_list_released l w :
  weights_released
    (match l with Some r => set_lists (delete r) w | None => w end)
    (destroy_list l w).
Proof.
  destruct l as [r |]; simpl;
    [apply release_endpoints_released | apply weights_released_refl].
Qed.

Lemma lists_destroy_list l w :
  lists (destroy_list l w)
  = match l with Some r => delete r (lists w) | None => lists w end.
Proof.
  destruct (destroy_list_released l w) as (H & _). rewrite H.
  destruct l; reflexivity.
Qed.

Lemma weights_destroy_list l w : weights (destroy_list l w) = weights w.
Proof.
  destruct (destroy_list_released l w) as (_ & H & _). rewrite H.
  destruct l; reflexivity.
Qed.

Lemma effects_destroy_list l w : effects (destroy_list l w) = effects w.
Proof.
  destruct (destroy_list_released l w) as (_ & _ & _ & _ & _ & H & _).
  rewrite H. destruct l; reflexivity.
Qed.

Lemma weight_calls_destroy_list l w :
  weight_calls (destroy_list l w) = weight_calls w.
Proof.
  destruct (destroy_list_released l w) as (_ & _ & _ & _ & H & _).
  rewrite H. destruct l; reflexivity.
Qed.

Lemma policy_destroy_list l w :
  config_ (wrr (destroy_list l w)) = config_ (wrr w)
  /\ endpoint_list_ (wrr (destroy_list l w)) = endpoint_list_ (wrr w)
  /\ latest_pending_endpoint_list_ (wrr (destroy_list l w))
     = latest_pending_endpoint_list_ (wrr w)
  /\ shutdown_ (wrr (destroy_list l w)) = shutdown_ (wrr w)
  /\ scheduler_state_ (wrr (destroy_list l w)) = scheduler_state_ (wrr w).
Proof.
  destruct (destroy_list_released l w)
    as (_ & _ & _ & _ & _ & _ & H1 & H2 & H3 & H4 & H5 & _).
  rewrite H1, H2, H3, H4, H5. destruct l; repeat split.
Qed.

Lemma EndpointWeight_Unref_outside_frame r w :
  lists (EndpointWeight_Unref_outside r w) = lists w
  /\ wrr (EndpointWeight_Unref_outside r w) = wrr w
  /\ weights (EndpointWeight_Unref_outside r w) = weights w
  /\ effects (EndpointWeight_Unref_outside r w) = effects w.
Proof.
  unfold EndpointWeight_Unref_outside.
  destruct (EndpointWeight_referenced _ _); repeat split.
Qed.

Lemma map_destroy_list_Forall
    (P : list grpc_resolved_address * WeightRef -> Prop) l w :
  Forall P (endpoint_weight_map_ (wrr w)) ->
  Forall P (endpoint_weight_map_ (wrr (destroy_list l w))).
Proof.
  intros H.
  destruct (destroy_list_released l w)
    as (_ & _ & _ & _ & _ & _ & _ & _ & _ & _ & _ & _ & Hm).
  apply Hm. destruct l; exact H.
Qed.
End WeightLifetimeFacts.

(** ** Aggregation of the connectivity state *)

Lemma ptr_eqb_eq a b : ptr_eqb a b = true <-> a = b.
Proof.
  destruct a as [x |], b as [y |]; simpl; try (split; congruence).
  rewrite Nat.eqb_eq. split; congruence.
Qed.

Lemma ptr_eqb_refl a : ptr_eqb a a = true.
Proof. now apply ptr_eqb_eq. Qed.

Lemma lists_put_list_eq r l w : lists (put_list r l w) !! r = Some l.
Proof. unfold put_list, set_lists. simpl. apply lookup_insert_eq. Qed.

Lemma lists_put_list_ne r r' l w :
  r <> r' -> lists (put_list r l w) !! r' = lists w !! r'.
Proof.
  intros H. unfold put_list, set_lists. simpl. now apply lookup_insert_ne.
Qed.

Section AggregationProperties.
Context {C : Collaborators}.

Lemma Picker_new_snapshot random now this self w picker w1 :
  lists w !! this = Some self ->
  Picker_new random now this w = Done (picker, w1) ->
  endpoints_ picker = ready_snapshot self.
Proof.
  unfold Picker_new. intros ->. simpl. intros H.
  apply BuildSchedulerAndStartTimerLocked_wf in H as [_ ->]. simpl.
  reflexivity.
Qed.

(** A call on a list that is current and not pending goes straight to
    the second half. *)
Lemma aggregation_of_current_list random now status this self w :
  lists w !! this = Some self ->
  latest_pending_endpoint_list_ (wrr w) <> Some this ->
  MaybeUpdateAggregatedConnectivityStateLocked random now this status w
  = set_state_if_current random now this status w.
Proof.
  intros Hl Hp. unfold MaybeUpdateAggregatedConnectivityStateLocked,
    swap_if_latest_pending.
  rewrite Hl. simpl.
  destruct (ptr_eqb _ (Some this)) eqn:E;
    [apply ptr_eqb_eq in E; contradiction | reflexivity].
Qed.

Lemma promote_pending_pointers w :
  endpoint_list_ (wrr (promote_pending w))
  = latest_pending_endpoint_list_ (wrr w)
  /\ latest_pending_endpoint_list_ (wrr (promote_pending w)) = None.
Proof.
  unfold promote_pending, destroy_list.
  destruct (endpoint_list_ (wrr w)); split; reflexivity.
Qed.

(** The second half on the current list: the first matching rule
    wins. *)
Lemma first_match_of_current random now status this self w :
  endpoint_list_ (wrr w) = Some this ->
  lists w !! this = Some self ->
  (0 < num_ready_ self ->
     set_state_if_current random now this status w
     = ('(picker, w1) ← Picker_new random now this w;
        Done (emit (UpdateState GRPC_CHANNEL_READY OkStatus
                      (WrrPicker picker)) w1))
     /\ (forall picker w1,
            Picker_new random now this w = Done (picker, w1) ->
            endpoints_ picker = ready_snapshot self)
     /\ (config_ (wrr w) <> None ->
         Forall (fun ep => is_Some (weights w !! WrrEndpoint_weight_ ep))
           (endpoints self) ->
         exists picker w1,
           Picker_new random now this w = Done (picker, w1)))
  /\ (num_ready_ self <= 0 -> 0 < num_connecting_ self ->
      set_state_if_current random now this status w
      = Done (emit (UpdateState GRPC_CHANNEL_CONNECTING OkStatus QueuePicker)
                w))
  /\ (num_ready_ self <= 0 -> num_connecting_ self <= 0 ->
      num_transient_failure_ self = EndpointList_size self ->
      (Status_ok status = false ->
         set_state_if_current random now this status w
         = Done (emit (ReportTransientFailure this
                         (UnavailableError
                            ("connections to all backends failing; last error: "
                             ++ Status_ToString status)))
                   (put_list this
                      (set_last_failure_
                         (UnavailableError
                            ("connections to all backends failing; last error: "
                             ++ Status_ToString status)) self) w)))
      /\ (Status_ok status = true ->
          set_state_if_current random now this status w
          = Done (emit (ReportTransientFailure this (last_failure_ self))
                    (put_list this self w)))
      /\ (forall ok_status random' now',
            Status_ok status = false -> Status_ok ok_status = true ->
            exists w1 w2,
              set_state_if_current random now this status w = Done w1
              /\ set_state_if_current random' now' this ok_status w1
                 = Done w2
              /\ effects w2
                 = effects w
                   ++ [ReportTransientFailure this
                         (failure_to_report status self);
                       ReportTransientFailure this
                         (failure_to_report status self)])).
Proof.
  intros Hcur Hl.
  assert (Hhead : forall rnd t st (w0 : World) (l0 : WrrEndpointList),
             endpoint_list_ (wrr w0) = Some this ->
             lists w0 !! this = Some l0 ->
             num_ready_ l0 <= 0 -> num_connecting_ l0 <= 0 ->
             num_transient_failure_ l0 = EndpointList_size l0 ->
             set_state_if_current rnd t this st w0
             = Done (emit (ReportTransientFailure this
                             (failure_to_report st l0))
                       (put_list this
                          (set_last_failure_ (failure_to_report st l0) l0)
                          w0))).
  { intros rnd t st w0 l0 H1 H2 Hr Hc Ht. unfold set_state_if_current.
    rewrite H2, H1, ptr_eqb_refl. simpl.
    destruct (num_ready_ l0 >? 0) eqn:E1; [apply Z.gtb_lt in E1; lia |].
    destruct (num_connecting_ l0 >? 0) eqn:E2; [apply Z.gtb_lt in E2; lia |].
    rewrite Ht, Z.eqb_refl. reflexivity. }
  split; [| split].
  - intros Hr. split.
    + unfold set_state_if_current. rewrite Hl, Hcur, ptr_eqb_refl. simpl.
      destruct (num_ready_ self >? 0) eqn:E;
        [reflexivity | rewrite Z.gtb_ltb in E; apply Z.ltb_ge in E; lia].
    + split.
      * intros picker w1 H.
        now apply (Picker_new_snapshot random now this self w picker w1).
      * intros Hcfg Hws. now apply (Picker_new_returns random now this self).
  - intros Hr Hc. unfold set_state_if_current.
    rewrite Hl, Hcur, ptr_eqb_refl. simpl.
    destruct (num_ready_ self >? 0) eqn:E1; [apply Z.gtb_lt in E1; lia |].
    destruct (num_connecting_ self >? 0) eqn:E2;
      [reflexivity | rewrite Z.gtb_ltb in E2; apply Z.ltb_ge in E2; lia].
  - intros Hr Hc Ht. split; [| split].
    + intros Hok. rewrite (Hhead random now status w self Hcur Hl Hr Hc Ht).
      unfold failure_to_report. rewrite Hok. reflexivity.
    + intros Hok. rewrite (Hhead random now status w self Hcur Hl Hr Hc Ht).
      unfold failure_to_report. rewrite Hok. simpl.
      destruct self; reflexivity.
    + intros ok_status random' now' Hbad Hok.
      eexists _, _.
      split; [apply (Hhead random now status w self Hcur Hl Hr Hc Ht) |].
      split.
      * apply (Hhead random' now' ok_status _
                 (set_last_failure_ (failure_to_report status self) self));
          [exact Hcur | apply lists_put_list_eq | exact Hr | exact Hc
          | exact Ht].
      * assert (Hf : failure_to_report ok_status
                       (set_last_failure_ (failure_to_report status self)
                          self)
                     = failure_to_report status self)
          by (unfold failure_to_report at 1; rewrite Hok; reflexivity).
        rewrite Hf. simpl. rewrite <- app_assoc. reflexivity.
Qed.
(** An aggregation over the active list runs the second half in the
    world in which the list is current. *)
Lemma aggregates_as_active_run random now status this self w w0 :
  aggregates_as_active this w w0 ->
  lists w0 !! this = Some self ->
  MaybeUpdateAggregatedConnectivityStateLocked random now this status w
  = set_state_if_current random now this status w0
  /\ endpoint_list_ (wrr w0) = Some this
  /\ latest_pending_endpoint_list_ (wrr w0) <> Some this.
Proof.
  intros [(Hc & Hp & ->) | (Hp & act & active & self' & Hc & Ha & Hs & Hsw
                            & ->)] Hl.
  - split; [now apply (aggregation_of_current_list _ _ _ _ self) |].
    split; assumption.
  - destruct (promote_pending_pointers w) as [Ec Ep].
    split; [| split; [now rewrite Ec | now rewrite Ep]].
    unfold MaybeUpdateAggregatedConnectivityStateLocked,
      swap_if_latest_pending.
    rewrite Hs, Hp, ptr_eqb_refl, Hc. simpl. rewrite Ha. simpl.
    now rewrite Hsw.
Qed.

(** C4.  An aggregation over the active list: the list is the current
    one, or it is the latest pending one and is swapped in by this very
    call; [w0] is the world in which it is current.  The first matching
    rule wins.  With a READY endpoint counted, READY is published with
    the picker the constructor builds over this list, whose snapshot is
    the READY endpoints of the list; the constructor completes when the
    policy has a configuration and the weights of the endpoints are in
    the store.  Else, with a CONNECTING endpoint counted, CONNECTING is
    published with a queueing picker.  Else, when all endpoints are
    counted in TRANSIENT_FAILURE, the failure is reported by
    [ReportTransientFailure]; a status that is not OK is first recorded
    in [last_failure_] (wrapped in the policy's message), and an OK
    status leaves [last_failure_] alone, so that the failure recorded by
    an earlier aggregation is the one reported again. *)
Theorem aggregation_first_match random now status this self w w0 :
  aggregates_as_active this w w0 ->
  lists w0 !! this = Some self ->
  let run :=
    MaybeUpdateAggregatedConnectivityStateLocked random now this status
      w in
  (0 < num_ready_ self ->
     run
     = ('(picker, w1) ← Picker_new random now this w0;
        Done (emit (UpdateState GRPC_CHANNEL_READY OkStatus
                      (WrrPicker picker)) w1))
     /\ (forall picker w1,
            Picker_new random now this w0 = Done (picker, w1) ->
            endpoints_ picker = ready_snapshot self)
     /\ (config_ (wrr w0) <> None ->
         Forall (fun ep => is_Some (weights w0 !! WrrEndpoint_weight_ ep))
           (endpoints self) ->
         exists picker w1,
           Picker_new random now this w0 = Done (picker, w1)
           /\ run
              = Done (emit (UpdateState GRPC_CHANNEL_READY OkStatus
                              (WrrPicker picker)) w1)))
  /\ (num_ready_ self <= 0 -> 0 < num_connecting_ self ->
      run
      = Done (emit (UpdateState GRPC_CHANNEL_CONNECTING OkStatus QueuePicker)
                w0))
  /\ (num_ready_ self <= 0 -> num_connecting_ self <= 0 ->
      num_transient_failure_ self = EndpointList_size self ->
      (Status_ok status = false ->
         run
         = Done (emit (ReportTransientFailure this
                         (UnavailableError
                            ("connections to all backends failing; last error: "
                             ++ Status_ToString status)))
                   (put_list this
                      (set_last_failure_
                         (UnavailableError
                            ("connections to all backends failing; last error: "
                             ++ Status_ToString status)) self) w0)))
      /\ (Status_ok status = true ->
          run
          = Done (emit (ReportTransientFailure this (last_failure_ self))
                    (put_list this self w0)))
      /\ (forall ok_status random' now',
            Status_ok status = false -> Status_ok ok_status = true ->
            exists w1 w2,
              run = Done w1
              /\ MaybeUpdateAggregatedConnectivityStateLocked random' now'
                   this ok_status w1 = Done w2
              /\ effects w2
                 = effects w0
                   ++ [ReportTransientFailure this
                         (failure_to_report status self);
                       ReportTransientFailure this
                         (failure_to_report status self)])).
Proof.
  intros Hact Hl run. subst run.
  destruct (aggregates_as_active_run random now status this self w w0
              Hact Hl) as (-> & Hcur & Hpend).
  destruct (first_match_of_current random now status this self w0 Hcur Hl)
    as (H1 & H2 & H3).
  split; [| split; [exact H2 |]].
  - intros Hr. destruct (H1 Hr) as (E & Hsnap & Hret).
    split; [exact E |]. split; [exact Hsnap |].
    intros Hcfg Hws. destruct (Hret Hcfg Hws) as (picker & w1 & Hp).
    exists picker, w1. split; [exact Hp |]. rewrite E, Hp. reflexivity.
  - intros Hr Hc Ht. destruct (H3 Hr Hc Ht) as (T1 & T2 & T3).
    split; [exact T1 |]. split; [exact T2 |].
    intros ok_status random' now' Hbad Hok.
    destruct (T3 ok_status random' now' Hbad Hok) as (w1 & w2 & E1 & E2 & E3).
    exists w1, w2. split; [exact E1 |]. split; [| exact E3].
    rewrite (T1 Hbad) in E1. injection E1 as <-.
    rewrite <- E2.
    apply (aggregation_of_current_list random' now' ok_status this
             (set_last_failure_
                (UnavailableError
                   ("connections to all backends failing; last error: "
                    ++ Status_ToString status)) self)).
    + apply lists_put_list_eq.
    + exact Hpend.
Qed.
End AggregationProperties.

Section PromotionProperties.
Context {C : Collaborators}.

Lemma promote_pending_lists w act :
  endpoint_list_ (wrr w) = Some act ->
  lists (promote_pending w) = delete act (lists w).
Proof.
  intros H. unfold promote_pending. rewrite H.
  exact (lists_destroy_list (Some act) w).
Qed.

Lemma promote_pending_lists_any w :
  lists (promote_pending w)
  = match endpoint_list_ (wrr w) with
    | Some act => delete act (lists w)
    | None => lists w
    end.
Proof.
  unfold promote_pending.
  exact (lists_destroy_list (endpoint_list_ (wrr w)) w).
Qed.

Lemma promote_pending_weights w : weights (promote_pending w) = weights w.
Proof.
  unfold promote_pending.
  exact (weights_destroy_list (endpoint_list_ (wrr w)) w).
Qed.

Lemma promote_pending_weight_calls w :
  weight_calls (promote_pending w) = weight_calls w.
Proof.
  unfold promote_pending.
  exact (weight_calls_destroy_list (endpoint_list_ (wrr w)) w).
Qed.

Lemma promote_pending_config w :
  config_ (wrr (promote_pending w)) = config_ (wrr w).
Proof.
  unfold promote_pending.
  destruct (policy_destroy_list (endpoint_list_ (wrr w)) w) as (H & _).
  exact H.
Qed.

Lemma promote_pending_effects w : effects (promote_pending w) = effects w.
Proof.
  unfold promote_pending.
  exact (effects_destroy_list (endpoint_list_ (wrr w)) w).
Qed.

(** C5.  A state notification handled by the latest pending list, whose
    counters count its endpoints, with a distinct current list.  The
    pending list is swapped into [endpoint_list_] (and the list it
    replaces is destroyed) when (a) no endpoint of the current list is
    READY, or (b) some endpoint of the pending list is READY and all of
    them have delivered their initial state, or (c) all endpoints of the
    pending list are in TRANSIENT_FAILURE.  When none of the three holds
    the call changes nothing: both pointers stay and no state is
    published. *)
Theorem pending_list_promotion random now status this act self active w :
  latest_pending_endpoint_list_ (wrr w) = Some this ->
  endpoint_list_ (wrr w) = Some act ->
  act <> this ->
  lists w !! this = Some self ->
  lists w !! act = Some active ->
  counters_consistent self ->
  counters_consistent active ->
  (promotion_rule active self ->
     swap_if_latest_pending this w = Done (promote_pending w)
     /\ endpoint_list_ (wrr (promote_pending w)) = Some this
     /\ latest_pending_endpoint_list_ (wrr (promote_pending w)) = None
     /\ lists (promote_pending w) !! act = None
     /\ lists (promote_pending w) !! this = Some self
     /\ MaybeUpdateAggregatedConnectivityStateLocked random now this status w
        = set_state_if_current random now this status (promote_pending w))
  /\ (~ promotion_rule active self ->
      swap_if_latest_pending this w = Done w
      /\ MaybeUpdateAggregatedConnectivityStateLocked random now this
           status w = Done w).
Proof.
  intros Hp Ha Hne Hl Hla Hcs Hca.
  pose proof (swap_condition_iff active self Hca Hcs) as Hiff.
  assert (Hswap : swap_if_latest_pending this w
                  = Done (if swap_condition active self
                          then promote_pending w else w)).
  { unfold swap_if_latest_pending.
    rewrite Hl, Hp, ptr_eqb_refl, Ha. simpl. rewrite Hla. reflexivity. }
  split.
  - intros Hrule. apply Hiff in Hrule. rewrite Hrule in Hswap.
    destruct (promote_pending_pointers w) as [H1 H2].
    rewrite (promote_pending_lists w act Ha).
    split; [exact Hswap |]. split; [congruence |]. split; [exact H2 |].
    split; [apply lookup_delete_eq |].
    split; [rewrite lookup_delete_ne by exact Hne; exact Hl |].
    unfold MaybeUpdateAggregatedConnectivityStateLocked.
    rewrite Hswap. reflexivity.
  - intros Hrule.
    destruct (swap_condition active self) eqn:E;
      [exfalso; apply Hrule, Hiff; reflexivity |].
    split; [exact Hswap |].
    unfold MaybeUpdateAggregatedConnectivityStateLocked.
    rewrite Hswap. simpl. unfold set_state_if_current.
    rewrite Hl, Ha. simpl.
    destruct (act =? this)%nat eqn:En;
      [apply Nat.eqb_eq in En; contradiction | reflexivity].
Qed.
End PromotionProperties.

(** ** The counters count the endpoints: an invariant *)

Lemma counters_consistent_same_counts l l' :
  same_counts l l' -> counters_consistent l -> counters_consistent l'.
Proof.
  intros (He & Hr & Hc & Ht) [H1 H2 H3 H4].
  split; unfold count_in, EndpointList_size in *; rewrite He; congruence.
Qed.

Lemma lists_kept_refl w : lists_kept w w.
Proof. intros r l' H. exists l'. repeat split; assumption. Qed.

Lemma lists_kept_trans w1 w2 w3 :
  lists_kept w1 w2 -> lists_kept w2 w3 -> lists_kept w1 w3.
Proof.
  intros H12 H23 r l3 H3.
  destruct (H23 r l3 H3) as (l2 & H2 & He & Hr & Hc & Ht).
  destruct (H12 r l2 H2) as (l1 & H1 & He' & Hr' & Hc' & Ht').
  exists l1. repeat split; congruence.
Qed.

Lemma lists_kept_same_lists w w' : lists w' = lists w -> lists_kept w w'.
Proof.
  intros E r l' H. rewrite E in H. exists l'. repeat split; assumption.
Qed.

Lemma World_consistent_kept w w' :
  lists_kept w w' -> World_consistent w -> World_consistent w'.
Proof.
  intros Hk Hw r l' H. destruct (Hk r l' H) as (l & Hl & Hs).
  apply (counters_consistent_same_counts l l' Hs). now apply (Hw r).
Qed.

Lemma count_in_bounds P l : 0 <= count_in P l <= EndpointList_size l.
Proof.
  unfold count_in, EndpointList_size.
  pose proof (filter_length_le (endpoint_in P) (endpoints l)). lia.
Qed.

Lemma count_in_insert P l i ep ep' :
  endpoints l !! i = Some ep ->
  count_in P (set_endpoints (<[i:=ep']> (endpoints l)) l)
  = count_in P l - (if endpoint_in P ep then 1 else 0)
    + (if endpoint_in P ep' then 1 else 0).
Proof. intros H. unfold count_in. simpl. now apply filter_length_insert. Qed.

Lemma size_t_incr_small n : 0 <= n + 1 < 2 ^ 64 -> size_t_incr n = n + 1.
Proof. intros H. unfold size_t_incr. now apply Z.mod_small. Qed.

(** The step of the base class followed by [UpdateStateCountersLocked]
    keeps the counters in step with the endpoints. *)
Lemma UpdateStateCountersLocked_consistent l i ep new_state picker l2 :
  counters_consistent l ->
  endpoints l !! i = Some ep ->
  let ep' := mkWrrEndpoint (WrrEndpoint_weight_ ep) (Some new_state)
               (Some picker) in
  let l1 := set_endpoints (<[i:=ep']> (endpoints l)) l in
  (if match connectivity_state_ ep with
      | Some old => negb (state_eqb old new_state)
      | None => true
      end
   then UpdateStateCountersLocked (connectivity_state_ ep) new_state l1
   else Done l1) = Done l2 ->
  counters_consistent l2.
Proof.
  intros [Hr Hc Ht Hs] Hi ep' l1 H.
  pose proof (count_in_insert is_ready l i ep ep' Hi) as Cr.
  pose proof (count_in_insert is_connecting_or_idle l i ep ep' Hi) as Cc.
  pose proof (count_in_insert is_transient_failure l i ep ep' Hi) as Ct.
  fold l1 in Cr, Cc, Ct.
  pose proof (count_in_bounds is_ready l1) as Br.
  pose proof (count_in_bounds is_connecting_or_idle l1) as Bc.
  pose proof (count_in_bounds is_transient_failure l1) as Bt.
  assert (Hsz : EndpointList_size l1 = EndpointList_size l)
    by (unfold EndpointList_size, l1; simpl; now rewrite length_insert).
  assert (Hgoal : forall r c t,
             r = count_in is_ready l1 ->
             c = count_in is_connecting_or_idle l1 ->
             t = count_in is_transient_failure l1 ->
             counters_consistent (set_counters r c t l1)).
  { intros r c t -> -> ->. split; try reflexivity.
    unfold EndpointList_size in *. simpl in *. lia. }
  unfold endpoint_in in Cr, Cc, Ct.
  change (connectivity_state_ ep') with (Some new_state) in Cr, Cc, Ct.
  unfold UpdateStateCountersLocked in H.
  change (num_ready_ l1) with (num_ready_ l) in H.
  change (num_connecting_ l1) with (num_connecting_ l) in H.
  change (num_transient_failure_ l1) with (num_transient_failure_ l) in H.
  destruct (connectivity_state_ ep) as [old |].
  - destruct old, new_state; simpl in H, Cr, Cc, Ct;
      try discriminate;
      repeat match type of H with
        | context [CHECK (?x >? 0)] =>
            let E := fresh "E" in
            destruct (x >? 0) eqn:E; simpl in H;
            [apply Z.gtb_lt in E | discriminate]
        end;
      try discriminate;
      rewrite ?size_t_incr_small in H by lia;
      injection H as H; rewrite <- H;
      first [ apply Hgoal; lia
            | apply (Hgoal (num_ready_ l) (num_connecting_ l)
                       (num_transient_failure_ l)); lia ].
  - destruct new_state; simpl in H, Cr, Cc, Ct; try discriminate;
      rewrite ?size_t_incr_small in H by lia;
      injection H as H; rewrite <- H; apply Hgoal; lia.
Qed.

Section ConsistencyInvariant.
Context {C : Collaborators}.

Lemma collect_weights_lists now cfg es :
  forall n1 n2 w ws n1' n2' w',
    collect_weights now cfg es n1 n2 w = Done (ws, n1', n2', w') ->
    lists w' = lists w /\ wrr w' = wrr w.
Proof.
  induction es as [| e es IH]; intros n1 n2 w ws n1' n2' w' H; simpl in H.
  - injection H as _ _ _ <-. split; reflexivity.
  - destruct (weights w !! info_weight e) as [ew |]; [| discriminate].
    destruct cfg as [c |]; [| discriminate]. simpl in H.
    destruct (collect_weights now (Some c) es _ _ _)
      as [[[[ws0 a] b] w0] |] eqn:E; [| discriminate].
    simpl in H. injection H as _ _ _ <-.
    apply IH in E as [-> ->]. split; reflexivity.
Qed.

Lemma BuildSchedulerAndStartTimerLocked_lists now p w p' w' :
  BuildSchedulerAndStartTimerLocked now p w = Done (p', w') ->
  lists w' = lists w /\ wrr w' = wrr w.
Proof.
  unfold BuildSchedulerAndStartTimerLocked.
  destruct (Picker_wrr_ p); [| discriminate]. simpl.
  destruct (collect_weights now _ _ 0 0 w) as [[[[ws a] b] w0] |] eqn:E;
    [| discriminate].
  simpl. destruct (Picker_config_ p) as [c |]; [| discriminate]. simpl.
  intros [= _ <-]. apply collect_weights_lists in E as [<- <-].
  destruct (StaticStrideScheduler_Make ws); split; reflexivity.
Qed.

Lemma Picker_new_lists random now l w p w' :
  Picker_new random now l w = Done (p, w') ->
  lists w' = lists w /\ wrr w' = wrr w.
Proof.
  unfold Picker_new. destruct (lists w !! l) as [el |]; [| discriminate].
  simpl. intros H. now apply BuildSchedulerAndStartTimerLocked_lists in H.
Qed.

Lemma promote_pending_kept w : lists_kept w (promote_pending w).
Proof.
  intros r l' H. rewrite promote_pending_lists_any in H.
  destruct (endpoint_list_ (wrr w)) as [act |]; simpl in H.
  - apply lookup_delete_Some in H as [_ H].
    exists l'. repeat split; assumption.
  - exists l'. repeat split; assumption.
Qed.

Lemma swap_if_latest_pending_kept this w w' :
  swap_if_latest_pending this w = Done w' -> lists_kept w w'.
Proof.
  unfold swap_if_latest_pending.
  destruct (lists w !! this) as [self |]; [| discriminate]. simpl.
  destruct (ptr_eqb _ _).
  - destruct (endpoint_list_ (wrr w)) as [act |]; [| discriminate]. simpl.
    destruct (lists w !! act) as [active |]; [| discriminate]. simpl.
    intros [= <-]. destruct (swap_condition active self);
      [apply promote_pending_kept | apply lists_kept_refl].
  - intros [= <-]. apply lists_kept_refl.
Qed.

Lemma set_state_if_current_kept random now this status w w' :
  set_state_if_current random now this status w = Done w' ->
  lists_kept w w'.
Proof.
  unfold set_state_if_current.
  destruct (lists w !! this) as [self |] eqn:Hl; [| discriminate]. simpl.
  destruct (negb _); [intros [= <-]; apply lists_kept_refl |].
  destruct (num_ready_ self >? 0).
  - destruct (Picker_new random now this w) as [[p w1] |] eqn:E;
      [| discriminate].
    simpl. intros [= <-]. apply Picker_new_lists in E as [E _].
    apply lists_kept_same_lists. exact E.
  - destruct (num_connecting_ self >? 0);
      [intros [= <-]; now apply lists_kept_same_lists |].
    destruct (_ =? _); [| intros [= <-]; apply lists_kept_refl].
    intros [= <-]. intros r l' H. simpl in H.
    destruct (decide (this = r)) as [<- | Hne].
    + rewrite lookup_insert_eq in H. injection H as <-.
      exists self. repeat split; [assumption | reflexivity..].
    + rewrite lookup_insert_ne in H by exact Hne.
      exists l'. repeat split; assumption.
Qed.

Lemma MaybeUpdateAggregatedConnectivityStateLocked_kept
    random now this status w w' :
  MaybeUpdateAggregatedConnectivityStateLocked random now this status w
  = Done w' ->
  lists_kept w w'.
Proof.
  unfold MaybeUpdateAggregatedConnectivityStateLocked.
  destruct (swap_if_latest_pending this w) as [w1 |] eqn:E1;
    [| discriminate].
  simpl. intros E2.
  apply lists_kept_trans with w1;
    [now apply (swap_if_latest_pending_kept this)
    | now apply set_state_if_current_kept in E2].
Qed.

Lemma World_consistent_put_list r l w :
  World_consistent w -> counters_consistent l ->
  World_consistent (put_list r l w).
Proof.
  intros Hw Hl r' l' H. simpl in H.
  destruct (decide (r = r')) as [<- | Hne].
  - rewrite lookup_insert_eq in H. now injection H as <-.
  - rewrite lookup_insert_ne in H by exact Hne. now apply (Hw r').
Qed.

(** Every state notification keeps the counters of every list in step
    with its endpoints. *)
Lemma Endpoint_UpdateState_consistent
    random now this index state status picker w w' :
  World_consistent w ->
  Endpoint_UpdateState random now this index state status picker w
  = Done w' ->
  World_consistent w'.
Proof.
  intros Hw. unfold Endpoint_UpdateState.
  destruct (lists w !! this) as [l |] eqn:Hl; [| discriminate]. simpl.
  destruct (endpoints l !! index) as [ep |] eqn:Hi; [| discriminate]. simpl.
  set (ep' := mkWrrEndpoint (WrrEndpoint_weight_ ep) (Some state)
                (Some picker)).
  set (l1 := set_endpoints (<[index:=ep']> (endpoints l)) l).
  unfold OnStateUpdate. rewrite lists_put_list_eq. simpl.
  rewrite list_lookup_insert_eq by (now apply lookup_lt_Some in Hi).
  simpl.
  match goal with
  | |- (?first ≫= _) = _ -> _ => destruct first as [w1 |] eqn:E1
  end; [| discriminate].
  simpl.
  assert (Hw1 : lists w1 = <[this := l1]> (lists w)).
  { destruct (state_eqb state GRPC_CHANNEL_IDLE).
    - now injection E1 as <-.
    - destruct (state_eqb state GRPC_CHANNEL_READY);
        [| now injection E1 as <-].
      destruct (connectivity_state_ ep) as [old |];
        [| now injection E1 as <-].
      destruct (negb _); [| now injection E1 as <-].
      unfold call_weight in E1.
      destruct (weights _ !! _); [| discriminate].
      simpl in E1. now injection E1 as <-. }
  clear E1.
  pose proof (UpdateStateCountersLocked_consistent l index ep state picker)
    as Hstep.
  fold ep' l1 in Hstep. simpl in Hstep.
  assert (Hw2 : forall l2 w2,
             counters_consistent l2 ->
             lists w2 = <[this := l2]> (lists w) ->
             World_consistent w2).
  { intros l2 w2 Hc E r l' H. rewrite E in H.
    destruct (decide (this = r)) as [<- | Hne].
    - rewrite lookup_insert_eq in H. now injection H as <-.
    - rewrite lookup_insert_ne in H by exact Hne. now apply (Hw r). }
  destruct (match connectivity_state_ ep with
            | Some old => negb (state_eqb old state)
            | None => true
            end).
  - destruct (UpdateStateCountersLocked (connectivity_state_ ep) state l1)
      as [l2 |] eqn:E2; [| discriminate].
    simpl. intros H.
    apply MaybeUpdateAggregatedConnectivityStateLocked_kept in H.
    apply (World_consistent_kept _ _ H).
    pose proof (Hw this l Hl) as Hcl.
    apply (Hw2 l2); [now apply Hstep |].
    unfold put_list, set_lists. simpl. rewrite Hw1. apply insert_insert_eq.
  - simpl. intros H.
    apply MaybeUpdateAggregatedConnectivityStateLocked_kept in H.
    apply (World_consistent_kept _ _ H).
    pose proof (Hw this l Hl) as Hcl.
    apply (Hw2 l1); [now apply Hstep | exact Hw1].
Qed.
End ConsistencyInvariant.

(** ** UpdateLocked *)

Section UpdateProperties.
Context {C : Collaborators}.

Lemma UpdateLocked_empty args w :
  builds_empty_list args w ->
  let new_ref := fresh (dom (lists w)) in
  UpdateLocked args w
  = (empty_list_status args,
     emit (ReportTransientFailure new_ref (empty_list_status args))
       (promote_pending
          (set_wrr (set_latest_pending_endpoint_list_ (Some new_ref))
             (destroy_list (latest_pending_endpoint_list_ (wrr w))
                (put_list new_ref (empty_list args)
                   (after_config args w)))))).
Proof.
  unfold builds_empty_list, UpdateLocked, empty_list_status, empty_list,
    after_config.
  destruct (UpdateArgs_addresses args) as [l | s]; intros H.
  - subst l. reflexivity.
  - simpl. rewrite H. reflexivity.
Qed.

Lemma fresh_list_ref (w : World) : lists w !! fresh (dom (lists w)) = None.
Proof. apply not_elem_of_dom, is_fresh. Qed.

Lemma live_not_fresh (w : World) r :
  is_Some (lists w !! r) -> r <> fresh (dom (lists w)).
Proof. intros [l H] ->. rewrite fresh_list_ref in H. discriminate. Qed.

(** What an update that builds an empty list leaves behind. *)
Lemma UpdateLocked_empty_outcome args w :
  World_wf w -> builds_empty_list args w ->
  let status := empty_list_status args in
  let new_ref := fresh (dom (lists w)) in
  let w' := snd (UpdateLocked args w) in
  fst (UpdateLocked args w) = status
  /\ endpoint_list_ (wrr w') = Some new_ref
  /\ latest_pending_endpoint_list_ (wrr w') = None
  /\ lists w !! new_ref = None
  /\ lists w' !! new_ref = Some (empty_list args)
  /\ effects w'
     = effects w ++ [IncrementWrrUpdates;
                     ReportTransientFailure new_ref status]
  /\ (forall r, endpoint_list_ (wrr w) = Some r
                \/ latest_pending_endpoint_list_ (wrr w) = Some r ->
                lists w' !! r = None).
Proof.
  intros [Hcur Hpend Hbeside] Hempty status new_ref w'.
  subst w'. rewrite (UpdateLocked_empty args w Hempty).
  fold new_ref status.
  assert (Hfresh : forall r, is_Some (lists w !! r) -> r <> new_ref)
    by (intros r H; now apply live_not_fresh).
  split; [reflexivity |].
  set (w2 := put_list new_ref (empty_list args) (after_config args w)).
  set (w3 := set_wrr (set_latest_pending_endpoint_list_ (Some new_ref))
               (destroy_list (latest_pending_endpoint_list_ (wrr w)) w2)).
  change (endpoint_list_ (wrr (promote_pending w3)) = Some new_ref
          /\ latest_pending_endpoint_list_ (wrr (promote_pending w3)) = None
          /\ lists w !! new_ref = None
          /\ lists (promote_pending w3) !! new_ref = Some (empty_list args)
          /\ effects (promote_pending w3)
             ++ [ReportTransientFailure new_ref status]
             = effects w ++ [IncrementWrrUpdates;
                             ReportTransientFailure new_ref status]
          /\ (forall r, endpoint_list_ (wrr w) = Some r
                        \/ latest_pending_endpoint_list_ (wrr w) = Some r ->
                        lists (promote_pending w3) !! r = None)).
  destruct (promote_pending_pointers w3) as [H1 H2].
  split; [exact H1 |]. split; [exact H2 |].
  split; [apply fresh_list_ref |].
  assert (Ec : endpoint_list_ (wrr w3) = endpoint_list_ (wrr w)).
  { unfold w3. simpl.
    destruct (policy_destroy_list
                (latest_pending_endpoint_list_ (wrr w)) w2) as (_ & E & _).
    exact E. }
  assert (El : lists w3
               = match latest_pending_endpoint_list_ (wrr w) with
                 | Some p =>
                     delete p (<[new_ref := empty_list args]> (lists w))
                 | None => <[new_ref := empty_list args]> (lists w)
                 end).
  { unfold w3. simpl. rewrite lists_destroy_list. reflexivity. }
  assert (Ee : effects w3 = effects w ++ [IncrementWrrUpdates]).
  { unfold w3. simpl. rewrite effects_destroy_list. reflexivity. }
  rewrite promote_pending_lists_any, promote_pending_effects, Ec, El, Ee.
  destruct (latest_pending_endpoint_list_ (wrr w)) as [p |] eqn:Ep;
    destruct (endpoint_list_ (wrr w)) as [a |] eqn:Ea.
  - pose proof (Hfresh a (Hcur a eq_refl)) as Ha.
    pose proof (Hfresh p (Hpend p eq_refl)) as Hp.
    destruct (Hbeside p eq_refl) as (a' & [= <-] & Hap).
    split; [rewrite !lookup_delete_ne, lookup_insert_eq by assumption;
            reflexivity |].
    split; [rewrite <- app_assoc; reflexivity |].
    intros r [[= <-] | [= <-]].
    + apply lookup_delete_eq.
    + rewrite lookup_delete_ne, lookup_delete_eq by congruence.
      reflexivity.
  - destruct (Hbeside p eq_refl) as (a' & Hn & _). discriminate.
  - pose proof (Hfresh a (Hcur a eq_refl)) as Ha.
    split; [rewrite lookup_delete_ne, lookup_insert_eq by exact Ha;
            reflexivity |].
    split; [rewrite <- app_assoc; reflexivity |].
    intros r [[= <-] | H]; [apply lookup_delete_eq | discriminate].
  - split; [apply lookup_insert_eq |].
    split; [rewrite <- app_assoc; reflexivity |].
    intros r [H | H]; discriminate.
Qed.

(** C6.  When the update makes the policy build an empty endpoint list,
    that list becomes the current one at once (nothing stays pending and
    the lists held before are destroyed), TRANSIENT_FAILURE is reported
    for it with the status "empty address list" if the resolver
    delivered an address list and with the resolver's status otherwise,
    and [UpdateLocked] returns that same status. *)
Theorem UpdateLocked_empty_address_list args w :
  World_wf w -> builds_empty_list args w ->
  let status := fst (UpdateLocked args w) in
  let w' := snd (UpdateLocked args w) in
  let new_ref := fresh (dom (lists w)) in
  (forall l, UpdateArgs_addresses args = StatusOr_value l ->
             status = UnavailableError "empty address list")
  /\ (forall s, UpdateArgs_addresses args = StatusOr_error s -> status = s)
  /\ lists w !! new_ref = None
  /\ lists w' !! new_ref = Some (empty_list args)
  /\ endpoint_list_ (wrr w') = Some new_ref
  /\ latest_pending_endpoint_list_ (wrr w') = None
  /\ (forall r, endpoint_list_ (wrr w) = Some r
                \/ latest_pending_endpoint_list_ (wrr w) = Some r ->
                lists w' !! r = None)
  /\ effects w'
     = effects w ++ [IncrementWrrUpdates;
                     ReportTransientFailure new_ref status].
Proof.
  intros Hwf Hempty status w' new_ref.
  destruct (UpdateLocked_empty_outcome args w Hwf Hempty)
    as (Hs & Hc & Hp & Hf & Hl & He & Hd).
  fold status in Hs. subst w'. fold new_ref in Hc, Hf, Hl, He.
  rewrite Hs. unfold empty_list_status.
  split; [intros l ->; reflexivity |].
  split; [intros s ->; reflexivity |].
  repeat (split; [assumption |]). exact He.
Qed.

(** C9.  When the resolver delivers an error while the policy has an
    endpoint list, [UpdateLocked] returns the resolver's status and
    leaves every list, both pointers and every weight as they were; the
    only traces are the adopted configuration and the update counter,
    and no state is published.  When the policy has no endpoint list, it
    builds an empty one, makes it current and reports TRANSIENT_FAILURE
    with the resolver's status. *)
Theorem UpdateLocked_resolver_error args w s :
  UpdateArgs_addresses args = StatusOr_error s ->
  let status := fst (UpdateLocked args w) in
  let w' := snd (UpdateLocked args w) in
  (endpoint_list_ (wrr w) <> None ->
     status = s
     /\ lists w' = lists w
     /\ endpoint_list_ (wrr w') = endpoint_list_ (wrr w)
     /\ latest_pending_endpoint_list_ (wrr w')
        = latest_pending_endpoint_list_ (wrr w)
     /\ weights w' = weights w
     /\ endpoint_weight_map_ (wrr w') = endpoint_weight_map_ (wrr w)
     /\ config_ (wrr w') = UpdateArgs_config args
     /\ effects w' = effects w ++ [IncrementWrrUpdates])
  /\ (World_wf w -> endpoint_list_ (wrr w) = None ->
      let new_ref := fresh (dom (lists w)) in
      status = s
      /\ lists w !! new_ref = None
      /\ lists w' !! new_ref = Some (empty_list args)
      /\ endpoint_list_ (wrr w') = Some new_ref
      /\ effects w'
         = effects w ++ [IncrementWrrUpdates;
                         ReportTransientFailure new_ref s]).
Proof.
  intros Herr status w'. split.
  - intros Hcur. subst status w'. unfold UpdateLocked. rewrite Herr. simpl.
    destruct (endpoint_list_ (wrr w)) as [act |] eqn:Ea; [| contradiction].
    simpl. rewrite ?Ea. repeat split.
  - intros Hwf Hnone new_ref.
    assert (Hempty : builds_empty_list args w)
      by (unfold builds_empty_list; rewrite Herr; exact Hnone).
    destruct (UpdateLocked_empty_outcome args w Hwf Hempty)
      as (Hs & Hc & Hp & Hf & Hl & He & Hd).
    assert (Es : empty_list_status args = s)
      by (unfold empty_list_status; rewrite Herr; reflexivity).
    rewrite Es in Hs, He. subst status w'.
    repeat (split; [assumption |]). exact He.
Qed.
End UpdateProperties.

(** ** The blackout *)

Lemma Timestamp_sub_InfFuture now :
  Timestamp_finite now ->
  Timestamp_sub now InfFuture = Duration_NegativeInfinity.
Proof.
  destruct now as [n]. unfold Timestamp_finite, Timestamp_sub, Timestamp_eqb.
  simpl. intros H.
  destruct (n =? int64_max) eqn:E; [apply Z.eqb_eq in E; lia | reflexivity].
Qed.

Lemma Timestamp_sub_finite now t :
  Timestamp_finite now -> Timestamp_finite t ->
  millis (Timestamp_sub now t)
  = Z.max int64_min
      (Z.min int64_max
         (milliseconds_after_process_epoch now
          - milliseconds_after_process_epoch t)).
Proof.
  destruct now as [n], t as [m].
  unfold Timestamp_finite, Timestamp_sub, Timestamp_eqb, MillisAdd,
    SaturatingAdd, InfPast, InfFuture.
  simpl. unfold int64_min, int64_max. intros Hn Hm.
  repeat match goal with
    | |- context [?a =? ?b] =>
        let E := fresh "E" in
        destruct (a =? b) eqn:E;
        [apply Z.eqb_eq in E; lia | apply Z.eqb_neq in E]
    end.
  simpl. f_equal.
Qed.

Lemma Timestamp_sub_antitone now t0 t :
  Timestamp_finite now -> Timestamp_finite t0 -> Timestamp_finite t ->
  Timestamp_leb t0 t = true ->
  millis (Timestamp_sub now t) <= millis (Timestamp_sub now t0).
Proof.
  intros Hn H0 Ht Hle.
  rewrite (Timestamp_sub_finite now t Hn Ht),
    (Timestamp_sub_finite now t0 Hn H0).
  unfold Timestamp_leb in Hle. apply Z.leb_le in Hle. lia.
Qed.

Lemma since_not_before_run_calls t0 cs :
  forall self,
    since_not_before t0 self -> reports_not_before t0 cs ->
    since_not_before t0 (run_calls cs self).
Proof.
  unfold run_calls, reports_not_before.
  induction cs as [| c cs IH]; intros self Hs Hcs; [exact Hs |].
  inversion Hcs as [| ? ? Hc Hrest]; subst. simpl.
  apply IH; [| exact Hrest].
  destruct c as [now q e u p | now x b n1 n2 |]; simpl.
  - unfold MaybeUpdateWeight.
    destruct (feq _ fzero); [exact Hs |].
    unfold since_not_before. simpl.
    destruct (Timestamp_eqb (non_empty_since_ self) InfFuture) eqn:E.
    + right. exact Hc.
    + apply Timestamp_eqb_neq in E. destruct Hs as [Hs | Hs];
        [contradiction | now right].
  - unfold GetWeight. destruct (Duration_geb _ x); [now left |].
    destruct (Duration_gtb b Duration_Zero && Duration_ltb _ b); exact Hs.
  - now left.
Qed.

(** Inside the blackout window counted from [t0], [GetWeight] returns 0
    whatever reports came in since [t0]. *)
Lemma GetWeight_zero_in_blackout t0 cs self now x b n1 n2 :
  since_not_before t0 self ->
  reports_not_before t0 cs ->
  Timestamp_finite t0 -> Timestamp_finite now ->
  0 < millis b ->
  millis (Timestamp_sub now t0) < millis b ->
  gw_return (GetWeight now x b n1 n2 (run_calls cs self)) = fzero.
Proof.
  intros Hs Hcs H0 Hn Hb Hwin.
  pose proof (since_not_before_run_calls t0 cs self Hs Hcs) as Hs'.
  unfold GetWeight.
  destruct (Duration_geb _ x); [reflexivity |].
  assert (Hin : Duration_gtb b Duration_Zero
                && Duration_ltb
                     (Timestamp_sub now (non_empty_since_ (run_calls cs self)))
                     b = true).
  { apply in_blackout_iff. split; [exact Hb |].
    destruct Hs' as [-> | [Hf Hle]].
    - rewrite (Timestamp_sub_InfFuture now Hn). simpl.
      unfold int64_min. lia.
    - pose proof (Timestamp_sub_antitone now t0 _ Hn H0 Hf Hle). lia. }
  rewrite Hin. reflexivity.
Qed.

Lemma weights_aged_refl w : weights_aged w w.
Proof. intros r ew H. exists ew. repeat split; [assumption | now left]. Qed.

Lemma weights_aged_trans w1 w2 w3 :
  weights_aged w1 w2 -> weights_aged w2 w3 -> weights_aged w1 w3.
Proof.
  intros H12 H23 r ew H.
  destruct (H12 r ew H) as (ew2 & H2 & Hw2 & Hl2 & Hn2).
  destruct (H23 r ew2 H2) as (ew3 & H3 & Hw3 & Hl3 & Hn3).
  exists ew3. repeat split; [assumption | congruence | congruence |].
  destruct Hn3 as [Hn3 | Hn3]; [| now right].
  destruct Hn2 as [Hn2 | Hn2]; [left | right]; congruence.
Qed.

Lemma weights_aged_same w w' : weights w' = weights w -> weights_aged w w'.
Proof. intros E r ew H. rewrite <- E in H. now apply weights_aged_refl. Qed.

Lemma only_GetWeight_calls_refl w : only_GetWeight_calls w w.
Proof.
  split; [| apply weights_aged_refl].
  exists []. split; [now rewrite app_nil_r | constructor].
Qed.

Lemma only_GetWeight_calls_trans w1 w2 w3 :
  only_GetWeight_calls w1 w2 -> only_GetWeight_calls w2 w3 ->
  only_GetWeight_calls w1 w3.
Proof.
  intros [(c1 & E1 & F1) A1] [(c2 & E2 & F2) A2].
  split; [| now apply weights_aged_trans with w2].
  exists (c1 ++ c2). split; [rewrite E2, E1; now rewrite app_assoc |].
  now apply Forall_app.
Qed.

Lemma only_GetWeight_calls_same w w' :
  weights w' = weights w -> weight_calls w' = weight_calls w ->
  only_GetWeight_calls w w'.
Proof.
  intros Ew Ec. split; [| now apply weights_aged_same].
  exists []. split; [now rewrite app_nil_r | constructor].
Qed.

Lemma weights_aged_at_refl now x w : weights_aged_at now x w w.
Proof. intros r ew H. exists ew. repeat split; [assumption | now left]. Qed.

Lemma weights_aged_at_trans now x w1 w2 w3 :
  weights_aged_at now x w1 w2 -> weights_aged_at now x w2 w3 ->
  weights_aged_at now x w1 w3.
Proof.
  intros H12 H23 r ew H.
  destruct (H12 r ew H) as (ew2 & H2 & Hw2 & Hl2 & Hn2).
  destruct (H23 r ew2 H2) as (ew3 & H3 & Hw3 & Hl3 & Hn3).
  exists ew3. repeat split; [assumption | congruence | congruence |].
  destruct Hn3 as [Hn3 | [Hn3 Hx3]].
  - destruct Hn2 as [Hn2 | [Hn2 Hx2]]; [left; congruence |].
    right. split; [congruence | exact Hx2].
  - right. split; [exact Hn3 |]. unfold expired in *. now rewrite <- Hl2.
Qed.

Lemma weights_aged_at_same now x w w' :
  weights w' = weights w -> weights_aged_at now x w w'.
Proof.
  intros E r ew H. rewrite <- E in H. now apply weights_aged_at_refl.
Qed.

Section BlackoutProperties.
Context {C : Collaborators}.

Lemma GetWeight_step_aged_at now x b n1 n2 r ew w :
  weights w !! r = Some ew ->
  weights_aged_at now x w
    (record_call r (CallGetWeight now x b n1 n2)
       (put_weight r (gw_self (GetWeight now x b n1 n2 ew)) w)).
Proof.
  intros Hr r' ew' H. simpl.
  destruct (decide (r = r')) as [<- | Hne].
  - rewrite lookup_insert_eq. rewrite Hr in H. injection H as <-.
    eexists. split; [reflexivity |].
    split; [apply GetWeight_keeps_weight |].
    split; [apply GetWeight_keeps_last_update_time |].
    unfold GetWeight.
    destruct (Duration_geb _ x) eqn:Ex.
    + right. split; [reflexivity | now apply expired_iff].
    + destruct (Duration_gtb b Duration_Zero && Duration_ltb _ b);
        now left.
  - rewrite lookup_insert_ne by exact Hne.
    exists ew'. repeat split; [assumption | now left].
Qed.

Lemma collect_weights_aged_at now c es :
  forall n1 n2 w ws n1' n2' w',
    collect_weights now (Some c) es n1 n2 w = Done (ws, n1', n2', w') ->
    weights_aged_at now (weight_expiration_period c) w w'.
Proof.
  induction es as [| e es IH]; intros n1 n2 w ws n1' n2' w' H; simpl in H.
  - injection H as _ _ _ <-. apply weights_aged_at_refl.
  - destruct (weights w !! info_weight e) as [ew |] eqn:Hr; [| discriminate].
    simpl in H.
    destruct (collect_weights now (Some c) es _ _ _)
      as [[[[ws0 a] b] w0] |] eqn:E; [| discriminate].
    simpl in H. injection H as _ _ _ <-.
    apply IH in E.
    eapply weights_aged_at_trans; [| exact E].
    eapply weights_aged_at_trans;
      [apply (GetWeight_step_aged_at now (weight_expiration_period c)
                (blackout_period c) n1 n2 _ ew w Hr) |].
    now apply weights_aged_at_same.
Qed.

Lemma Picker_new_aged_at random now l w p w' c :
  config_ (wrr w) = Some c ->
  Picker_new random now l w = Done (p, w') ->
  weights_aged_at now (weight_expiration_period c) w w'.
Proof.
  intros Hc. unfold Picker_new.
  destruct (lists w !! l) as [el |]; [| discriminate].
  simpl. unfold BuildSchedulerAndStartTimerLocked. simpl.
  rewrite Hc.
  destruct (collect_weights now _ _ 0 0 _) as [[[[ws a] b] w0] |] eqn:E;
    [| discriminate].
  simpl. intros [= _ <-]. apply collect_weights_aged_at in E.
  eapply weights_aged_at_trans;
    [apply weights_aged_at_same
    | eapply weights_aged_at_trans; [exact E |]].
  - reflexivity.
  - destruct (StaticStrideScheduler_Make ws);
      now apply weights_aged_at_same.
Qed.

Lemma GetWeight_step_aged now x b n1 n2 r ew w :
  weights w !! r = Some ew ->
  only_GetWeight_calls w
    (record_call r (CallGetWeight now x b n1 n2)
       (put_weight r (gw_self (GetWeight now x b n1 n2 ew)) w)).
Proof.
  intros Hr. split.
  - exists [(r, CallGetWeight now x b n1 n2)]. split; [reflexivity |].
    constructor; [exact I | constructor].
  - intros r' ew' H. simpl.
    destruct (decide (r = r')) as [<- | Hne].
    + rewrite lookup_insert_eq. rewrite Hr in H. injection H as <-.
      eexists. split; [reflexivity |].
      split; [apply GetWeight_keeps_weight |].
      split; [apply GetWeight_keeps_last_update_time |].
      unfold GetWeight. destruct (Duration_geb _ x); [now right |].
      destruct (Duration_gtb b Duration_Zero && Duration_ltb _ b); now left.
    + rewrite lookup_insert_ne by exact Hne.
      exists ew'. repeat split; [assumption | now left].
Qed.

Lemma collect_weights_only_GetWeight now cfg es :
  forall n1 n2 w ws n1' n2' w',
    collect_weights now cfg es n1 n2 w = Done (ws, n1', n2', w') ->
    only_GetWeight_calls w w'.
Proof.
  induction es as [| e es IH]; intros n1 n2 w ws n1' n2' w' H; simpl in H.
  - injection H as _ _ _ <-. apply only_GetWeight_calls_refl.
  - destruct (weights w !! info_weight e) as [ew |] eqn:Hr; [| discriminate].
    destruct cfg as [c |]; [| discriminate]. simpl in H.
    destruct (collect_weights now (Some c) es _ _ _)
      as [[[[ws0 a] b] w0] |] eqn:E; [| discriminate].
    simpl in H. injection H as _ _ _ <-.
    apply IH in E.
    eapply only_GetWeight_calls_trans; [| exact E].
    eapply only_GetWeight_calls_trans;
      [apply (GetWeight_step_aged now (weight_expiration_period c)
                (blackout_period c) n1 n2 _ ew w Hr) |].
    now apply only_GetWeight_calls_same.
Qed.

Lemma Picker_new_only_GetWeight random now l w p w' :
  Picker_new random now l w = Done (p, w') -> only_GetWeight_calls w w'.
Proof.
  unfold Picker_new. destruct (lists w !! l) as [el |]; [| discriminate].
  simpl. unfold BuildSchedulerAndStartTimerLocked. simpl.
  destruct (collect_weights now _ _ 0 0 _) as [[[[ws a] b] w0] |] eqn:E;
    [| discriminate].
  simpl. destruct (config_ (wrr w)) as [c |]; [| discriminate]. simpl.
  intros [= _ <-]. apply collect_weights_only_GetWeight in E.
  eapply only_GetWeight_calls_trans;
    [apply only_GetWeight_calls_same | eapply only_GetWeight_calls_trans;
                                       [exact E |]].
  - reflexivity.
  - reflexivity.
  - destruct (StaticStrideScheduler_Make ws);
      now apply only_GetWeight_calls_same.
Qed.

Lemma MaybeUpdateAggregated_only_GetWeight random now this status w w' :
  MaybeUpdateAggregatedConnectivityStateLocked random now this status w
  = Done w' ->
  only_GetWeight_calls w w'.
Proof.
  unfold MaybeUpdateAggregatedConnectivityStateLocked.
  destruct (swap_if_latest_pending this w) as [w1 |] eqn:E1;
    [| discriminate].
  simpl. intros E2.
  assert (H1 : only_GetWeight_calls w w1).
  { unfold swap_if_latest_pending in E1.
    destruct (lists w !! this) as [self |]; [| discriminate]. simpl in E1.
    destruct (ptr_eqb _ _).
    - destruct (endpoint_list_ (wrr w)) as [act |]; [| discriminate].
      simpl in E1.
      destruct (lists w !! act) as [active |]; [| discriminate].
      simpl in E1. injection E1 as <-.
      destruct (swap_condition active self);
        [| apply only_GetWeight_calls_refl].
      apply only_GetWeight_calls_same;
        [apply promote_pending_weights | apply promote_pending_weight_calls].
    - injection E1 as <-. apply only_GetWeight_calls_refl. }
  apply only_GetWeight_calls_trans with w1; [exact H1 |].
  unfold set_state_if_current in E2.
  destruct (lists w1 !! this) as [self |]; [| discriminate]. simpl in E2.
  destruct (negb _); [injection E2 as <-; apply only_GetWeight_calls_refl |].
  destruct (num_ready_ self >? 0).
  - destruct (Picker_new random now this w1) as [[p w2] |] eqn:E;
      [| discriminate].
    simpl in E2. injection E2 as <-.
    apply Picker_new_only_GetWeight in E.
    eapply only_GetWeight_calls_trans; [exact E |].
    now apply only_GetWeight_calls_same.
  - destruct (num_connecting_ self >? 0);
      [injection E2 as <-; now apply only_GetWeight_calls_same |].
    destruct (_ =? _); injection E2 as <-;
      [now apply only_GetWeight_calls_same | apply only_GetWeight_calls_refl].
Qed.

Lemma MaybeUpdateAggregated_aged_at random now this status w w' c :
  config_ (wrr w) = Some c ->
  MaybeUpdateAggregatedConnectivityStateLocked random now this status w
  = Done w' ->
  weights_aged_at now (weight_expiration_period c) w w'.
Proof.
  intros Hc. unfold MaybeUpdateAggregatedConnectivityStateLocked.
  destruct (swap_if_latest_pending this w) as [w1 |] eqn:E1;
    [| discriminate].
  simpl. intros E2.
  assert (H1 : weights w1 = weights w /\ config_ (wrr w1) = config_ (wrr w)).
  { unfold swap_if_latest_pending in E1.
    destruct (lists w !! this) as [self |]; [| discriminate]. simpl in E1.
    destruct (ptr_eqb _ _).
    - destruct (endpoint_list_ (wrr w)) as [act |]; [| discriminate].
      simpl in E1.
      destruct (lists w !! act) as [active |]; [| discriminate].
      simpl in E1. injection E1 as <-.
      destruct (swap_condition active self); [| now split].
      split; [apply promote_pending_weights | apply promote_pending_config].
    - injection E1 as <-. now split. }
  destruct H1 as [Hw1 Hc1]. rewrite <- Hc1 in Hc.
  apply weights_aged_at_trans with w1;
    [now apply weights_aged_at_same |].
  unfold set_state_if_current in E2.
  destruct (lists w1 !! this) as [self |]; [| discriminate]. simpl in E2.
  destruct (negb _); [injection E2 as <-; apply weights_aged_at_refl |].
  destruct (num_ready_ self >? 0).
  - destruct (Picker_new random now this w1) as [[p w2] |] eqn:E;
      [| discriminate].
    simpl in E2. injection E2 as <-.
    apply (Picker_new_aged_at _ _ _ _ _ _ c Hc) in E.
    eapply weights_aged_at_trans; [exact E |].
    now apply weights_aged_at_same.
  - destruct (num_connecting_ self >? 0);
      [injection E2 as <-; now apply weights_aged_at_same |].
    destruct (_ =? _); injection E2 as <-;
      [now apply weights_aged_at_same | apply weights_aged_at_refl].
Qed.
End BlackoutProperties.

Lemma World_wf_ext w w' :
  endpoint_list_ (wrr w') = endpoint_list_ (wrr w) ->
  latest_pending_endpoint_list_ (wrr w')
  = latest_pending_endpoint_list_ (wrr w) ->
  (forall r, is_Some (lists w !! r) -> is_Some (lists w' !! r)) ->
  World_wf w -> World_wf w'.
Proof.
  intros Ec Ep Hdom [H1 H2 H3]. split.
  - intros r H. rewrite Ec in H. auto.
  - intros r H. rewrite Ep in H. auto.
  - intros r H. rewrite Ep in H. rewrite Ec. auto.
Qed.

Section NotificationReturns.
Context {C : Collaborators}.

Lemma UpdateStateCountersLocked_returns old_state new_state l :
  counted old_state l -> new_state <> GRPC_CHANNEL_SHUTDOWN ->
  exists l2,
    UpdateStateCountersLocked old_state new_state l = Done l2
    /\ endpoints l2 = endpoints l.
Proof.
  intros Hc Hn. unfold UpdateStateCountersLocked.
  destruct old_state as [[] |]; simpl in Hc; try contradiction; simpl;
    try (apply Z.gtb_lt in Hc; rewrite Hc; simpl);
    destruct new_state; try contradiction; simpl; eauto.
Qed.

Lemma counted_of_consistent l i ep :
  counters_consistent l -> endpoints l !! i = Some ep ->
  connectivity_state_ ep <> Some GRPC_CHANNEL_SHUTDOWN ->
  counted (connectivity_state_ ep) l.
Proof.
  intros [Hr Hc Ht _] Hi Hn.
  assert (Hpos : forall P, endpoint_in P ep = true -> 0 < count_in P l).
  { intros P HP. unfold count_in. rewrite <- Nat2Z.inj_0, <- Nat2Z.inj_lt.
    apply filter_length_pos_iff, Exists_exists. exists ep.
    split; [now apply list_elem_of_lookup_2 with i | exact HP]. }
  unfold counted.
  destruct (connectivity_state_ ep) as [[] |] eqn:E; try exact I;
    try contradiction;
    rewrite ?Hr, ?Hc, ?Ht; apply Hpos; unfold endpoint_in; rewrite E;
    reflexivity.
Qed.

Lemma set_state_if_current_returns random now this status self w :
  lists w !! this = Some self -> config_ (wrr w) <> None ->
  weights_live self w ->
  exists w', set_state_if_current random now this status w = Done w'.
Proof.
  intros Hl Hcfg Hws. unfold set_state_if_current. rewrite Hl. simpl.
  destruct (negb _); [eauto |].
  destruct (num_ready_ self >? 0).
  - destruct (Picker_new_returns random now this self w Hl Hcfg Hws)
      as (p & w1 & ->).
    simpl. eauto.
  - destruct (num_connecting_ self >? 0); [eauto |].
    destruct (_ =? _); eauto.
Qed.

Lemma MaybeUpdateAggregated_returns random now this status self w :
  World_wf w -> lists w !! this = Some self -> config_ (wrr w) <> None ->
  weights_live self w ->
  exists w',
    MaybeUpdateAggregatedConnectivityStateLocked random now this status w
    = Done w'.
Proof.
  intros [Hcur Hpend Hbeside] Hl Hcfg Hws.
  unfold MaybeUpdateAggregatedConnectivityStateLocked,
    swap_if_latest_pending.
  rewrite Hl. simpl.
  destruct (ptr_eqb _ (Some this)) eqn:E;
    [| simpl; now apply set_state_if_current_returns with self].
  apply ptr_eqb_eq in E. destruct (Hbeside this E) as (act & Ha & Hne).
  rewrite Ha. simpl. destruct (Hcur act Ha) as [active Hact].
  rewrite Hact. simpl.
  destruct (swap_condition active self);
    [| now apply set_state_if_current_returns with self].
  apply set_state_if_current_returns with self.
  - rewrite (promote_pending_lists w act Ha).
    rewrite lookup_delete_ne by exact Hne. exact Hl.
  - rewrite promote_pending_config. exact Hcfg.
  - unfold weights_live. rewrite promote_pending_weights. exact Hws.
Qed.

(** A notification is handled to the end when the policy is well formed
    and configured, the weights of the list are in the store, the
    previous state is counted and the new state is not SHUTDOWN. *)
Lemma OnStateUpdate_returns
    random now this index old_state new_state status w l ep :
  lists w !! this = Some l -> endpoints l !! index = Some ep ->
  World_wf w -> config_ (wrr w) <> None -> weights_live l w ->
  counted old_state l -> new_state <> GRPC_CHANNEL_SHUTDOWN ->
  exists w',
    OnStateUpdate random now this index old_state new_state status w
    = Done w'.
Proof.
  intros Hl Hi Hwf Hcfg Hws Hc Hn. unfold OnStateUpdate.
  rewrite Hl. simpl. rewrite Hi. simpl.
  assert (Hep : is_Some (weights w !! WrrEndpoint_weight_ ep))
    by (apply (Forall_lookup_1 _ _ _ _ Hws Hi)).
  match goal with
  | |- exists w', (?first ≫= _) = _ =>
      assert (Hfirst : exists w1,
                 first = Done w1 /\ wrr w1 = wrr w /\ lists w1 = lists w
                 /\ forall r, is_Some (weights w !! r) ->
                              is_Some (weights w1 !! r))
  end.
  { destruct (state_eqb new_state GRPC_CHANNEL_IDLE); [eauto 10 |].
    destruct (state_eqb new_state GRPC_CHANNEL_READY); [| eauto 10].
    destruct old_state as [old |]; [| eauto 10].
    destruct (negb _); [| eauto 10].
    unfold call_weight. destruct Hep as [ew ->]. simpl.
    eexists. split; [reflexivity |]. split; [reflexivity |].
    split; [reflexivity |].
    intros r Hr. simpl. rewrite lookup_insert.
    destruct (decide (WrrEndpoint_weight_ ep = r)); [eauto | exact Hr]. }
  destruct Hfirst as (w1 & -> & Ew & El & Hlive). simpl.
  assert (Hwf1 : World_wf w1)
    by (revert Hwf; apply World_wf_ext; rewrite ?Ew, ?El; auto).
  assert (Hws1 : weights_live l w1)
    by (eapply Forall_impl; [exact Hws | intros e; apply Hlive]).
  destruct (match old_state with
            | Some old => negb (state_eqb old new_state)
            | None => true
            end).
  - destruct (UpdateStateCountersLocked_returns old_state new_state l Hc Hn)
      as (l2 & -> & He).
    simpl. apply MaybeUpdateAggregated_returns with l2.
    + revert Hwf1. apply World_wf_ext; try reflexivity.
      intros r Hr. simpl. rewrite lookup_insert.
      destruct (decide (this = r)); [eauto | exact Hr].
    + apply lists_put_list_eq.
    + simpl. rewrite Ew. exact Hcfg.
    + unfold weights_live. rewrite He. exact Hws1.
  - simpl. apply MaybeUpdateAggregated_returns with l.
    + exact Hwf1.
    + rewrite El. exact Hl.
    + rewrite Ew. exact Hcfg.
    + exact Hws1.
Qed.

(** So is the notification entry of the base class, in a world whose
    counters count the endpoints. *)
Lemma Endpoint_UpdateState_returns
    random now this index state status picker w l ep :
  lists w !! this = Some l -> endpoints l !! index = Some ep ->
  World_wf w -> counters_consistent l -> config_ (wrr w) <> None ->
  weights_live l w ->
  connectivity_state_ ep <> Some GRPC_CHANNEL_SHUTDOWN ->
  state <> GRPC_CHANNEL_SHUTDOWN ->
  exists w',
    Endpoint_UpdateState random now this index state status picker w
    = Done w'.
Proof.
  intros Hl Hi Hwf Hcons Hcfg Hws Hold Hn. unfold Endpoint_UpdateState.
  rewrite Hl. simpl. rewrite Hi. simpl.
  set (ep' := mkWrrEndpoint (WrrEndpoint_weight_ ep) (Some state)
                (Some picker)).
  set (l1 := set_endpoints (<[index:=ep']> (endpoints l)) l).
  apply OnStateUpdate_returns with l1 ep'.
  - apply lists_put_list_eq.
  - simpl. apply list_lookup_insert_eq. now apply lookup_lt_Some in Hi.
  - revert Hwf. apply World_wf_ext; try reflexivity.
    intros r Hr. simpl. rewrite lookup_insert.
    destruct (decide (this = r)); [eauto | exact Hr].
  - exact Hcfg.
  - unfold weights_live. simpl. apply Forall_insert; [exact Hws |].
    apply (Forall_lookup_1 _ _ _ _ Hws Hi).
  - apply (counted_of_consistent l index ep Hcons Hi Hold).
  - exact Hn.
Qed.
End NotificationReturns.

Section ReconnectionProperties.
Context {C : Collaborators}.

(** C7.  A state notification makes [OnStateUpdate] call
    [ResetNonEmptySince] on the endpoint's weight exactly when the new
    state is READY and the endpoint has a previous state other than
    READY; every other call the notification makes on a weight is a
    [GetWeight] of a picker being built.  After such a notification the
    weight's [non_empty_since_] is +infinity, and as long as the blackout
    period, counted from any clock reading [t0] that no later report
    precedes, has not passed, [GetWeight] returns 0 whatever reports
    came in.  In particular the initial notification of an endpoint (no
    previous state) calls no [ResetNonEmptySince]: the calls it makes on
    weights are [GetWeight] calls, which leave [weight_] and
    [last_update_time_] alone; [non_empty_since_] keeps its value on
    every weight that is not expired at the time of the notification,
    and on an expired weight it keeps its value or becomes +infinity.
    The notification is handled to the end when the policy is well
    formed and configured, the weights of the list are in the store, the
    previous state is counted and the new state is not SHUTDOWN. *)
Theorem OnStateUpdate_restarts_blackout
    random now this index old_state new_state status w l ep :
  lists w !! this = Some l ->
  endpoints l !! index = Some ep ->
  let r := WrrEndpoint_weight_ ep in
  let run :=
    OnStateUpdate random now this index old_state new_state status w in
  (World_wf w -> config_ (wrr w) <> None -> weights_live l w ->
   counted old_state l -> new_state <> GRPC_CHANNEL_SHUTDOWN ->
   exists w', run = Done w')
  /\ forall w',
       run = Done w' ->
       (exists calls,
           Forall is_GetWeight_call calls
           /\ weight_calls w'
              = weight_calls w
                ++ (if restarts_blackout old_state new_state
                    then [(r, CallResetNonEmptySince)] else [])
                ++ calls)
       /\ (restarts_blackout old_state new_state = true ->
           exists ew',
             weights w' !! r = Some ew'
             /\ non_empty_since_ ew' = InfFuture
             /\ forall t0 cs now' x b n1 n2,
                  reports_not_before t0 cs ->
                  Timestamp_finite t0 -> Timestamp_finite now' ->
                  0 < millis b ->
                  millis (Timestamp_sub now' t0) < millis b ->
                  gw_return (GetWeight now' x b n1 n2 (run_calls cs ew'))
                  = fzero)
       /\ (old_state = None ->
           restarts_blackout old_state new_state = false
           /\ only_GetWeight_calls w w'
           /\ forall c,
                config_ (wrr w) = Some c ->
                weights_aged_at now (weight_expiration_period c) w w').
Proof.
  intros Hl Hi r run. split.
  { intros Hwf Hcfg Hws Hc Hn. subst run.
    now apply OnStateUpdate_returns with l ep. }
  intros w' H. subst run. unfold OnStateUpdate in H. rewrite Hl in H.
  simpl in H. rewrite Hi in H. simpl in H. fold r in H.
  (* the first step: the optional reset *)
  set (first := if state_eqb new_state GRPC_CHANNEL_IDLE then _ else _) in H.
  destruct first as [w1 |] eqn:E1; [| discriminate]. simpl in H.
  assert (Hfirst :
           if restarts_blackout old_state new_state
           then exists ew,
               weights w !! r = Some ew
               /\ w1 = record_call r CallResetNonEmptySince
                         (put_weight r (ResetNonEmptySince ew) w)
           else weights w1 = weights w /\ weight_calls w1 = weight_calls w).
  { subst first. unfold restarts_blackout.
    destruct new_state; simpl in E1 |- *;
      try (injection E1 as <-; split; reflexivity).
    destruct old_state as [old |];
      [| injection E1 as <-; split; reflexivity].
    destruct (negb (state_eqb old GRPC_CHANNEL_READY));
      [| injection E1 as <-; split; reflexivity].
    unfold call_weight in E1.
    destruct (weights w !! r) as [ew |]; [| discriminate].
    simpl in E1. injection E1 as <-. exists ew. split; reflexivity. }
  assert (Hcfg1 : config_ (wrr w1) = config_ (wrr w)).
  { subst first.
    destruct new_state; simpl in E1; try (now injection E1 as <-).
    destruct old_state as [old |]; [| now injection E1 as <-].
    destruct (negb (state_eqb old GRPC_CHANNEL_READY));
      [| now injection E1 as <-].
    unfold call_weight in E1.
    destruct (weights w !! r) as [ew |]; [| discriminate].
    simpl in E1. now injection E1 as <-. }
  clear E1.
  (* the second step touches the list only *)
  set (second := if match old_state with
                    | Some old => negb (state_eqb old new_state)
                    | None => true
                    end then _ else _) in H.
  destruct second as [w2 |] eqn:E2; [| discriminate]. simpl in H.
  assert (Hsecond : weights w2 = weights w1
                    /\ weight_calls w2 = weight_calls w1).
  { subst second.
    destruct (match old_state with
              | Some old => negb (state_eqb old new_state)
              | None => true
              end); [| injection E2 as <-; split; reflexivity].
    destruct (UpdateStateCountersLocked old_state new_state l);
      [| discriminate].
    simpl in E2. injection E2 as <-. split; reflexivity. }
  assert (Hcfg2 : config_ (wrr w2) = config_ (wrr w1)).
  { subst second.
    destruct (match old_state with
              | Some old => negb (state_eqb old new_state)
              | None => true
              end); [| now injection E2 as <-].
    destruct (UpdateStateCountersLocked old_state new_state l);
      [| discriminate].
    simpl in E2. now injection E2 as <-. }
  clear E2. destruct Hsecond as [Hw2 Hc2].
  pose proof (fun c Hc =>
                MaybeUpdateAggregated_aged_at random now this status w2 w'
                  c Hc H) as Hat.
  apply MaybeUpdateAggregated_only_GetWeight in H.
  destruct H as [(calls & Ecalls & Fcalls) Haged].
  rewrite Hc2 in Ecalls.
  split; [| split].
  - exists calls. split; [exact Fcalls |]. rewrite Ecalls.
    destruct (restarts_blackout old_state new_state).
    + destruct Hfirst as (ew & _ & ->). simpl.
      now rewrite <- app_assoc.
    + destruct Hfirst as [_ ->]. reflexivity.
  - intros Hre. rewrite Hre in Hfirst. destruct Hfirst as (ew & Hr & ->).
    destruct (Haged r (ResetNonEmptySince ew)) as (ew' & Hr' & _ & _ & Hn).
    { rewrite Hw2. simpl. apply lookup_insert_eq. }
    assert (Hinf : non_empty_since_ ew' = InfFuture)
      by (destruct Hn as [Hn | Hn]; exact Hn).
    exists ew'. split; [exact Hr' |]. split; [exact Hinf |].
    intros t0 cs now' x b n1 n2 Hcs H0 Hn' Hb Hwin.
    apply (GetWeight_zero_in_blackout t0); try assumption.
    now left.
  - intros ->. split; [unfold restarts_blackout; apply andb_false_r |].
    assert (Hre : restarts_blackout None new_state = false)
      by (unfold restarts_blackout; apply andb_false_r).
    rewrite Hre in Hfirst. destruct Hfirst as [Hw1 Hc1].
    split; [split |].
    + exists calls. split; [congruence | exact Fcalls].
    + apply weights_aged_trans with w2; [| exact Haged].
      apply weights_aged_same. congruence.
    + intros c Hc.
      apply weights_aged_at_trans with w2;
        [apply weights_aged_at_same; congruence |].
      apply Hat. congruence.
Qed.
End ReconnectionProperties.

(** ** Reachable worlds *)

Lemma World_wf_init st : World_wf (World_init st).
Proof. split; intros r H; discriminate. Qed.

Lemma World_consistent_init st : World_consistent (World_init st).
Proof. intros r l H. simpl in H. rewrite lookup_empty in H. discriminate. Qed.

Lemma World_wf_promote_pending `{C : Collaborators} w :
  World_wf w -> World_wf (promote_pending w).
Proof.
  intros [H1 H2 H3].
  destruct (promote_pending_pointers w) as [Ec Ep].
  split.
  - intros r H. rewrite Ec in H.
    destruct (H3 r H) as (act & Ha & Hne).
    rewrite (promote_pending_lists w act Ha).
    rewrite lookup_delete_ne by exact Hne. auto.
  - intros r H. rewrite Ep in H. discriminate.
  - intros r H. rewrite Ep in H. discriminate.
Qed.

Section Reachability.
Context {C : Collaborators}.

Lemma GetOrCreateWeight_frame key w :
  lists (snd (GetOrCreateWeight key w)) = lists w
  /\ endpoint_list_ (wrr (snd (GetOrCreateWeight key w)))
     = endpoint_list_ (wrr w)
  /\ latest_pending_endpoint_list_ (wrr (snd (GetOrCreateWeight key w)))
     = latest_pending_endpoint_list_ (wrr w).
Proof.
  unfold GetOrCreateWeight.
  destruct (map_find key _) as [r |]; [| repeat split].
  destruct (decide (r ∈ weight_unreferenced w)); repeat split.
Qed.

Lemma create_endpoints_frame addrs args :
  forall errors w,
    let '(es, _, w') := create_endpoints addrs args errors w in
    lists w' = lists w
    /\ endpoint_list_ (wrr w') = endpoint_list_ (wrr w)
    /\ latest_pending_endpoint_list_ (wrr w')
       = latest_pending_endpoint_list_ (wrr w)
    /\ length es = length addrs
    /\ Forall (fun e => connectivity_state_ e = None) es.
Proof.
  induction addrs as [| a addrs IH]; intros errors w; simpl.
  - repeat split. constructor.
  - pose proof (GetOrCreateWeight_frame (addresses a) w) as (G1 & G2 & G3).
    destruct (GetOrCreateWeight (addresses a) w) as [weight w1].
    simpl in G1, G2, G3.
    match goal with
    | |- context [create_endpoints addrs args ?e w1] =>
        specialize (IH e w1);
        destruct (create_endpoints addrs args e w1) as [[es errors2] w2]
    end.
    destruct IH as (H1 & H2 & H3 & H4 & H5).
    repeat split; try congruence.
    + simpl. congruence.
    + constructor; [reflexivity | exact H5].
Qed.

Lemma ordered_insert_length e s :
  (length (ordered_insert e s) <= S (length s))%nat.
Proof.
  induction s as [| x s IH]; simpl; [lia |].
  destruct (EndpointAddressSet_lt (addresses e) (addresses x)); simpl;
    [lia |].
  destruct (EndpointAddressSet_lt (addresses x) (addresses e)); simpl; lia.
Qed.

Lemma ordered_addresses_length l :
  (length (ordered_addresses l) <= length l)%nat.
Proof.
  unfold ordered_addresses.
  assert (H : forall acc,
             (length (fold_left (fun s e => ordered_insert e s) l acc)
              <= length acc + length l)%nat).
  { induction l as [| e l IH]; intros acc; simpl; [lia |].
    specialize (IH (ordered_insert e acc)).
    pose proof (ordered_insert_length e acc). lia. }
  apply (H []).
Qed.

Lemma fresh_list_consistent es note :
  Forall (fun e => connectivity_state_ e = None) es ->
  Z.of_nat (length es) < 2 ^ 64 ->
  counters_consistent (mkWrrEndpointList es note 0 0 0 OkStatus).
Proof.
  intros Hes Hlen.
  assert (Hz : forall P,
             count_in P (mkWrrEndpointList es note 0 0 0 OkStatus) = 0).
  { intros P. unfold count_in. simpl.
    replace (length (List.filter (endpoint_in P) es)) with O; [reflexivity |].
    symmetry. apply filter_length_zero_iff.
    eapply Forall_impl; [exact Hes |].
    intros e He. unfold endpoint_in. now rewrite He. }
  split; simpl; rewrite ?Hz; try reflexivity. exact Hlen.
Qed.

(** [UpdateLocked] from the point where it builds the new list. *)
Lemma UpdateLocked_invariant args w :
  World_wf w -> World_consistent w -> address_count args < 2 ^ 64 ->
  World_wf (snd (UpdateLocked args w))
  /\ World_consistent (snd (UpdateLocked args w)).
Proof.
  intros Hwf Hcons Hcount.
  set (w1 := set_wrr (set_config_ (UpdateArgs_config args))
               (emit IncrementWrrUpdates w)).
  assert (Hwf1 : World_wf w1) by (revert Hwf; now apply World_wf_ext).
  assert (Hcons1 : World_consistent w1) by exact Hcons.
  assert (Hgen : forall addrs,
             Z.of_nat (length addrs) < 2 ^ 64 ->
             forall st1 st2,
             let '(es, errors, w2) :=
               create_endpoints addrs (UpdateArgs_args args) [] w1 in
             let new_list :=
               mkWrrEndpointList es (UpdateArgs_resolution_note args) 0 0 0
                 OkStatus in
             let new_ref := fresh (dom (lists w2)) in
             let w3 :=
               set_wrr (set_latest_pending_endpoint_list_ (Some new_ref))
                 (destroy_list (latest_pending_endpoint_list_ (wrr w2))
                    (put_list new_ref new_list w2)) in
             let result : Status * World :=
               if EndpointList_size new_list =? 0 then
                 (st1, emit (ReportTransientFailure new_ref st1)
                         (promote_pending w3))
               else
                 (st2 errors,
                  match endpoint_list_ (wrr w3) with
                  | None => promote_pending w3
                  | Some _ => w3
                  end) in
             World_wf (snd result) /\ World_consistent (snd result)).
  { intros addrs Hlen st1 st2.
    pose proof (create_endpoints_frame addrs (UpdateArgs_args args) [] w1)
      as Hframe.
    destruct (create_endpoints addrs (UpdateArgs_args args) [] w1)
      as [[es errors] w2].
    destruct Hframe as (F1 & F2 & F3 & F4 & F5).
    assert (Hwf2 : World_wf w2).
    { revert Hwf1. apply World_wf_ext; try assumption.
      intros r. now rewrite F1. }
    assert (Hcons2 : World_consistent w2)
      by (intros r l; rewrite F1; apply Hcons1).
    intros new_list new_ref w3 result.
    assert (Hnew : counters_consistent new_list)
      by (apply fresh_list_consistent; [exact F5 | lia]).
    assert (Hfresh : forall r, is_Some (lists w2 !! r) -> r <> new_ref)
      by (intros r Hr; now apply live_not_fresh).
    assert (Hl3 : forall r,
               lists w3 !! r
               = if decide (new_ref = r) then Some new_list
                 else match latest_pending_endpoint_list_ (wrr w2) with
                      | Some p => if decide (p = r) then None
                                  else lists w2 !! r
                      | None => lists w2 !! r
                      end).
    { intros r.
      change (lists w3)
        with (lists (destroy_list (latest_pending_endpoint_list_ (wrr w2))
                       (put_list new_ref new_list w2))).
      rewrite lists_destroy_list. unfold put_list. simpl.
      destruct (latest_pending_endpoint_list_ (wrr w2)) as [p |] eqn:Ep.
      - assert (p <> new_ref)
          by (apply Hfresh; now apply (pending_live w2 Hwf2)).
        rewrite lookup_delete. destruct (decide (p = r)) as [<- |].
        + destruct (decide (new_ref = p)); [congruence | reflexivity].
        + rewrite lookup_insert.
          destruct (decide (new_ref = r)); reflexivity.
      - rewrite lookup_insert. destruct (decide (new_ref = r)); reflexivity. }
    assert (Hc3 : endpoint_list_ (wrr w3) = endpoint_list_ (wrr w2)).
    { destruct (policy_destroy_list
                  (latest_pending_endpoint_list_ (wrr w2))
                  (put_list new_ref new_list w2)) as (_ & E & _).
      exact E. }
    assert (Hp3 : latest_pending_endpoint_list_ (wrr w3) = Some new_ref)
      by reflexivity.
    assert (Hcons3 : World_consistent w3).
    { intros r l Hr. rewrite Hl3 in Hr.
      destruct (decide (new_ref = r)); [now injection Hr as <- |].
      destruct (latest_pending_endpoint_list_ (wrr w2)) as [p |];
        [destruct (decide (p = r)); [discriminate |] |];
        now apply (Hcons2 r). }
    assert (Hwf3 : endpoint_list_ (wrr w2) <> None -> World_wf w3).
    { intros Hact. destruct Hwf2 as [H1 H2 H3]. split.
      - intros r Hr. rewrite Hc3 in Hr. rewrite Hl3.
        destruct (decide (new_ref = r)); [eauto |].
        destruct (latest_pending_endpoint_list_ (wrr w2)) as [p |] eqn:Ep;
          [| now apply H1].
        destruct (H3 p eq_refl) as (act & Ha & Hne).
        destruct (decide (p = r)); [congruence | now apply H1].
      - intros r [= <-]. rewrite Hl3.
        destruct (decide (new_ref = new_ref)); [eauto | contradiction].
      - intros r [= <-]. rewrite Hc3.
        destruct (endpoint_list_ (wrr w2)) as [act |] eqn:Ea;
          [| contradiction].
        exists act. split; [reflexivity |]. apply Hfresh. now apply H1. }
    assert (Hwfp : World_wf (promote_pending w3)).
    { destruct (promote_pending_pointers w3) as [Ec Ep].
      rewrite Hp3 in Ec. split.
      - intros r Hr. rewrite Ec in Hr. injection Hr as <-.
        rewrite promote_pending_lists_any.
        destruct (endpoint_list_ (wrr w3)) as [act |] eqn:Ea.
        + rewrite Hc3 in Ea.
          assert (act <> new_ref)
            by (apply Hfresh; now apply (current_live w2 Hwf2)).
          rewrite lookup_delete_ne by assumption.
          rewrite Hl3.
          destruct (decide (new_ref = new_ref)); [eauto | contradiction].
        + rewrite Hl3.
          destruct (decide (new_ref = new_ref)); [eauto | contradiction].
      - intros r Hr. rewrite Ep in Hr. discriminate.
      - intros r Hr. rewrite Ep in Hr. discriminate. }
    assert (Hconsp : World_consistent (promote_pending w3))
      by (apply (World_consistent_kept w3);
          [apply promote_pending_kept | exact Hcons3]).
    subst result. destruct (EndpointList_size new_list =? 0); cbn [snd].
    - split; [| exact Hconsp].
      revert Hwfp. apply World_wf_ext; auto.
    - destruct (endpoint_list_ (wrr w3)) as [act |] eqn:Ea.
      + split; [apply Hwf3; congruence | exact Hcons3].
      + split; assumption. }
  unfold UpdateLocked, address_count in *. fold w1.
  destruct (UpdateArgs_addresses args) as [l | s].
  - pose proof (ordered_addresses_length l) as Hle.
    specialize (Hgen (ordered_addresses l)). simpl in Hgen |- *.
    match goal with
    | |- context [create_endpoints ?a ?b ?c ?d] =>
        destruct (create_endpoints a b c d) as [[es errors] w2]
    end.
    destruct (negb (length errors =? 0)%nat).
    + apply (Hgen ltac:(lia) (UnavailableError "empty address list")
               (fun _ => UnavailableError
                           ("errors from children: ["
                            ++ StrJoin errors "; " ++ "]"))).
    + apply (Hgen ltac:(lia) (UnavailableError "empty address list")
               (fun _ => OkStatus)).
  - destruct (endpoint_list_ (wrr w1)) as [act |]; [split; assumption |].
    specialize (Hgen []). simpl in Hgen |- *.
    apply (Hgen ltac:(lia) s (fun _ => OkStatus)).
Qed.
End Reachability.

Section ReachabilityOfNotifications.
Context {C : Collaborators}.

Lemma set_state_if_current_wf random now this status w w' :
  World_wf w ->
  set_state_if_current random now this status w = Done w' ->
  World_wf w'.
Proof.
  intros Hwf. unfold set_state_if_current.
  destruct (lists w !! this) as [self |] eqn:Hl; [| discriminate]. simpl.
  destruct (negb _); [now intros [= <-] |].
  destruct (num_ready_ self >? 0).
  - destruct (Picker_new random now this w) as [[p w1] |] eqn:E;
      [| discriminate].
    simpl. intros [= <-]. apply Picker_new_lists in E as [El Ew].
    revert Hwf. apply World_wf_ext; simpl; rewrite ?Ew, ?El; auto.
  - destruct (num_connecting_ self >? 0);
      [intros [= <-]; revert Hwf; now apply World_wf_ext |].
    destruct (_ =? _); [| now intros [= <-]].
    intros [= <-]. revert Hwf. apply World_wf_ext; try reflexivity.
    intros r Hr. simpl. rewrite lookup_insert.
    destruct (decide (this = r)); [eauto | exact Hr].
Qed.

Lemma MaybeUpdateAggregated_wf random now this status w w' :
  World_wf w ->
  MaybeUpdateAggregatedConnectivityStateLocked random now this status w
  = Done w' ->
  World_wf w'.
Proof.
  intros Hwf. unfold MaybeUpdateAggregatedConnectivityStateLocked.
  destruct (swap_if_latest_pending this w) as [w1 |] eqn:E1;
    [| discriminate].
  simpl. apply set_state_if_current_wf.
  unfold swap_if_latest_pending in E1.
  destruct (lists w !! this) as [self |]; [| discriminate]. simpl in E1.
  destruct (ptr_eqb _ _); [| now injection E1 as <-].
  destruct (endpoint_list_ (wrr w)) as [act |]; [| discriminate].
  simpl in E1. destruct (lists w !! act) as [active |]; [| discriminate].
  simpl in E1. injection E1 as <-.
  destruct (swap_condition active self);
    [now apply World_wf_promote_pending | exact Hwf].
Qed.

Lemma Endpoint_UpdateState_wf
    random now this index state status picker w w' :
  World_wf w ->
  Endpoint_UpdateState random now this index state status picker w
  = Done w' ->
  World_wf w'.
Proof.
  intros Hwf. unfold Endpoint_UpdateState.
  destruct (lists w !! this) as [l |] eqn:Hl; [| discriminate]. simpl.
  destruct (endpoints l !! index) as [ep |] eqn:Hi; [| discriminate]. simpl.
  set (ep' := mkWrrEndpoint (WrrEndpoint_weight_ ep) (Some state)
                (Some picker)).
  set (l1 := set_endpoints (<[index:=ep']> (endpoints l)) l).
  assert (Hput : forall l2 w0,
             wrr w0 = wrr w -> (forall r, is_Some (lists w !! r) ->
                                          is_Some (lists w0 !! r)) ->
             World_wf (put_list this l2 w0)).
  { intros l2 w0 Ew Hdom. revert Hwf.
    apply World_wf_ext; simpl; rewrite ?Ew; try reflexivity.
    intros r Hr. rewrite lookup_insert.
    destruct (decide (this = r)); [eauto | now apply Hdom]. }
  unfold OnStateUpdate. rewrite lists_put_list_eq. simpl.
  rewrite list_lookup_insert_eq by (now apply lookup_lt_Some in Hi).
  simpl.
  match goal with
  | |- (?first ≫= _) = _ -> _ => destruct first as [w1 |] eqn:E1
  end; [| discriminate].
  simpl.
  assert (Hw1 : wrr w1 = wrr w
                /\ forall r, is_Some (lists w !! r) ->
                             is_Some (lists w1 !! r)).
  { assert (Hbase : forall r, is_Some (lists w !! r) ->
                              is_Some (lists (put_list this l1 w) !! r)).
    { intros r Hr. simpl. rewrite lookup_insert.
      destruct (decide (this = r)); [eauto | exact Hr]. }
    destruct (state_eqb state GRPC_CHANNEL_IDLE);
      [injection E1 as <-; split; [reflexivity | exact Hbase] |].
    destruct (state_eqb state GRPC_CHANNEL_READY);
      [| injection E1 as <-; split; [reflexivity | exact Hbase]].
    destruct (connectivity_state_ ep) as [old |];
      [| injection E1 as <-; split; [reflexivity | exact Hbase]].
    destruct (negb _);
      [| injection E1 as <-; split; [reflexivity | exact Hbase]].
    unfold call_weight in E1.
    destruct (weights _ !! _); [| discriminate].
    simpl in E1. injection E1 as <-. split; [reflexivity | exact Hbase]. }
  clear E1. destruct Hw1 as [Ew1 Hdom1].
  assert (Hwf1 : World_wf w1) by (revert Hwf; apply World_wf_ext;
                                  rewrite ?Ew1; auto).
  destruct (match connectivity_state_ ep with
            | Some old => negb (state_eqb old state)
            | None => true
            end).
  - destruct (UpdateStateCountersLocked (connectivity_state_ ep) state l1)
      as [l2 |]; [| discriminate].
    simpl. apply MaybeUpdateAggregated_wf. now apply Hput.
  - simpl. now apply MaybeUpdateAggregated_wf.
Qed.

Lemma call_weight_frame r c w w' :
  call_weight r c w = Done w' -> wrr w' = wrr w /\ lists w' = lists w.
Proof.
  unfold call_weight. destruct (weights w !! r); [| discriminate].
  simpl. intros [= <-]. split; reflexivity.
Qed.

(** In every reachable world the two list pointers are well formed and
    the counters of every list count its endpoints. *)
Lemma reachable_invariant w :
  reachable w -> World_wf w /\ World_consistent w.
Proof.
  induction 1 as [st | args w Hr [IH1 IH2] Hc Hcfg
                 | random now this index state status picker w w' Hr
                     [IH1 IH2] Hstep
                 | now weight penalty d w w' Hr [IH1 IH2] Hstep
                 | now weight penalty d w w' Hr [IH1 IH2] Hstep
                 | r w Hr [IH1 IH2] Href
                 | r w Hr [IH1 IH2]
                 | r w w' Hr [IH1 IH2] Hin Hstep].
  - split; [apply World_wf_init | apply World_consistent_init].
  - now apply UpdateLocked_invariant.
  - split; [now apply Endpoint_UpdateState_wf in Hstep
           | now apply Endpoint_UpdateState_consistent in Hstep].
  - unfold OobWatcher_OnBackendMetricReport in Hstep.
    apply call_weight_frame in Hstep as [Ew El]. split.
    + revert IH1. apply World_wf_ext; rewrite ?Ew, ?El; auto.
    + intros r l. rewrite El. apply IH2.
  - unfold SubchannelCallTracker_Finish in Hstep.
    destruct d as [d |]; apply call_weight_frame in Hstep as [Ew El]; split;
      try (revert IH1; apply World_wf_ext; rewrite ?Ew, ?El; now auto);
      intros r l; rewrite El; apply IH2.
  - split; [revert IH1; now apply World_wf_ext | exact IH2].
  - destruct (EndpointWeight_Unref_outside_frame r w) as (El & Ew & _).
    split.
    + revert IH1. apply World_wf_ext; rewrite ?Ew, ?El; auto.
    + intros r' l. rewrite El. apply IH2.
  - apply EndpointWeight_destroy_released in Hstep
      as (El & _ & _ & _ & _ & _ & _ & Ec & Ep & _).
    split.
    + revert IH1. apply World_wf_ext; rewrite ?Ec, ?Ep, ?El; auto.
    + intros r' l. rewrite El. apply IH2.
Qed.
End ReachabilityOfNotifications.


(** ** Reachable worlds can be served *)

Section ServingInvariant.
Context {C : Collaborators}.

Lemma map_find_In key m r :
  map_find key m = Some r -> exists k, (k, r) ∈ m.
Proof.
  induction m as [| [k v] m IH]; simpl; [discriminate |].
  destruct (EndpointAddressSet_lt key k); [discriminate |].
  destruct (EndpointAddressSet_lt k key).
  - intros H. destruct (IH H) as [k' Hk]. exists k'. now right.
  - intros [= ->]. exists k. now left.
Qed.

Lemma map_emplace_Forall
    (P : list grpc_resolved_address * WeightRef -> Prop) key v m :
  Forall P m -> P (key, v) -> Forall P (map_emplace key v m).
Proof.
  intros Hm Hv. induction m as [| [k x] m IH]; simpl.
  - now constructor.
  - inversion Hm as [| ? ? Hx Hrest]; subst.
    destruct (EndpointAddressSet_lt key k); [now constructor |].
    destruct (EndpointAddressSet_lt k key); [| exact Hm].
    constructor; [exact Hx | now apply IH].
Qed.

Lemma GetOrCreateWeight_live key w :
  Forall (fun kv => is_Some (weights w !! kv.2))
    (endpoint_weight_map_ (wrr w)) ->
  let r := fst (GetOrCreateWeight key w) in
  let w1 := snd (GetOrCreateWeight key w) in
  is_Some (weights w1 !! r)
  /\ Forall (fun kv => is_Some (weights w1 !! kv.2))
       (endpoint_weight_map_ (wrr w1))
  /\ (forall r', is_Some (weights w !! r') -> is_Some (weights w1 !! r'))
  /\ config_ (wrr w1) = config_ (wrr w).
Proof.
  intros Hm.
  assert (Hcreate :
           let r := fresh (dom (weights w)) in
           let w1 :=
             set_wrr (fun p => set_endpoint_weight_map_
                                 (map_emplace key r (endpoint_weight_map_ p))
                                 p)
               (set_weight_keys (insert r key)
                  (put_weight r EndpointWeight_init w)) in
           is_Some (weights w1 !! r)
           /\ Forall (fun kv => is_Some (weights w1 !! kv.2))
                (endpoint_weight_map_ (wrr w1))
           /\ (forall r', is_Some (weights w !! r') ->
                          is_Some (weights w1 !! r'))
           /\ config_ (wrr w1) = config_ (wrr w)).
  { intros r w1.
    assert (Hgrow : forall r', is_Some (weights w !! r') ->
                               is_Some (weights w1 !! r')).
    { intros r' Hr'. simpl. rewrite lookup_insert.
      destruct (decide (r = r')); [eauto | exact Hr']. }
    assert (Hr : is_Some (weights w1 !! r))
      by (simpl; rewrite lookup_insert_eq; eauto).
    split; [exact Hr |]. split; [| split; [exact Hgrow | reflexivity]].
    simpl. apply map_emplace_Forall; [| exact Hr].
    eapply Forall_impl; [exact Hm |]. intros kv. apply Hgrow. }
  unfold GetOrCreateWeight.
  destruct (map_find key _) as [r |] eqn:E; [| exact Hcreate].
  destruct (decide (r ∈ weight_unreferenced w)); [exact Hcreate |].
  simpl. split; [| split; [exact Hm | split; [auto | reflexivity]]].
  destruct (map_find_In _ _ _ E) as [k Hk].
  rewrite Forall_forall in Hm. apply (Hm (k, r) Hk).
Qed.

Lemma create_endpoints_live addrs args :
  forall errors w,
    Forall (fun kv => is_Some (weights w !! kv.2))
      (endpoint_weight_map_ (wrr w)) ->
    let es := fst (fst (create_endpoints addrs args errors w)) in
    let w' := snd (create_endpoints addrs args errors w) in
    Forall (fun ep => is_Some (weights w' !! WrrEndpoint_weight_ ep)) es
    /\ Forall (fun kv => is_Some (weights w' !! kv.2))
         (endpoint_weight_map_ (wrr w'))
    /\ (forall r, is_Some (weights w !! r) -> is_Some (weights w' !! r))
    /\ config_ (wrr w') = config_ (wrr w).
Proof.
  induction addrs as [| a addrs IH]; intros errors w Hm; simpl.
  - split; [constructor |]. split; [exact Hm |]. split; [auto | reflexivity].
  - pose proof (GetOrCreateWeight_live (addresses a) w Hm) as G.
    destruct (GetOrCreateWeight (addresses a) w) as [weight w1].
    simpl in G. destruct G as (G1 & G2 & G3 & G4).
    match goal with
    | |- context [create_endpoints addrs args ?e w1] =>
        specialize (IH e w1 G2);
        destruct (create_endpoints addrs args e w1) as [[es errors2] w2]
    end.
    simpl in IH |- *. destruct IH as (H1 & H2 & H3 & H4).
    split; [constructor; [simpl; now apply H3 | exact H1] |].
    split; [exact H2 |]. split; [auto | congruence].
Qed.

Lemma promote_pending_store w :
  weights (promote_pending w) = weights w
  /\ config_ (wrr (promote_pending w)) = config_ (wrr w)
  /\ (forall P : list grpc_resolved_address * WeightRef -> Prop,
        Forall P (endpoint_weight_map_ (wrr w)) ->
        Forall P (endpoint_weight_map_ (wrr (promote_pending w))))
  /\ forall r l, lists (promote_pending w) !! r = Some l ->
                 lists w !! r = Some l.
Proof.
  split; [apply promote_pending_weights |].
  split; [apply promote_pending_config |].
  split.
  - intros P H. unfold promote_pending.
    exact (map_destroy_list_Forall P (endpoint_list_ (wrr w)) w H).
  - intros r l H. rewrite promote_pending_lists_any in H.
    destruct (endpoint_list_ (wrr w)); [| exact H].
    now apply lookup_delete_Some in H as [_ H].
Qed.

(** An update that carries a configuration leaves a world that can be
    served. *)
Lemma UpdateLocked_live args w :
  World_live w -> UpdateArgs_config args <> None ->
  World_live (snd (UpdateLocked args w)).
Proof.
  intros [Hcfg Hlive Hshut Hmap] Hc.
  set (w1 := set_wrr (set_config_ (UpdateArgs_config args))
               (emit IncrementWrrUpdates w)).
  assert (Hgen : forall addrs st1 (st2 : list string -> Status),
             let '(es, errors, w2) :=
               create_endpoints addrs (UpdateArgs_args args) [] w1 in
             let new_list :=
               mkWrrEndpointList es (UpdateArgs_resolution_note args) 0 0 0
                 OkStatus in
             let new_ref := fresh (dom (lists w2)) in
             let w3 :=
               set_wrr (set_latest_pending_endpoint_list_ (Some new_ref))
                 (destroy_list (latest_pending_endpoint_list_ (wrr w2))
                    (put_list new_ref new_list w2)) in
             let result : Status * World :=
               if EndpointList_size new_list =? 0 then
                 (st1, emit (ReportTransientFailure new_ref st1)
                         (promote_pending w3))
               else
                 (st2 errors,
                  match endpoint_list_ (wrr w3) with
                  | None => promote_pending w3
                  | Some _ => w3
                  end) in
             World_live (snd result)).
  { intros addrs st1 st2.
    pose proof (create_endpoints_frame addrs (UpdateArgs_args args) [] w1)
      as Hframe.
    pose proof (create_endpoints_live addrs (UpdateArgs_args args) [] w1
                  Hmap) as Hl.
    destruct (create_endpoints addrs (UpdateArgs_args args) [] w1)
      as [[es errors] w2].
    destruct Hframe as (F1 & _ & _ & _ & F5).
    simpl in Hl. destruct Hl as (L1 & L2 & L3 & L4).
    intros new_list new_ref w3 result.
    assert (Hany : forall w',
               weights w' = weights w2 ->
               config_ (wrr w') = config_ (wrr w2) ->
               (forall P : list grpc_resolved_address * WeightRef -> Prop,
                   Forall P (endpoint_weight_map_ (wrr w2)) ->
                   Forall P (endpoint_weight_map_ (wrr w'))) ->
               (forall r l', lists w' !! r = Some l' ->
                             l' = new_list \/ lists w2 !! r = Some l') ->
               World_live w').
    { intros w' Ew Ec Em Hls. split.
      - intros r l' _. rewrite Ec, L4. exact Hc.
      - intros r l' Hr. unfold weights_live. rewrite Ew.
        destruct (Hls r l' Hr) as [-> | Hold]; [exact L1 |].
        rewrite F1 in Hold.
        eapply Forall_impl; [apply (Hlive r l' Hold) |].
        intros ep. apply L3.
      - intros r l' Hr.
        destruct (Hls r l' Hr) as [-> | Hold].
        + unfold none_in_shutdown. simpl.
          eapply Forall_impl; [exact F5 |]. intros ep ->. discriminate.
        + rewrite F1 in Hold. apply (Hshut r l' Hold).
      - rewrite Ew. apply Em. exact L2. }
    set (w2' := put_list new_ref new_list w2).
    assert (Hs3 : weights w3 = weights w2
                  /\ config_ (wrr w3) = config_ (wrr w2)
                  /\ forall P : list grpc_resolved_address * WeightRef
                                -> Prop,
                       Forall P (endpoint_weight_map_ (wrr w2)) ->
                       Forall P (endpoint_weight_map_ (wrr w3))).
    { split; [exact (weights_destroy_list _ w2') |].
      split.
      - destruct (policy_destroy_list
                    (latest_pending_endpoint_list_ (wrr w2)) w2')
          as (E & _).
        exact E.
      - intros P H.
        exact (map_destroy_list_Forall P
                 (latest_pending_endpoint_list_ (wrr w2)) w2' H). }
    destruct Hs3 as (Ew3 & Ec3 & Em3).
    assert (Hl3 : forall r l', lists w3 !! r = Some l' ->
                               l' = new_list \/ lists w2 !! r = Some l').
    { intros r l'.
      change (lists w3)
        with (lists (destroy_list (latest_pending_endpoint_list_ (wrr w2))
                       w2')).
      rewrite lists_destroy_list. unfold w2', put_list. simpl.
      assert (Hins : <[new_ref := new_list]> (lists w2) !! r = Some l' ->
                     l' = new_list \/ lists w2 !! r = Some l').
      { rewrite lookup_insert. destruct (decide (new_ref = r));
          [intros [= <-]; now left | now right]. }
      destruct (latest_pending_endpoint_list_ (wrr w2)) as [p |];
        [| exact Hins].
      intros H. apply lookup_delete_Some in H as [_ H]. now apply Hins. }
    destruct (promote_pending_store w3) as (Ewp & Ecp & Emp & Hlp).
    assert (Hp : World_live (promote_pending w3)).
    { apply Hany; try congruence.
      - intros P H. apply Emp, Em3, H.
      - intros r l' H. apply Hl3, Hlp, H. }
    subst result. destruct (EndpointList_size new_list =? 0); cbn [snd].
    - apply Hany.
      + change (weights (promote_pending w3) = weights w2). congruence.
      + change (config_ (wrr (promote_pending w3)) = config_ (wrr w2)).
        congruence.
      + intros P H.
        change (Forall P (endpoint_weight_map_ (wrr (promote_pending w3)))).
        apply Emp, Em3, H.
      + intros r l' H. apply Hl3, Hlp, H.
    - destruct (endpoint_list_ (wrr w3)); [| exact Hp].
      now apply Hany. }
  unfold UpdateLocked. fold w1.
  destruct (UpdateArgs_addresses args) as [l | s].
  - specialize (Hgen (ordered_addresses l)). simpl in Hgen |- *.
    match goal with
    | |- context [create_endpoints ?a ?b ?c ?d] =>
        destruct (create_endpoints a b c d) as [[es errors] w2]
    end.
    destruct (negb (length errors =? 0)%nat).
    + apply (Hgen (UnavailableError "empty address list")
               (fun _ => UnavailableError
                           ("errors from children: ["
                            ++ StrJoin errors "; " ++ "]"))).
    + apply (Hgen (UnavailableError "empty address list")
               (fun _ => OkStatus)).
  - destruct (endpoint_list_ (wrr w1)) as [act |].
    + simpl. split; try assumption. intros r l' _. exact Hc.
    + specialize (Hgen []). simpl in Hgen |- *.
      apply (Hgen s (fun _ => OkStatus)).
Qed.

Lemma UpdateStateCountersLocked_not_shutdown old_state new_state l l2 :
  UpdateStateCountersLocked old_state new_state l = Done l2 ->
  new_state <> GRPC_CHANNEL_SHUTDOWN
  /\ endpoints l2 = endpoints l.
Proof.
  unfold UpdateStateCountersLocked. intros H.
  destruct old_state as [[] |]; simpl in H;
    repeat match type of H with
      | context [CHECK (?x >? 0)] =>
          destruct (x >? 0); simpl in H; [| discriminate]
      end;
    try discriminate;
    destruct new_state; simpl in H; try discriminate;
    injection H as <-; split; (discriminate || reflexivity).
Qed.

Lemma set_state_if_current_policy random now this status w w' :
  set_state_if_current random now this status w = Done w' ->
  config_ (wrr w') = config_ (wrr w)
  /\ endpoint_weight_map_ (wrr w') = endpoint_weight_map_ (wrr w).
Proof.
  unfold set_state_if_current.
  destruct (lists w !! this) as [self |]; [| discriminate]. simpl.
  destruct (negb _); [intros [= <-]; split; reflexivity |].
  destruct (num_ready_ self >? 0).
  - destruct (Picker_new random now this w) as [[p w1] |] eqn:E;
      [| discriminate].
    simpl. intros [= <-]. apply Picker_new_lists in E as [_ E].
    simpl. rewrite E. split; reflexivity.
  - destruct (num_connecting_ self >? 0);
      [intros [= <-]; split; reflexivity |].
    destruct (_ =? _); intros [= <-]; split; reflexivity.
Qed.

Lemma MaybeUpdateAggregated_policy random now this status w w' :
  MaybeUpdateAggregatedConnectivityStateLocked random now this status w
  = Done w' ->
  config_ (wrr w') = config_ (wrr w)
  /\ forall P : list grpc_resolved_address * WeightRef -> Prop,
       Forall P (endpoint_weight_map_ (wrr w)) ->
       Forall P (endpoint_weight_map_ (wrr w')).
Proof.
  unfold MaybeUpdateAggregatedConnectivityStateLocked.
  destruct (swap_if_latest_pending this w) as [w1 |] eqn:E1;
    [| discriminate].
  simpl. intros E2. apply set_state_if_current_policy in E2 as [-> ->].
  unfold swap_if_latest_pending in E1.
  destruct (lists w !! this) as [self |]; [| discriminate]. simpl in E1.
  destruct (ptr_eqb _ _); [| injection E1 as <-; split; auto].
  destruct (endpoint_list_ (wrr w)) as [act |]; [| discriminate].
  simpl in E1. destruct (lists w !! act) as [active |]; [| discriminate].
  simpl in E1. injection E1 as <-.
  destruct (swap_condition active self); [| split; auto].
  destruct (promote_pending_store w) as (_ & H1 & H2 & _). now split.
Qed.

Lemma state_eqb_eq a b : state_eqb a b = true -> a = b.
Proof. destruct a, b; simpl; congruence. Qed.

(** A state notification that is handled to the end leaves a world that
    can be served; in particular it did not deliver SHUTDOWN. *)
Lemma Endpoint_UpdateState_live
    random now this index state status picker w w' :
  World_live w ->
  Endpoint_UpdateState random now this index state status picker w
  = Done w' ->
  World_live w'.
Proof.
  intros [Hcfg Hlive Hshut Hmap]. unfold Endpoint_UpdateState.
  destruct (lists w !! this) as [l |] eqn:Hl; [| discriminate]. simpl.
  destruct (endpoints l !! index) as [ep |] eqn:Hi; [| discriminate]. simpl.
  set (ep' := mkWrrEndpoint (WrrEndpoint_weight_ ep) (Some state)
                (Some picker)).
  set (l1 := set_endpoints (<[index:=ep']> (endpoints l)) l).
  assert (Hold : connectivity_state_ ep <> Some GRPC_CHANNEL_SHUTDOWN)
    by (apply (Forall_lookup_1 _ _ _ _ (Hshut this l Hl) Hi)).
  assert (Hep : is_Some (weights w !! WrrEndpoint_weight_ ep))
    by (apply (Forall_lookup_1 _ _ _ _ (Hlive this l Hl) Hi)).
  unfold OnStateUpdate. rewrite lists_put_list_eq. simpl.
  rewrite list_lookup_insert_eq by (now apply lookup_lt_Some in Hi).
  simpl.
  match goal with
  | |- (?first ≫= _) = _ -> _ => destruct first as [w1 |] eqn:E1
  end; [| discriminate].
  simpl.
  assert (Hw1 : lists w1 = <[this := l1]> (lists w)
                /\ wrr w1 = wrr w
                /\ forall r, is_Some (weights w !! r) ->
                             is_Some (weights w1 !! r)).
  { destruct (state_eqb state GRPC_CHANNEL_IDLE);
      [injection E1 as <-; repeat split; auto |].
    destruct (state_eqb state GRPC_CHANNEL_READY);
      [| injection E1 as <-; repeat split; auto].
    destruct (connectivity_state_ ep) as [old |];
      [| injection E1 as <-; repeat split; auto].
    destruct (negb _); [| injection E1 as <-; repeat split; auto].
    unfold call_weight in E1.
    destruct (weights _ !! _); [| discriminate].
    simpl in E1. injection E1 as <-.
    split; [reflexivity |]. split; [reflexivity |].
    intros r Hr. simpl. rewrite lookup_insert.
    destruct (decide (WrrEndpoint_weight_ ep = r)); [eauto | exact Hr]. }
  clear E1. destruct Hw1 as (El1 & Ew1 & Hg1).
  match goal with
  | |- (?second ≫= _) = _ -> _ => destruct second as [w2 |] eqn:E2
  end; [| discriminate].
  simpl.
  assert (Hw2 : state <> GRPC_CHANNEL_SHUTDOWN
                /\ wrr w2 = wrr w /\ weights w2 = weights w1
                /\ exists l2,
                    endpoints l2 = endpoints l1
                    /\ lists w2 = <[this := l2]> (lists w)).
  { destruct (connectivity_state_ ep) as [old |] eqn:Eo.
    - destruct (negb (state_eqb old state)) eqn:En.
      + destruct (UpdateStateCountersLocked (Some old) state l1)
          as [l2 |] eqn:E; [| discriminate].
        simpl in E2. injection E2 as <-.
        apply UpdateStateCountersLocked_not_shutdown in E as [Hn He].
        split; [exact Hn |]. split; [exact Ew1 |]. split; [reflexivity |].
        exists l2. split; [exact He |].
        unfold put_list, set_lists. simpl. rewrite El1.
        apply insert_insert_eq.
      + injection E2 as <-. apply negb_false_iff, state_eqb_eq in En.
        subst state.
        split; [congruence |]. split; [exact Ew1 |]. split; [reflexivity |].
        exists l1. split; [reflexivity | exact El1].
    - destruct (UpdateStateCountersLocked None state l1)
        as [l2 |] eqn:E; [| discriminate].
      simpl in E2. injection E2 as <-.
      apply UpdateStateCountersLocked_not_shutdown in E as [Hn He].
      split; [exact Hn |]. split; [exact Ew1 |]. split; [reflexivity |].
      exists l2. split; [exact He |].
      unfold put_list, set_lists. simpl. rewrite El1.
      apply insert_insert_eq. }
  clear E2. destruct Hw2 as (Hn & Ew2 & Eg2 & l2 & He2 & El2).
  intros H.
  pose proof (MaybeUpdateAggregated_policy _ _ _ _ _ _ H) as [Ec Em].
  pose proof (MaybeUpdateAggregatedConnectivityStateLocked_kept
                _ _ _ _ _ _ H) as Hkept.
  pose proof (MaybeUpdateAggregated_only_GetWeight _ _ _ _ _ _ H)
    as [_ Haged].
  assert (Hgrow : forall r, is_Some (weights w !! r) ->
                            is_Some (weights w' !! r)).
  { intros r Hr. apply Hg1 in Hr. rewrite <- Eg2 in Hr.
    destruct Hr as [ew Hr].
    destruct (Haged r ew Hr) as (ew' & Hr' & _). eauto. }
  assert (Hlists : forall r l', lists w' !! r = Some l' ->
                     is_Some (lists w !! r)
                     /\ weights_live l' w /\ none_in_shutdown l').
  { intros r l' Hr. destruct (Hkept r l' Hr) as (l0 & Hl0 & He0 & _).
    unfold weights_live, none_in_shutdown. rewrite He0.
    rewrite El2 in Hl0.
    destruct (decide (this = r)) as [<- | Hne].
    - rewrite lookup_insert_eq in Hl0. injection Hl0 as <-.
      rewrite He2. simpl. split; [eauto |]. split.
      + apply Forall_insert; [apply (Hlive this l Hl) | exact Hep].
      + apply Forall_insert; [apply (Hshut this l Hl) |].
        simpl. congruence.
    - rewrite lookup_insert_ne in Hl0 by exact Hne.
      split; [eauto |].
      split; [apply (Hlive r l0 Hl0) | apply (Hshut r l0 Hl0)]. }
  split.
  - intros r l' Hr. destruct (Hlists r l' Hr) as ([l0 Hl0] & _).
    rewrite Ec, Ew2. apply (Hcfg r l0 Hl0).
  - intros r l' Hr. destruct (Hlists r l' Hr) as (_ & Hw & _).
    eapply Forall_impl; [exact Hw |]. intros e. apply Hgrow.
  - intros r l' Hr. now destruct (Hlists r l' Hr) as (_ & _ & Hs).
  - apply Em. rewrite Ew2. eapply Forall_impl; [exact Hmap |].
    intros kv. apply Hgrow.
Qed.

Lemma call_weight_live r c w w' :
  World_live w -> call_weight r c w = Done w' -> World_live w'.
Proof.
  intros [Hcfg Hlive Hshut Hmap]. unfold call_weight.
  destruct (weights w !! r) as [ew |] eqn:E; [| discriminate].
  simpl. intros [= <-].
  assert (Hgrow : forall r', is_Some (weights w !! r') ->
                             is_Some (<[r := run_call ew c]> (weights w)
                                      !! r')).
  { intros r' Hr'. rewrite lookup_insert.
    destruct (decide (r = r')); [eauto | exact Hr']. }
  split; simpl.
  - exact Hcfg.
  - intros r' l Hl. eapply Forall_impl; [apply (Hlive r' l Hl) |].
    intros e. apply Hgrow.
  - exact Hshut.
  - eapply Forall_impl; [exact Hmap |]. intros kv. apply Hgrow.
Qed.

Lemma World_live_init st : World_live (World_init st).
Proof.
  split; simpl; try constructor;
    intros r l H; rewrite lookup_empty in H; discriminate.
Qed.

(** Every reachable world can be served. *)
Lemma reachable_live w : reachable w -> World_live w.
Proof.
  induction 1 as [st | args w Hr IH Hc Hcfg
                 | random now this index state status picker w w' Hr IH
                     Hstep
                 | now weight penalty d w w' Hr IH Hstep
                 | now weight penalty d w w' Hr IH Hstep
                 | r w Hr IH Href
                 | r w Hr IH
                 | r w w' Hr IH Hin Hstep].
  - apply World_live_init.
  - now apply UpdateLocked_live.
  - now apply Endpoint_UpdateState_live in Hstep.
  - now apply call_weight_live in Hstep.
  - unfold SubchannelCallTracker_Finish in Hstep.
    destruct d as [d |]; now apply call_weight_live in Hstep.
  - destruct IH as [Hcfg Hlive Hshut Hmap]. split; assumption.
  - destruct (EndpointWeight_Unref_outside_frame r w) as (El & Ew & Es & _).
    destruct IH as [Hcfg Hlive Hshut Hmap].
    split; unfold weights_live; rewrite ?El, ?Ew, ?Es; assumption.
  - apply EndpointWeight_destroy_released in Hstep
      as (El & Es & _ & _ & _ & _ & Ec & _ & _ & _ & _ & _ & Hm).
    destruct IH as [Hcfg Hlive Hshut Hmap].
    split; unfold weights_live; rewrite ?El, ?Ec, ?Es; try assumption.
    apply (Hm (fun kv => is_Some (weights w !! kv.2))), Hmap.
Qed.

(** In a reachable world every state notification other than SHUTDOWN,
    for an endpoint of a live list, is handled to the end: no [CHECK]
    fails and no null pointer is followed. *)
Lemma reachable_notification_returns
    random now this index state status picker w l ep :
  reachable w ->
  lists w !! this = Some l -> endpoints l !! index = Some ep ->
  state <> GRPC_CHANNEL_SHUTDOWN ->
  exists w',
    Endpoint_UpdateState random now this index state status picker w
    = Done w'.
Proof.
  intros Hr Hl Hi Hn.
  destruct (reachable_invariant w Hr) as [Hwf Hcons].
  destruct (reachable_live w Hr) as [Hcfg Hlive Hshut _].
  apply Endpoint_UpdateState_returns with l ep; try assumption.
  - now apply (Hcons this).
  - now apply (Hcfg this l).
  - now apply (Hlive this).
  - apply (Forall_lookup_1 _ _ _ _ (Hshut this l Hl) Hi).
Qed.
End ServingInvariant.

(** ** The theorems at work on the sample runs *)

Lemma sample_world_ready_wf : World_wf sample_world_ready.
Proof.
  split.
  - intros r H. vm_compute in H. injection H as <-. vm_compute. eauto.
  - intros r H. vm_compute in H. discriminate.
  - intros r H. vm_compute in H. discriminate.
Qed.

Lemma aggregation_first_match_witness :
  @MaybeUpdateAggregatedConnectivityStateLocked sample_collaborators 0
    (FromMillisecondsAfterProcessEpoch 500) 0%nat (UnavailableError "down")
    sample_world_failed
  = Done (emit (ReportTransientFailure 0%nat
                  (UnavailableError
                     "connections to all backends failing; last error: down"))
            (put_list 0%nat
               (set_last_failure_
                  (UnavailableError
                     "connections to all backends failing; last error: down")
                  (the_list 0%nat sample_world_failed))
               sample_world_failed))
  /\ exists picker w1,
       @MaybeUpdateAggregatedConnectivityStateLocked sample_collaborators 0
         (FromMillisecondsAfterProcessEpoch 500) 1%nat OkStatus
         sample_world_pending_all_ready
       = Done (emit (UpdateState GRPC_CHANNEL_READY OkStatus
                       (WrrPicker picker)) w1)
       /\ endpoints_ picker
          = [mkEndpointInfo (Some 13%nat) 0%nat;
             mkEndpointInfo (Some 14%nat) 2%nat]
       /\ endpoint_list_ (wrr w1) = Some 1%nat
       /\ latest_pending_endpoint_list_ (wrr w1) = None.
Proof.
  split.
  2: {
    set (w := sample_world_pending_all_ready).
    set (w0 := @promote_pending sample_collaborators w).
    assert (Ha : @aggregates_as_active sample_collaborators 1%nat w w0).
    { right. split; [vm_compute; reflexivity |].
      exists 0%nat, (the_list 0%nat w), (the_list 1%nat w).
      split; [vm_compute; reflexivity |].
      split; [vm_compute; reflexivity |].
      split; [vm_compute; reflexivity |].
      split; [vm_compute; reflexivity | reflexivity]. }
    assert (Hl : lists w0 !! 1%nat = Some (the_list 1%nat w))
      by (vm_compute; reflexivity).
    destruct (@aggregation_first_match sample_collaborators 0
                (FromMillisecondsAfterProcessEpoch 500) OkStatus 1%nat
                (the_list 1%nat w) w w0 Ha Hl)
      as ((_ & Hsnap & Hrun) & _); [order_by_computation |].
    destruct Hrun as (picker & w1 & Hp & Hrun).
    { vm_compute. discriminate. }
    { repeat constructor; vm_compute; eauto. }
    exists picker, w1. split; [exact Hrun |].
    split; [rewrite (Hsnap picker w1 Hp); vm_compute; reflexivity |].
    apply Picker_new_lists in Hp as [_ Hp]. rewrite Hp.
    split; vm_compute; reflexivity. }
  assert (Ha : @aggregates_as_active sample_collaborators 0%nat
                 sample_world_failed sample_world_failed).
  { left. split; [vm_compute; reflexivity |].
    split; [vm_compute; discriminate | reflexivity]. }
  assert (Hl : lists sample_world_failed !! 0%nat
               = Some (the_list 0%nat sample_world_failed))
    by (vm_compute; reflexivity).
  destruct (@aggregation_first_match sample_collaborators 0
              (FromMillisecondsAfterProcessEpoch 500) (UnavailableError "down")
              0%nat (the_list 0%nat sample_world_failed) sample_world_failed
              sample_world_failed Ha Hl)
    as (_ & _ & H).
  assert (Hr : num_ready_ (the_list 0%nat sample_world_failed) <= 0)
    by order_by_computation.
  assert (Hn : num_connecting_ (the_list 0%nat sample_world_failed) <= 0)
    by order_by_computation.
  assert (Ht : num_transient_failure_ (the_list 0%nat sample_world_failed)
               = EndpointList_size (the_list 0%nat sample_world_failed))
    by (vm_compute; reflexivity).
  destruct (H Hr Hn Ht) as (H' & _).
  apply H'. reflexivity.
Defined.

Lemma sample_list_consistent r w :
  num_ready_ (the_list r w) = count_in is_ready (the_list r w) ->
  num_connecting_ (the_list r w)
  = count_in is_connecting_or_idle (the_list r w) ->
  num_transient_failure_ (the_list r w)
  = count_in is_transient_failure (the_list r w) ->
  EndpointList_size (the_list r w) < 2 ^ 64 ->
  counters_consistent (the_list r w).
Proof. intros. now split. Qed.

Lemma pending_list_promotion_witness :
  @MaybeUpdateAggregatedConnectivityStateLocked sample_collaborators 0
    (FromMillisecondsAfterProcessEpoch 500) 1%nat OkStatus sample_world_pending
  = Done sample_world_pending
  /\ @swap_if_latest_pending sample_collaborators 1%nat
       sample_world_pending_all_ready
     = Done (@promote_pending sample_collaborators
               sample_world_pending_all_ready).
Proof.
  assert (Hne : 0%nat <> 1%nat) by discriminate.
  split.
  - assert (Hs : counters_consistent (the_list 1%nat sample_world_pending))
      by (apply sample_list_consistent; vm_compute; reflexivity).
    assert (Ha : counters_consistent (the_list 0%nat sample_world_pending))
      by (apply sample_list_consistent; vm_compute; reflexivity).
    assert (Hp : latest_pending_endpoint_list_ (wrr sample_world_pending)
                 = Some 1%nat) by (vm_compute; reflexivity).
    assert (Hc : endpoint_list_ (wrr sample_world_pending) = Some 0%nat)
      by (vm_compute; reflexivity).
    assert (Hl : lists sample_world_pending !! 1%nat
                 = Some (the_list 1%nat sample_world_pending))
      by (vm_compute; reflexivity).
    assert (Hla : lists sample_world_pending !! 0%nat
                  = Some (the_list 0%nat sample_world_pending))
      by (vm_compute; reflexivity).
    destruct (@pending_list_promotion sample_collaborators 0
                (FromMillisecondsAfterProcessEpoch 500) OkStatus 1%nat 0%nat
                (the_list 1%nat sample_world_pending)
                (the_list 0%nat sample_world_pending) sample_world_pending
                Hp Hc Hne Hl Hla Hs Ha) as [_ H].
    apply H. intros Hrule.
    apply (swap_condition_iff _ _ Ha Hs) in Hrule.
    vm_compute in Hrule. discriminate.
  - assert (Hs : counters_consistent
                   (the_list 1%nat sample_world_pending_all_ready))
      by (apply sample_list_consistent; vm_compute; reflexivity).
    assert (Ha : counters_consistent
                   (the_list 0%nat sample_world_pending_all_ready))
      by (apply sample_list_consistent; vm_compute; reflexivity).
    assert (Hp : latest_pending_endpoint_list_
                   (wrr sample_world_pending_all_ready) = Some 1%nat)
      by (vm_compute; reflexivity).
    assert (Hc : endpoint_list_ (wrr sample_world_pending_all_ready)
                 = Some 0%nat) by (vm_compute; reflexivity).
    assert (Hl : lists sample_world_pending_all_ready !! 1%nat
                 = Some (the_list 1%nat sample_world_pending_all_ready))
      by (vm_compute; reflexivity).
    assert (Hla : lists sample_world_pending_all_ready !! 0%nat
                  = Some (the_list 0%nat sample_world_pending_all_ready))
      by (vm_compute; reflexivity).
    destruct (@pending_list_promotion sample_collaborators 0
                (FromMillisecondsAfterProcessEpoch 500) OkStatus 1%nat 0%nat
                (the_list 1%nat sample_world_pending_all_ready)
                (the_list 0%nat sample_world_pending_all_ready)
                sample_world_pending_all_ready
                Hp Hc Hne Hl Hla Hs Ha) as [H _].
    apply H. apply (swap_condition_iff _ _ Ha Hs).
    vm_compute. reflexivity.
Defined.

Lemma UpdateLocked_empty_address_list_witness :
  fst (@UpdateLocked sample_collaborators sample_empty_args sample_world_ready)
  = UnavailableError "empty address list"
  /\ endpoint_list_
       (wrr (snd (@UpdateLocked sample_collaborators sample_empty_args
                    sample_world_ready)))
     = Some 1%nat.
Proof.
  destruct (@UpdateLocked_empty_address_list sample_collaborators
              sample_empty_args sample_world_ready)
    as (H1 & _ & _ & _ & H5 & _);
    [exact sample_world_ready_wf | reflexivity |].
  split; [apply (H1 []); reflexivity |].
  rewrite H5. vm_compute. reflexivity.
Defined.

Lemma UpdateLocked_resolver_error_witness :
  fst (@UpdateLocked sample_collaborators sample_error_args sample_world_ready)
  = mkStatus kUnavailable "resolver down"
  /\ lists (snd (@UpdateLocked sample_collaborators sample_error_args
                   sample_world_ready))
     = lists sample_world_ready.
Proof.
  destruct (@UpdateLocked_resolver_error sample_collaborators
              sample_error_args sample_world_ready
              (mkStatus kUnavailable "resolver down") eq_refl) as [H _].
  destruct H as (H1 & H2 & _); [vm_compute; discriminate |].
  split; assumption.
Defined.

Lemma sample_world_ready_again_wf : World_wf sample_world_ready_again.
Proof.
  split.
  - intros r H. vm_compute in H. injection H as <-. vm_compute. eauto.
  - intros r H. vm_compute in H. discriminate.
  - intros r H. vm_compute in H. discriminate.
Qed.

(** C7 as stated fails twice.  First, endpoint a of list 0 goes from
    READY to CONNECTING at 300ms and back to READY at 400ms, which resets
    [non_empty_since_].  A report whose clock was read at 399ms, before
    the reset, is applied after it ([MaybeUpdateWeight] reads the clock
    before it takes the lock) and makes 399ms the start of the blackout:
    at 10399ms, inside the 10s window after the second READY and long
    before the weight expires, [GetWeight] returns the weight.  Second,
    an update builds a new list whose endpoint a shares the weight that
    got its first report at 150ms; the initial notification of that
    endpoint, READY at 200s, calls no [ResetNonEmptySince], yet it swaps
    the list in and builds a picker whose [GetWeight] finds the weight
    expired and sets [non_empty_since_] to +infinity, the value a reset
    gives it. *)
Lemma blackout_after_reconnection_as_stated_fails :
  (exists w1 w2 w3 ew,
      @Endpoint_UpdateState sample_collaborators 6
        (FromMillisecondsAfterProcessEpoch 300) 0%nat 0%nat
        GRPC_CHANNEL_CONNECTING OkStatus 11%nat sample_world_ready
      = Done w1
      /\ @Endpoint_UpdateState sample_collaborators 7
           (FromMillisecondsAfterProcessEpoch 400) 0%nat 0%nat
           GRPC_CHANNEL_READY OkStatus 15%nat w1
         = Done w2
      /\ OobWatcher_OnBackendMetricReport
           (FromMillisecondsAfterProcessEpoch 399) 0%nat (float_of_Z 1)
           (mkBackendMetricData (double_of_Z 3) (double_of_Z 1)
              (double_of_Z 2) (double_of_Z 0)) w2
         = Done w3
      /\ weights w3 !! 0%nat = Some ew
      /\ 0 < millis (blackout_period sample_config)
      /\ millis (Timestamp_sub (FromMillisecondsAfterProcessEpoch 10399)
                   (FromMillisecondsAfterProcessEpoch 400))
         < millis (blackout_period sample_config)
      /\ ~ expired (FromMillisecondsAfterProcessEpoch 10399)
            (weight_expiration_period sample_config) ew
      /\ gw_return
           (GetWeight (FromMillisecondsAfterProcessEpoch 10399)
              (weight_expiration_period sample_config)
              (blackout_period sample_config) 0 0 ew)
         = weight_ ew
      /\ fgt (weight_ ew) fzero = true)
  /\ (exists l ep ew w5 ew5,
        let w4 :=
          snd (@UpdateLocked sample_collaborators
                 {| UpdateArgs_addresses :=
                      StatusOr_value [mkEndpointAddresses ["a"] 0%nat];
                    UpdateArgs_config := Some sample_config;
                    UpdateArgs_resolution_note := "";
                    UpdateArgs_args := 0%nat |}
                 sample_world_ready) in
        lists w4 !! 1%nat = Some l
        /\ endpoints l !! 0%nat = Some ep
        /\ connectivity_state_ ep = None
        /\ WrrEndpoint_weight_ ep = 0%nat
        /\ weights w4 !! 0%nat = Some ew
        /\ non_empty_since_ ew = FromMillisecondsAfterProcessEpoch 150
        /\ @Endpoint_UpdateState sample_collaborators 8
             (FromMillisecondsAfterProcessEpoch 200000) 1%nat 0%nat
             GRPC_CHANNEL_READY OkStatus 16%nat w4
           = Done w5
        /\ weights w5 !! 0%nat = Some ew5
        /\ non_empty_since_ ew5 = InfFuture).
Proof.
  split.
  - eexists _, _, _, _.
    split; [vm_compute; reflexivity |].
    split; [vm_compute; reflexivity |].
    split; [vm_compute; reflexivity |].
    split; [vm_compute; reflexivity |].
    split; [reflexivity |].
    split; [vm_compute; reflexivity |].
    split; [unfold expired; order_by_computation |].
    split; vm_compute; reflexivity.
  - eexists _, _, _, _, _. cbv zeta.
    split; [vm_compute; reflexivity |].
    split; [vm_compute; reflexivity |].
    split; [reflexivity |].
    split; [reflexivity |].
    split; [vm_compute; reflexivity |].
    split; [reflexivity |].
    split; [vm_compute; reflexivity |].
    split; [vm_compute; reflexivity |].
    vm_compute. reflexivity.
Qed.

Lemma OnStateUpdate_restarts_blackout_witness :
  let run :=
    @OnStateUpdate sample_collaborators 7
      (FromMillisecondsAfterProcessEpoch 400) 0%nat 0%nat
      (Some GRPC_CHANNEL_CONNECTING) GRPC_CHANNEL_READY OkStatus
      sample_world_ready_again in
  let w' := run_or sample_world_ready_again run in
  (exists w0, run = Done w0)
  /\ exists ew',
      weights w' !! 0%nat = Some ew'
      /\ non_empty_since_ ew' = InfFuture
      /\ gw_return
           (GetWeight (FromMillisecondsAfterProcessEpoch 5000)
              (Milliseconds 180000) (Milliseconds 10000) 0 0
              (run_calls
                 [CallMaybeUpdateWeight
                    (FromMillisecondsAfterProcessEpoch 450)
                    (double_of_Z 3) (double_of_Z 1) (double_of_Z 2)
                    (float_of_Z 1)]
                 ew'))
         = fzero.
Proof.
  intros run w'.
  assert (Hl : lists sample_world_ready_again !! 0%nat
               = Some (the_list 0%nat sample_world_ready_again))
    by (vm_compute; reflexivity).
  assert (Hi : endpoints (the_list 0%nat sample_world_ready_again) !! 0%nat
               = Some (mkWrrEndpoint 0%nat (Some GRPC_CHANNEL_READY)
                         (Some 15%nat)))
    by (vm_compute; reflexivity).
  assert (Hcfg : config_ (wrr sample_world_ready_again) <> None)
    by (vm_compute; discriminate).
  assert (Hws : weights_live (the_list 0%nat sample_world_ready_again)
                  sample_world_ready_again)
    by (repeat constructor; vm_compute; eauto).
  assert (Hc : counted (Some GRPC_CHANNEL_CONNECTING)
                 (the_list 0%nat sample_world_ready_again))
    by (vm_compute; reflexivity).
  assert (Hn : GRPC_CHANNEL_READY <> GRPC_CHANNEL_SHUTDOWN)
    by discriminate.
  assert (Hrun : run = Done w') by (vm_compute; reflexivity).
  destruct (@OnStateUpdate_restarts_blackout sample_collaborators 7
              (FromMillisecondsAfterProcessEpoch 400) 0%nat 0%nat
              (Some GRPC_CHANNEL_CONNECTING) GRPC_CHANNEL_READY OkStatus
              sample_world_ready_again
              (the_list 0%nat sample_world_ready_again)
              (mkWrrEndpoint 0%nat (Some GRPC_CHANNEL_READY) (Some 15%nat))
              Hl Hi)
    as [Hret Hspec].
  split; [exact (Hret sample_world_ready_again_wf Hcfg Hws Hc Hn) |].
  destruct (Hspec w' Hrun) as (_ & H & _).
  destruct H as (ew' & H1 & H2 & H3); [reflexivity |].
  exists ew'. split; [exact H1 |]. split; [exact H2 |].
  apply (H3 (FromMillisecondsAfterProcessEpoch 400)).
  - constructor; [| constructor].
    split; [order_by_computation | reflexivity].
  - order_by_computation.
  - order_by_computation.
  - reflexivity.
  - vm_compute. reflexivity.
Defined.

(** ** Updates that carry addresses *)

Section NonEmptyUpdates.
Context {C : Collaborators}.

Lemma GetOrCreateWeight_effects key w :
  effects (snd (GetOrCreateWeight key w)) = effects w.
Proof.
  unfold GetOrCreateWeight.
  destruct (map_find key _) as [r |]; [| reflexivity].
  destruct (decide (r ∈ weight_unreferenced w)); reflexivity.
Qed.

Lemma create_endpoints_effects addrs args :
  forall errors w,
    effects (snd (create_endpoints addrs args errors w)) = effects w.
Proof.
  induction addrs as [| a addrs IH]; intros errors w; simpl; [reflexivity |].
  pose proof (GetOrCreateWeight_effects (addresses a) w) as G.
  destruct (GetOrCreateWeight (addresses a) w) as [weight w1]. simpl in G.
  match goal with
  | |- context [create_endpoints addrs args ?e w1] =>
      specialize (IH e w1);
      destruct (create_endpoints addrs args e w1) as [[es errors2] w2]
  end.
  simpl in *. congruence.
Qed.

Lemma ordered_insert_not_nil e s : ordered_insert e s <> [].
Proof.
  destruct s as [| x s]; simpl; [discriminate |].
  destruct (EndpointAddressSet_lt (addresses e) (addresses x));
    [discriminate |].
  destruct (EndpointAddressSet_lt (addresses x) (addresses e)); discriminate.
Qed.

Lemma ordered_addresses_not_nil l : l <> [] -> ordered_addresses l <> [].
Proof.
  unfold ordered_addresses.
  assert (H : forall l' acc,
             acc <> [] ->
             fold_left (fun s e => ordered_insert e s) l' acc <> []).
  { induction l' as [| e l' IH]; intros acc Hacc; simpl; [exact Hacc |].
    apply IH, ordered_insert_not_nil. }
  destruct l as [| e l]; [contradiction |]. intros _. simpl.
  apply H. discriminate.
Qed.

(** An update that carries at least one address builds a list that is
    not empty, and reports nothing: only the empty list is reported as
    a failure by [UpdateLocked] itself. *)
Lemma UpdateLocked_with_addresses args w l :
  UpdateArgs_addresses args = StatusOr_value l -> l <> [] ->
  effects (snd (UpdateLocked args w)) = effects w ++ [IncrementWrrUpdates].
Proof.
  intros Ha Hl. unfold UpdateLocked. rewrite Ha. simpl.
  pose proof (create_endpoints_frame (ordered_addresses l)
                (UpdateArgs_args args) []
                (set_wrr (set_config_ (UpdateArgs_config args))
                   (emit IncrementWrrUpdates w))) as Hf.
  pose proof (create_endpoints_effects (ordered_addresses l)
                (UpdateArgs_args args) []
                (set_wrr (set_config_ (UpdateArgs_config args))
                   (emit IncrementWrrUpdates w))) as He.
  destruct (create_endpoints _ _ _ _) as [[es errors] w2].
  destruct Hf as (_ & _ & _ & Hlen & _). simpl in He.
  assert (Hes : es <> [])
    by (intros ->; apply (ordered_addresses_not_nil l Hl);
        now apply length_zero_iff_nil).
  unfold EndpointList_size. simpl.
  destruct (Z.of_nat (length es) =? 0) eqn:Ez.
  - apply Z.eqb_eq in Ez. destruct es; [contradiction | discriminate].
  - destruct (negb _);
      destruct (endpoint_list_ _); cbn [snd];
      rewrite ?promote_pending_effects;
      match goal with
      | |- effects (set_wrr ?f ?x) = ?rhs => change (effects x = rhs)
      end;
      rewrite effects_destroy_list; exact He.
Qed.
End NonEmptyUpdates.

(* ===================================================================== *)
(** * Further properties of the policy *)
(* ===================================================================== *)

(** ** Reachable worlds *)

Lemma sample_world_started_reachable :
  @reachable sample_collaborators sample_world_started.
Proof.
  unfold sample_world_started. apply reachable_update.
  - apply reachable_init.
  - vm_compute. reflexivity.
  - discriminate.
Qed.

Lemma sample_world_one_ready_reachable :
  @reachable sample_collaborators sample_world_one_ready.
Proof.
  apply (@reachable_notification sample_collaborators 3
           (FromMillisecondsAfterProcessEpoch 100) 0%nat 0%nat
           GRPC_CHANNEL_READY OkStatus 11%nat sample_world_started).
  - apply sample_world_started_reachable.
  - vm_compute. reflexivity.
Qed.

Lemma reachable_notification_returns_witness :
  exists w',
    @Endpoint_UpdateState sample_collaborators 4
      (FromMillisecondsAfterProcessEpoch 101) 0%nat 1%nat
      GRPC_CHANNEL_TRANSIENT_FAILURE (UnavailableError "refused") 12%nat
      sample_world_one_ready
    = Done w'.
Proof.
  apply (@reachable_notification_returns sample_collaborators 4
           (FromMillisecondsAfterProcessEpoch 101) 0%nat 1%nat
           GRPC_CHANNEL_TRANSIENT_FAILURE (UnavailableError "refused")
           12%nat sample_world_one_ready
           (the_list 0%nat sample_world_one_ready)
           (mkWrrEndpoint 1%nat None None)).
  - apply sample_world_one_ready_reachable.
  - vm_compute. reflexivity.
  - vm_compute. reflexivity.
  - discriminate.
Defined.

Lemma count_in_partition l :
  none_in_shutdown l ->
  count_in has_state l
  = count_in is_ready l + count_in is_connecting_or_idle l
    + count_in is_transient_failure l.
Proof.
  unfold none_in_shutdown, count_in. destruct l as [es ? ? ? ? ?]. simpl.
  induction es as [| e es IH]; intros H; [reflexivity |].
  inversion H as [| ? ? He Hes]; subst. specialize (IH Hes).
  assert (Hhead :
           ((if endpoint_in has_state e then 1 else 0)
            = (if endpoint_in is_ready e then 1 else 0)
              + (if endpoint_in is_connecting_or_idle e then 1 else 0)
              + (if endpoint_in is_transient_failure e then 1 else 0))%nat).
  { unfold endpoint_in.
    destruct (connectivity_state_ e) as [[] |]; try reflexivity.
    contradiction. }
  simpl.
  destruct (endpoint_in has_state e), (endpoint_in is_ready e),
    (endpoint_in is_connecting_or_idle e),
    (endpoint_in is_transient_failure e);
    simpl length; rewrite ?Nat2Z.inj_succ; simpl in Hhead; lia.
Qed.

(** In every reachable world the three counters of every list count its
    endpoints in READY, in CONNECTING or IDLE, and in TRANSIENT_FAILURE;
    no endpoint is in SHUTDOWN; so the counters add up to the number of
    endpoints that have delivered a state, which is at most the size of
    the list. *)
Theorem reachable_counters_count `{C : Collaborators} w r l :
  reachable w -> lists w !! r = Some l ->
  num_ready_ l = count_in is_ready l
  /\ num_connecting_ l = count_in is_connecting_or_idle l
  /\ num_transient_failure_ l = count_in is_transient_failure l
  /\ none_in_shutdown l
  /\ num_ready_ l + num_connecting_ l + num_transient_failure_ l
     = count_in has_state l
  /\ count_in has_state l <= EndpointList_size l < 2 ^ 64.
Proof.
  intros Hr Hl.
  destruct (reachable_invariant w Hr) as [_ Hcons].
  destruct (reachable_live w Hr) as [_ _ Hshut _].
  destruct (Hcons r l Hl) as [H1 H2 H3 H4].
  specialize (Hshut r l Hl).
  pose proof (count_in_partition l Hshut) as Hp.
  pose proof (count_in_bounds has_state l) as Hb.
  repeat split; try assumption; lia.
Qed.

Lemma reachable_counters_count_witness :
  num_ready_ (the_list 0%nat sample_world_one_ready) = 1
  /\ count_in has_state (the_list 0%nat sample_world_one_ready) = 1.
Proof.
  destruct (@reachable_counters_count sample_collaborators
              sample_world_one_ready 0%nat
              (the_list 0%nat sample_world_one_ready))
    as (H1 & H2 & H3 & _ & H5 & _).
  - apply sample_world_one_ready_reachable.
  - vm_compute. reflexivity.
  - split; [rewrite H1; vm_compute; reflexivity |].
    rewrite <- H5, H1, H2, H3. vm_compute. reflexivity.
Defined.

(** ** The picker *)

Section PublishedPicker.
Context {C : Collaborators}.

Lemma StaticStrideScheduler_Pick_never_divides fuel s :
  length (weights_ s) <> O ->
  forall state,
    StaticStrideScheduler_Pick fuel s state <> Abort DivisionByZero.
Proof.
  intros Hn. induction fuel as [| fuel IH]; intros state; simpl;
    [discriminate |].
  destruct (length (weights_ s) =? 0)%nat eqn:Hz;
    [apply Nat.eqb_eq in Hz; contradiction |].
  destruct (candidate_has_credit s state Hn) as [credit Hc].
  rewrite Hc. simpl. destruct (credit >? _); [discriminate | apply IH].
Qed.

Lemma Pick_at_never_divides index args p :
  Pick_at index args p <> Abort DivisionByZero.
Proof.
  unfold Pick_at. destruct (index <? _); [| discriminate]. simpl.
  destruct (endpoints_ p !! Z.to_nat index) as [info |]; [| discriminate].
  simpl. destruct (info_picker info); [| discriminate]. simpl.
  destruct (Picker_config_ p); [| discriminate]. simpl.
  destruct (negb _); [| discriminate].
  destruct (SubchannelPicker_Pick _ _); discriminate.
Qed.

Lemma collect_weights_effects now cfg es :
  forall a b w ws n1 n2 w',
    collect_weights now cfg es a b w = Done (ws, n1, n2, w') ->
    effects w' = effects w ++ map RecordHistogram ws.
Proof.
  induction es as [| e es IH]; intros a b w ws n1 n2 w' H; simpl in H.
  - injection H as <- _ _ <-. simpl. now rewrite app_nil_r.
  - destruct (weights w !! info_weight e) as [ew |]; [| discriminate].
    destruct cfg as [c |]; [| discriminate]. simpl in H.
    destruct (collect_weights now (Some c) es _ _ _)
      as [[[[ws0 x] y] w0] |] eqn:E; [| discriminate].
    simpl in H. injection H as <- _ _ <-.
    apply IH in E. rewrite E. simpl. now rewrite <- app_assoc.
Qed.

(** The picker published with READY serves exactly the endpoints counted
    as READY: when the counters of the list count its endpoints and
    [num_ready_] is positive, the snapshot of the picker that the
    constructor builds has [num_ready_] entries, one per READY endpoint in
    the order of the list, so it is not empty; its scheduler, if any, is
    over that snapshot; the constructor reports the size of the list and
    of the snapshot first; and no pick on it fails the bounds check or
    divides by zero. *)
Theorem published_picker_serves_ready_endpoints
    random now this self w p w1 :
  lists w !! this = Some self ->
  counters_consistent self ->
  0 < num_ready_ self ->
  Picker_new random now this w = Done (p, w1) ->
  endpoints_ p = ready_snapshot self
  /\ Z.of_nat (length (endpoints_ p)) = num_ready_ self
  /\ endpoints_ p <> []
  /\ Picker_wf p
  /\ (exists rest,
         effects w1
         = effects w
           ++ [IncrementWrrSubchannelListSize (EndpointList_size self);
               IncrementWrrSubchannelReadySize (num_ready_ self)]
           ++ rest)
  /\ forall fuel args w2,
       Pick fuel args p w2 <> Abort CheckFailed
       /\ Pick fuel args p w2 <> Abort DivisionByZero.
Proof.
  intros Hl Hcons Hready Hnew.
  pose proof (Picker_new_snapshot random now this self w p w1 Hl Hnew)
    as Hsnap.
  pose proof (Picker_new_wf random now this w p w1 Hnew) as Hwf.
  assert (Hlen : Z.of_nat (length (endpoints_ p)) = num_ready_ self).
  { rewrite Hsnap, (ready_counted self Hcons).
    unfold ready_snapshot, count_in. now rewrite length_map. }
  assert (Hne : endpoints_ p <> [])
    by (intros E; rewrite E in Hlen; simpl in Hlen; lia).
  split; [exact Hsnap |]. split; [exact Hlen |]. split; [exact Hne |].
  split; [exact Hwf |]. split.
  - unfold Picker_new in Hnew. rewrite Hl in Hnew. simpl in Hnew.
    unfold BuildSchedulerAndStartTimerLocked in Hnew. simpl in Hnew.
    destruct (collect_weights now _ _ 0 0 _)
      as [[[[ws n1] n2] w3] |] eqn:E; [| discriminate].
    apply collect_weights_effects in E. simpl in E, Hnew.
    destruct (config_ (wrr w)) as [c |]; [| discriminate]. simpl in Hnew.
    injection Hnew as _ <-.
    assert (Hr : Z.of_nat (length (ready_snapshot self)) = num_ready_ self)
      by (rewrite <- Hsnap; exact Hlen).
    unfold ready_snapshot in Hr. rewrite length_map in Hr.
    destruct (StaticStrideScheduler_Make ws); simpl; rewrite E;
      rewrite length_map, <- !app_assoc; simpl;
      rewrite <- Hr; eexists; reflexivity.
  - intros fuel args w2.
    assert (Hlen0 : length (endpoints_ p) <> O)
      by (destruct (endpoints_ p); [contradiction | discriminate]).
    unfold Pick.
    destruct (PickIndex fuel p w2) as [[[index p1] w3] | why] eqn:E.
    + pose proof (PickIndex_range _ _ _ _ _ _ Hwf Hne E) as Hrange.
      pose proof (PickIndex_keeps_endpoints _ _ _ _ _ _ E) as Hkeep.
      simpl. split.
      * unfold Pick_at. rewrite Hkeep.
        destruct (index <? Z.of_nat (length (endpoints_ p))) eqn:Hlt;
          [| apply Z.ltb_ge in Hlt; lia].
        simpl.
        destruct (endpoints_ p !! Z.to_nat index) as [info |];
          [| discriminate].
        simpl. destruct (info_picker info); [| discriminate]. simpl.
        destruct (Picker_config_ p1); [| discriminate]. simpl.
        destruct (negb _); [| discriminate].
        destruct (SubchannelPicker_Pick _ _); discriminate.
      * pose proof (Pick_at_never_divides index args p1) as H.
        destruct (Pick_at index args p1); [discriminate | simpl; congruence].
    + simpl. unfold PickIndex in E.
      destruct (scheduler_ p) as [s |] eqn:Hs.
      * destruct (Picker_wrr_ p); [| injection E as <-; split; discriminate].
        simpl in E.
        assert (Hs' : length (weights_ s) <> O)
          by (unfold Picker_wf in Hwf; rewrite Hs in Hwf; congruence).
        pose proof (StaticStrideScheduler_Pick_never_check fuel s
                      (scheduler_state_ (wrr w2))) as H1.
        pose proof (StaticStrideScheduler_Pick_never_divides fuel s Hs'
                      (scheduler_state_ (wrr w2))) as H2.
        destruct (StaticStrideScheduler_Pick fuel s _) as [[i st] | why'];
          [discriminate |].
        simpl in E. injection E as <-. split; congruence.
      * destruct (Z.of_nat (length (endpoints_ p)) =? 0) eqn:Hz;
          [apply Z.eqb_eq in Hz; lia | discriminate].
Qed.
End PublishedPicker.

Lemma published_picker_serves_ready_endpoints_witness :
  exists p w1,
    @Picker_new sample_collaborators 5
      (FromMillisecondsAfterProcessEpoch 200) 0%nat sample_world_one_ready
    = Done (p, w1)
    /\ length (endpoints_ p) = 1%nat
    /\ @Pick sample_collaborators 1 0%nat p w1 <> Abort CheckFailed.
Proof.
  destruct (@Picker_new sample_collaborators 5
              (FromMillisecondsAfterProcessEpoch 200) 0%nat
              sample_world_one_ready) as [[p w1] |] eqn:E;
    [| vm_compute in E; discriminate].
  assert (Hl : lists sample_world_one_ready !! 0%nat
               = Some (the_list 0%nat sample_world_one_ready))
    by (vm_compute; reflexivity).
  assert (Hc : counters_consistent (the_list 0%nat sample_world_one_ready))
    by (split; vm_compute; reflexivity).
  assert (Hr : 0 < num_ready_ (the_list 0%nat sample_world_one_ready))
    by (vm_compute; reflexivity).
  destruct (@published_picker_serves_ready_endpoints sample_collaborators
              5 (FromMillisecondsAfterProcessEpoch 200) 0%nat
              (the_list 0%nat sample_world_one_ready)
              sample_world_one_ready p w1 Hl Hc Hr E)
    as (_ & Hlen & _ & _ & _ & Hpick).
  exists p, w1. split; [reflexivity |]. split.
  - apply Nat2Z.inj. rewrite Hlen. vm_compute. reflexivity.
  - apply (Hpick 1%nat 0%nat w1).
Defined.

Section RoundRobinFallback.
Context {C : Collaborators}.

Lemma PickIndex_times_fallback fuel k :
  forall p w,
    scheduler_ p = None -> endpoints_ p <> [] ->
    0 <= last_picked_index_ p < 2 ^ 64 ->
    PickIndex_times fuel k p w
    = Done (map (round_robin_index (last_picked_index_ p)
                   (length (endpoints_ p))) (seq 0 k),
            set_last_picked_index_
              ((last_picked_index_ p + Z.of_nat k) mod 2 ^ 64) p,
            w).
Proof.
  induction k as [| k IH]; intros p w Hs Hne Hv.
  - simpl. rewrite Z.add_0_r, Z.mod_small by exact Hv.
    destruct p; reflexivity.
  - assert (Hlen : Z.of_nat (length (endpoints_ p)) <> 0)
      by (destruct (endpoints_ p); [contradiction | simpl; lia]).
    cbn [PickIndex_times]. unfold PickIndex at 1. rewrite Hs.
    destruct (Z.of_nat (length (endpoints_ p)) =? 0) eqn:Hz;
      [apply Z.eqb_eq in Hz; contradiction |].
    cbn [size_t_fetch_add_1 mbind outcome_bind].
    set (p1 := set_last_picked_index_ ((last_picked_index_ p + 1) mod 2 ^ 64)
                 p).
    assert (Hv1 : 0 <= last_picked_index_ p1 < 2 ^ 64)
      by (apply Z.mod_pos_bound; lia).
    rewrite (IH p1 w Hs Hne Hv1). cbn [mbind outcome_bind].
    match goal with
    | |- Done (?a, ?b, _) = Done (?c, ?d, _) =>
        assert (Ea : a = c); [| assert (Eb : b = d);
                                [| rewrite Ea, Eb; reflexivity]]
    end.
    + cbn [seq map]. f_equal.
      * unfold round_robin_index. rewrite Z.add_0_r.
        now rewrite (Z.mod_small (last_picked_index_ p) (2 ^ 64)) by exact Hv.
      * rewrite <- seq_shift, map_map. apply map_ext. intros i.
        unfold round_robin_index, p1. cbn [last_picked_index_
          set_last_picked_index_ endpoints_].
        f_equal. rewrite Z.add_mod_idemp_l by lia. f_equal. lia.
    + unfold p1, set_last_picked_index_. cbn. f_equal.
      rewrite Z.add_mod_idemp_l by lia. f_equal. lia.
Qed.

Lemma mod_shift_injective v n i j :
  0 < n -> 0 <= i < n -> 0 <= j < n ->
  (v + i) mod n = (v + j) mod n -> i = j.
Proof.
  intros Hn Hi Hj H.
  assert (Hd : ((v + i) - (v + j)) mod n = 0).
  { rewrite Zminus_mod, H, Z.sub_diag. apply Z.mod_0_l. lia. }
  apply Z.mod_divide in Hd; [| lia].
  destruct Hd as [q Hq].
  assert (Hq' : i - j = q * n) by lia.
  assert (q = 0) by nia. lia.
Qed.

(** Without a scheduler the picker is a round robin: the [i]-th of [k]
    picks in a row returns [(last_picked_index_ + i) mod 2^64 mod n], the
    counter ends up advanced by [k], and nothing else changes.  So [n]
    picks in a row, as long as the counter does not wrap, return every
    index of the snapshot exactly once. *)
Theorem round_robin_fallback_cycle fuel k p w :
  scheduler_ p = None -> endpoints_ p <> [] ->
  0 <= last_picked_index_ p < 2 ^ 64 ->
  let n := length (endpoints_ p) in
  let v := last_picked_index_ p in
  PickIndex_times fuel k p w
  = Done (map (round_robin_index v n) (seq 0 k),
          set_last_picked_index_ ((v + Z.of_nat k) mod 2 ^ 64) p, w)
  /\ (v + Z.of_nat n <= 2 ^ 64 ->
      map (round_robin_index v n) (seq 0 n)
      ≡ₚ map Z.of_nat (seq 0 n)).
Proof.
  intros Hs Hne Hv n v. split; [now apply PickIndex_times_fallback |].
  intros Hwrap.
  assert (Hn : 0 < Z.of_nat n)
    by (subst n; destruct (endpoints_ p); [contradiction | simpl; lia]).
  assert (Hidx : forall i, (i < n)%nat ->
                   round_robin_index v n i
                   = (v + Z.of_nat i) mod Z.of_nat n).
  { intros i Hi. unfold round_robin_index.
    rewrite (Z.mod_small (v + Z.of_nat i)) by lia. reflexivity. }
  apply NoDup_Permutation.
  - apply NoDup_fmap_2_strong; [| apply NoDup_seq].
    intros i j Hi Hj E. apply elem_of_seq in Hi, Hj.
    rewrite !Hidx in E by lia.
    apply mod_shift_injective in E; lia.
  - apply NoDup_fmap_2; [intros i j; apply Nat2Z.inj | apply NoDup_seq].
  - intros x. rewrite !list_elem_of_fmap. split.
    + intros (i & -> & Hi). apply elem_of_seq in Hi.
      rewrite Hidx by lia.
      pose proof (Z.mod_pos_bound (v + Z.of_nat i) (Z.of_nat n) Hn) as Hb.
      exists (Z.to_nat ((v + Z.of_nat i) mod Z.of_nat n)).
      split; [lia |]. apply elem_of_seq. lia.
    + intros (j & -> & Hj). apply elem_of_seq in Hj.
      pose proof (Z.mod_pos_bound (Z.of_nat j - v) (Z.of_nat n) Hn) as Hb.
      exists (Z.to_nat ((Z.of_nat j - v) mod Z.of_nat n)).
      split; [| apply elem_of_seq; lia].
      rewrite Hidx by lia. rewrite Z2Nat.id by lia.
      rewrite Z.add_mod_idemp_r by lia.
      replace (v + (Z.of_nat j - v)) with (Z.of_nat j) by lia.
      symmetry. apply Z.mod_small. lia.
Qed.
End RoundRobinFallback.

Lemma round_robin_fallback_cycle_witness :
  @PickIndex_times sample_collaborators 1 2 sample_picker (World_init 0)
  = Done ([1; 0], set_last_picked_index_ 7 sample_picker, World_init 0).
Proof.
  destruct (@round_robin_fallback_cycle sample_collaborators 1 2
              sample_picker (World_init 0)) as [H _];
    [reflexivity | discriminate | vm_compute; intuition discriminate |].
  exact H.
Defined.

(** ** Rebuilding the scheduler *)

Section Rebuild.
Context {C : Collaborators}.

Lemma collect_weights_counts now c es :
  forall a b w ws n1 n2 w',
    collect_weights now (Some c) es a b w = Done (ws, n1, n2, w') ->
    0 <= a -> 0 <= b ->
    a + Z.of_nat (length es) < 2 ^ 64 ->
    b + Z.of_nat (length es) < 2 ^ 64 ->
    a <= n1 /\ b <= n2 /\ (n1 - a) + (n2 - b) <= count_zero ws
    /\ exists calls,
        weight_calls w' = weight_calls w ++ calls
        /\ map fst calls = map info_weight es
        /\ Forall is_GetWeight_call calls.
Proof.
  induction es as [| e es IH]; intros a b w ws n1 n2 w' H Ha Hb Hla Hlb;
    simpl in H.
  - injection H as <- <- <- <-. unfold count_zero. simpl.
    repeat split; try lia. exists []. rewrite app_nil_r.
    repeat split. constructor.
  - destruct (weights w !! info_weight e) as [ew |]; [| discriminate].
    simpl in H.
    destruct (collect_weights now (Some c) es _ _ _)
      as [[[[ws0 x] y] w0] |] eqn:E; [| discriminate].
    simpl in H. injection H as <- <- <- <-.
    simpl length in Hla, Hlb. rewrite Nat2Z.inj_succ in Hla, Hlb.
    assert (Hstep :
             let r := GetWeight now (weight_expiration_period c)
                        (blackout_period c) a b ew in
             a <= gw_num_not_yet_usable r <= a + 1
             /\ b <= gw_num_stale r <= b + 1
             /\ (gw_num_not_yet_usable r - a) + (gw_num_stale r - b)
                <= (if feq (gw_return r) fzero then 1 else 0)).
    { unfold GetWeight, uint64_incr.
      destruct (Duration_geb _ _); simpl;
        [rewrite Z.mod_small by lia; lia |].
      destruct (_ && _); simpl;
        [rewrite Z.mod_small by lia; lia |].
      destruct (feq (weight_ ew) fzero); lia. }
    simpl in Hstep. destruct Hstep as (Sa & Sb & Sz).
    apply IH in E; try lia.
    destruct E as (Ia & Ib & Iz & calls & Ec & Em & Ef).
    split; [lia |]. split; [lia |]. split.
    + unfold count_zero in *. simpl.
      destruct (feq (gw_return _) fzero); simpl length;
        rewrite ?Nat2Z.inj_succ; lia.
    + eexists (_ :: calls). split; [| split].
      * rewrite Ec. simpl. rewrite <- app_assoc. reflexivity.
      * simpl. now rewrite Em.
      * constructor; [exact I | exact Ef].
Qed.

(** What one run of [BuildSchedulerAndStartTimerLocked] reports.  It calls
    [GetWeight] once on the weight of every endpoint of the snapshot, in
    order, and makes no other call on a weight; it records one histogram
    sample per endpoint, then the two counters, then the fall-back counter
    exactly when the picker is left without a scheduler, and then starts
    one timer with the configured update period.  The endpoints counted
    as not yet usable or stale never outnumber the zero weights.  The
    snapshot is kept. *)
Theorem BuildSchedulerAndStartTimerLocked_reports now p w p' w' c :
  Picker_config_ p = Some c ->
  Z.of_nat (length (endpoints_ p)) < 2 ^ 64 ->
  BuildSchedulerAndStartTimerLocked now p w = Done (p', w') ->
  exists ws n1 n2 calls,
    length ws = length (endpoints_ p)
    /\ effects w'
       = effects w ++ map RecordHistogram ws
         ++ [AddCounter kMetricEndpointWeightNotYetUsable n1;
             AddCounter kMetricEndpointWeightStale n2]
         ++ match scheduler_ p' with
            | Some _ => []
            | None => [AddCounter kMetricRrFallback 1]
            end
         ++ [RunAfter (weight_update_period c)]
    /\ 0 <= n1 /\ 0 <= n2 /\ n1 + n2 <= count_zero ws
    /\ weight_calls w' = weight_calls w ++ calls
    /\ map fst calls = map info_weight (endpoints_ p)
    /\ Forall is_GetWeight_call calls
    /\ endpoints_ p' = endpoints_ p
    /\ timer_handle_ p' = true.
Proof.
  intros Hc Hlen. unfold BuildSchedulerAndStartTimerLocked.
  destruct (Picker_wrr_ p); [| discriminate]. simpl. rewrite Hc.
  destruct (collect_weights now (Some c) (endpoints_ p) 0 0 w)
    as [[[[ws n1] n2] w0] |] eqn:E; [| discriminate].
  simpl. intros [= <- <-].
  pose proof (collect_weights_length _ _ _ _ _ _ _ _ _ _ E) as Hws.
  pose proof (collect_weights_effects _ _ _ _ _ _ _ _ _ _ E) as He.
  apply collect_weights_counts in E; try lia.
  destruct E as (Ha & Hb & Hz & calls & Ec & Em & Ef).
  exists ws, n1, n2, calls.
  split; [exact Hws |]. split.
  - destruct (StaticStrideScheduler_Make ws); simpl; rewrite He;
      rewrite <- !app_assoc; reflexivity.
  - repeat split; try assumption; try lia.
    destruct (StaticStrideScheduler_Make ws); simpl; exact Ec.
Qed.

End Rebuild.

Lemma BuildSchedulerAndStartTimerLocked_reports_witness :
  exists p' w',
    @BuildSchedulerAndStartTimerLocked sample_collaborators
      (FromMillisecondsAfterProcessEpoch 400) sample_picker
      sample_world_ready
    = Done (p', w')
    /\ endpoints_ p' = endpoints_ sample_picker
    /\ timer_handle_ p' = true.
Proof.
  destruct (@BuildSchedulerAndStartTimerLocked sample_collaborators
              (FromMillisecondsAfterProcessEpoch 400) sample_picker
              sample_world_ready) as [[p' w'] |] eqn:E;
    [| vm_compute in E; discriminate].
  destruct (@BuildSchedulerAndStartTimerLocked_reports sample_collaborators
              (FromMillisecondsAfterProcessEpoch 400) sample_picker
              sample_world_ready p' w' sample_config)
    as (ws & n1 & n2 & calls & _ & _ & _ & _ & _ & _ & _ & _ & H1 & H2);
    [reflexivity | vm_compute; reflexivity | exact E |].
  exists p', w'. repeat split; assumption.
Defined.


(** ** Reports without usable data *)

Lemma call_weight_unchanged r now q e u p w w' :
  feq (compute_weight q e u p) fzero = true ->
  call_weight r (CallMaybeUpdateWeight now q e u p) w = Done w' ->
  weights w' = weights w.
Proof.
  intros Hz. unfold call_weight.
  destruct (weights w !! r) as [ew |] eqn:E; [| discriminate].
  simpl. intros [= <-]. simpl. unfold MaybeUpdateWeight. rewrite Hz.
  now apply insert_id.
Qed.

(** A report changes no weight when it carries no usable data: when the
    call finishes without backend metric data, when [qps] is not above
    0 (a NaN included), or when the utilization it is read with is not
    above 0.  That utilization is [application_utilization] unless it is
    [<= 0]; a NaN there is not [<= 0], so it is kept and the report is
    dropped whatever [cpu_utilization] says.  This holds for the per-call
    tracker and for the out-of-band watcher alike. *)
Theorem reports_without_data_change_nothing now r penalty w :
  (forall w',
      SubchannelCallTracker_Finish now r penalty None w = Done w' ->
      weights w' = weights w)
  /\ (forall d w',
        fgt (qps d) fzero = false \/ fgt (utilization_of d) fzero = false ->
        (SubchannelCallTracker_Finish now r penalty (Some d) w = Done w'
         \/ OobWatcher_OnBackendMetricReport now r penalty d w = Done w') ->
        weights w' = weights w)
  /\ (forall d,
        application_utilization d = S754_nan ->
        utilization_of d = S754_nan
        /\ fgt (utilization_of d) fzero = false)
  /\ (forall d,
        fle (application_utilization d) fzero = true ->
        utilization_of d = cpu_utilization d).
Proof.
  split; [| split; [| split]].
  - intros w'. unfold SubchannelCallTracker_Finish.
    apply call_weight_unchanged. reflexivity.
  - intros d w' Hd Hrun.
    assert (Hz : feq (compute_weight (qps d) (eps d) (utilization_of d)
                        penalty) fzero = true).
    { unfold compute_weight.
      destruct Hd as [-> | ->]; rewrite ?andb_false_r; reflexivity. }
    destruct Hrun as [Hrun | Hrun];
      [unfold SubchannelCallTracker_Finish in Hrun
      | unfold OobWatcher_OnBackendMetricReport in Hrun];
      now apply call_weight_unchanged in Hrun.
  - intros d Hn. unfold utilization_of. rewrite Hn. split; reflexivity.
  - intros d Hle. unfold utilization_of. now rewrite Hle.
Qed.

(** ** Expiry *)

(** An expired weight starts over.  When [GetWeight] finds the last
    report older than the expiration period, the next report that
    carries data, read off the clock at [t], becomes the new start of
    the blackout: [non_empty_since_] is [t], and until the blackout
    period has passed since [t], [GetWeight] returns 0 (whether or not
    the weight counts as expired again).  The expiry itself keeps the
    stored weight. *)
Theorem expiry_restarts_blackout
    now x b n1 n2 self t q e u p now' x' b' m1 m2 :
  expired now x self ->
  feq (compute_weight q e u p) fzero = false ->
  Timestamp_finite t -> Timestamp_finite now' ->
  0 < millis b' ->
  millis (Timestamp_sub now' t) < millis b' ->
  let self1 := gw_self (GetWeight now x b n1 n2 self) in
  let self2 := MaybeUpdateWeight t q e u p self1 in
  non_empty_since_ self1 = InfFuture
  /\ weight_ self1 = weight_ self
  /\ non_empty_since_ self2 = t
  /\ last_update_time_ self2 = t
  /\ gw_return (GetWeight now' x' b' m1 m2 self2) = fzero.
Proof.
  intros Hex Hnz Ht Hn Hb Hwin self1 self2.
  assert (H1 : non_empty_since_ self1 = InfFuture).
  { subst self1. unfold GetWeight.
    apply expired_iff in Hex. rewrite Hex. reflexivity. }
  assert (H2 : non_empty_since_ self2 = t /\ last_update_time_ self2 = t).
  { subst self2. unfold MaybeUpdateWeight. rewrite Hnz. simpl.
    rewrite H1. split; reflexivity. }
  split; [exact H1 |].
  split; [apply GetWeight_keeps_weight |].
  split; [apply H2 |]. split; [apply H2 |].
  apply (GetWeight_zero_in_blackout t [] self2); try assumption.
  - right. destruct H2 as [-> _]. split; [exact Ht |].
    apply Timestamp_leb_refl.
  - constructor.
Qed.

Lemma expiry_restarts_blackout_witness :
  gw_return
    (GetWeight (FromMillisecondsAfterProcessEpoch 205000)
       (Milliseconds 180000) (Milliseconds 10000) 0 0
       (MaybeUpdateWeight (FromMillisecondsAfterProcessEpoch 201000)
          (double_of_Z 3) (double_of_Z 1) (double_of_Z 2) (float_of_Z 1)
          (gw_self
             (GetWeight (FromMillisecondsAfterProcessEpoch 200000)
                (Milliseconds 180000) (Milliseconds 10000) 0 0
                sample_weight))))
  = fzero.
Proof.
  apply (expiry_restarts_blackout
           (FromMillisecondsAfterProcessEpoch 200000)
           (Milliseconds 180000) (Milliseconds 10000) 0 0 sample_weight
           (FromMillisecondsAfterProcessEpoch 201000)
           (double_of_Z 3) (double_of_Z 1) (double_of_Z 2) (float_of_Z 1)
           (FromMillisecondsAfterProcessEpoch 205000)
           (Milliseconds 180000) (Milliseconds 10000) 0 0).
  - order_by_computation.
  - vm_compute. reflexivity.
  - order_by_computation.
  - order_by_computation.
  - reflexivity.
  - vm_compute. reflexivity.
Defined.

(** ** Validation of the configuration *)

(** [JsonPostLoad] raises the update period to 100ms and leaves every
    other field alone; a configuration whose period is at least 100ms
    comes back unchanged, and so does any configuration that has been
    through it once.  It reports [errorUtilizationPenalty] exactly when
    the penalty is below 0; negative zero and NaN pass.  The defaults
    pass unchanged.  A picker built with a validated configuration never
    starts its timer with less than 100ms. *)
Theorem JsonPostLoad_validates `{C : Collaborators} cfg errors :
  let cfg' := fst (JsonPostLoad cfg errors) in
  let errors' := snd (JsonPostLoad cfg errors) in
  100 <= millis (weight_update_period cfg')
  /\ millis (weight_update_period cfg')
     = Z.max (millis (weight_update_period cfg)) 100
  /\ enable_oob_load_report cfg' = enable_oob_load_report cfg
  /\ oob_reporting_period cfg' = oob_reporting_period cfg
  /\ blackout_period cfg' = blackout_period cfg
  /\ weight_expiration_period cfg' = weight_expiration_period cfg
  /\ error_utilization_penalty cfg' = error_utilization_penalty cfg
  /\ (100 <= millis (weight_update_period cfg) -> cfg' = cfg)
  /\ fst (JsonPostLoad cfg' errors') = cfg'
  /\ errors'
     = (if flt (error_utilization_penalty cfg) fzero
        then errors ++ [(".errorUtilizationPenalty", "must be non-negative")]
        else errors)
  /\ (error_utilization_penalty cfg = S754_nan
      \/ error_utilization_penalty cfg = S754_zero true ->
      errors' = errors)
  /\ JsonPostLoad WeightedRoundRobinConfig_default errors
     = (WeightedRoundRobinConfig_default, errors)
  /\ forall now p w p1 w1,
       Picker_config_ p = Some cfg' ->
       BuildSchedulerAndStartTimerLocked now p w = Done (p1, w1) ->
       exists pre d,
         effects w1 = pre ++ [RunAfter d] /\ 100 <= millis d.
Proof.
  intros cfg' errors'. subst cfg' errors'.
  destruct cfg as [oob rp bp [up] xp pen]. unfold JsonPostLoad. simpl.
  assert (Hmax : millis (Duration_max (Milliseconds up) (Milliseconds 100))
                 = Z.max up 100).
  { unfold Duration_max, Duration_ltb. simpl.
    destruct (up <? 100) eqn:E; simpl;
      [apply Z.ltb_lt in E | apply Z.ltb_ge in E]; lia. }
  split; [rewrite Hmax; lia |]. split; [exact Hmax |].
  repeat (split; [reflexivity |]).
  split.
  { intros Hup. unfold Duration_max, Duration_ltb. simpl.
    destruct (up <? 100) eqn:E; [apply Z.ltb_lt in E; lia | reflexivity]. }
  split.
  { f_equal. unfold Duration_max at 1, Duration_ltb. rewrite Hmax.
    cbn [millis].
    destruct (Z.max up 100 <? 100) eqn:E;
      [apply Z.ltb_lt in E; lia | reflexivity]. }
  split; [reflexivity |]. split.
  { intros [-> | ->]; reflexivity. }
  split; [reflexivity |].
  intros now p w p1 w1 Hc. unfold BuildSchedulerAndStartTimerLocked.
  destruct (Picker_wrr_ p); [| discriminate]. simpl. rewrite Hc.
  destruct (collect_weights now _ (endpoints_ p) 0 0 w)
    as [[[[ws n1] n2] w0] |]; [| discriminate].
  simpl. intros [= _ <-]. eexists _, _. split; [reflexivity |].
  simpl. rewrite Hmax. lia.
Qed.

(** ** Releasing the weights of a destroyed list *)

Section ListDestruction.
Context {C : Collaborators}.

Lemma EndpointWeight_referenced_ext r w w' :
  lists w' = lists w -> weight_held_outside w' = weight_held_outside w ->
  EndpointWeight_referenced r w' = EndpointWeight_referenced r w.
Proof. intros H1 H2. unfold EndpointWeight_referenced. now rewrite H1, H2. Qed.

Lemma EndpointWeight_referenced_released r w w' :
  weights_released w w' ->
  EndpointWeight_referenced r w' = EndpointWeight_referenced r w.
Proof.
  intros (H1 & _ & _ & H2 & _). now apply EndpointWeight_referenced_ext.
Qed.

Lemma endpoints_hold_true r es :
  endpoints_hold r es = true
  <-> exists e, e ∈ es /\ WrrEndpoint_weight_ e = r.
Proof.
  unfold endpoints_hold. rewrite existsb_exists. split.
  - intros (e & He & Hr). apply Nat.eqb_eq in Hr.
    exists e. split; [now apply list_elem_of_In | exact Hr].
  - intros (e & He & Hr). exists e.
    split; [now apply list_elem_of_In | now apply Nat.eqb_eq].
Qed.

(** A weight held by an endpoint of a list in the store, or outside the
    lists, is referenced. *)
Lemma EndpointWeight_referenced_true r w :
  EndpointWeight_referenced r w = true
  <-> r ∈ weight_held_outside w
      \/ exists d l e,
           lists w !! d = Some l /\ e ∈ endpoints l
           /\ WrrEndpoint_weight_ e = r.
Proof.
  unfold EndpointWeight_referenced.
  rewrite orb_true_iff, bool_decide_eq_true, existsb_exists.
  split; (intros [H | H]; [now left | right]).
  - destruct H as ([d l] & Hin & Hh).
    apply list_elem_of_In, elem_of_map_to_list in Hin.
    apply endpoints_hold_true in Hh as (e & He & Hr).
    exists d, l, e. auto.
  - destruct H as (d & l & e & Hl & He & Hr). exists (d, l). split.
    + now apply list_elem_of_In, elem_of_map_to_list.
    + apply endpoints_hold_true. exists e. auto.
Qed.

Lemma EndpointWeight_destroy_unreferenced r w w' :
  EndpointWeight_destroy r w = Done w' ->
  weight_unreferenced w' = weight_unreferenced w.
Proof.
  unfold EndpointWeight_destroy.
  destruct (weight_keys w !! r) as [key |]; [| discriminate]. simpl.
  destruct (map_find key (endpoint_weight_map_ (wrr w))) as [r' |];
    [destruct (r' =? r)%nat |]; intros [= <-]; reflexivity.
Qed.

Lemma EndpointWeight_Unref_unreferenced r others w :
  weight_unreferenced (EndpointWeight_Unref r others w)
  = if endpoints_hold r others || EndpointWeight_referenced r w
    then weight_unreferenced w
    else {[r]} ∪ weight_unreferenced w.
Proof.
  unfold EndpointWeight_Unref.
  destruct (_ || _); [reflexivity |].
  destruct (EndpointWeight_destroy r (EndpointWeight_Unref_last r w))
    as [w2 |] eqn:E; [| reflexivity].
  now rewrite (EndpointWeight_destroy_unreferenced _ _ _ E).
Qed.

(** The weights that lose their last reference when endpoints are
    destroyed are those that no other endpoint and no object outside the
    lists holds. *)
Lemma release_endpoints_unreferenced es w x :
  x ∈ weight_unreferenced (release_endpoints es w)
  <-> x ∈ weight_unreferenced w
      \/ (endpoints_hold x es = true
          /\ EndpointWeight_referenced x w = false).
Proof.
  revert w. induction es as [| e rest IH]; intros w; simpl.
  - split; [now left | intros [H | [H _]]; [exact H | discriminate]].
  - rewrite IH, EndpointWeight_Unref_unreferenced.
    rewrite (EndpointWeight_referenced_released x w
               (EndpointWeight_Unref (WrrEndpoint_weight_ e) rest w))
      by apply EndpointWeight_Unref_released.
    destruct (decide (WrrEndpoint_weight_ e = x)) as [<- | Hne].
    + rewrite Nat.eqb_refl. simpl.
      destruct (endpoints_hold _ rest), (EndpointWeight_referenced _ w);
        simpl; rewrite ?elem_of_union, ?elem_of_singleton;
        intuition congruence.
    + rewrite (proj2 (Nat.eqb_neq _ _) Hne). simpl.
      destruct (_ || _);
        rewrite ?elem_of_union, ?elem_of_singleton; intuition congruence.
Qed.

(** The destructor of a weight takes out of the map no entry but the
    one of that weight. *)
Lemma map_find_erase_other key key' r r' m :
  map_find key' m = Some r' -> r <> r' ->
  map_find key m = Some r ->
  map_find key (map_erase key' m) = Some r.
Proof.
  intros Hf' Hne. induction m as [| [k x] m IH]; simpl in *;
    [discriminate |].
  destruct (EndpointAddressSet_lt key' k) eqn:E1; [discriminate |].
  destruct (EndpointAddressSet_lt k key') eqn:E2; simpl.
  - destruct (EndpointAddressSet_lt key k); [discriminate |].
    destruct (EndpointAddressSet_lt k key); [now apply IH | auto].
  - injection Hf' as ->.
    destruct (EndpointAddressSet_lt key k); [discriminate |].
    destruct (EndpointAddressSet_lt k key); [auto | congruence].
Qed.

Lemma map_erase_filter key r m :
  map_find key m = Some r -> NoDup (map snd m) ->
  map_erase key m = List.filter (fun kv => negb (kv.2 =? r)%nat) m.
Proof.
  induction m as [| [k x] m IH]; simpl; [discriminate |].
  intros Hf Hnd. apply NoDup_cons in Hnd as [Hx Hnd].
  destruct (EndpointAddressSet_lt key k); [discriminate |].
  destruct (EndpointAddressSet_lt k key).
  - assert (x <> r).
    { intros ->. apply Hx. destruct (map_find_In _ _ _ Hf) as [k' Hk'].
      apply list_elem_of_fmap. now exists (k', r). }
    rewrite (proj2 (Nat.eqb_neq x r)) by assumption. simpl.
    f_equal. now apply IH.
  - injection Hf as ->. rewrite Nat.eqb_refl. simpl.
    symmetry. apply forallb_filter_id, forallb_forall.
    intros [k' x'] Hin. simpl. apply negb_true_iff, Nat.eqb_neq.
    intros ->. apply Hx, list_elem_of_fmap. exists (k', r).
    split; [reflexivity | now apply list_elem_of_In].
Qed.

Lemma filter_value_absent r
    (m : list (list grpc_resolved_address * WeightRef)) :
  r ∉ map snd m ->
  List.filter (fun kv => negb (kv.2 =? r)%nat) m = m.
Proof.
  intros H. apply forallb_filter_id, forallb_forall.
  intros [k x] Hin. simpl. apply negb_true_iff, Nat.eqb_neq.
  intros ->. apply H, list_elem_of_fmap. exists (k, r).
  split; [reflexivity | now apply list_elem_of_In].
Qed.

Lemma List_filter_filter {A} (f g : A -> bool) (l : list A) :
  List.filter f (List.filter g l) = List.filter (fun x => g x && f x) l.
Proof.
  induction l as [| a l IH]; simpl; [reflexivity |].
  destruct (g a); simpl; [destruct (f a); now rewrite IH | exact IH].
Qed.

Lemma NoDup_values_filter (f : list grpc_resolved_address * WeightRef -> bool)
    m :
  NoDup (map snd m) -> NoDup (map snd (List.filter f m)).
Proof.
  induction m as [| kv m IH]; simpl; [auto |].
  intros Hnd. apply NoDup_cons in Hnd as [Hx Hnd].
  destruct (f kv); simpl; [| now apply IH].
  apply NoDup_cons. split; [| now apply IH].
  intros Hin. apply Hx. apply list_elem_of_fmap in Hin as (kv' & E & Hin).
  apply list_elem_of_fmap. exists kv'. split; [exact E |].
  apply list_elem_of_In in Hin. apply filter_In in Hin as [Hin _].
  now apply list_elem_of_In.
Qed.

(** The destructor of a weight takes the entry of that weight out of an
    owned map, and leaves the map owned. *)
Lemma EndpointWeight_destroy_map r w :
  map_owned w ->
  let w' :=
    match EndpointWeight_destroy r w with
    | Done w2 => w2
    | Abort _ => w
    end in
  map_owned w'
  /\ endpoint_weight_map_ (wrr w')
     = List.filter (fun kv => negb (kv.2 =? r)%nat)
         (endpoint_weight_map_ (wrr w)).
Proof.
  intros Hw w'. subst w'. pose proof Hw as [Hnd Hown].
  remember (endpoint_weight_map_ (wrr w)) as m eqn:Hm.
  assert (Habsent : forall key,
             weight_keys w !! r = Some key -> map_find key m <> Some r ->
             r ∉ map snd m).
  { intros key Hk Hf Hin. apply list_elem_of_fmap in Hin as ([k x] & E & Hin).
    simpl in E. subst x. rewrite Forall_forall in Hown.
    destruct (Hown (k, r) Hin) as (key' & Hk' & Hf'). simpl in *.
    congruence. }
  assert (Hnokey : weight_keys w !! r = None -> r ∉ map snd m).
  { intros Hk Hin. apply list_elem_of_fmap in Hin as ([k x] & E & Hin).
    simpl in E. subst x. rewrite Forall_forall in Hown.
    destruct (Hown (k, r) Hin) as (key' & Hk' & _). simpl in *.
    congruence. }
  assert (Hsame : r ∉ map snd m ->
                  map_owned w
                  /\ endpoint_weight_map_ (wrr w)
                     = List.filter (fun kv => negb (kv.2 =? r)%nat) m).
  { intros Hr. split; [exact Hw |].
    rewrite filter_value_absent by exact Hr. now rewrite Hm. }
  unfold EndpointWeight_destroy.
  destruct (weight_keys w !! r) as [key |] eqn:Hk;
    cbn [mbind outcome_bind deref]; [| exact (Hsame (Hnokey eq_refl))].
  rewrite <- Hm.
  destruct (map_find key m) as [r' |] eqn:Hf;
    [| apply Hsame, (Habsent key eq_refl); congruence].
  destruct (r' =? r)%nat eqn:Er;
    [| apply Nat.eqb_neq in Er; apply Hsame, (Habsent key eq_refl); congruence].
  apply Nat.eqb_eq in Er. subst r'.
  pose proof (map_erase_filter key r m Hf Hnd) as Em.
  assert (Hmap : endpoint_weight_map_
                   (wrr (set_wrr
                           (fun p => set_endpoint_weight_map_
                                       (map_erase key
                                          (endpoint_weight_map_ p)) p)
                           w))
                 = map_erase key m)
    by (rewrite Hm; reflexivity).
  split; [| rewrite Hmap; exact Em]. split.
  - rewrite Hmap, Em. now apply NoDup_values_filter.
  - rewrite Hmap. rewrite Forall_forall in Hown |- *.
    intros [k x] Hin.
    assert (Hin' : (k, x) ∈ m /\ x <> r).
    { rewrite Em in Hin. apply list_elem_of_In, filter_In in Hin.
      destruct Hin as [Hin Hx]. simpl in Hx.
      apply negb_true_iff, Nat.eqb_neq in Hx.
      split; [now apply list_elem_of_In | exact Hx]. }
    destruct Hin' as [Hin' Hx].
    destruct (Hown (k, x) Hin') as (key' & Hk' & Hf').
    simpl in *. exists key'. split; [exact Hk' |].
    now apply (map_find_erase_other key' key x r).
Qed.

(** When the last reference to a weight goes, an owned map loses the
    entry of that weight and stays owned. *)
Lemma EndpointWeight_Unref_map r others w :
  map_owned w ->
  let w' := EndpointWeight_Unref r others w in
  map_owned w'
  /\ endpoint_weight_map_ (wrr w')
     = if endpoints_hold r others || EndpointWeight_referenced r w
       then endpoint_weight_map_ (wrr w)
       else List.filter (fun kv => negb (kv.2 =? r)%nat)
              (endpoint_weight_map_ (wrr w)).
Proof.
  intros Hw w'. subst w'. unfold EndpointWeight_Unref.
  destruct (_ || _); [split; [exact Hw | reflexivity] |].
  exact (EndpointWeight_destroy_map r (EndpointWeight_Unref_last r w) Hw).
Qed.

(** What is left of an owned map when endpoints are destroyed: the
    entries of the weights that are still referenced. *)
Lemma release_endpoints_map es :
  forall w,
    map_owned w ->
    map_owned (release_endpoints es w)
    /\ endpoint_weight_map_ (wrr (release_endpoints es w))
       = List.filter
           (fun kv => negb (endpoints_hold kv.2 es)
                      || EndpointWeight_referenced kv.2 w)
           (endpoint_weight_map_ (wrr w)).
Proof.
  induction es as [| e rest IH]; intros w Hw; simpl.
  - split; [exact Hw |]. symmetry. apply forallb_filter_id, forallb_forall.
    reflexivity.
  - destruct (EndpointWeight_Unref_map (WrrEndpoint_weight_ e) rest w Hw)
      as [Hw1 Em1].
    destruct (IH _ Hw1) as [Hw2 Em2]. split; [exact Hw2 |].
    rewrite Em2, Em1. clear Em1 Em2.
    set (r := WrrEndpoint_weight_ e).
    assert (Hext : forall x,
               EndpointWeight_referenced x (EndpointWeight_Unref r rest w)
               = EndpointWeight_referenced x w)
      by (intros x; apply EndpointWeight_referenced_released,
            EndpointWeight_Unref_released).
    destruct (endpoints_hold r rest || EndpointWeight_referenced r w)
      eqn:Ec.
    + apply filter_ext. intros [k x]. simpl. rewrite Hext.
      destruct (r =? x)%nat eqn:Ex; [| reflexivity].
      apply Nat.eqb_eq in Ex. subst x. simpl.
      destruct (endpoints_hold r rest); simpl in *; [reflexivity |].
      now rewrite Ec.
    + apply orb_false_iff in Ec as [Ec1 Ec2].
      rewrite List_filter_filter. apply filter_ext. intros [k x]. simpl.
      rewrite Hext.
      destruct (r =? x)%nat eqn:Ex.
      * apply Nat.eqb_eq in Ex. subst x. rewrite Nat.eqb_refl. simpl.
        now rewrite Ec2.
      * rewrite Nat.eqb_sym, Ex. reflexivity.
Qed.

(** A weight that stays referenced keeps its entry while endpoints are
    destroyed. *)
Lemma release_endpoints_keeps_entry es key r :
  forall w,
    EndpointWeight_referenced r w = true ->
    map_find key (endpoint_weight_map_ (wrr w)) = Some r ->
    map_find key (endpoint_weight_map_ (wrr (release_endpoints es w)))
    = Some r.
Proof.
  induction es as [| e rest IH]; intros w Hr Hf; simpl; [exact Hf |].
  apply IH.
  - rewrite (EndpointWeight_referenced_released r w); [exact Hr |].
    apply EndpointWeight_Unref_released.
  - unfold EndpointWeight_Unref.
    destruct (_ || EndpointWeight_referenced (WrrEndpoint_weight_ e) w)
      eqn:Ec; [exact Hf |].
    apply orb_false_iff in Ec as [_ Ec].
    assert (Hne : r <> WrrEndpoint_weight_ e) by congruence.
    unfold EndpointWeight_destroy.
    destruct (weight_keys _ !! _) as [key' |]; [| exact Hf].
    cbn [mbind outcome_bind deref].
    change (wrr (EndpointWeight_Unref_last (WrrEndpoint_weight_ e) w))
      with (wrr w).
    destruct (map_find key' (endpoint_weight_map_ (wrr w))) as [r' |] eqn:Hf';
      [| exact Hf].
    destruct (r' =? WrrEndpoint_weight_ e)%nat eqn:Er; [| exact Hf].
    apply Nat.eqb_eq in Er. subst r'. simpl.
    now apply (map_find_erase_other key key' r (WrrEndpoint_weight_ e)).
Qed.

Lemma map_owned_ext w w' :
  endpoint_weight_map_ (wrr w') = endpoint_weight_map_ (wrr w) ->
  weight_keys w' = weight_keys w ->
  map_owned w -> map_owned w'.
Proof. unfold map_owned. intros -> ->. auto. Qed.

Lemma weights_held_by_delete p d w :
  weights_held_by p (set_lists (delete d) w)
  = if bool_decide (p = Some d) then [] else weights_held_by p w.
Proof.
  destruct p as [r |]; simpl;
    [| now destruct (bool_decide (@None ListRef = Some d))].
  rewrite lookup_delete.
  destruct (decide (d = r)) as [-> | Hne].
  - now rewrite bool_decide_eq_true_2.
  - rewrite bool_decide_eq_false_2 by congruence. reflexivity.
Qed.

(** Taking a list out of the store leaves a weight referenced unless
    only endpoints of that list held it. *)
Lemma EndpointWeight_referenced_delete x d w :
  EndpointWeight_referenced x w
  = EndpointWeight_referenced x (set_lists (delete d) w)
    || endpoints_hold x (weights_held_by (Some d) w).
Proof.
  apply eq_true_iff_eq.
  rewrite orb_true_iff, !EndpointWeight_referenced_true,
    endpoints_hold_true.
  simpl. split.
  - intros [H | (d' & l & e & Hl & He & Hr)]; [left; now left |].
    destruct (decide (d = d')) as [<- | Hne].
    + right. rewrite Hl. eauto.
    + left. right. exists d', l, e.
      rewrite lookup_delete_ne by exact Hne. auto.
  - intros [[H | (d' & l & e & Hl & He & Hr)] | (e & He & Hr)].
    + now left.
    + right. apply lookup_delete_Some in Hl as [_ Hl]. eauto 6.
    + right. destruct (lists w !! d) as [l |] eqn:Hl.
      * eauto 6.
      * apply elem_of_nil in He. contradiction.
Qed.

(** When the list behind a pointer is destroyed, the weights that lose
    their last reference are those held by its endpoints and by nothing
    else. *)
Lemma destroy_list_unreferenced p w x :
  x ∈ weight_unreferenced (destroy_list p w)
  <-> x ∈ weight_unreferenced w
      \/ (endpoints_hold x (weights_held_by p w) = true
          /\ EndpointWeight_referenced x (destroy_list p w) = false).
Proof.
  destruct p as [d |]; simpl.
  - rewrite release_endpoints_unreferenced.
    rewrite (EndpointWeight_referenced_released x
               (set_lists (delete d) w)
               (release_endpoints _ (set_lists (delete d) w)))
      by apply release_endpoints_released.
    reflexivity.
  - split; [now left | intros [H | [H _]]; [exact H | discriminate]].
Qed.

Lemma destroy_list_map p w :
  map_owned w ->
  map_owned (destroy_list p w)
  /\ endpoint_weight_map_ (wrr (destroy_list p w))
     = List.filter
         (fun kv => negb (endpoints_hold kv.2 (weights_held_by p w))
                    || EndpointWeight_referenced kv.2 (destroy_list p w))
         (endpoint_weight_map_ (wrr w)).
Proof.
  intros Hw. destruct p as [d |]; simpl.
  - destruct (release_endpoints_map
                (match lists w !! d with
                 | Some l => endpoints l
                 | None => []
                 end) (set_lists (delete d) w) Hw) as [H1 H2].
    split; [exact H1 |]. rewrite H2. apply filter_ext. intros kv.
    now rewrite (EndpointWeight_referenced_released kv.2
                   (set_lists (delete d) w)
                   (release_endpoints _ (set_lists (delete d) w)))
      by apply release_endpoints_released.
  - split; [exact Hw |]. symmetry.
    apply forallb_filter_id, forallb_forall. reflexivity.
Qed.
End ListDestruction.

(** ** The weight map in reachable worlds *)

Lemma StronglySorted_filter_keeps {A} (R : A -> A -> Prop)
    (f : A -> bool) l :
  StronglySorted R l -> StronglySorted R (List.filter f l).
Proof.
  induction 1 as [| a l Hs IH Ha]; simpl; [constructor |].
  destruct (f a); [| exact IH].
  constructor; [exact IH |].
  rewrite List.Forall_forall in *. intros x Hx.
  apply filter_In in Hx as [Hx _]. now apply Ha.
Qed.

Section MapInvariant.
Context {C : Collaborators}.

Lemma map_find_emplace_same key v m :
  EndpointAddressSet_lt key key = false ->
  map_find key (map_emplace key v m)
  = Some (default v (map_find key m)).
Proof.
  intros Hi. induction m as [| [k x] m IH]; simpl.
  - now rewrite Hi.
  - destruct (EndpointAddressSet_lt key k) eqn:E1; simpl.
    + now rewrite Hi.
    + destruct (EndpointAddressSet_lt k key) eqn:E2; simpl;
        rewrite E1, E2; [exact IH | reflexivity].
Qed.

Lemma map_find_emplace_other key key' v m :
  lt_transitive -> distinct key key' ->
  map_find key (map_emplace key' v m) = map_find key m.
Proof.
  intros Ht Hd. unfold distinct in Hd.
  induction m as [| [k x] m IH]; simpl.
  - destruct (EndpointAddressSet_lt key key') eqn:E1; [reflexivity |].
    destruct (EndpointAddressSet_lt key' key) eqn:E2; [reflexivity |].
    destruct Hd; congruence.
  - destruct (EndpointAddressSet_lt key' k) eqn:E1; simpl.
    + destruct (EndpointAddressSet_lt key key') eqn:E2.
      * now rewrite (Ht _ _ _ E2 E1).
      * destruct (EndpointAddressSet_lt key' key) eqn:E3; [reflexivity |].
        destruct Hd; congruence.
    + destruct (EndpointAddressSet_lt k key') eqn:E2; simpl;
        [| reflexivity].
      destruct (EndpointAddressSet_lt key k); [reflexivity |].
      destruct (EndpointAddressSet_lt k key); [exact IH | reflexivity].
Qed.

Lemma map_well_kept_ext w w' :
  endpoint_weight_map_ (wrr w') = endpoint_weight_map_ (wrr w) ->
  weight_keys w' = weight_keys w ->
  map_well_kept w -> map_well_kept w'.
Proof.
  intros Em Ek [Hs Ho]. split; [now rewrite Em |].
  now apply (map_owned_ext w).
Qed.

Lemma map_well_kept_destroy_list p w :
  map_well_kept w -> map_well_kept (destroy_list p w).
Proof.
  intros [Hs Ho]. destruct (destroy_list_map p w Ho) as [Ho' Em].
  split; [| exact Ho']. rewrite Em. now apply StronglySorted_filter_keeps.
Qed.

Lemma map_well_kept_promote_pending w :
  map_well_kept w -> map_well_kept (promote_pending w).
Proof.
  intros H. unfold promote_pending.
  apply (map_well_kept_ext (destroy_list (endpoint_list_ (wrr w)) w));
    [reflexivity | reflexivity |].
  now apply map_well_kept_destroy_list.
Qed.

Lemma map_well_kept_destroy r w w' :
  EndpointWeight_destroy r w = Done w' ->
  map_well_kept w -> map_well_kept w'.
Proof.
  intros E [Hs Ho]. pose proof (EndpointWeight_destroy_map r w Ho) as H.
  rewrite E in H. simpl in H. destruct H as [Ho' Em].
  split; [| exact Ho']. rewrite Em. now apply StronglySorted_filter_keeps.
Qed.

Lemma collect_weights_weight_keys now cfg es :
  forall n1 n2 w ws n1' n2' w',
    collect_weights now cfg es n1 n2 w = Done (ws, n1', n2', w') ->
    weight_keys w' = weight_keys w.
Proof.
  induction es as [| e es IH]; intros n1 n2 w ws n1' n2' w' H; simpl in H.
  - now injection H as _ _ _ <-.
  - destruct (weights w !! info_weight e) as [ew |]; [| discriminate].
    destruct cfg as [c |]; [| discriminate]. simpl in H.
    destruct (collect_weights now (Some c) es _ _ _)
      as [[[[ws0 a] b] w0] |] eqn:E; [| discriminate].
    simpl in H. injection H as _ _ _ <-.
    apply IH in E. rewrite E. reflexivity.
Qed.

Lemma Picker_new_weight_keys random now l w p w' :
  Picker_new random now l w = Done (p, w') ->
  weight_keys w' = weight_keys w.
Proof.
  unfold Picker_new. destruct (lists w !! l) as [el |]; [| discriminate].
  simpl. unfold BuildSchedulerAndStartTimerLocked. simpl.
  destruct (collect_weights now _ _ 0 0 _) as [[[[ws a] b] w0] |] eqn:E;
    [| discriminate].
  simpl. destruct (config_ (wrr w)) as [c |]; [| discriminate]. simpl.
  intros [= _ <-]. apply collect_weights_weight_keys in E.
  destruct (StaticStrideScheduler_Make ws); exact E.
Qed.

Lemma map_well_kept_aggregation random now this status w w' :
  MaybeUpdateAggregatedConnectivityStateLocked random now this status w
  = Done w' ->
  map_well_kept w -> map_well_kept w'.
Proof.
  unfold MaybeUpdateAggregatedConnectivityStateLocked.
  destruct (swap_if_latest_pending this w) as [w1 |] eqn:E1;
    [| discriminate].
  simpl. intros E2 H.
  assert (H1 : map_well_kept w1).
  { unfold swap_if_latest_pending in E1.
    destruct (lists w !! this) as [self |]; [| discriminate]. simpl in E1.
    destruct (ptr_eqb _ _); [| now injection E1 as <-].
    destruct (endpoint_list_ (wrr w)) as [act |]; [| discriminate].
    simpl in E1.
    destruct (lists w !! act) as [active |]; [| discriminate].
    simpl in E1. injection E1 as <-.
    destruct (swap_condition active self); [| exact H].
    now apply map_well_kept_promote_pending. }
  clear H E1. unfold set_state_if_current in E2.
  destruct (lists w1 !! this) as [self |]; [| discriminate]. simpl in E2.
  destruct (negb _); [now injection E2 as <- |].
  destruct (num_ready_ self >? 0).
  - destruct (Picker_new random now this w1) as [[p w2] |] eqn:E;
      [| discriminate].
    simpl in E2. injection E2 as <-.
    apply (map_well_kept_ext w1); [| | exact H1].
    + apply Picker_new_lists in E as [_ E]. simpl. now rewrite E.
    + apply Picker_new_weight_keys in E. exact E.
  - destruct (num_connecting_ self >? 0); [now injection E2 as <- |].
    destruct (_ =? _); now injection E2 as <-.
Qed.

Lemma map_well_kept_call_weight r c w w' :
  call_weight r c w = Done w' -> map_well_kept w -> map_well_kept w'.
Proof.
  unfold call_weight. destruct (weights w !! r); [| discriminate].
  simpl. now intros [= <-].
Qed.

Lemma map_well_kept_notification
    random now this index state status picker w w' :
  Endpoint_UpdateState random now this index state status picker w
  = Done w' ->
  map_well_kept w -> map_well_kept w'.
Proof.
  unfold Endpoint_UpdateState.
  destruct (lists w !! this) as [l |]; [| discriminate]. simpl.
  destruct (endpoints l !! index) as [ep |]; [| discriminate]. simpl.
  set (w0 := put_list this _ w). intros E H.
  assert (H0 : map_well_kept w0) by exact H. clear H.
  unfold OnStateUpdate in E.
  destruct (lists w0 !! this) as [l0 |]; [| discriminate]. simpl in E.
  destruct (endpoints l0 !! index) as [ep0 |]; [| discriminate].
  simpl in E.
  match type of E with
  | context [mbind _ ?first] =>
      destruct first as [w1 |] eqn:E1; [| discriminate]
  end.
  simpl in E.
  assert (H1 : map_well_kept w1).
  { destruct (state_eqb state GRPC_CHANNEL_IDLE);
      [now injection E1 as <- |].
    destruct (state_eqb state GRPC_CHANNEL_READY);
      [| now injection E1 as <-].
    destruct (connectivity_state_ ep) as [old |];
      [| now injection E1 as <-].
    destruct (negb _); [| now injection E1 as <-].
    now apply map_well_kept_call_weight in E1. }
  match type of E with
  | context [mbind _ ?second] =>
      destruct second as [w2 |] eqn:E2; [| discriminate]
  end.
  simpl in E.
  assert (H2 : map_well_kept w2).
  { destruct (match connectivity_state_ ep with
              | Some old => negb (state_eqb old state)
              | None => true
              end); [| now injection E2 as <-].
    destruct (UpdateStateCountersLocked _ _ _); [| discriminate].
    simpl in E2. now injection E2 as <-. }
  now apply map_well_kept_aggregation in E.
Qed.

(** *** Lookups under a strict weak order *)

Section StrictWeakOrder.
Hypothesis Hirr : lt_irreflexive.
Hypothesis Htrans : lt_transitive.
Hypothesis Hcompat : lt_compatible.

Lemma equivalent_sym a b : equivalent a b -> equivalent b a.
Proof. intros [H1 H2]. now split. Qed.

Lemma lt_compatible_right a b c :
  equivalent a b -> EndpointAddressSet_lt c a = true ->
  EndpointAddressSet_lt c b = true.
Proof.
  intros Hab Hca.
  destruct (EndpointAddressSet_lt c b) eqn:Hcb; [reflexivity |].
  destruct (EndpointAddressSet_lt b c) eqn:Hbc.
  - pose proof (Hcompat b a c (equivalent_sym _ _ Hab) Hbc) as Hac.
    pose proof (Htrans c a c Hca Hac) as Hcc.
    rewrite Hirr in Hcc. discriminate.
  - assert (Hcb' : equivalent c b) by now split.
    pose proof (Hcompat c b a Hcb' Hca) as Hba.
    destruct Hab as [_ Hab]. rewrite Hab in Hba. discriminate.
Qed.

Lemma lt_equivalent_left a b c :
  equivalent a b ->
  EndpointAddressSet_lt a c = EndpointAddressSet_lt b c.
Proof.
  intros Hab. apply eq_true_iff_eq. split; intros H.
  - now apply (Hcompat a b c).
  - now apply (Hcompat b a c); [apply equivalent_sym |].
Qed.

Lemma lt_equivalent_right a b c :
  equivalent a b ->
  EndpointAddressSet_lt c a = EndpointAddressSet_lt c b.
Proof.
  intros Hab. apply eq_true_iff_eq. split; intros H.
  - now apply (lt_compatible_right a b c).
  - now apply (lt_compatible_right b a c); [apply equivalent_sym |].
Qed.

Lemma map_find_equivalent a b m :
  equivalent a b -> map_find a m = map_find b m.
Proof.
  intros Hab. induction m as [| [k v] rest IH]; simpl; [reflexivity |].
  rewrite (lt_equivalent_left a b k Hab), (lt_equivalent_right a b k Hab).
  now rewrite IH.
Qed.

Lemma equivalent_or_distinct a b : equivalent a b \/ distinct a b.
Proof.
  unfold equivalent, distinct.
  destruct (EndpointAddressSet_lt a b), (EndpointAddressSet_lt b a); auto.
Qed.

Lemma map_emplace_found key v v0 m :
  map_find key m = Some v0 -> map_emplace key v m = m.
Proof.
  induction m as [| [k x] rest IH]; simpl; [discriminate |].
  destruct (EndpointAddressSet_lt key k); [discriminate |].
  destruct (EndpointAddressSet_lt k key); [| reflexivity].
  intros H. now rewrite IH.
Qed.

Lemma map_emplace_elem key v m x :
  x ∈ map_emplace key v m -> x = (key, v) \/ x ∈ m.
Proof.
  induction m as [| [k y] rest IH]; simpl.
  - intros H. apply list_elem_of_singleton in H. now left.
  - destruct (EndpointAddressSet_lt key k).
    + intros H. apply elem_of_cons in H as [-> | H]; [now left | now right].
    + destruct (EndpointAddressSet_lt k key); [| now right].
      intros H. apply elem_of_cons in H as [-> | H].
      * right. apply elem_of_cons. now left.
      * destruct (IH H) as [-> | H']; [now left |].
        right. apply elem_of_cons. now right.
Qed.

Lemma map_emplace_sorted key v m :
  map_sorted m -> map_sorted (map_emplace key v m).
Proof.
  unfold map_sorted. induction 1 as [| [k x] rest Hs IH Hk]; simpl.
  - repeat constructor.
  - destruct (EndpointAddressSet_lt key k) eqn:E1.
    + constructor; [now constructor |].
      constructor; [exact E1 |].
      rewrite List.Forall_forall in *. intros y Hy. simpl.
      apply (Htrans key k y.1 E1). now apply Hk.
    + destruct (EndpointAddressSet_lt k key) eqn:E2;
        [| now constructor].
      constructor; [exact IH |].
      rewrite List.Forall_forall in *. intros y Hy.
      apply list_elem_of_In, map_emplace_elem in Hy as [-> | Hy];
        [exact E2 |].
      apply Hk. now apply list_elem_of_In.
Qed.

Lemma map_emplace_values key v m :
  v ∉ map snd m -> NoDup (map snd m) ->
  NoDup (map snd (map_emplace key v m)).
Proof.
  induction m as [| [k x] rest IH]; simpl; intros Hv Hn.
  - apply NoDup_cons. split; [apply not_elem_of_nil | constructor].
  - apply NoDup_cons in Hn as [Hx Hn].
    apply not_elem_of_cons in Hv as [Hvx Hv].
    destruct (EndpointAddressSet_lt key k).
    + simpl. apply NoDup_cons. split.
      * apply not_elem_of_cons. now split.
      * apply NoDup_cons. now split.
    + destruct (EndpointAddressSet_lt k key).
      * simpl. apply NoDup_cons. split; [| now apply IH].
        intros Hin. apply list_elem_of_fmap in Hin as ([k' x'] & Ex & Hin).
        simpl in Ex. subst x'.
        apply map_emplace_elem in Hin as [[= _ ->] | Hin];
          [now apply Hvx |].
        apply Hx, list_elem_of_fmap. now exists (k', x).
      * simpl. apply NoDup_cons. now split.
Qed.

(** A weight that is made enters the map under its key, unless an entry
    for the key is still there. *)
Lemma map_well_kept_GetOrCreateWeight key w :
  Forall (fun kv => is_Some (weights w !! kv.2))
    (endpoint_weight_map_ (wrr w)) ->
  map_well_kept w ->
  map_well_kept (snd (GetOrCreateWeight key w)).
Proof.
  intros Hlive [Hs [Hn Ho]]. unfold GetOrCreateWeight.
  set (m := endpoint_weight_map_ (wrr w)) in *.
  set (r := fresh (dom (weights w))).
  assert (Hr : r ∉ map snd m).
  { intros Hin. apply list_elem_of_fmap in Hin as (kv & Er & Hin).
    rewrite List.Forall_forall in Hlive.
    assert (Hsome : is_Some (weights w !! r)).
    { rewrite Er. apply (Hlive kv), list_elem_of_In. exact Hin. }
    apply elem_of_dom in Hsome. now apply is_fresh in Hsome. }
  assert (Hcreate :
            map_well_kept
              (set_wrr (fun p => set_endpoint_weight_map_
                                   (map_emplace key r
                                      (endpoint_weight_map_ p)) p)
                 (set_weight_keys (insert r key)
                    (put_weight r EndpointWeight_init w)))).
  { split; [| split]; simpl; fold m.
    - now apply map_emplace_sorted.
    - now apply map_emplace_values.
    - rewrite Forall_forall. intros kv Hin.
      apply map_emplace_elem in Hin as Hcase.
      destruct Hcase as [-> | Hold].
      + simpl. exists key. split; [apply lookup_insert_eq |].
        rewrite map_find_emplace_same by apply Hirr.
        destruct (map_find key m) as [v0 |] eqn:Ef; [| reflexivity].
        exfalso. rewrite (map_emplace_found key r v0 m Ef) in Hin.
        apply Hr, list_elem_of_fmap. now exists (key, r).
      + rewrite Forall_forall in Ho.
        destruct (Ho kv Hold) as (key' & Hk & Hf).
        exists key'. split.
        * rewrite lookup_insert_ne; [exact Hk |].
          intros Er. apply Hr, list_elem_of_fmap. now exists kv.
        * destruct (map_find key m) as [v0 |] eqn:Ef.
          { now rewrite (map_emplace_found key r v0 m Ef). }
          destruct (equivalent_or_distinct key' key) as [He | Hd].
          { rewrite (map_find_equivalent key' key m He) in Hf.
            congruence. }
          now rewrite map_find_emplace_other. }
  destruct (map_find key m) as [r0 |]; [| exact Hcreate].
  destruct (decide (r0 ∈ weight_unreferenced w)); [exact Hcreate |].
  now split.
Qed.

Lemma map_well_kept_create_endpoints addrs args :
  forall errors w,
    Forall (fun kv => is_Some (weights w !! kv.2))
      (endpoint_weight_map_ (wrr w)) ->
    map_well_kept w ->
    map_well_kept (create_endpoints addrs args errors w).2.
Proof.
  induction addrs as [| a rest IH]; intros errors w Hlive H; simpl;
    [exact H |].
  pose proof (map_well_kept_GetOrCreateWeight (addresses a) w Hlive H)
    as H1.
  pose proof (GetOrCreateWeight_live (addresses a) w Hlive) as Hl1.
  destruct (GetOrCreateWeight (addresses a) w) as [weight w1].
  simpl in H1, Hl1. destruct Hl1 as (_ & Hlive1 & _).
  match goal with
  | |- context [create_endpoints rest args ?e w1] =>
      pose proof (IH e w1 Hlive1 H1) as H2;
      destruct (create_endpoints rest args e w1) as [[es errors2] w2]
  end.
  exact H2.
Qed.

Lemma map_well_kept_UpdateLocked args w :
  Forall (fun kv => is_Some (weights w !! kv.2))
    (endpoint_weight_map_ (wrr w)) ->
  map_well_kept w ->
  map_well_kept (snd (UpdateLocked args w)).
Proof.
  intros Hlive H.
  set (w1 := set_wrr (set_config_ (UpdateArgs_config args))
               (emit IncrementWrrUpdates w)).
  assert (H1 : map_well_kept w1) by exact H.
  assert (Hlive1 : Forall (fun kv => is_Some (weights w1 !! kv.2))
                     (endpoint_weight_map_ (wrr w1))) by exact Hlive.
  assert (Hgen : forall addrs st1 (st2 : list string -> Status),
             let '(es, errors, w2) :=
               create_endpoints addrs (UpdateArgs_args args) [] w1 in
             let new_list :=
               mkWrrEndpointList es (UpdateArgs_resolution_note args) 0 0 0
                 OkStatus in
             let new_ref := fresh (dom (lists w2)) in
             let w3 :=
               set_wrr (set_latest_pending_endpoint_list_ (Some new_ref))
                 (destroy_list (latest_pending_endpoint_list_ (wrr w2))
                    (put_list new_ref new_list w2)) in
             let result : Status * World :=
               if EndpointList_size new_list =? 0 then
                 (st1, emit (ReportTransientFailure new_ref st1)
                         (promote_pending w3))
               else
                 (st2 errors,
                  match endpoint_list_ (wrr w3) with
                  | None => promote_pending w3
                  | Some _ => w3
                  end) in
             map_well_kept (snd result)).
  { intros addrs st1 st2.
    pose proof (map_well_kept_create_endpoints addrs (UpdateArgs_args args)
                  [] w1 Hlive1 H1) as H2.
    destruct (create_endpoints addrs (UpdateArgs_args args) [] w1)
      as [[es errors] w2].
    simpl in H2. intros new_list new_ref w3 result.
    assert (H3 : map_well_kept w3).
    { apply (map_well_kept_ext
               (destroy_list (latest_pending_endpoint_list_ (wrr w2))
                  (put_list new_ref new_list w2)));
        [reflexivity | reflexivity |].
      apply map_well_kept_destroy_list. exact H2. }
    subst result. destruct (EndpointList_size new_list =? 0); unfold snd.
    - apply (map_well_kept_ext (promote_pending w3));
        [reflexivity | reflexivity |].
      now apply map_well_kept_promote_pending.
    - destruct (endpoint_list_ (wrr w3)); [exact H3 |].
      now apply map_well_kept_promote_pending. }
  unfold UpdateLocked. fold w1.
  destruct (UpdateArgs_addresses args) as [l | s].
  - specialize (Hgen (ordered_addresses l)
                  (UnavailableError "empty address list")
                  (fun errors =>
                     if negb (length errors =? 0)%nat
                     then UnavailableError
                            ("errors from children: ["
                             ++ StrJoin errors "; " ++ "]")
                     else OkStatus)).
    cbv beta zeta.
    change (default [] (Some (ordered_addresses l)))
      with (ordered_addresses l).
    destruct (create_endpoints (ordered_addresses l) _ [] w1)
      as [[es errors] w2].
    cbv zeta in Hgen.
    destruct (EndpointList_size _ =? 0); [exact Hgen |].
    destruct (negb _); exact Hgen.
  - destruct (endpoint_list_ (wrr w1)); [exact H1 |].
    specialize (Hgen [] s (fun _ => OkStatus)).
    cbv beta zeta. change (default [] None) with (@nil EndpointAddresses).
    simpl in Hgen |- *. exact Hgen.
Qed.

(** In every reachable world the map is sorted by its keys, holds no
    weight twice, and every entry is the one that the destructor of its
    weight will find. *)
Lemma reachable_map_well_kept w : reachable w -> map_well_kept w.
Proof.
  induction 1 as [st | args w Hr IH Hn Hc
                 | random now this index state status picker w w' Hr IH E
                 | now weight penalty d w w' Hr IH E
                 | now weight penalty d w w' Hr IH E
                 | r w Hr IH Href
                 | r w Hr IH
                 | r w w' Hr IH Hu E].
  - split; [constructor |]. split; [constructor | constructor].
  - apply map_well_kept_UpdateLocked; [| exact IH].
    apply reachable_live in Hr. apply (map_live _ Hr).
  - now apply map_well_kept_notification in E.
  - unfold OobWatcher_OnBackendMetricReport in E.
    now apply map_well_kept_call_weight in E.
  - unfold SubchannelCallTracker_Finish in E.
    destruct d; now apply map_well_kept_call_weight in E.
  - exact IH.
  - apply (map_well_kept_ext w); [| | exact IH].
    + now destruct (EndpointWeight_Unref_outside_frame r w) as (_ & -> & _).
    + unfold EndpointWeight_Unref_outside.
      now destruct (EndpointWeight_referenced _ _).
  - now apply map_well_kept_destroy in E.
Qed.
End StrictWeakOrder.
End MapInvariant.

(** ** Shutting the policy down *)

Section Shutdown.
Context {C : Collaborators}.

(** [ShutdownLocked] sets the flag and drops both lists, which are
    destroyed.  A weight loses its last reference exactly when an
    endpoint of one of the two lists held it and nothing else holds it
    afterwards, neither an endpoint of another list in the store nor an
    object outside the lists; the destructors of these weights run, so
    an owned map is left with the entries of the weights that are still
    referenced.  The map is owned in every world that the policy reaches
    when the comparison of address sets is a strict weak order.  Effects
    and other lists are not touched, and shutting
    down twice changes nothing more.  After it the destructor's two
    checks hold; a policy that still holds a list fails the destructor's
    check. *)
Theorem ShutdownLocked_releases_lists w :
  let w' := ShutdownLocked w in
  let held :=
    weights_held_by (endpoint_list_ (wrr w)) w
    ++ weights_held_by (latest_pending_endpoint_list_ (wrr w)) w in
  shutdown_ (wrr w') = true
  /\ endpoint_list_ (wrr w') = None
  /\ latest_pending_endpoint_list_ (wrr w') = None
  /\ (forall r,
         endpoint_list_ (wrr w) = Some r
         \/ latest_pending_endpoint_list_ (wrr w) = Some r ->
         lists w' !! r = None)
  /\ (forall r l, lists w' !! r = Some l -> lists w !! r = Some l)
  /\ (forall x,
         x ∈ weight_unreferenced w'
         <-> x ∈ weight_unreferenced w
             \/ (endpoints_hold x held = true
                 /\ EndpointWeight_referenced x w' = false))
  /\ (map_owned w ->
      map_owned w'
      /\ endpoint_weight_map_ (wrr w')
         = List.filter
             (fun kv => negb (endpoints_hold kv.2 held)
                        || EndpointWeight_referenced kv.2 w')
             (endpoint_weight_map_ (wrr w)))
  /\ (lt_irreflexive -> lt_transitive -> lt_compatible -> reachable w ->
      endpoint_weight_map_ (wrr w')
      = List.filter
          (fun kv => negb (endpoints_hold kv.2 held)
                     || EndpointWeight_referenced kv.2 w')
          (endpoint_weight_map_ (wrr w)))
  /\ weight_held_outside w' = weight_held_outside w
  /\ effects w' = effects w
  /\ ShutdownLocked w' = w'
  /\ WeightedRoundRobin_destroy w' = Done tt
  /\ (endpoint_list_ (wrr w) <> None
      \/ latest_pending_endpoint_list_ (wrr w) <> None ->
      WeightedRoundRobin_destroy w = Abort CheckFailed).
Proof.
  intros w' held. subst w'. unfold ShutdownLocked.
  set (cur := endpoint_list_ (wrr w)).
  set (pend := latest_pending_endpoint_list_ (wrr w)).
  set (w1 := set_wrr (set_shutdown_ true) w).
  set (wA := destroy_list cur w1).
  set (w2 := set_wrr (set_endpoint_list_ None) wA).
  change (endpoint_list_ (wrr w1)) with cur.
  fold wA. fold w2.
  destruct (policy_destroy_list cur w1) as (_ & A2 & A3 & A4 & _).
  fold wA in A2, A3, A4.
  assert (Ep : latest_pending_endpoint_list_ (wrr w2) = pend) by exact A3.
  rewrite Ep.
  set (wB := destroy_list pend w2).
  set (w' := set_wrr (set_latest_pending_endpoint_list_ None) wB).
  destruct (policy_destroy_list pend w2) as (_ & B2 & B3 & B4 & _).
  fold wB in B2, B3, B4.
  assert (ElA : lists wA = match cur with
                           | Some r => delete r (lists w)
                           | None => lists w
                           end) by apply (lists_destroy_list cur w1).
  assert (ElB : lists wB = match pend with
                           | Some r => delete r (lists wA)
                           | None => lists wA
                           end) by apply (lists_destroy_list pend w2).
  assert (Hheld : forall x,
             endpoints_hold x (weights_held_by cur w1)
             || endpoints_hold x (weights_held_by pend w2)
             = endpoints_hold x held).
  { intros x. unfold held. fold cur pend. unfold endpoints_hold at 3.
    rewrite existsb_app. fold (endpoints_hold x (weights_held_by cur w)).
    fold (endpoints_hold x (weights_held_by pend w)).
    change (weights_held_by cur w1) with (weights_held_by cur w).
    assert (E2 : weights_held_by pend w2
                 = match cur with
                   | Some d => if bool_decide (pend = Some d) then []
                               else weights_held_by pend w
                   | None => weights_held_by pend w
                   end).
    { unfold weights_held_by at 1.
      change (lists w2) with (lists wA). rewrite ElA.
      destruct cur as [d |]; [| reflexivity].
      exact (weights_held_by_delete pend d w). }
    rewrite E2. destruct cur as [d |]; [| reflexivity].
    destruct (bool_decide (pend = Some d)) eqn:Ed; [| reflexivity].
    apply bool_decide_eq_true in Ed. rewrite Ed. simpl.
    now rewrite orb_false_r, orb_diag. }
  assert (HrefA : forall x,
             EndpointWeight_referenced x wA
             = EndpointWeight_referenced x w'
               || endpoints_hold x (weights_held_by pend w2)).
  { intros x.
    assert (EwB : EndpointWeight_referenced x w'
                  = EndpointWeight_referenced x
                      (match pend with
                       | Some d => set_lists (delete d) w2
                       | None => w2
                       end)).
    { apply EndpointWeight_referenced_ext.
      - change (lists w') with (lists wB). rewrite ElB.
        destruct pend; reflexivity.
      - change (weight_held_outside w') with (weight_held_outside wB).
        destruct (destroy_list_released pend w2)
          as (_ & _ & _ & H & _).
        fold wB in H. rewrite H. destruct pend; reflexivity. }
    rewrite EwB.
    change (EndpointWeight_referenced x wA)
      with (EndpointWeight_referenced x w2).
    destruct pend as [d |].
    - apply EndpointWeight_referenced_delete.
    - simpl. now rewrite orb_false_r. }
  split; [exact (eq_trans B4 (eq_trans A4 eq_refl)) |].
  split; [exact B2 |]. split; [reflexivity |].
  split.
  { intros r Hr. change (lists w') with (lists wB). rewrite ElB, ElA.
    fold cur pend in Hr.
    destruct Hr as [Hr | Hr]; rewrite Hr; destruct cur, pend;
      try discriminate; try (injection Hr as <-);
      rewrite ?lookup_delete_eq; try reflexivity;
      apply lookup_delete_None; right; apply lookup_delete_eq. }
  split.
  { intros r l. change (lists w') with (lists wB). rewrite ElB, ElA.
    destruct cur, pend; intros H;
      repeat (apply lookup_delete_Some in H as [_ H]); exact H. }
  split.
  { intros x. change (weight_unreferenced w') with (weight_unreferenced wB).
    unfold wB. rewrite destroy_list_unreferenced. fold wB.
    change (weight_unreferenced w2) with (weight_unreferenced wA).
    unfold wA. rewrite destroy_list_unreferenced. fold wA.
    change (weight_unreferenced w1) with (weight_unreferenced w).
    change (EndpointWeight_referenced x wB)
      with (EndpointWeight_referenced x w').
    rewrite HrefA, <- Hheld.
    destruct (endpoints_hold x (weights_held_by cur w1)),
      (endpoints_hold x (weights_held_by pend w2)),
      (EndpointWeight_referenced x w'); simpl;
      intuition discriminate. }
  assert (Hmap :
            map_owned w ->
            map_owned w'
            /\ endpoint_weight_map_ (wrr w')
               = List.filter
                   (fun kv => negb (endpoints_hold kv.2 held)
                              || EndpointWeight_referenced kv.2 w')
                   (endpoint_weight_map_ (wrr w))).
  { intros Hw.
    assert (Hw1 : map_owned w1) by exact Hw.
    destruct (destroy_list_map cur w1 Hw1) as [HoA EmA]. fold wA in HoA, EmA.
    assert (Hw2 : map_owned w2) by exact HoA.
    destruct (destroy_list_map pend w2 Hw2) as [HoB EmB].
    fold wB in HoB, EmB.
    split; [exact HoB |].
    change (endpoint_weight_map_ (wrr w'))
      with (endpoint_weight_map_ (wrr wB)).
    rewrite EmB.
    change (endpoint_weight_map_ (wrr w2))
      with (endpoint_weight_map_ (wrr wA)).
    rewrite EmA, List_filter_filter.
    change (endpoint_weight_map_ (wrr w1))
      with (endpoint_weight_map_ (wrr w)).
    apply filter_ext. intros kv.
    change (EndpointWeight_referenced kv.2 wB)
      with (EndpointWeight_referenced kv.2 w').
    rewrite HrefA, <- Hheld.
    destruct (endpoints_hold kv.2 (weights_held_by cur w1)),
      (endpoints_hold kv.2 (weights_held_by pend w2)),
      (EndpointWeight_referenced kv.2 w'); reflexivity. }
  split; [exact Hmap |].
  split.
  { intros Hi Ht Hco Hr. apply Hmap.
    now apply reachable_map_well_kept. }
  split.
  { change (weight_held_outside w') with (weight_held_outside wB).
    destruct (destroy_list_released pend w2) as (_ & _ & _ & H & _).
    fold wB in H. rewrite H.
    assert (H2 : weight_held_outside w2 = weight_held_outside w).
    { change (weight_held_outside w2) with (weight_held_outside wA).
      destruct (destroy_list_released cur w1) as (_ & _ & _ & H' & _).
      fold wA in H'. rewrite H'. destruct cur; reflexivity. }
    destruct pend; exact H2. }
  split.
  { change (effects w') with (effects wB). unfold wB.
    rewrite effects_destroy_list.
    change (effects w2) with (effects wA). unfold wA.
    now rewrite effects_destroy_list. }
  assert (Hs : shutdown_ (wrr w') = true)
    by exact (eq_trans B4 (eq_trans A4 eq_refl)).
  assert (Hc : endpoint_list_ (wrr w') = None) by exact B2.
  assert (Hp : latest_pending_endpoint_list_ (wrr w') = None)
    by reflexivity.
  split.
  { clearbody w'. clear -Hs Hc Hp.
    destruct w' as [[cfg act pd m sd st] ls ws ks un ho calls es].
    simpl in *. subst. reflexivity. }
  split.
  { unfold WeightedRoundRobin_destroy. now rewrite Hc, Hp. }
  fold cur pend. unfold WeightedRoundRobin_destroy. fold cur pend.
  destruct cur, pend; simpl; try reflexivity.
  intros [H | H]; contradiction.
Qed.
End Shutdown.

Lemma counting_lt_irreflexive : @lt_irreflexive counting_collaborators.
Proof. intros a. apply Nat.ltb_irrefl. Qed.

Lemma counting_lt_transitive : @lt_transitive counting_collaborators.
Proof.
  intros a b c. simpl. rewrite !Nat.ltb_lt. lia.
Qed.

Lemma counting_lt_compatible : @lt_compatible counting_collaborators.
Proof.
  intros a b c [H1 H2]. simpl in *.
  rewrite Nat.ltb_ge in H1, H2. rewrite !Nat.ltb_lt. lia.
Qed.

Lemma sample_map_owned w m :
  endpoint_weight_map_ (wrr w) = m ->
  NoDup (map snd m) ->
  Forall (fun kv =>
            exists key,
              weight_keys w !! kv.2 = Some key
              /\ @map_find sample_collaborators key m = Some kv.2) m ->
  @map_owned sample_collaborators w.
Proof. intros <- H1 H2. now split. Qed.

Lemma ShutdownLocked_releases_lists_witness :
  endpoint_weight_map_ (wrr sample_world_started)
  = [(["a"], 0%nat); (["b"], 1%nat)]
  /\ endpoint_weight_map_
       (wrr (@ShutdownLocked sample_collaborators sample_world_started))
     = []
  /\ endpoint_weight_map_ (wrr sample_world_pending)
     = [(["a"], 0%nat); (["b"], 1%nat); (["c"], 2%nat)]
  /\ endpoint_weight_map_
       (wrr (@ShutdownLocked sample_collaborators sample_world_pending))
     = [(["a"], 0%nat); (["b"], 1%nat)]
  /\ @reachable counting_collaborators counting_world_started
  /\ endpoint_weight_map_ (wrr counting_world_started)
     = [(["c"], 0%nat); (["a"; "b"], 1%nat)]
  /\ endpoint_weight_map_
       (wrr (@ShutdownLocked counting_collaborators counting_world_started))
     = [].
Proof.
  assert (Hr : @reachable counting_collaborators counting_world_started).
  { apply (@reachable_update counting_collaborators counting_update_args);
      [apply reachable_init | vm_compute; reflexivity | discriminate]. }
  assert (E1 : endpoint_weight_map_ (wrr sample_world_started)
               = [(["a"], 0%nat); (["b"], 1%nat)])
    by (vm_compute; reflexivity).
  assert (E2 : endpoint_weight_map_ (wrr sample_world_pending)
               = [(["a"], 0%nat); (["b"], 1%nat); (["c"], 2%nat)])
    by (vm_compute; reflexivity).
  assert (H1 : @map_owned sample_collaborators sample_world_started).
  { apply (sample_map_owned _ _ E1).
    - apply (bool_decide_unpack _). vm_compute. reflexivity.
    - repeat constructor; eexists; split; vm_compute; reflexivity. }
  assert (H2 : @map_owned sample_collaborators sample_world_pending).
  { apply (sample_map_owned _ _ E2).
    - apply (bool_decide_unpack _). vm_compute. reflexivity.
    - repeat constructor; eexists; split; vm_compute; reflexivity. }
  split; [exact E1 |]. split; [| split; [exact E2 |]];
    [| split; [| split; [exact Hr |]; split; [vm_compute; reflexivity |]]].
  - destruct (@ShutdownLocked_releases_lists sample_collaborators
                sample_world_started)
      as (_ & _ & _ & _ & _ & _ & H & _).
    destruct (H H1) as [_ ->]. vm_compute. reflexivity.
  - destruct (@ShutdownLocked_releases_lists sample_collaborators
                sample_world_pending)
      as (_ & _ & _ & _ & _ & _ & H & _).
    destruct (H H2) as [_ ->]. vm_compute. reflexivity.
  - destruct (@ShutdownLocked_releases_lists counting_collaborators
                counting_world_started)
      as (_ & _ & _ & _ & _ & _ & _ & H & _).
    rewrite (H counting_lt_irreflexive counting_lt_transitive
               counting_lt_compatible Hr).
    vm_compute. reflexivity.
Defined.

(** ** The order of the endpoints of a new list *)

Section OrderedAddresses.
Context {C : Collaborators}.

Lemma ordered_insert_elem e s x :
  x ∈ ordered_insert e s -> x = e \/ x ∈ s.
Proof.
  induction s as [| y s IH]; simpl.
  - intros H. apply list_elem_of_singleton in H. now left.
  - destruct (EndpointAddressSet_lt (addresses e) (addresses y)).
    + intros H. apply elem_of_cons in H as [-> | H]; [now left | now right].
    + destruct (EndpointAddressSet_lt (addresses y) (addresses e));
        [| now right].
      intros H. apply elem_of_cons in H as [-> | H];
        [right; now left |].
      destruct (IH H) as [-> | Hs]; [now left | right; now right].
Qed.

Lemma ordered_insert_keeps e s x : x ∈ s -> x ∈ ordered_insert e s.
Proof.
  induction s as [| y s IH]; simpl; [intros H; inversion H |].
  destruct (EndpointAddressSet_lt (addresses e) (addresses y));
    [now right |].
  destruct (EndpointAddressSet_lt (addresses y) (addresses e));
    [| auto].
  intros H. apply elem_of_cons in H as [-> | H]; [now left |].
  right. now apply IH.
Qed.

Lemma ordered_insert_represents e s :
  exists b, b ∈ ordered_insert e s
            /\ (b = e \/ equivalent (addresses e) (addresses b)).
Proof.
  induction s as [| y s IH]; simpl.
  - exists e. split; [now left | now left].
  - destruct (EndpointAddressSet_lt (addresses e) (addresses y)) eqn:E1.
    + exists e. split; [now left | now left].
    + destruct (EndpointAddressSet_lt (addresses y) (addresses e)) eqn:E2.
      * destruct IH as (b & Hb & Hrel). exists b.
        split; [now right | exact Hrel].
      * exists y. split; [now left |]. right. now split.
Qed.

Lemma ordered_insert_sorted e s :
  lt_transitive ->
  StronglySorted endpoint_lt s ->
  StronglySorted endpoint_lt (ordered_insert e s).
Proof.
  intros Ht Hs. induction Hs as [| y s Hs IH Hy]; simpl.
  - repeat constructor.
  - destruct (EndpointAddressSet_lt (addresses e) (addresses y)) eqn:E1.
    + constructor; [now constructor |].
      constructor; [exact E1 |].
      eapply Forall_impl; [exact Hy |]. intros z Hz.
      apply (Ht _ _ _ E1 Hz).
    + destruct (EndpointAddressSet_lt (addresses y) (addresses e)) eqn:E2;
        [| now constructor].
      constructor; [exact IH |].
      apply Forall_forall. intros z Hz.
      apply ordered_insert_elem in Hz as [-> | Hz]; [exact E2 |].
      rewrite Forall_forall in Hy. now apply Hy.
Qed.

Lemma fold_ordered_insert_facts l :
  forall acc,
    (forall x, x ∈ fold_left (fun s e => ordered_insert e s) l acc ->
               x ∈ l \/ x ∈ acc)
    /\ (forall x, x ∈ acc ->
                  x ∈ fold_left (fun s e => ordered_insert e s) l acc)
    /\ (forall a, a ∈ l ->
          exists b, b ∈ fold_left (fun s e => ordered_insert e s) l acc
                    /\ (b = a \/ equivalent (addresses a) (addresses b)))
    /\ (lt_transitive -> StronglySorted endpoint_lt acc ->
        StronglySorted endpoint_lt
          (fold_left (fun s e => ordered_insert e s) l acc)).
Proof.
  induction l as [| e l IH]; intros acc; simpl.
  - repeat split; auto. intros a Ha. inversion Ha.
  - destruct (IH (ordered_insert e acc)) as (H1 & H2 & H3 & H4).
    repeat split.
    + intros x Hx. destruct (H1 x Hx) as [Hl | Ha]; [left; now right |].
      apply ordered_insert_elem in Ha as [-> | Ha];
        [left; now left | now right].
    + intros x Hx. apply H2. now apply ordered_insert_keeps.
    + intros a Ha. apply elem_of_cons in Ha as [-> | Ha]; [| now apply H3].
      destruct (ordered_insert_represents e acc) as (b & Hb & Hrel).
      exists b. split; [now apply H2 | exact Hrel].
    + intros Ht Hs. apply H4; [exact Ht |]. now apply ordered_insert_sorted.
Qed.

Lemma StronglySorted_pairwise_distinct l :
  StronglySorted endpoint_lt l -> pairwise_distinct l.
Proof.
  intros Hs.
  assert (Hlt : forall i j a b,
             (i < j)%nat -> l !! i = Some a -> l !! j = Some b ->
             endpoint_lt a b).
  { induction Hs as [| y s Hs IH Hy]; intros i j a b Hij Hi Hj;
      [discriminate |].
    destruct i as [| i], j as [| j]; try lia; simpl in Hi, Hj.
    - injection Hi as <-. rewrite Forall_forall in Hy.
      apply Hy. now apply list_elem_of_lookup_2 with j.
    - apply (IH i j); [lia | assumption..]. }
  intros i j a b Hij Hi Hj.
  destruct (Nat.lt_total i j) as [H | [H | H]]; [| contradiction |].
  - left. apply (Hlt i j a b H Hi Hj).
  - right. apply (Hlt j i b a H Hj Hi).
Qed.
End OrderedAddresses.

Section OrderIndependence.
Context {C : Collaborators}.

Ltac order_saturate Ht :=
  repeat match goal with
    | H1 : EndpointAddressSet_lt ?a ?b = true,
      H2 : EndpointAddressSet_lt ?b ?c = true |- _ =>
        lazymatch goal with
        | _ : EndpointAddressSet_lt a c = true |- _ => fail
        | _ => pose proof (Ht a b c H1 H2)
        end
    end.

Ltac order_contra Hi Ht :=
  order_saturate Ht;
  repeat match goal with
    | H : EndpointAddressSet_lt ?a ?a = true |- _ =>
        rewrite (Hi a) in H; discriminate
    end;
  congruence.

Ltac split_comparisons :=
  repeat (match goal with
          | |- context [EndpointAddressSet_lt ?p ?q] =>
              destruct (EndpointAddressSet_lt p q) eqn:?
          end; simpl).

(** Two endpoints with distinct address sets can be inserted in either
    order. *)
Lemma ordered_insert_comm a b s :
  lt_irreflexive -> lt_transitive ->
  distinct (addresses a) (addresses b) ->
  ordered_insert a (ordered_insert b s) = ordered_insert b (ordered_insert a s).
Proof.
  intros Hi Ht Hd. unfold distinct in Hd.
  induction s as [| x s IH]; simpl; split_comparisons;
    try reflexivity; try (f_equal; exact IH);
    exfalso; destruct Hd; order_contra Hi Ht.
Qed.

Lemma pairwise_distinct_tail a l :
  pairwise_distinct (a :: l) -> pairwise_distinct l.
Proof.
  intros H i j x y Hij Hi Hj. apply (H (S i) (S j)); [lia | assumption..].
Qed.

Lemma pairwise_distinct_permutation l l' :
  l ≡ₚ l' -> pairwise_distinct l -> pairwise_distinct l'.
Proof.
  intros Hp H. symmetry in Hp.
  apply Permutation_inj in Hp as (_ & f & Hf & Hl).
  intros i j a b Hij Hi Hj. rewrite Hl in Hi, Hj.
  apply (H (f i) (f j)); [| assumption..].
  intros E. apply Hij. now apply Hf.
Qed.

Lemma fold_ordered_insert_permutation l l' :
  lt_irreflexive -> lt_transitive ->
  l ≡ₚ l' -> pairwise_distinct l ->
  forall acc,
    fold_left (fun s e => ordered_insert e s) l acc
    = fold_left (fun s e => ordered_insert e s) l' acc.
Proof.
  intros Hi Ht Hp.
  induction Hp as [| x l l' Hp IH | x y l | l l' l'' H1 IH1 H2 IH2];
    intros Hd acc; simpl.
  - reflexivity.
  - apply IH. now apply pairwise_distinct_tail with x.
  - f_equal. apply ordered_insert_comm; [assumption.. |].
    apply (Hd 1%nat 0%nat); [lia | reflexivity..].
  - rewrite IH1 by exact Hd. apply IH2.
    now apply pairwise_distinct_permutation with l.
Qed.

(** The endpoints of a new list are the addresses of the update without
    duplicates and in order.  Under an irreflexive and transitive
    comparison of address sets: the list built from the addresses is
    strictly increasing, so its address sets are pairwise distinct; every
    one of its endpoints is an endpoint of the update; every endpoint of
    the update is in it or has an equivalent in it; and when the update
    holds no two endpoints with equivalent address sets, the order in
    which it lists them does not matter, so an endpoint keeps its index
    as long as the set of endpoints stays the same. *)
Theorem ordered_addresses_canonical l :
  lt_irreflexive -> lt_transitive ->
  StronglySorted endpoint_lt (ordered_addresses l)
  /\ pairwise_distinct (ordered_addresses l)
  /\ (forall a, a ∈ ordered_addresses l -> a ∈ l)
  /\ (forall a, a ∈ l ->
        exists b, b ∈ ordered_addresses l
                  /\ (b = a \/ equivalent (addresses a) (addresses b)))
  /\ (forall l', l ≡ₚ l' -> pairwise_distinct l ->
                 ordered_addresses l' = ordered_addresses l).
Proof.
  intros Hi Ht. unfold ordered_addresses.
  destruct (fold_ordered_insert_facts l []) as (H1 & _ & H3 & H4).
  assert (Hs : StronglySorted endpoint_lt
                 (fold_left (fun s e => ordered_insert e s) l []))
    by (apply H4; [exact Ht | constructor]).
  split; [exact Hs |].
  split; [now apply StronglySorted_pairwise_distinct |].
  split.
  - intros a Ha. destruct (H1 a Ha) as [H | H]; [exact H | inversion H].
  - split; [exact H3 |].
    intros l' Hp Hd. symmetry.
    now apply fold_ordered_insert_permutation.
Qed.
End OrderIndependence.

Lemma ordered_addresses_canonical_witness :
  @ordered_addresses counting_collaborators
    [mkEndpointAddresses ["a"; "b"] 0%nat; mkEndpointAddresses ["c"] 0%nat]
  = [mkEndpointAddresses ["c"] 0%nat; mkEndpointAddresses ["a"; "b"] 0%nat]
  /\ @ordered_addresses counting_collaborators
       [mkEndpointAddresses ["c"] 0%nat; mkEndpointAddresses ["a"; "b"] 0%nat]
     = @ordered_addresses counting_collaborators
         [mkEndpointAddresses ["a"; "b"] 0%nat;
          mkEndpointAddresses ["c"] 0%nat].
Proof.
  destruct (@ordered_addresses_canonical counting_collaborators
              [mkEndpointAddresses ["a"; "b"] 0%nat;
               mkEndpointAddresses ["c"] 0%nat]
              counting_lt_irreflexive counting_lt_transitive)
    as (_ & _ & _ & _ & H).
  split; [vm_compute; reflexivity |].
  apply H.
  - apply perm_swap.
  - intros [| [| i]] [| [| j]] a b Hij Hi Hj; try contradiction;
      try discriminate; injection Hi as <-; injection Hj as <-;
      [right | left]; reflexivity.
Defined.

(** ** Updates that carry addresses *)

Section NewLists.
Context {C : Collaborators}.

Lemma create_endpoints_fresh addrs args :
  forall errors w,
    let '(es, errors', w') := create_endpoints addrs args errors w in
    Forall (fun e => connectivity_state_ e = None /\ picker_ e = None) es
    /\ errors' = errors ++ child_errors addrs args
    /\ weight_unreferenced w' = weight_unreferenced w.
Proof.
  induction addrs as [| a addrs IH]; intros errors w; simpl.
  - split; [constructor |]. split; [now rewrite app_nil_r | reflexivity].
  - assert (G : weight_unreferenced (snd (GetOrCreateWeight (addresses a) w))
                = weight_unreferenced w).
    { unfold GetOrCreateWeight.
      destruct (map_find _ _) as [r |]; [| reflexivity].
      destruct (decide (r ∈ weight_unreferenced w)); reflexivity. }
    destruct (GetOrCreateWeight (addresses a) w) as [weight w1].
    simpl in G.
    match goal with
    | |- context [create_endpoints addrs args ?e w1] =>
        specialize (IH e w1);
        destruct (create_endpoints addrs args e w1) as [[es errors2] w2]
    end.
    destruct IH as (H1 & H2 & H3).
    split; [constructor; [split; reflexivity | exact H1] |].
    split; [| congruence].
    rewrite H2. unfold child_errors. simpl.
    destruct (Status_ok (Endpoint_Init a args)); simpl;
      [reflexivity | now rewrite <- app_assoc].
Qed.

Lemma create_endpoints_config addrs args :
  forall errors w,
    config_ (wrr (snd (create_endpoints addrs args errors w)))
    = config_ (wrr w).
Proof.
  induction addrs as [| a addrs IH]; intros errors w; simpl; [reflexivity |].
  assert (G : config_ (wrr (snd (GetOrCreateWeight (addresses a) w)))
              = config_ (wrr w)).
  { unfold GetOrCreateWeight.
    destruct (map_find _ _) as [r |]; [| reflexivity].
    destruct (decide (r ∈ weight_unreferenced w)); reflexivity. }
  destruct (GetOrCreateWeight (addresses a) w) as [weight w1]. simpl in G.
  match goal with
  | |- context [create_endpoints addrs args ?e w1] =>
      specialize (IH e w1);
      destruct (create_endpoints addrs args e w1) as [[es errors2] w2]
  end.
  simpl in *. congruence.
Qed.

(** [UpdateLocked] on an address list, once the endpoints are made. *)
Lemma UpdateLocked_value args w l es errors w2 :
  UpdateArgs_addresses args = StatusOr_value l ->
  create_endpoints (ordered_addresses l) (UpdateArgs_args args) []
    (after_config args w) = (es, errors, w2) ->
  let new_list :=
    mkWrrEndpointList es (UpdateArgs_resolution_note args) 0 0 0 OkStatus in
  let new_ref := fresh (dom (lists w2)) in
  let w3 :=
    set_wrr (set_latest_pending_endpoint_list_ (Some new_ref))
      (destroy_list (latest_pending_endpoint_list_ (wrr w2))
         (put_list new_ref new_list w2)) in
  UpdateLocked args w
  = if EndpointList_size new_list =? 0
    then (UnavailableError "empty address list",
          emit (ReportTransientFailure new_ref
                  (UnavailableError "empty address list"))
            (promote_pending w3))
    else (if negb (length errors =? 0)%nat
          then UnavailableError
                 ("errors from children: [" ++ StrJoin errors "; " ++ "]")
          else OkStatus,
          match endpoint_list_ (wrr w3) with
          | None => promote_pending w3
          | Some _ => w3
          end).
Proof.
  intros Ha Ece. unfold UpdateLocked. rewrite Ha.
  cbv beta zeta.
  change (default [] (Some (ordered_addresses l)))
    with (ordered_addresses l).
  change (set_wrr (set_config_ (UpdateArgs_config args))
            (emit IncrementWrrUpdates w)) with (after_config args w).
  rewrite Ece.
  destruct (EndpointList_size _ =? 0); [reflexivity |].
  destruct (negb _); reflexivity.
Qed.

(** An update that carries addresses always installs its list.  The new
    list holds one endpoint per address kept, none of which has a state
    or a picker yet, and its counters are 0.  With no list in use it
    becomes the current list at once; otherwise it becomes the latest
    pending list, the pending list it replaces is destroyed, and the
    current list stays as it is.  Nothing is published.  The status
    returned is OK when every child initialised, and otherwise
    UNAVAILABLE with the children's errors, in the order of the
    endpoints, joined with semicolons; the list is installed all the
    same. *)
Theorem UpdateLocked_installs_new_list args w l :
  World_wf w ->
  UpdateArgs_addresses args = StatusOr_value l -> l <> [] ->
  let w' := snd (UpdateLocked args w) in
  let new_ref := fresh (dom (lists w)) in
  let errors := child_errors (ordered_addresses l) (UpdateArgs_args args) in
  (exists new_list,
      lists w !! new_ref = None
      /\ lists w' !! new_ref = Some new_list
      /\ length (endpoints new_list) = length (ordered_addresses l)
      /\ Forall (fun e => connectivity_state_ e = None /\ picker_ e = None)
           (endpoints new_list)
      /\ num_ready_ new_list = 0 /\ num_connecting_ new_list = 0
      /\ num_transient_failure_ new_list = 0
      /\ resolution_note_ new_list = UpdateArgs_resolution_note args)
  /\ (endpoint_list_ (wrr w) = None ->
      endpoint_list_ (wrr w') = Some new_ref
      /\ latest_pending_endpoint_list_ (wrr w') = None)
  /\ (forall act,
        endpoint_list_ (wrr w) = Some act ->
        endpoint_list_ (wrr w') = Some act
        /\ latest_pending_endpoint_list_ (wrr w') = Some new_ref
        /\ lists w' !! act = lists w !! act
        /\ forall p, latest_pending_endpoint_list_ (wrr w) = Some p ->
                     lists w' !! p = None)
  /\ effects w' = effects w ++ [IncrementWrrUpdates]
  /\ config_ (wrr w') = UpdateArgs_config args
  /\ fst (UpdateLocked args w)
     = match errors with
       | [] => OkStatus
       | _ => UnavailableError
                ("errors from children: [" ++ StrJoin errors "; " ++ "]")
       end.
Proof.
  intros Hwf Ha Hl w' new_ref errors. subst w'.
  pose proof (UpdateLocked_with_addresses args w l Ha Hl) as Heff.
  set (w1 := after_config args w).
  pose proof (create_endpoints_frame (ordered_addresses l)
                (UpdateArgs_args args) [] w1) as Hframe.
  pose proof (create_endpoints_fresh (ordered_addresses l)
                (UpdateArgs_args args) [] w1) as Hfresh.
  pose proof (create_endpoints_config (ordered_addresses l)
                (UpdateArgs_args args) [] w1) as Hcfg.
  destruct (create_endpoints (ordered_addresses l) (UpdateArgs_args args)
              [] w1) as [[es errs] w2] eqn:Ece.
  pose proof (UpdateLocked_value args w l es errs w2 Ha Ece) as Eu.
  cbv zeta in Eu. rewrite Eu in Heff |- *. clear Eu.
  destruct Hframe as (F1 & F2 & F3 & F4 & F5). simpl in F1, F2, F3, Hcfg.
  destruct Hfresh as (N1 & N2 & _). simpl in N2. fold errors in N2.
  subst errs.
  assert (Hes : es <> [])
    by (intros ->; apply (ordered_addresses_not_nil l Hl);
        now apply length_zero_iff_nil).
  rewrite F1 in Heff |- *. fold new_ref in Heff |- *.
  set (new_list := mkWrrEndpointList es (UpdateArgs_resolution_note args)
                     0 0 0 OkStatus) in *.
  assert (Ez : (EndpointList_size new_list =? 0) = false).
  { apply Z.eqb_neq. unfold EndpointList_size. simpl.
    destruct es; [contradiction | discriminate]. }
  rewrite Ez in Heff |- *. cbn [fst snd] in Heff |- *.
  set (w2' := put_list new_ref new_list w2) in *.
  set (w3 := set_wrr (set_latest_pending_endpoint_list_ (Some new_ref))
               (destroy_list (latest_pending_endpoint_list_ (wrr w2))
                  w2')) in *.
  destruct (policy_destroy_list (latest_pending_endpoint_list_ (wrr w2))
              w2') as (D1 & D2 & _).
  assert (Hnew : lists w !! new_ref = None) by apply fresh_list_ref.
  assert (El3 : lists w3
                = match latest_pending_endpoint_list_ (wrr w) with
                  | Some p => delete p (<[new_ref := new_list]> (lists w))
                  | None => <[new_ref := new_list]> (lists w)
                  end).
  { change (lists w3)
      with (lists (destroy_list (latest_pending_endpoint_list_ (wrr w2))
                     w2')).
    rewrite lists_destroy_list, F3. unfold w2', put_list. simpl.
    now rewrite F1. }
  assert (Hl3 : lists w3 !! new_ref = Some new_list).
  { rewrite El3.
    destruct (latest_pending_endpoint_list_ (wrr w)) as [p |] eqn:Ep;
      [| apply lookup_insert_eq].
    assert (Hp : p <> new_ref)
      by (apply live_not_fresh, (pending_live w Hwf); exact Ep).
    rewrite lookup_delete_ne by exact Hp. apply lookup_insert_eq. }
  assert (Hc3 : endpoint_list_ (wrr w3) = endpoint_list_ (wrr w))
    by (exact (eq_trans D2 F2)).
  assert (Hg3 : config_ (wrr w3) = UpdateArgs_config args)
    by (exact (eq_trans D1 Hcfg)).
  rewrite Hc3 in Heff |- *.
  assert (Hworld :
           let w4 := match endpoint_list_ (wrr w) with
                     | None => promote_pending w3
                     | Some _ => w3
                     end in
           effects w4 = effects w ++ [IncrementWrrUpdates] ->
           (exists new_list0,
               lists w !! new_ref = None
               /\ lists w4 !! new_ref = Some new_list0
               /\ length (endpoints new_list0) = length (ordered_addresses l)
               /\ Forall (fun e => connectivity_state_ e = None
                                   /\ picker_ e = None)
                    (endpoints new_list0)
               /\ num_ready_ new_list0 = 0 /\ num_connecting_ new_list0 = 0
               /\ num_transient_failure_ new_list0 = 0
               /\ resolution_note_ new_list0
                  = UpdateArgs_resolution_note args)
           /\ (endpoint_list_ (wrr w) = None ->
               endpoint_list_ (wrr w4) = Some new_ref
               /\ latest_pending_endpoint_list_ (wrr w4) = None)
           /\ (forall act,
                 endpoint_list_ (wrr w) = Some act ->
                 endpoint_list_ (wrr w4) = Some act
                 /\ latest_pending_endpoint_list_ (wrr w4) = Some new_ref
                 /\ lists w4 !! act = lists w !! act
                 /\ forall p, latest_pending_endpoint_list_ (wrr w) = Some p ->
                              lists w4 !! p = None)
           /\ effects w4 = effects w ++ [IncrementWrrUpdates]
           /\ config_ (wrr w4) = UpdateArgs_config args).
  { intros w4 He. subst w4.
    destruct (endpoint_list_ (wrr w)) as [act |] eqn:Eact.
    - split; [exists new_list; repeat split; assumption |].
      split; [discriminate |]. split; [| split; assumption].
      intros act' [= <-]. split; [exact Hc3 |]. split; [reflexivity |].
      destruct Hwf as [H1 H2 H3].
      assert (Hact : act <> new_ref)
        by (apply live_not_fresh, H1; exact Eact).
      rewrite El3.
      destruct (latest_pending_endpoint_list_ (wrr w)) as [p |] eqn:Ep.
      + destruct (H3 p eq_refl) as (a' & Ha' & Hne).
        assert (a' = act) by congruence. subst a'.
        split.
        * rewrite lookup_delete_ne, lookup_insert_ne by congruence.
          reflexivity.
        * intros p' [= <-]. apply lookup_delete_eq.
      + split; [now rewrite lookup_insert_ne by congruence |].
        intros p' Hp. discriminate.
    - destruct (promote_pending_store w3) as (_ & Pc & _ & _).
      destruct (promote_pending_pointers w3) as [Pe Pp].
      split.
      + exists new_list. repeat split; try assumption.
        rewrite promote_pending_lists_any, Hc3. exact Hl3.
      + split; [intros _; split; [rewrite Pe; reflexivity | exact Pp] |].
        split; [discriminate |]. split; [exact He |].
        rewrite Pc. exact Hg3. }
  destruct (negb (length errors =? 0)%nat) eqn:En; cbn [fst snd] in *;
    destruct (Hworld Heff) as (W1 & W2 & W3 & W4 & W5);
    (split; [exact W1 |]); (split; [exact W2 |]); (split; [exact W3 |]);
    (split; [exact W4 |]); (split; [exact W5 |]);
    destruct errors; try reflexivity; discriminate.
Qed.
End NewLists.

Lemma UpdateLocked_installs_new_list_witness :
  fst (@UpdateLocked counting_collaborators counting_update_args
         (World_init 7))
  = UnavailableError "errors from children: [endpoint a,b: no route]"
  /\ endpoint_list_ (wrr counting_world_started) = Some 0%nat
  /\ latest_pending_endpoint_list_ (wrr counting_world_started) = None.
Proof.
  destruct (@UpdateLocked_installs_new_list counting_collaborators
              counting_update_args (World_init 7)
              [mkEndpointAddresses ["a"; "b"] 0%nat;
               mkEndpointAddresses ["c"] 0%nat])
    as (_ & H2 & _ & _ & _ & H6);
    [apply World_wf_init | reflexivity | discriminate |].
  split; [rewrite H6; vm_compute; reflexivity |].
  destruct H2 as [H H']; [reflexivity |].
  split; [exact H | exact H'].
Defined.

(** ** The map of weights *)

Section WeightMap.
Context {C : Collaborators}.

Lemma map_find_erase key m r :
  lt_compatible -> map_sorted m ->
  map_find key m = Some r ->
  map_find key (map_erase key m) = None
  /\ S (length (map_erase key m)) = length m.
Proof.
  intros Hc Hs. induction Hs as [| [k x] m Hs IH Hk]; simpl;
    [discriminate |].
  destruct (EndpointAddressSet_lt key k) eqn:E1; [discriminate |].
  destruct (EndpointAddressSet_lt k key) eqn:E2.
  - intros H. destruct (IH H) as [I1 I2]. simpl. rewrite E1, E2.
    split; [exact I1 | now rewrite I2].
  - intros _. split; [| reflexivity].
    destruct m as [| [k' x'] m']; [reflexivity |]. simpl.
    inversion Hk as [| ? ? Hkk' _]; subst. simpl in Hkk'.
    now rewrite (Hc k key k' (conj E2 E1) Hkk').
Qed.

(** [GetOrCreateWeight] never hands out a weight that has lost its last
    owner.  A key whose entry is live gets the weight of the entry, and
    nothing changes.  Otherwise a new weight is made, in its initial
    state and with this key, and no other weight is touched.  If the key
    had no entry the new weight is entered, so the next call for the key
    returns it again.  If the key had an entry whose weight has lost its
    last owner, the map is left as it is (the entry of the old weight
    stays), so the next call for the key makes yet another weight. *)
Theorem GetOrCreateWeight_registers key w :
  EndpointAddressSet_lt key key = false ->
  weight_unreferenced w ⊆ dom (weights w) ->
  let r := fst (GetOrCreateWeight key w) in
  let w1 := snd (GetOrCreateWeight key w) in
  let found := map_find key (endpoint_weight_map_ (wrr w)) in
  (r ∉ weight_unreferenced w1)
  /\ (forall r0, found = Some r0 -> r0 ∉ weight_unreferenced w ->
                 r = r0 /\ w1 = w)
  /\ (found = None
      \/ (exists r0, found = Some r0 /\ r0 ∈ weight_unreferenced w) ->
      weights w !! r = None
      /\ weights w1 = <[r := EndpointWeight_init]> (weights w)
      /\ weight_keys w1 !! r = Some key
      /\ lists w1 = lists w /\ effects w1 = effects w)
  /\ (found = None ->
      map_find key (endpoint_weight_map_ (wrr w1)) = Some r
      /\ GetOrCreateWeight key w1 = (r, w1))
  /\ (forall r0, found = Some r0 -> r0 ∈ weight_unreferenced w ->
                 endpoint_weight_map_ (wrr w1) = endpoint_weight_map_ (wrr w)
                 /\ fst (GetOrCreateWeight key w1) <> r).
Proof.
  intros Hi Hsub r w1 found.
  set (fresh_ref := fresh (dom (weights w))).
  assert (Hfresh : weights w !! fresh_ref = None)
    by (apply not_elem_of_dom, is_fresh).
  assert (Hnot : fresh_ref ∉ weight_unreferenced w).
  { intros H. apply Hsub in H. now apply is_fresh in H. }
  assert (Hnew : fresh (dom (<[fresh_ref := EndpointWeight_init]>
                               (weights w))) <> fresh_ref).
  { intros E.
    assert (Hd : fresh_ref ∈ dom (<[fresh_ref := EndpointWeight_init]>
                                    (weights w)))
      by (apply elem_of_dom; rewrite lookup_insert_eq; eauto).
    rewrite <- E in Hd at 1. now apply is_fresh in Hd. }
  subst r w1. unfold GetOrCreateWeight. fold found fresh_ref.
  destruct found as [r0 |] eqn:Ef.
  - destruct (decide (r0 ∈ weight_unreferenced w)) as [Hin | Hout]; simpl.
    + split; [exact Hnot |].
      split; [intros ? [= <-] ?; contradiction |].
      split.
      { intros _. repeat split; [exact Hfresh | apply lookup_insert_eq]. }
      split; [discriminate |].
      intros ? [= <-] _.
      assert (Em : map_emplace key fresh_ref (endpoint_weight_map_ (wrr w))
                   = endpoint_weight_map_ (wrr w)).
      { clear -Ef. subst found. revert Ef.
        induction (endpoint_weight_map_ (wrr w)) as [| [k x] m IH]; simpl;
          [discriminate |].
        destruct (EndpointAddressSet_lt key k); [discriminate |].
        destruct (EndpointAddressSet_lt k key); [| reflexivity].
        intros H. now rewrite IH. }
      split; [exact Em |].
      unfold GetOrCreateWeight. simpl. rewrite Em. fold found. rewrite Ef.
      destruct (decide (r0 ∈ weight_unreferenced w)); [| contradiction].
      exact Hnew.
    + split; [exact Hout |].
      split; [intros ? [= <-] _; split; reflexivity |].
      split.
      { intros [H | (r1 & [= <-] & H)]; [discriminate | contradiction]. }
      split; [discriminate |].
      intros ? [= <-] H. contradiction.
  - simpl. split; [exact Hnot |].
    split; [discriminate |].
    split.
    { intros _. repeat split; [exact Hfresh | apply lookup_insert_eq]. }
    split; [| discriminate].
    intros _.
    assert (Efind : map_find key
                      (map_emplace key fresh_ref
                         (endpoint_weight_map_ (wrr w)))
                    = Some fresh_ref).
    { rewrite (map_find_emplace_same key fresh_ref _ Hi).
      fold found. now rewrite Ef. }
    split; [exact Efind |].
    unfold GetOrCreateWeight. simpl. rewrite Efind.
    destruct (decide (fresh_ref ∈ weight_unreferenced w));
      [contradiction | reflexivity].
Qed.

(** The destructor of an [EndpointWeight] takes the entry of its key out
    of the map only when the entry is its own; an entry that belongs to
    another weight, or no entry, leaves the policy as it is.  Lists,
    weights and published state are never touched.  When the keys of the
    map are strictly increasing and equivalent keys compare alike, the
    key has no entry afterwards, the map is one entry shorter, and the
    next [GetOrCreateWeight] for the key makes a new weight. *)
Theorem EndpointWeight_destroy_erases_own_entry r key w :
  weight_keys w !! r = Some key ->
  let found := map_find key (endpoint_weight_map_ (wrr w)) in
  exists w',
    EndpointWeight_destroy r w = Done w'
    /\ lists w' = lists w /\ weights w' = weights w
    /\ effects w' = effects w
    /\ (found <> Some r -> w' = w)
    /\ (found = Some r ->
        endpoint_weight_map_ (wrr w')
        = map_erase key (endpoint_weight_map_ (wrr w))
        /\ (lt_compatible -> map_sorted (endpoint_weight_map_ (wrr w)) ->
            map_find key (endpoint_weight_map_ (wrr w')) = None
            /\ S (length (endpoint_weight_map_ (wrr w')))
               = length (endpoint_weight_map_ (wrr w))
            /\ weights w' !! fst (GetOrCreateWeight key w') = None)).
Proof.
  intros Hk found. unfold EndpointWeight_destroy. rewrite Hk. simpl.
  fold found. destruct found as [r' |] eqn:Ef.
  - destruct (r' =? r)%nat eqn:E.
    + apply Nat.eqb_eq in E. subst r'.
      eexists. split; [reflexivity |]. do 3 (split; [reflexivity |]).
      split; [intros H; contradiction |].
      intros _. split; [reflexivity |].
      intros Hc Hs. simpl.
      destruct (map_find_erase key _ r Hc Hs Ef) as [H1 H2].
      split; [exact H1 |]. split; [exact H2 |].
      unfold GetOrCreateWeight. simpl. rewrite H1. simpl.
      apply not_elem_of_dom, is_fresh.
    + apply Nat.eqb_neq in E.
      eexists. split; [reflexivity |]. do 3 (split; [reflexivity |]).
      split; [reflexivity |]. intros [= H]. contradiction.
  - eexists. split; [reflexivity |]. do 3 (split; [reflexivity |]).
    split; [reflexivity | discriminate].
Qed.
End WeightMap.

Lemma counting_world_started_unreferenced :
  weight_unreferenced counting_world_started = ∅.
Proof. vm_compute. reflexivity. Qed.

Lemma GetOrCreateWeight_registers_witness :
  fst (@GetOrCreateWeight counting_collaborators ["x"; "y"; "z"]
         counting_world_started) = 2%nat
  /\ @GetOrCreateWeight counting_collaborators ["x"; "y"; "z"]
       (snd (@GetOrCreateWeight counting_collaborators ["x"; "y"; "z"]
               counting_world_started))
     = (2%nat,
        snd (@GetOrCreateWeight counting_collaborators ["x"; "y"; "z"]
               counting_world_started)).
Proof.
  destruct (@GetOrCreateWeight_registers counting_collaborators
              ["x"; "y"; "z"] counting_world_started)
    as (_ & _ & _ & H & _).
  - reflexivity.
  - rewrite counting_world_started_unreferenced. apply empty_subseteq.
  - split; [vm_compute; reflexivity |].
    destruct H as [_ H]; [vm_compute; reflexivity |].
    exact H.
Defined.

Lemma EndpointWeight_destroy_erases_own_entry_witness :
  exists w',
    @EndpointWeight_destroy counting_collaborators 0%nat
      counting_world_started = Done w'
    /\ @map_find counting_collaborators ["c"]
         (endpoint_weight_map_ (wrr w')) = None
    /\ length (endpoint_weight_map_ (wrr w')) = 1%nat.
Proof.
  destruct (@EndpointWeight_destroy_erases_own_entry counting_collaborators
              0%nat ["c"] counting_world_started)
    as (w' & H1 & _ & _ & _ & _ & H2); [vm_compute; reflexivity |].
  destruct H2 as [_ H2]; [vm_compute; reflexivity |].
  destruct H2 as (H3 & H4 & _).
  - apply counting_lt_compatible.
  - repeat constructor.
  - exists w'. split; [exact H1 |]. split; [exact H3 |].
    assert (E : length (endpoint_weight_map_ (wrr counting_world_started))
                = 2%nat) by (vm_compute; reflexivity).
    rewrite E in H4. now injection H4.
Defined.

Section WeightReuse.
Context {C : Collaborators}.

Lemma GetOrCreateWeight_keeps_entry key key' r w :
  lt_transitive -> distinct key key' ->
  map_find key (endpoint_weight_map_ (wrr w)) = Some r ->
  is_Some (weights w !! r) ->
  let w1 := snd (GetOrCreateWeight key' w) in
  map_find key (endpoint_weight_map_ (wrr w1)) = Some r
  /\ weights w1 !! r = weights w !! r
  /\ weight_unreferenced w1 = weight_unreferenced w.
Proof.
  intros Ht Hd Hf Hr w1. subst w1.
  assert (Hcreate :
           let fresh_ref := fresh (dom (weights w)) in
           map_find key
             (map_emplace key' fresh_ref (endpoint_weight_map_ (wrr w)))
           = Some r
           /\ <[fresh_ref := EndpointWeight_init]> (weights w) !! r
              = weights w !! r).
  { intros fresh_ref. split.
    - now rewrite map_find_emplace_other.
    - apply lookup_insert_ne. intros E. subst r.
      destruct Hr as [ew Hr].
      assert (Hn : weights w !! fresh_ref = None)
        by (apply not_elem_of_dom, is_fresh).
      congruence. }
  unfold GetOrCreateWeight.
  destruct (map_find key' _) as [r' |].
  - destruct (decide (r' ∈ weight_unreferenced w)); simpl.
    + destruct Hcreate as [H1 H2]. repeat split; assumption.
    + repeat split. exact Hf.
  - simpl. destruct Hcreate as [H1 H2]. repeat split; assumption.
Qed.

Lemma create_endpoints_keeps_weight addrs args r :
  forall errors w,
    is_Some (weights w !! r) ->
    weights (snd (create_endpoints addrs args errors w)) !! r
    = weights w !! r.
Proof.
  induction addrs as [| a addrs IH]; intros errors w Hr; simpl;
    [reflexivity |].
  assert (G : weights (snd (GetOrCreateWeight (addresses a) w)) !! r
              = weights w !! r).
  { unfold GetOrCreateWeight.
    assert (Hne : fresh (dom (weights w)) <> r).
    { intros E. subst r. destruct Hr as [ew Hr].
      assert (Hn : weights w !! fresh (dom (weights w)) = None)
        by (apply not_elem_of_dom, is_fresh).
      congruence. }
    destruct (map_find _ _) as [r' |];
      [destruct (decide (r' ∈ weight_unreferenced w)) |]; simpl;
      try reflexivity; now apply lookup_insert_ne. }
  destruct (GetOrCreateWeight (addresses a) w) as [weight w1]. simpl in G.
  match goal with
  | |- context [create_endpoints addrs args ?e w1] =>
      specialize (IH e w1);
      destruct (create_endpoints addrs args e w1) as [[es errors2] w2]
  end.
  simpl in *. rewrite IH by (rewrite G; exact Hr). exact G.
Qed.

Lemma create_endpoints_keeps_entry addrs args key r :
  lt_transitive ->
  Forall (fun b => distinct key (addresses b)) addrs ->
  forall errors w,
    map_find key (endpoint_weight_map_ (wrr w)) = Some r ->
    is_Some (weights w !! r) ->
    map_find key
      (endpoint_weight_map_ (wrr (snd (create_endpoints addrs args errors w))))
    = Some r.
Proof.
  intros Ht Hd. induction Hd as [| b addrs Hb Hd IH]; intros errors w Hf Hr;
    simpl; [exact Hf |].
  pose proof (GetOrCreateWeight_keeps_entry key (addresses b) r w Ht Hb Hf
                Hr) as (K1 & K2 & _).
  destruct (GetOrCreateWeight (addresses b) w) as [weight w1].
  simpl in K1, K2.
  match goal with
  | |- context [create_endpoints addrs args ?e w1] =>
      specialize (IH e w1 K1);
      destruct (create_endpoints addrs args e w1) as [[es errors2] w2]
  end.
  simpl in *. apply IH. now rewrite K2.
Qed.

Lemma create_endpoints_reuses addrs args :
  lt_transitive -> pairwise_distinct addrs ->
  forall errors w i a r,
    addrs !! i = Some a ->
    map_find (addresses a) (endpoint_weight_map_ (wrr w)) = Some r ->
    r ∉ weight_unreferenced w ->
    is_Some (weights w !! r) ->
    (exists e,
        fst (fst (create_endpoints addrs args errors w)) !! i = Some e
        /\ WrrEndpoint_weight_ e = r)
    /\ map_find (addresses a)
         (endpoint_weight_map_
            (wrr (snd (create_endpoints addrs args errors w))))
       = Some r.
Proof.
  intros Ht. induction addrs as [| a0 addrs IH];
    intros Hd errors w i a r Hi Hf Hu Hr; [discriminate |].
  simpl. destruct i as [| i]; simpl in Hi.
  - injection Hi as ->.
    assert (G : GetOrCreateWeight (addresses a) w = (r, w)).
    { unfold GetOrCreateWeight. rewrite Hf.
      destruct (decide (r ∈ weight_unreferenced w));
        [contradiction | reflexivity]. }
    rewrite G.
    assert (Hrest : Forall (fun b => distinct (addresses a) (addresses b))
                      addrs).
    { apply Forall_lookup_2. intros j b Hj.
      apply (Hd 0%nat (S j)); [lia | reflexivity | exact Hj]. }
    match goal with
    | |- context [create_endpoints addrs args ?e w] =>
        pose proof (create_endpoints_keeps_entry addrs args (addresses a) r
                      Ht Hrest e w Hf Hr) as K;
        destruct (create_endpoints addrs args e w) as [[es errors2] w2]
    end.
    simpl in *. split; [eauto | exact K].
  - assert (Hdist : distinct (addresses a) (addresses a0))
      by (apply (Hd (S i) 0%nat); [lia | exact Hi | reflexivity]).
    pose proof (GetOrCreateWeight_keeps_entry (addresses a) (addresses a0)
                  r w Ht Hdist Hf Hr) as (K1 & K2 & K3).
    destruct (GetOrCreateWeight (addresses a0) w) as [weight w1].
    simpl in K1, K2, K3.
    match goal with
    | |- context [create_endpoints addrs args ?e w1] =>
        destruct (IH (pairwise_distinct_tail a0 addrs Hd) e w1 i a r Hi K1)
          as ((e0 & He & Hw) & Hm);
        [now rewrite K3 | now rewrite K2 |];
        destruct (create_endpoints addrs args e w1) as [[es errors2] w2]
    end.
    simpl in *. split; [eauto | exact Hm].
Qed.

(** A weight that stays referenced outlives the destruction of a list:
    it keeps its entry and does not lose its last reference. *)
Lemma destroy_list_keeps_referenced p w key r :
  EndpointWeight_referenced r (destroy_list p w) = true ->
  r ∉ weight_unreferenced w ->
  map_find key (endpoint_weight_map_ (wrr w)) = Some r ->
  (r ∉ weight_unreferenced (destroy_list p w))
  /\ map_find key (endpoint_weight_map_ (wrr (destroy_list p w))) = Some r.
Proof.
  intros Href Hu Hf. split.
  - rewrite destroy_list_unreferenced. intros [H | [_ H]]; congruence.
  - destruct p as [d |]; [| exact Hf]. simpl.
    apply release_endpoints_keeps_entry; [| exact Hf].
    rewrite <- Href. symmetry.
    apply EndpointWeight_referenced_released, release_endpoints_released.
Qed.

(** An endpoint that stays keeps its weight.  When an update carries an
    address set whose entry in the map is live, the endpoint made for it
    in the new list shares that very weight, whose fields the update
    does not touch.  The weight stays referenced and keeps its entry in
    the map, although the update may destroy the list whose endpoint
    held it before: what the policy has learnt about a backend survives
    a change of the address list. *)
Theorem UpdateLocked_reuses_live_weights args w l i a r :
  lt_transitive -> World_wf w ->
  UpdateArgs_addresses args = StatusOr_value l ->
  ordered_addresses l !! i = Some a ->
  map_find (addresses a) (endpoint_weight_map_ (wrr w)) = Some r ->
  r ∉ weight_unreferenced w ->
  is_Some (weights w !! r) ->
  let w' := snd (UpdateLocked args w) in
  exists new_list e,
    lists w' !! fresh (dom (lists w)) = Some new_list
    /\ endpoints new_list !! i = Some e
    /\ WrrEndpoint_weight_ e = r
    /\ connectivity_state_ e = None
    /\ weights w' !! r = weights w !! r
    /\ (r ∉ weight_unreferenced w')
    /\ EndpointWeight_referenced r w' = true
    /\ map_find (addresses a) (endpoint_weight_map_ (wrr w')) = Some r.
Proof.
  intros Ht Hwf Ha Hi Hf Hu Hr w'. subst w'.
  assert (Hsorted : pairwise_distinct (ordered_addresses l)).
  { apply StronglySorted_pairwise_distinct. unfold ordered_addresses.
    destruct (fold_ordered_insert_facts l []) as (_ & _ & _ & H4).
    apply H4; [exact Ht | constructor]. }
  set (w1 := after_config args w).
  pose proof (create_endpoints_frame (ordered_addresses l)
                (UpdateArgs_args args) [] w1) as Hframe.
  pose proof (create_endpoints_fresh (ordered_addresses l)
                (UpdateArgs_args args) [] w1) as Hfresh.
  pose proof (create_endpoints_keeps_weight (ordered_addresses l)
                (UpdateArgs_args args) r [] w1 Hr) as Hkeep.
  destruct (create_endpoints_reuses (ordered_addresses l)
              (UpdateArgs_args args) Ht Hsorted [] w1 i a r Hi Hf Hu Hr)
    as ((e & He & Hw) & Hm).
  destruct (create_endpoints (ordered_addresses l) (UpdateArgs_args args)
              [] w1) as [[es errs] w2] eqn:Ece.
  pose proof (UpdateLocked_value args w l es errs w2 Ha Ece) as Eu.
  cbv zeta in Eu. rewrite Eu. clear Eu.
  destruct Hframe as (F1 & F2 & F3 & F4 & F5).
  destruct Hfresh as (_ & _ & N3).
  simpl in F1, F2, F3, N3, Hkeep, He, Hm.
  assert (Hstate : connectivity_state_ e = None)
    by (apply (Forall_lookup_1 _ _ _ _ F5 He)).
  rewrite F1.
  set (new_ref := fresh (dom (lists w))).
  set (new_list := mkWrrEndpointList es (UpdateArgs_resolution_note args)
                     0 0 0 OkStatus).
  assert (Ez : (EndpointList_size new_list =? 0) = false).
  { apply Z.eqb_neq. unfold EndpointList_size. simpl.
    destruct es; [discriminate | discriminate]. }
  rewrite Ez. cbn [snd].
  set (w2' := put_list new_ref new_list w2).
  set (pend := latest_pending_endpoint_list_ (wrr w2)).
  set (w3 := set_wrr (set_latest_pending_endpoint_list_ (Some new_ref))
               (destroy_list pend w2')).
  exists new_list, e.
  assert (Hl3 : lists w3 !! new_ref = Some new_list).
  { change (lists w3) with (lists (destroy_list pend w2')).
    rewrite lists_destroy_list. unfold w2', put_list. simpl.
    destruct pend as [p |] eqn:Ep; [| apply lookup_insert_eq].
    assert (Hp : p <> new_ref).
    { apply live_not_fresh, (pending_live w Hwf).
      unfold pend in Ep. now rewrite F3 in Ep. }
    rewrite lookup_delete_ne by exact Hp. apply lookup_insert_eq. }
  assert (Href3 : EndpointWeight_referenced r w3 = true).
  { apply EndpointWeight_referenced_true. right.
    exists new_ref, new_list, e. split; [exact Hl3 |].
    split; [| exact Hw]. now apply list_elem_of_lookup_2 with i. }
  assert (Hu2 : r ∉ weight_unreferenced w2') by (simpl; now rewrite N3).
  destruct (destroy_list_keeps_referenced pend w2' (addresses a) r
              Href3 Hu2 Hm) as [Hu3 Hm3].
  assert (Hw3 : weights w3 !! r = weights w !! r).
  { change (weights w3) with (weights (destroy_list pend w2')).
    rewrite weights_destroy_list. exact Hkeep. }
  assert (Hc3 : endpoint_list_ (wrr w3) = endpoint_list_ (wrr w)).
  { destruct (policy_destroy_list pend w2') as (_ & E & _).
    exact (eq_trans E F2). }
  rewrite Hc3.
  destruct (endpoint_list_ (wrr w)) as [act |] eqn:Eact.
  - repeat (split; [assumption |]). exact Hm3.
  - assert (Ep : promote_pending w3
                 = set_wrr (fun p => set_latest_pending_endpoint_list_ None
                                       (set_endpoint_list_ (Some new_ref) p))
                     w3).
    { unfold promote_pending. rewrite Hc3. reflexivity. }
    rewrite Ep.
    repeat (split; [assumption |]). exact Hm3.
Qed.
End WeightReuse.

Lemma counting_world_started_wf : World_wf counting_world_started.
Proof.
  split.
  - intros r H. vm_compute in H. injection H as <-. vm_compute. eauto.
  - intros r H. vm_compute in H. discriminate.
  - intros r H. vm_compute in H. discriminate.
Qed.

Lemma UpdateLocked_reuses_live_weights_witness :
  exists new_list e,
    lists (snd (@UpdateLocked counting_collaborators counting_second_args
                  counting_world_started)) !! 1%nat
    = Some new_list
    /\ endpoints new_list !! 0%nat = Some e
    /\ WrrEndpoint_weight_ e = 0%nat
    /\ @map_find counting_collaborators ["c"]
         (endpoint_weight_map_
            (wrr (snd (@UpdateLocked counting_collaborators
                         counting_second_args counting_world_started))))
       = Some 0%nat.
Proof.
  destruct (@UpdateLocked_reuses_live_weights counting_collaborators
              counting_second_args counting_world_started
              [mkEndpointAddresses ["d"; "e"; "f"] 0%nat;
               mkEndpointAddresses ["c"] 0%nat]
              0%nat (mkEndpointAddresses ["c"] 0%nat) 0%nat)
    as (new_list & e & H1 & H2 & H3 & _ & _ & _ & _ & H8).
  - apply counting_lt_transitive.
  - apply counting_world_started_wf.
  - reflexivity.
  - vm_compute. reflexivity.
  - vm_compute. reflexivity.
  - rewrite counting_world_started_unreferenced. apply not_elem_of_empty.
  - vm_compute. eauto.
  - exists new_list, e. split; [exact H1 |]. split; [exact H2 |].
    split; [exact H3 | exact H8].
Defined.

(** An endpoint that goes takes its weight with it.  In the sample world
    where list 1, over a and c, is pending, an update to the endpoint d
    destroys list 1: the weight of c, which nothing else holds, loses its
    last reference and its entry in the map, while the weight of a, which
    list 0 holds as well, keeps its entry.  When a later update brings c
    back, c gets a new weight. *)
Lemma UpdateLocked_releases_replaced_pending_list :
  let update name w :=
    snd (@UpdateLocked sample_collaborators
           {| UpdateArgs_addresses :=
                StatusOr_value [mkEndpointAddresses [name] 0%nat];
              UpdateArgs_config := Some sample_config;
              UpdateArgs_resolution_note := "";
              UpdateArgs_args := 0%nat |} w) in
  let w1 := update "d" sample_world_pending in
  let w2 := update "c" w1 in
  endpoint_weight_map_ (wrr sample_world_pending)
  = [(["a"], 0%nat); (["b"], 1%nat); (["c"], 2%nat)]
  /\ elements (weight_unreferenced sample_world_pending) = []
  /\ endpoint_weight_map_ (wrr w1)
     = [(["a"], 0%nat); (["b"], 1%nat); (["d"], 3%nat)]
  /\ elements (weight_unreferenced w1) = [2%nat]
  /\ endpoint_weight_map_ (wrr w2)
     = [(["a"], 0%nat); (["b"], 1%nat); (["c"], 4%nat)]
  /\ elements (weight_unreferenced w2) = [2%nat; 3%nat].
Proof. vm_compute. repeat split. Qed.

(** ** From a pick to the report of the call *)

Section PickAndReport.
Context {C : Collaborators}.

(** A pick goes to the child picker of the endpoint at the index that
    [PickIndex] returns.  With out-of-band reports enabled the result of
    the child is returned as it is.  Otherwise a complete pick comes back
    with the child's tracker wrapped in a tracker that holds the weight
    of that endpoint and the penalty of the configuration, and any other
    result is returned as it is.  When the wrapping tracker is finished,
    the weight of that endpoint is the one that [MaybeUpdateWeight] is
    called on, with the data of the call, and no other weight changes. *)
Theorem Pick_tracks_the_picked_endpoint fuel args p w result p' w' c :
  Picker_config_ p = Some c ->
  Pick fuel args p w = Done (result, p', w') ->
  exists index info child,
    PickIndex fuel p w = Done (index, p', w')
    /\ index < Z.of_nat (length (endpoints_ p))
    /\ endpoints_ p !! Z.to_nat index = Some info
    /\ info_picker info = Some child
    /\ (enable_oob_load_report c = true ->
        result = SubchannelPicker_Pick child args)
    /\ (enable_oob_load_report c = false ->
        match SubchannelPicker_Pick child args with
        | Complete subchannel tracker =>
            result
            = Complete subchannel
                (Some (SubchannelCallTracker (info_weight info)
                         (error_utilization_penalty c) tracker))
        | other => result = other
        end)
    /\ forall now d w2 w3,
         SubchannelCallTracker_Finish now (info_weight info)
           (error_utilization_penalty c) (Some d) w2 = Done w3 ->
         exists ew,
           weights w2 !! info_weight info = Some ew
           /\ weights w3
              = <[info_weight info :=
                    MaybeUpdateWeight now (qps d) (eps d) (utilization_of d)
                      (error_utilization_penalty c) ew]> (weights w2)
           /\ lists w3 = lists w2 /\ effects w3 = effects w2.
Proof.
  intros Hc. unfold Pick.
  destruct (PickIndex fuel p w) as [[[index p1] w1] |] eqn:E;
    [| discriminate].
  simpl. pose proof (PickIndex_keeps_endpoints _ _ _ _ _ _ E) as Hkeep.
  assert (Hc1 : Picker_config_ p1 = Some c).
  { unfold PickIndex in E. destruct (scheduler_ p).
    - destruct (Picker_wrr_ p); [| discriminate]. simpl in E.
      destruct (StaticStrideScheduler_Pick _ _ _) as [[i st] |];
        [| discriminate].
      simpl in E. now injection E as _ <- _.
    - destruct (_ =? 0); [discriminate |]. simpl in E.
      now injection E as _ <- _. }
  unfold Pick_at. rewrite Hkeep, Hc1.
  destruct (index <? Z.of_nat (length (endpoints_ p))) eqn:Hlt;
    [| discriminate].
  simpl. apply Z.ltb_lt in Hlt.
  destruct (endpoints_ p !! Z.to_nat index) as [info |] eqn:Hi;
    [| discriminate].
  simpl. destruct (info_picker info) as [child |] eqn:Hp; [| discriminate].
  simpl. intros H. exists index, info, child.
  assert (Hfinish : forall now d w2 w3,
             SubchannelCallTracker_Finish now (info_weight info)
               (error_utilization_penalty c) (Some d) w2 = Done w3 ->
             exists ew,
               weights w2 !! info_weight info = Some ew
               /\ weights w3
                  = <[info_weight info :=
                        MaybeUpdateWeight now (qps d) (eps d)
                          (utilization_of d) (error_utilization_penalty c)
                          ew]> (weights w2)
               /\ lists w3 = lists w2 /\ effects w3 = effects w2).
  { intros now d w2 w3. unfold SubchannelCallTracker_Finish, call_weight.
    destruct (weights w2 !! info_weight info) as [ew |]; [| discriminate].
    simpl. intros [= <-]. exists ew. repeat split. }
  destruct (enable_oob_load_report c); simpl in H.
  - injection H as <- <- <-.
    repeat (split; [first [reflexivity | assumption | discriminate] |]).
    exact Hfinish.
  - destruct (SubchannelPicker_Pick child args) eqn:Er;
      injection H as <- <- <-;
      (split; [reflexivity |]); (split; [exact Hlt |]);
      (split; [exact Hi |]); (split; [exact Hp |]);
      (split; [discriminate |]);
      (split; [intros _; reflexivity |]);
      exact Hfinish.
Qed.
End PickAndReport.

Lemma Pick_tracks_the_picked_endpoint_witness :
  exists p' w',
    @Pick sample_collaborators 1 0%nat sample_picker sample_world_ready
    = Done (Complete 12%nat
              (Some (SubchannelCallTracker 1%nat (float_of_Z 1) None)),
            p', w').
Proof.
  destruct (@Pick sample_collaborators 1 0%nat sample_picker
              sample_world_ready) as [[[result p'] w'] |] eqn:E;
    [| vm_compute in E; discriminate].
  destruct (@Pick_tracks_the_picked_endpoint sample_collaborators 1 0%nat
              sample_picker sample_world_ready result p' w' sample_config
              eq_refl E)
    as (index & info & child & H1 & _ & H3 & H4 & _ & H6 & _).
  vm_compute in H1. injection H1 as <- <- <-.
  vm_compute in H3. injection H3 as <-.
  vm_compute in H4. injection H4 as <-.
  specialize (H6 eq_refl). simpl in H6. subst result.
  eexists _, _. reflexivity.
Defined.

(** ** The aggregated state, read off the endpoints *)

Lemma some_connecting_iff l :
  counters_consistent l ->
  (0 < num_connecting_ l <-> some_endpoint_connecting l).
Proof.
  intros Hc. rewrite (connecting_counted l Hc).
  unfold count_in, some_endpoint_connecting.
  rewrite <- Nat2Z.inj_0, <- Nat2Z.inj_lt, filter_length_pos_iff.
  split; intros H; (eapply Exists_impl; [exact H |]); intros e;
    unfold endpoint_in, is_connecting_or_idle;
    destruct (connectivity_state_ e) as [[] |]; simpl;
    intuition (congruence || discriminate).
Qed.

Section AggregationOnEndpoints.
Context {C : Collaborators}.

(** An aggregation over the active list (current, or swapped in by this
    very call; [w0] is the world in which it is current), whose counters
    count its endpoints, is decided by the states of the endpoints.  If
    some endpoint is READY, READY is published with a new picker.
    Otherwise, if some endpoint is CONNECTING or IDLE, CONNECTING is
    published with a queueing picker.  Otherwise, if every endpoint is
    in TRANSIENT_FAILURE, the failure is reported.  Otherwise (no
    endpoint READY, CONNECTING or IDLE, and some endpoint that has not
    delivered a state or is not in TRANSIENT_FAILURE) nothing is
    published, and nothing changes but for the swap. *)
Theorem aggregation_reads_endpoint_states
    random now status this self w w0 :
  aggregates_as_active this w w0 ->
  lists w0 !! this = Some self ->
  counters_consistent self ->
  let run :=
    MaybeUpdateAggregatedConnectivityStateLocked random now this status
      w in
  (some_endpoint_ready self ->
     run = ('(picker, w1) ← Picker_new random now this w0;
            Done (emit (UpdateState GRPC_CHANNEL_READY OkStatus
                          (WrrPicker picker)) w1)))
  /\ (no_endpoint_ready self -> some_endpoint_connecting self ->
      run = Done (emit (UpdateState GRPC_CHANNEL_CONNECTING OkStatus
                          QueuePicker) w0))
  /\ (no_endpoint_ready self -> ~ some_endpoint_connecting self ->
      all_endpoints_in_transient_failure self ->
      run = Done (emit (ReportTransientFailure this
                          (failure_to_report status self))
                    (put_list this
                       (set_last_failure_ (failure_to_report status self)
                          self) w0)))
  /\ (no_endpoint_ready self -> ~ some_endpoint_connecting self ->
      ~ all_endpoints_in_transient_failure self ->
      run = Done w0).
Proof.
  intros Hact Hl Hc run. subst run.
  destruct (aggregates_as_active_run random now status this self w w0
              Hact Hl) as (-> & Hcur & _).
  unfold set_state_if_current.
  rewrite Hl, Hcur, ptr_eqb_refl. simpl.
  pose proof (no_ready_iff self Hc) as Hnr.
  pose proof (some_ready_iff self Hc) as Hsr.
  pose proof (some_connecting_iff self Hc) as Hsc.
  pose proof (all_transient_failure_iff self Hc) as Htf.
  destruct (num_ready_ self >? 0) eqn:Er;
    [apply Z.gtb_lt in Er
    | rewrite Z.gtb_ltb in Er; apply Z.ltb_ge in Er].
  { split; [reflexivity |].
    repeat split; intros Hno; apply Hnr in Hno; lia. }
  split; [intros H; apply Hsr in H; lia |].
  destruct (num_connecting_ self >? 0) eqn:Ec;
    [apply Z.gtb_lt in Ec
    | rewrite Z.gtb_ltb in Ec; apply Z.ltb_ge in Ec].
  { split; [reflexivity |].
    split; intros _ Hno; exfalso; apply Hno, Hsc; exact Ec. }
  split; [intros _ H; apply Hsc in H; lia |].
  destruct (num_transient_failure_ self =? EndpointList_size self) eqn:Et;
    [apply Z.eqb_eq in Et | apply Z.eqb_neq in Et].
  - split; [reflexivity |]. intros _ _ Hno. exfalso. apply Hno, Htf, Et.
  - split; [| reflexivity]. intros _ _ H. apply Htf in H. contradiction.
Qed.
End AggregationOnEndpoints.

Lemma aggregation_reads_endpoint_states_witness :
  (exists picker w1,
      @MaybeUpdateAggregatedConnectivityStateLocked sample_collaborators 0
        (FromMillisecondsAfterProcessEpoch 500) 0%nat OkStatus
        sample_world_one_ready
      = Done (emit (UpdateState GRPC_CHANNEL_READY OkStatus
                      (WrrPicker picker)) w1)
      /\ endpoints_ picker = [mkEndpointInfo (Some 11%nat) 0%nat])
  /\ @MaybeUpdateAggregatedConnectivityStateLocked sample_collaborators 0
       (FromMillisecondsAfterProcessEpoch 500) 0%nat OkStatus
       sample_world_started
     = Done sample_world_started.
Proof.
  split.
  - assert (Ha : @aggregates_as_active sample_collaborators 0%nat
                   sample_world_one_ready sample_world_one_ready).
    { left. split; [vm_compute; reflexivity |].
      split; [vm_compute; discriminate | reflexivity]. }
    assert (Hl : lists sample_world_one_ready !! 0%nat
                 = Some (the_list 0%nat sample_world_one_ready))
      by (vm_compute; reflexivity).
    assert (Hc : counters_consistent
                   (the_list 0%nat sample_world_one_ready))
      by (split; vm_compute; reflexivity).
    destruct (@aggregation_reads_endpoint_states sample_collaborators 0
                (FromMillisecondsAfterProcessEpoch 500) OkStatus 0%nat
                (the_list 0%nat sample_world_one_ready)
                sample_world_one_ready sample_world_one_ready Ha Hl Hc)
      as (H & _).
    rewrite H by (vm_compute; left; reflexivity).
    destruct (@Picker_new sample_collaborators 0
                (FromMillisecondsAfterProcessEpoch 500) 0%nat
                sample_world_one_ready) as [[picker w1] |] eqn:E;
      [| vm_compute in E; discriminate].
    exists picker, w1. split; [reflexivity |].
    apply (@Picker_new_snapshot sample_collaborators _ _ _
             (the_list 0%nat sample_world_one_ready)) in E;
      [| exact Hl].
    rewrite E. vm_compute. reflexivity.
  - assert (Ha : @aggregates_as_active sample_collaborators 0%nat
                   sample_world_started sample_world_started).
    { left. split; [vm_compute; reflexivity |].
      split; [vm_compute; discriminate | reflexivity]. }
    assert (Hl : lists sample_world_started !! 0%nat
                 = Some (the_list 0%nat sample_world_started))
      by (vm_compute; reflexivity).
    assert (Hc : counters_consistent (the_list 0%nat sample_world_started))
      by (split; vm_compute; reflexivity).
    destruct (@aggregation_reads_endpoint_states sample_collaborators 0
                (FromMillisecondsAfterProcessEpoch 500) OkStatus 0%nat
                (the_list 0%nat sample_world_started) sample_world_started
                sample_world_started Ha Hl Hc) as (_ & _ & _ & H).
    apply H.
    + repeat constructor; discriminate.
    + intros E. vm_compute in E.
      repeat match goal with
        | H : Exists _ _ |- _ => inversion H; clear H; subst
        | H : _ \/ _ |- _ => destruct H
        end; discriminate.
    + intros A. vm_compute in A. inversion A; subst. discriminate.
Defined.
